(** * GridNavigator: maze generation, graph search and animation sequencing

    A shallow embedding of [src/App.tsx]: the recursive-backtracker maze
    generator [generatePerfectMaze], the two solvers [bfs] and [dfs] with
    their helpers [getNeighbors] and [findStartEnd], and the timer-driven
    animation of [handleSolve].

    Conventions of the embedding:
    - JavaScript numbers that index the grid are integers ([Z]);
    - a [Cell[][]] is a [list (list Cell)]; indexing outside an array
      yields [undefined], and reading a property of [undefined] throws a
      [TypeError];
    - exceptions are the [Throw] branch of [Outcome]; loops that the
      embedding bounds by a fuel argument answer [OutOfFuel] when the
      bound is hit, and the theorems show that it never is;
    - [Math.random] is an oracle [rnd : nat -> nat]: the [k]-th call of
      [Math.floor(Math.random() * (i + 1))] yields [rnd k mod (i + 1)];
    - [window.setTimeout] is a list of pending timers with absolute firing
      times on a logical clock. *)

From Stdlib Require Import Ascii.
From stdpp Require Import gmap list strings pretty.

#[local] Set Warnings "-clear-no-such-hyp".
Local Open Scope Z_scope.

(** ** Data model *)

Inductive CellType :=
  | Wall | Passage | Start | End_ | Visited | Path | PathHead.

#[global] Instance CellType_eq_dec : EqDecision CellType.
Proof. solve_decision. Defined.

Record Position := mkPosition { row : Z; col : Z }.

Record Cell := mkCell { cell_row : Z; cell_col : Z; type : CellType }.

#[global] Instance Position_eq_dec : EqDecision Position.
Proof. solve_decision. Defined.

#[global] Instance Cell_eq_dec : EqDecision Cell.
Proof. solve_decision. Defined.

#[global] Instance Position_countable : Countable Position.
Proof.
  apply (inj_countable' (fun p => (row p, col p))
                        (fun rc => mkPosition rc.1 rc.2)).
  by intros [].
Defined.

(** A [Cell] is structurally a [Position] ([posKey(cell)] in the source). *)
Definition cellPos (c : Cell) : Position := mkPosition (cell_row c) (cell_col c).

(** [{ ...cell, type: t }] *)
Definition withType (c : Cell) (t : CellType) : Cell :=
  mkCell (cell_row c) (cell_col c) t.

Inductive Algorithm := Bfs | Dfs.
Inductive Speed := Slow | Normal | Fast.

Record SolveResult := mkSolveResult {
  path : option (list Position);
  visitedOrder : list Position
}.

(** [posKey = (p) => `${p.row}-${p.col}`] *)
Definition posKey (p : Position) : string :=
  pretty (row p) +:+ "-" +:+ pretty (col p).

(** ** Exceptions and bounded loops *)

Inductive Error :=
  | MissingEndpoint   (* new Error("Maze must contain start and end") *)
  | TypeError.        (* property access on undefined *)

Inductive Outcome (A : Type) :=
  | Ok (a : A)
  | Throw (e : Error)
  | OutOfFuel.
Arguments Ok {A} a.
Arguments Throw {A} e.
Arguments OutOfFuel {A}.

#[global] Instance Outcome_ret : MRet Outcome := fun A a => Ok a.
#[global] Instance Outcome_bind : MBind Outcome := fun A B f m =>
  match m with
  | Ok a => f a
  | Throw e => Throw e
  | OutOfFuel => OutOfFuel
  end.

(** Monadic left fold: a [for ... of] loop whose body may throw. *)
Fixpoint foldlM {A B : Type} (f : B -> A -> Outcome B) (b : B) (l : list A)
  : Outcome B :=
  match l with
  | [] => Ok b
  | x :: l' => b' ← f b x; foldlM f b' l'
  end.

(** ** Grid access *)

(** [grid[r][c]], [None] standing for [undefined]. *)
Definition cellAt (grid : list (list Cell)) (r c : Z) : option Cell :=
  if bool_decide (0 <= r /\ 0 <= c)
  then rowl ← grid !! Z.to_nat r; rowl !! Z.to_nat c
  else None.

(** [grid[r][c].type = t] *)
Definition setType (grid : list (list Cell)) (r c : Z) (t : CellType)
  : Outcome (list (list Cell)) :=
  match cellAt grid r c with
  | None => Throw TypeError
  | Some cell =>
      Ok (alter (fun rowl => <[Z.to_nat c := withType cell t]> rowl)
                (Z.to_nat r) grid)
  end.

(** ** Pathfinding *)

Definition deltas : list (Z * Z) := [(-1, 0); (1, 0); (0, -1); (0, 1)].

(** Body of the [for (const { dr, dc } of deltas)] loop of
    [getNeighbors]. *)
Definition neighborStep (grid : list (list Cell)) (rows cols : Z)
  (pos : Position) (res : list Position) (d : Z * Z)
  : Outcome (list Position) :=
  let '(dr, dc) := d in
  let nr := row pos + dr in
  let nc := col pos + dc in
  if bool_decide (nr < 0 \/ nr >= rows \/ nc < 0 \/ nc >= cols) then Ok res
  else match cellAt grid nr nc with
       | None => Throw TypeError              (* cell.type of undefined *)
       | Some cell =>
           if bool_decide (type cell = Wall) then Ok res
           else Ok (res ++ [mkPosition nr nc])
       end.

Definition getNeighbors (grid : list (list Cell)) (pos : Position)
  : Outcome (list Position) :=
  match grid with
  | [] => Throw TypeError                      (* grid[0].length *)
  | row0 :: _ =>
      let rows := Z.of_nat (length grid) in
      let cols := Z.of_nat (length row0) in
      foldlM (neighborStep grid rows cols pos) [] deltas
  end.

(** The two nested loops of [findStartEnd]: a later cell overwrites an
    earlier one of the same type. *)
Definition scanCell (acc : option Position * option Position) (cell : Cell)
  : option Position * option Position :=
  let start := if bool_decide (type cell = Start)
               then Some (cellPos cell) else acc.1 in
  let end_ := if bool_decide (type cell = End_)
              then Some (cellPos cell) else acc.2 in
  (start, end_).

Definition scanGrid (grid : list (list Cell))
  : option Position * option Position :=
  foldl (fun acc rowl => foldl scanCell acc rowl) (None, None) grid.

Definition findStartEnd (grid : list (list Cell))
  : Outcome (Position * Position) :=
  match scanGrid grid with
  | (Some start, Some end_) => Ok (start, end_)
  | _ => Throw MissingEndpoint
  end.

(** The mutable locals of a search.  [s_work] is [q] in [bfs] (front of
    the queue first) and [stack] in [dfs] (top of the stack first);
    [s_visited] is the set of positions whose entry of the boolean matrix
    [visited] is [true]; [s_parent] is the [Map<string, Position | null>]. *)
Record SearchState := mkSearch {
  s_work : list Position;
  s_visited : gset Position;
  s_parent : gmap string (option Position);
  s_order : list Position
}.

(** [cur.row === end.row && cur.col === end.col] *)
Definition samePos (a b : Position) : bool :=
  bool_decide (row a = row b) && bool_decide (col a = col b).

(** [visited[r]] exists only for [0 <= r < rows]. *)
Definition rowInMatrix (rows : nat) (p : Position) : bool :=
  bool_decide (0 <= row p < Z.of_nat rows).

(** Body of the inner [for] loop of [bfs]. *)
Definition bfsRelax (cur : Position) (st : SearchState) (n : Position)
  : SearchState :=
  if bool_decide (n ∈ s_visited st) then st
  else mkSearch (s_work st ++ [n])
                ({[n]} ∪ s_visited st)
                (<[posKey n := Some cur]> (s_parent st))
                (s_order st).

(** The [while (q.length > 0)] loop of [bfs]. *)
Fixpoint bfsLoop (fuel : nat) (grid : list (list Cell)) (end_ : Position)
  (st : SearchState) : Outcome SearchState :=
  match s_work st with
  | [] => Ok st
  | cur :: q =>
      match fuel with
      | O => OutOfFuel
      | S fuel' =>
          let st1 := mkSearch q (s_visited st) (s_parent st)
                              (s_order st ++ [cur]) in
          if samePos cur end_ then Ok st1
          else
            ns ← getNeighbors grid cur;
            bfsLoop fuel' grid end_ (foldl (bfsRelax cur) st1 ns)
      end
  end.

(** The [while (cur)] loop that follows parent pointers; [acc] is [path]
    before the final [reverse]. *)
Fixpoint followParents (fuel : nat) (parent : gmap string (option Position))
  (cur : option Position) (acc : list Position) : Outcome (list Position) :=
  match cur with
  | None => Ok acc
  | Some c =>
      match fuel with
      | O => OutOfFuel
      | S fuel' =>
          followParents fuel' parent
            (default None (parent !! posKey c))    (* parent.get(..) ?? null *)
            (acc ++ [c])
      end
  end.

(** Common tail of [bfs] and [dfs]. *)
Definition buildResult (end_ : Position) (st : SearchState)
  : Outcome SolveResult :=
  match s_parent st !! posKey end_ with
  | None => Ok (mkSolveResult None (s_order st))
  | Some _ =>
      acc ← followParents (S (size (s_parent st))) (s_parent st) (Some end_) [];
      Ok (mkSolveResult (Some (reverse acc)) (s_order st))
  end.

Definition gridCols (grid : list (list Cell)) : nat :=
  match grid with
  | [] => 0
  | row0 :: _ => length row0
  end.

Definition bfs (grid : list (list Cell)) : Outcome SolveResult :=
  '(start, end_) ← findStartEnd grid;
  let rows := length grid in
  let cols := gridCols grid in
  if negb (rowInMatrix rows start) then Throw TypeError
  else
    let st0 := mkSearch [start] {[start]} {[posKey start := None]} [] in
    st ← bfsLoop (S (rows * cols)) grid end_ st0;
    buildResult end_ st.

(** Body of the inner [for] loop of [dfs]. *)
Definition dfsPush (cur : Position) (st : SearchState) (n : Position)
  : SearchState :=
  if bool_decide (n ∈ s_visited st) then st
  else mkSearch (n :: s_work st)
                (s_visited st)
                (match s_parent st !! posKey n with
                 | Some _ => s_parent st
                 | None => <[posKey n := Some cur]> (s_parent st)
                 end)
                (s_order st).

(** One iteration of the [while (stack.length > 0)] loop of [dfs] on a
    popped [cur]; [inl] is [break], [inr] is the state at the next test. *)
Definition dfsVisit (grid : list (list Cell)) (end_ : Position)
  (cur : Position) (st : SearchState) : Outcome (SearchState + SearchState) :=
  if negb (rowInMatrix (length grid) cur) then Throw TypeError
  else if bool_decide (cur ∈ s_visited st) then Ok (inr st)
  else
    let st1 := mkSearch (s_work st) ({[cur]} ∪ s_visited st) (s_parent st)
                        (s_order st ++ [cur]) in
    if samePos cur end_ then Ok (inl st1)
    else
      neighbors ← getNeighbors grid cur;
      Ok (inr (foldl (dfsPush cur) st1 (reverse neighbors))).

Fixpoint dfsLoop (fuel : nat) (grid : list (list Cell)) (end_ : Position)
  (st : SearchState) : Outcome SearchState :=
  match s_work st with
  | [] => Ok st
  | cur :: stack =>
      match fuel with
      | O => OutOfFuel
      | S fuel' =>
          r ← dfsVisit grid end_ cur
                (mkSearch stack (s_visited st) (s_parent st) (s_order st));
          match r with
          | inl st' => Ok st'
          | inr st' => dfsLoop fuel' grid end_ st'
          end
      end
  end.

Definition dfs (grid : list (list Cell)) : Outcome SolveResult :=
  '(start, end_) ← findStartEnd grid;
  let rows := length grid in
  let cols := gridCols grid in
  let st0 := mkSearch [start] ∅ {[posKey start := None]} [] in
  st ← dfsLoop (4 * rows * cols + 2) grid end_ st0;
  buildResult end_ st.

(** ** Maze generation (recursive backtracker) *)

(** The mutable state shared by the calls of [carveFrom]: the grid, the
    logical rooms whose entry of [visited] is [true], and the number of
    calls made to [Math.random] so far. *)
Record GenState := mkGen {
  g_grid : list (list Cell);
  g_visited : gset (Z * Z);
  g_calls : nat
}.

(** The initial grid: every cell a wall, carrying its own coordinates. *)
Definition wallGrid (rows cols : Z) : list (list Cell) :=
  (fun r => (fun c => mkCell r c Wall) <$> seqZ 0 cols) <$> seqZ 0 rows.

(** [[dirs[i], dirs[j]] = [dirs[j], dirs[i]]] *)
Definition swap {A : Type} (l : list A) (i j : nat) : list A :=
  match l !! i, l !! j with
  | Some x, Some y => <[j := x]> (<[i := y]> l)
  | _, _ => l
  end.

(** [for (let i = dirs.length - 1; i > 0; i--)], entered at index [i] with
    [k] calls of [Math.random] already made. *)
Fixpoint shuffleFrom (rnd : nat -> nat) (i : nat) (k : nat)
  (dirs : list (Z * Z)) : list (Z * Z) * nat :=
  match i with
  | O => (dirs, k)
  | S i' =>
      let j := (rnd k mod (i + 1))%nat in
      shuffleFrom rnd i' (S k) (swap dirs i j)
  end.

Definition carveDirs : list (Z * Z) := [(0, 1); (0, -1); (1, 0); (-1, 0)].

Section Carve.
Variable rnd : nat -> nat.
Variables clampedRows clampedCols : Z.

Definition inBounds (mr mc : Z) : bool :=
  bool_decide (mr >= 0) && bool_decide (mr < clampedRows) &&
  bool_decide (mc >= 0) && bool_decide (mc < clampedCols).

(** Body of the [for (const [dr, dc] of dirs)] loop of [carveFrom] at
    room [(mr, mc)]; [rec] is the recursive call. *)
Definition carveStep (rec : Z -> Z -> GenState -> Outcome GenState)
  (mr mc : Z) (st : GenState) (d : Z * Z) : Outcome GenState :=
  let '(dr, dc) := d in
  let nmr := mr + dr in
  let nmc := mc + dc in
  if negb (inBounds nmr nmc) || bool_decide ((nmr, nmc) ∈ g_visited st)
  then Ok st
  else
    let wallR := (2 * mr + 1) + dr in
    let wallC := (2 * mc + 1) + dc in
    grid ← setType (g_grid st) wallR wallC Passage;
    rec nmr nmc (mkGen grid (g_visited st) (g_calls st)).

Fixpoint carveFrom (fuel : nat) (mr mc : Z) (st : GenState)
  : Outcome GenState :=
  match fuel with
  | O => OutOfFuel
  | S fuel' =>
      let visited := {[(mr, mc)]} ∪ g_visited st in
      let r := 2 * mr + 1 in
      let c := 2 * mc + 1 in
      grid ← setType (g_grid st) r c Passage;
      let '(dirs, calls) :=
        shuffleFrom rnd (length carveDirs - 1) (g_calls st) carveDirs in
      foldlM (carveStep (carveFrom fuel') mr mc)
             (mkGen grid visited calls) dirs
  end.
End Carve.

Definition clamp (n : Z) : Z := Z.min 50 (Z.max 5 n).

Definition generatePerfectMaze (rnd : nat -> nat) (mazeRows mazeCols : Z)
  : Outcome (list (list Cell)) :=
  let clampedRows := clamp mazeRows in
  let clampedCols := clamp mazeCols in
  let rows := 2 * clampedRows + 1 in
  let cols := 2 * clampedCols + 1 in
  let grid := wallGrid rows cols in
  st ← carveFrom rnd clampedRows clampedCols
         (Z.to_nat (clampedRows * clampedCols)) 0 0 (mkGen grid ∅ 0);
  grid ← setType (g_grid st) 1 0 Start;
  setType grid (rows - 2) (cols - 1) End_.

(** ** Animation *)

Definition mapGrid (f : Cell -> Cell) (grid : list (list Cell))
  : list (list Cell) :=
  (fun rowl : list Cell => f <$> rowl) <$> grid.

Definition isMark (t : CellType) : bool :=
  bool_decide (t = Visited) || bool_decide (t = Path) ||
  bool_decide (t = PathHead).

(** Cell update of [clearPath]. *)
Definition clearCell (cell : Cell) : Cell :=
  if isMark (type cell) then withType cell Passage else cell.

(** Cell update of a visited-playback step. *)
Definition visitedCell (visitedSet : gset string) (cell : Cell) : Cell :=
  let key := posKey (cellPos cell) in
  if bool_decide (type cell ≠ Start) && bool_decide (type cell ≠ End_) &&
     bool_decide (key ∈ visitedSet)
  then
    if bool_decide (type cell = Path) || bool_decide (type cell = PathHead)
    then cell
    else withType cell Visited
  else cell.

(** Cell update of the path-playback step with head index [i]. *)
Definition pathCell (keyToIndex : gmap string nat) (i : nat) (cell : Cell)
  : Cell :=
  if bool_decide (type cell = Start) || bool_decide (type cell = End_)
  then cell
  else
    let key := posKey (cellPos cell) in
    match keyToIndex !! key with
    | None => cell
    | Some idx =>
        if bool_decide (idx = i) then withType cell PathHead
        else if bool_decide (idx < i)%nat then withType cell Path
        else cell
    end.

(** Cell update of the finalize step. *)
Definition finalizeCell (cell : Cell) : Cell :=
  if bool_decide (type cell = PathHead) then withType cell Path else cell.

(** [pathKeys.forEach((k, idx) => keyToIndex.set(k, idx))] *)
Definition buildKeyToIndex (pathKeys : list string) : gmap string nat :=
  foldl (fun m '(idx, k) => <[k := idx]> m) ∅ (imap pair pathKeys).

(** The closures handed to [setTimeout], with what they capture; the
    last one is [() => playTone(880, 0.18, "triangle", 0.05)]. *)
Inductive Callback :=
  | VisitedTick (pos : Position) (i : nat) (len : nat)
  | PathTick (keyToIndex : gmap string nat) (i : nat) (len : nat)
             (baseDelay : Z) (algorithm : Algorithm)
  | FinalizeTick (algorithm : Algorithm)
  | ToneTick.

Record Timer := mkTimer { t_id : nat; t_at : Z; t_cb : Callback }.

(** The component state of [App] that the core touches, together with the
    host environment: the pending timers (in creation order), the logical
    clock, the next timer id, and the [visitedSet] shared by the
    visited-playback closures of the current solve. *)
Record App := mkApp {
  grid : list (list Cell);
  algorithm : Algorithm;
  speed : Speed;
  status : string;
  pathLength : option nat;
  visitedCount : option nat;
  isAnimating : bool;
  timeoutsRef : list nat;
  timers : list Timer;
  clock : Z;
  nextId : nat;
  visitedSet : gset string
}.

Definition setGrid (f : list (list Cell) -> list (list Cell)) (a : App) : App :=
  mkApp (f (grid a)) (algorithm a) (speed a) (status a) (pathLength a)
        (visitedCount a) (isAnimating a) (timeoutsRef a) (timers a) (clock a)
        (nextId a) (visitedSet a).

Definition setStatus (s : string) (a : App) : App :=
  mkApp (grid a) (algorithm a) (speed a) s (pathLength a)
        (visitedCount a) (isAnimating a) (timeoutsRef a) (timers a) (clock a)
        (nextId a) (visitedSet a).

Definition setPathLength (n : option nat) (a : App) : App :=
  mkApp (grid a) (algorithm a) (speed a) (status a) n
        (visitedCount a) (isAnimating a) (timeoutsRef a) (timers a) (clock a)
        (nextId a) (visitedSet a).

Definition setVisitedCount (n : option nat) (a : App) : App :=
  mkApp (grid a) (algorithm a) (speed a) (status a) (pathLength a)
        n (isAnimating a) (timeoutsRef a) (timers a) (clock a)
        (nextId a) (visitedSet a).

Definition setIsAnimating (b : bool) (a : App) : App :=
  mkApp (grid a) (algorithm a) (speed a) (status a) (pathLength a)
        (visitedCount a) b (timeoutsRef a) (timers a) (clock a)
        (nextId a) (visitedSet a).

Definition setVisitedSet (s : gset string) (a : App) : App :=
  mkApp (grid a) (algorithm a) (speed a) (status a) (pathLength a)
        (visitedCount a) (isAnimating a) (timeoutsRef a) (timers a) (clock a)
        (nextId a) s.

(** [window.setTimeout(cb, delay)]; [track] says whether the caller pushes
    the returned id onto [timeoutsRef.current]. *)
Definition setTimeout (track : bool) (cb : Callback) (delay : Z) (a : App)
  : App :=
  mkApp (grid a) (algorithm a) (speed a) (status a) (pathLength a)
        (visitedCount a) (isAnimating a)
        (if track then timeoutsRef a ++ [nextId a] else timeoutsRef a)
        (timers a ++ [mkTimer (nextId a) (clock a + delay) cb])
        (clock a) (S (nextId a)) (visitedSet a).

Definition clearAnimations (a : App) : App :=
  mkApp (grid a) (algorithm a) (speed a) (status a) (pathLength a)
        (visitedCount a) (isAnimating a) []
        (filter (fun t => t_id t ∉ timeoutsRef a) (timers a))
        (clock a) (nextId a) (visitedSet a).

Definition clearPath (a : App) : App :=
  if isAnimating a then a
  else
    setVisitedCount None
      (setPathLength None
         (setStatus "Cleared path"
            (setGrid (mapGrid clearCell) (clearAnimations a)))).

Definition baseDelayOf (s : Speed) : Z :=
  match s with Slow => 40 | Fast => 5 | Normal => 20 end.

Definition algorithmName (alg : Algorithm) : string :=
  match alg with Bfs => "BFS" | Dfs => "DFS" end.

(** [visitedOrder.forEach((pos, i) => ... setTimeout(.., baseDelay * i))] *)
Definition scheduleVisited (baseDelay : Z) (visitedOrder : list Position)
  (a : App) : App :=
  foldl (fun a '(i, pos) =>
           setTimeout true (VisitedTick pos i (length visitedOrder))
                      (baseDelay * Z.of_nat i) a)
        a (imap pair visitedOrder).

(** [path.forEach((pos, i) => ... setTimeout(.., baseDelay *
    visitedOrder.length + baseDelay * i))] *)
Definition schedulePath (baseDelay : Z) (alg : Algorithm)
  (keyToIndex : gmap string nat) (nvisited : nat) (path : list Position)
  (a : App) : App :=
  foldl (fun a '(i, pos) =>
           setTimeout true
             (PathTick keyToIndex i (length path) baseDelay alg)
             (baseDelay * Z.of_nat nvisited + baseDelay * Z.of_nat i) a)
        a (imap pair path).

(** The part of [handleSolve] that follows the [if (!path)] test. *)
Definition startAnimation (path visitedOrder : list Position) (a : App) : App :=
  let a := setIsAnimating true (setPathLength (Some (length path)) a) in
  let baseDelay := baseDelayOf (speed a) in
  let a := setVisitedSet ∅ a in
  let a := scheduleVisited baseDelay visitedOrder a in
  let keyToIndex := buildKeyToIndex (map posKey path) in
  schedulePath baseDelay (algorithm a) keyToIndex (length visitedOrder) path a.

(** [algorithm === "bfs" ? bfs : dfs] *)
Definition solverOf (alg : Algorithm) : list (list Cell) -> Outcome SolveResult :=
  match alg with Bfs => bfs | Dfs => dfs end.

(** [handleSolve]; the second component is [Ok ()] on a normal return and
    the exception of the solver otherwise.  The solver runs on a copy of
    the grid of the current render. *)
Definition handleSolve (a : App) : App * Outcome unit :=
  if isAnimating a then (a, Ok ())
  else
    let snapshot := mapGrid (fun c => c) (grid a) in
    let a := clearAnimations a in
    let a := clearPath a in
    let a := setStatus "Solving maze..." a in
    let solver := solverOf (algorithm a) in
    match solver snapshot with
    | Throw e => (a, Throw e)
    | OutOfFuel => (a, OutOfFuel)
    | Ok res =>
        let a := setVisitedCount (Some (length (visitedOrder res))) a in
        match path res with
        | None => (setStatus "No path found" a, Ok ())
        | Some p => (startAnimation p (visitedOrder res) a, Ok ())
        end
    end.

(** [playSolveDone]: a tone now and a second one 120 ms later.  A tone
    ([playTone]) touches the audio context only, which is no part of
    [App]; what is left of [playSolveDone] is the timer of the second
    tone, whose id is not kept. *)
Definition playSolveDone (a : App) : App := setTimeout false ToneTick 120 a.

(** What a timer does when it fires. *)
Definition runCallback (cb : Callback) (a : App) : App :=
  match cb with
  | VisitedTick pos i len =>
      let a := setVisitedSet ({[posKey pos]} ∪ visitedSet a) a in
      let a := setGrid (mapGrid (visitedCell (visitedSet a))) a in
      if bool_decide (i = len - 1)%nat
      then setStatus "Drawing shortest path..." a else a
  | PathTick keyToIndex i len baseDelay alg =>
      let a := setGrid (mapGrid (pathCell keyToIndex i)) a in
      if bool_decide (i = len - 1)%nat
      then setTimeout false (FinalizeTick alg) (baseDelay * 2) a else a
  | FinalizeTick alg =>
      let a := setGrid (mapGrid finalizeCell) a in
      let a := setIsAnimating false a in
      let a := setStatus ("Solved using " +:+ algorithmName alg) a in
      playSolveDone a
  | ToneTick => a
  end.

(** The host's timer queue: the pending timer with the least firing time
    fires next, the earliest created one among equals. *)
Fixpoint earliest (best : Timer) (ts : list Timer) : Timer :=
  match ts with
  | [] => best
  | t :: ts' => earliest (if bool_decide (t_at t < t_at best) then t else best) ts'
  end.

Definition advance (t : Timer) (a : App) : App :=
  mkApp (grid a) (algorithm a) (speed a) (status a) (pathLength a)
        (visitedCount a) (isAnimating a) (timeoutsRef a)
        (filter (fun t' => t_id t' ≠ t_id t) (timers a))
        (Z.max (clock a) (t_at t)) (nextId a) (visitedSet a).

(** One turn of the event loop: [None] when no timer is pending. *)
Definition fireNext (a : App) : option (Timer * App) :=
  match timers a with
  | [] => None
  | t0 :: ts =>
      let t := earliest t0 ts in
      Some (t, runCallback (t_cb t) (advance t a))
  end.

(** ** Vocabulary of the specification *)

Definition typeAt (grid : list (list Cell)) (r c : Z) : option CellType :=
  type <$> cellAt grid r c.

(** Number of cells of a given type. *)
Definition countType (t : CellType) (grid : list (list Cell)) : nat :=
  length (filter (fun cell => type cell = t) (concat grid)).

(** A grid in the sense of the data model: rectangular, every cell
    carrying its own coordinates. *)
Fixpoint rowOk (r c : Z) (rowl : list Cell) : bool :=
  match rowl with
  | [] => true
  | cell :: rest =>
      bool_decide (cell_row cell = r) && bool_decide (cell_col cell = c) &&
      rowOk r (c + 1) rest
  end.

Fixpoint rowsOk (cols : nat) (r : Z) (grid : list (list Cell)) : bool :=
  match grid with
  | [] => true
  | rowl :: rest =>
      bool_decide (length rowl = cols) && rowOk r 0 rowl &&
      rowsOk cols (r + 1) rest
  end.

Definition wfGrid (grid : list (list Cell)) : bool :=
  rowsOk (gridCols grid) 0 grid.

(** A position that lies in the grid and is not a wall. *)
Definition passable (grid : list (list Cell)) (p : Position) : bool :=
  match cellAt grid (row p) (col p) with
  | Some cell => bool_decide (type cell ≠ Wall)
  | None => false
  end.

(** Grid adjacency: Manhattan distance 1. *)
Definition adjacent (p q : Position) : bool :=
  bool_decide (Z.abs (row p - row q) + Z.abs (col p - col q) = 1).

(** A sequence of non-wall positions, each adjacent to the next. *)
Fixpoint isWalk (grid : list (list Cell)) (l : list Position) : bool :=
  match l with
  | [] => true
  | p :: l' =>
      passable grid p &&
      match l' with [] => true | q :: _ => adjacent p q end &&
      isWalk grid l'
  end.

Definition connects (grid : list (list Cell)) (s t : Position)
  (l : list Position) : bool :=
  isWalk grid l && bool_decide (head l = Some s) &&
  bool_decide (last l = Some t).

Definition reachable (grid : list (list Cell)) (s t : Position) : Prop :=
  exists l, connects grid s t l = true.

(** The four positions around [p], in the enumeration order of
    [getNeighbors]: up, down, left, right. *)
Definition around (p : Position) : list Position :=
  (fun d : Z * Z => mkPosition (row p + d.1) (col p + d.2)) <$> deltas.

(** The pairs [(r, c)] with [0 <= r < n] and [0 <= c < m], row by row. *)
Definition gridPoints (n m : Z) : list (Z * Z) :=
  r ← seqZ 0 n; c ← seqZ 0 m; [(r, c)].

(** Positions of all cells of a grid. *)
Definition positionsOf (grid : list (list Cell)) : list Position :=
  cellPos <$> concat grid.

(** *** Rooms and the room-adjacency graph of a generated maze *)

Section Rooms.
Variables R C : Z.

(** Logical room [(mr, mc)] sits at grid position
    [(2 * mr + 1, 2 * mc + 1)]. *)
Definition isRoom (m : Z * Z) : Prop :=
  0 <= m.1 < R /\ 0 <= m.2 < C.

Definition latticeAdj (a b : Z * Z) : Prop :=
  Z.abs (a.1 - b.1) + Z.abs (a.2 - b.2) = 1.

(** Grid position of the cell between two neighbouring rooms. *)
Definition wallBetween (a b : Z * Z) : Z * Z :=
  (a.1 + b.1 + 1, a.2 + b.2 + 1).

(** Two rooms are adjacent iff the wall cell between them is a passage. *)
Definition roomAdj (grid : list (list Cell)) (a b : Z * Z) : Prop :=
  isRoom a /\ isRoom b /\ latticeAdj a b /\
  typeAt grid (wallBetween a b).1 (wallBetween a b).2 = Some Passage.

(** Grid positions that separate two rooms: strictly inside the border,
    one coordinate odd and the other even. *)
Definition isInterRoomWall (w : Z * Z) : bool :=
  bool_decide (0 < w.1 < 2 * R) && bool_decide (0 < w.2 < 2 * C) &&
  xorb (Z.odd w.1) (Z.odd w.2).

Definition isOpenWall (grid : list (list Cell)) (w : Z * Z) : bool :=
  isInterRoomWall w && bool_decide (typeAt grid w.1 w.2 = Some Passage).

(** Number of opened inter-room walls. *)
Definition openWalls (grid : list (list Cell)) : nat :=
  length (filter (fun w => isOpenWall grid w = true)
                 (gridPoints (2 * R + 1) (2 * C + 1))).

Definition visitedRooms (V : gset (Z * Z)) : nat :=
  length (filter (fun m => m ∈ V) (gridPoints R C)).

Definition unvisitedRooms (V : gset (Z * Z)) : nat :=
  length (filter (fun m => m ∉ V) (gridPoints R C)).
End Rooms.

(** *** Graphs *)

Section Graphs.
Context {A : Type} `{Countable A}.

Definition connectedOn (V : A -> Prop) (E : relation A) : Prop :=
  forall a b, V a -> V b -> rtc E a b.

(** A simple cycle: at least three distinct vertices, each joined to the
    next and the last to the first. *)
Definition isCycle (E : relation A) (l : list A) : Prop :=
  (3 <= length l)%nat /\ NoDup l /\
  (forall i a b, l !! i = Some a -> l !! S i = Some b -> E a b) /\
  (exists a b, last l = Some a /\ head l = Some b /\ E a b).

Definition acyclic (E : relation A) : Prop :=
  forall l, ~ isCycle E l.

(** Graphs grown from a root by attaching one new vertex with one new
    edge at a time. *)
Inductive grown (root : A) : gset A -> relation A -> Prop :=
  | grown_root E :
      (forall x y, ~ E x y) -> grown root {[root]} E
  | grown_leaf V E E' u v :
      grown root V E -> u ∈ V -> v ∉ V ->
      (forall x y, E' x y <-> E x y \/ (x = u /\ y = v) \/ (x = v /\ y = u)) ->
      grown root ({[v]} ∪ V) E'.
End Graphs.

(** *** Dimensions *)

Definition hasDims (grid : list (list Cell)) (rows cols : nat) : Prop :=
  length grid = rows /\ Forall (fun rowl => length rowl = cols) grid.

(** *** Invariant of the carving *)

(** [V] is the set of rooms that are part of the maze so far: the rooms
    marked visited and the room whose wall has just been opened. *)
Record GenInv (R C : Z) (V : gset (Z * Z)) (grid : list (list Cell)) : Prop :=
  mkGenInv {
    gi_dims : hasDims grid (Z.to_nat (2 * R + 1)) (Z.to_nat (2 * C + 1));
    gi_start : countType Start grid = 0%nat;
    gi_end : countType End_ grid = 0%nat;
    gi_tree : grown (0, 0) V (roomAdj R C grid);
    gi_rooms : forall m, m ∈ V -> isRoom R C m;
    gi_count : (openWalls R C grid + 1)%nat = visitedRooms R C V;
    gi_coords : forall r c cell,
      cellAt grid r c = Some cell -> cellPos cell = mkPosition r c
  }.

(** Every room that joined [V'] after [B] has all its lattice neighbours
    in [V']. *)
Definition closedSince (R C : Z) (B V' : gset (Z * Z)) : Prop :=
  forall v, v ∈ V' -> v ∉ B ->
  forall u, isRoom R C u -> latticeAdj v u -> u ∈ V'.

(** *** Animation *)

(** Position of a cell type in the ordering passage, visited,
    path/pathHead; walls rank with passages, the two endpoints above
    everything. *)
Definition stage (t : CellType) : nat :=
  match t with
  | Wall | Passage => 0
  | Visited => 1
  | Path | PathHead => 2
  | Start | End_ => 3
  end.

(** How one animation step may change a cell. *)
Definition advances (cell cell' : Cell) : Prop :=
  cellPos cell' = cellPos cell /\
  (type cell = Start \/ type cell = End_ -> cell' = cell) /\
  (type cell = Path \/ type cell = PathHead -> type cell' <> Visited) /\
  (stage (type cell) <= stage (type cell'))%nat.

Inductive StepKind :=
  | VisitedStep (i : nat)
  | PathStep (i : nat)
  | FinalizeStep
  | ToneStep.

Definition kindOf (cb : Callback) : StepKind :=
  match cb with
  | VisitedTick _ i _ => VisitedStep i
  | PathTick _ i _ _ _ => PathStep i
  | FinalizeTick _ => FinalizeStep
  | ToneTick => ToneStep
  end.

(** One entry of the log of the event loop: the time at which a timer
    fired, what it was, and [isAnimating] once its callback has run. *)
Record Fired := mkFired { f_time : Z; f_kind : StepKind; f_animating : bool }.

(** Runs the event loop for at most [n] timers. *)
Fixpoint runLoop (n : nat) (a : App) : list Fired * App :=
  match n with
  | O => ([], a)
  | S n' =>
      match fireNext a with
      | None => ([], a)
      | Some (t, a') =>
          let '(log, a'') := runLoop n' a' in
          (mkFired (clock a') (kindOf (t_cb t)) (isAnimating a') :: log, a'')
      end
  end.


(** Callbacks that neither schedule a timer nor touch [isAnimating]. *)
Definition quiet (cb : Callback) : Prop :=
  match cb with
  | VisitedTick _ _ _ => True
  | PathTick _ i len _ _ => i <> (len - 1)%nat
  | FinalizeTick _ => False
  | ToneTick => True
  end.

(** Timers listed in firing order, with distinct ids. *)
Definition timersOk (ts : list Timer) : Prop :=
  forall i j ti tj, (i < j)%nat -> ts !! i = Some ti -> ts !! j = Some tj ->
    t_at ti <= t_at tj /\ t_id ti <> t_id tj.

(** *** Keys *)

(** Strings without a minus sign: the digits of a decimal numeral. *)
Fixpoint noDash (s : string) : Prop :=
  match s with
  | EmptyString => True
  | String c s' => c <> "-"%char /\ noDash s'
  end.

(** *** Scanning for the endpoints *)

(** Position of the last cell of type [t] in a list of cells, [acc] if
    there is none. *)
Definition pick (t : CellType) (l : list Cell) (acc : option Position)
  : option Position :=
  foldl (fun a cell => if bool_decide (type cell = t)
                       then Some (cellPos cell) else a) acc l.

(** *** Example grids *)

(** A grid given by the types of its cells. *)
Definition gridOf (ts : list (list CellType)) : list (list Cell) :=
  imap (fun r rowl => imap (fun c t => mkCell (Z.of_nat r) (Z.of_nat c) t) rowl) ts.

(** A corridor with an entrance at each end of the top row. *)
Definition twoStarts : list (list Cell) :=
  gridOf [[Start; Passage; Start];
          [Wall; Passage; Wall];
          [Wall; End_; Wall]].

(** Start and end separated by a wall. *)
Definition walledOff : list (list Cell) :=
  gridOf [[Start; Passage; Wall; End_]].

(** A room with two routes of different length from start to end. *)
Definition smallMaze : list (list Cell) :=
  gridOf [[Wall; Wall; Wall; Wall; Wall];
          [Start; Passage; Passage; Passage; Wall];
          [Wall; Passage; Wall; Passage; Wall];
          [Wall; Passage; Passage; Passage; End_];
          [Wall; Wall; Wall; Wall; Wall]].

(** *** Invariants of the searches *)

Section SearchInvariants.
Variable grid : list (list Cell).
Variables start end_ : Position.

(** Parent pointers lead back to [start]; [d p] is the number of
    pointers to follow from [p]. *)
Record ChainInv (parent : gmap string (option Position))
    (d : Position -> nat) : Prop := mkChainInv {
  ch_start : parent !! posKey start = Some None;
  ch_dstart : d start = 0%nat;
  ch_pass : passable grid start = true;
  ch_step : forall p u, parent !! posKey p = Some (Some u) ->
    is_Some (parent !! posKey u) /\ d p = S (d u) /\
    adjacent u p = true /\ passable grid p = true;
  ch_root : forall p, parent !! posKey p = Some None -> p = start;
  ch_size : forall p, is_Some (parent !! posKey p) -> (d p < size parent)%nat
}.

(** Every neighbour [q] of a processed position [p] has been
    discovered, except for the neighbours [todo] of the position [cur]
    whose inner loop is still running. *)
Definition closedBut (known : Position -> Prop) (bound : Position -> Position -> Prop)
    (st : SearchState) (cur : Position) (todo : list Position) : Prop :=
  forall p q, known p -> adjacent p q = true -> passable grid q = true ->
    (is_Some (s_parent st !! posKey q) /\ bound p q) \/ (p = cur /\ q ∈ todo).

Definition unvisited (st : SearchState) : nat :=
  length (filter (fun p => p ∉ s_visited st) (positionsOf grid)).

(** Breadth-first search: the queue holds the positions of depth [lvl]
    followed by those of depth [lvl + 1]. *)
Record BfsInv (d : Position -> nat) (lvl : nat) (st : SearchState) : Prop :=
  mkBfsInv {
    bi_chain : ChainInv (s_parent st) d;
    bi_vis : forall p, p ∈ s_visited st <-> is_Some (s_parent st !! posKey p);
    bi_split : forall p, p ∈ s_visited st <-> p ∈ s_order st \/ p ∈ s_work st;
    bi_lo : forall p, p ∈ s_order st -> (d p <= lvl)%nat;
    bi_hi : forall p, p ∈ s_work st -> (lvl <= d p <= S lvl)%nat;
    bi_sorted : forall i j p q, (i <= j)%nat ->
      s_work st !! i = Some p -> s_work st !! j = Some q -> (d p <= d q)%nat;
    bi_noend : end_ ∉ s_order st
  }.

(** Depth-first search: a position is discovered when it is first
    pushed and visited when it is first popped. *)
Record DfsInv (d : Position -> nat) (st : SearchState) : Prop := mkDfsInv {
  di_chain : ChainInv (s_parent st) d;
  di_order : forall p, p ∈ s_visited st <-> p ∈ s_order st;
  di_disc : forall p, is_Some (s_parent st !! posKey p) <->
                      p ∈ s_visited st \/ p ∈ s_work st;
  di_noend : end_ ∉ s_visited st
}.
End SearchInvariants.

(** *** The run of the depth-first loop *)

(** The loop of [dfs] with the states at its successive tests recorded:
    the first element is the state on entry, the last one the state the
    loop is left with. *)
Fixpoint dfsTrace (fuel : nat) (grid : list (list Cell)) (end_ : Position)
  (st : SearchState) : Outcome (list SearchState) :=
  match s_work st with
  | [] => Ok [st]
  | cur :: stack =>
      match fuel with
      | O => OutOfFuel
      | S fuel' =>
          r ← dfsVisit grid end_ cur
                (mkSearch stack (s_visited st) (s_parent st) (s_order st));
          match r with
          | inl st' => Ok [st; st']
          | inr st' => tr ← dfsTrace fuel' grid end_ st'; Ok (st :: tr)
          end
      end
  end.

(** One iteration as the specification describes it.  The top [cur] of
    the stack is popped.  If it is visited already, nothing else
    changes.  Otherwise [cur], and nothing else, is marked visited and
    appended to the visited order; and unless [cur] is the end cell, its
    open neighbours that are not visited are pushed so that they lie on
    the stack in the order up, down, left, right, the first one topmost,
    and those of them without a parent pointer get [cur] as parent,
    while no existing pointer changes. *)
Definition dfsIteration (grid : list (list Cell)) (end_ : Position)
  (st st' : SearchState) : Prop :=
  exists cur stack,
    s_work st = cur :: stack /\
    if bool_decide (cur ∈ s_visited st)
    then st' = mkSearch stack (s_visited st) (s_parent st) (s_order st)
    else
      s_visited st' = {[cur]} ∪ s_visited st /\
      s_order st' = s_order st ++ [cur] /\
      if bool_decide (cur = end_)
      then s_work st' = stack /\ s_parent st' = s_parent st
      else
        let pushed :=
          filter (fun n => (n ∉ s_visited st') /\ passable grid n = true)
                 (around cur) in
        s_work st' = pushed ++ stack /\
        forall k,
          s_parent st' !! k =
          match s_parent st !! k with
          | Some v => Some v
          | None =>
              if bool_decide (k ∈ posKey <$> pushed)
              then Some (Some cur) else None
          end.

(** ** Further vocabulary *)

(** *** Shape of the grid while it is carved *)

(** Grid positions of the logical rooms: both coordinates odd. *)
Definition isRoomCell (w : Z * Z) : bool := Z.odd w.1 && Z.odd w.2.

(** What the carving keeps true of the cells: the room of every visited
    logical room is open, a cell is a wall or a passage, and only rooms
    and walls between two rooms are ever opened. *)
Record CarveShape (R C : Z) (st : GenState) : Prop := mkCarveShape {
  cs_rooms : forall m, m ∈ g_visited st ->
    typeAt (g_grid st) (2 * m.1 + 1) (2 * m.2 + 1) = Some Passage;
  cs_types : forall r c t,
    typeAt (g_grid st) r c = Some t -> t = Wall \/ t = Passage;
  cs_open : forall r c,
    typeAt (g_grid st) r c = Some Passage ->
    isRoomCell (r, c) = true \/ isInterRoomWall R C (r, c) = true
}.

(** *** The order in which the searches visit *)

Section OrderInvariants.
Variable grid : list (list Cell).
Variables start end_ : Position.

(** Kept by the loop of [bfs]: a position is marked when it enters the
    queue, enters it once, and its parent has already left the queue. *)
Record BfsOrd (st : SearchState) : Prop := mkBfsOrd {
  bo_nodup : NoDup (s_order st ++ s_work st);
  bo_vis : forall p, p ∈ s_visited st <-> p ∈ s_order st \/ p ∈ s_work st;
  bo_head : head (s_order st ++ s_work st) = Some start;
  bo_parent : forall p, is_Some (s_parent st !! posKey p) -> p ∈ s_visited st;
  bo_up : forall p u, s_parent st !! posKey p = Some (Some u) -> u ∈ s_order st;
  bo_reach : forall p, p ∈ s_visited st -> reachable grid start p;
  bo_noend : end_ ∉ s_order st
}.

(** Kept by the loop of [dfs]: a position is marked when it is first
    popped, and a position with a parent is marked or still on the
    stack. *)
Record DfsOrd (st : SearchState) : Prop := mkDfsOrd {
  do_nodup : NoDup (s_order st);
  do_vis : forall p, p ∈ s_visited st <-> p ∈ s_order st;
  do_head : head (s_order st ++ s_work st) = Some start;
  do_parent : forall p, is_Some (s_parent st !! posKey p) ->
    p ∈ s_visited st \/ p ∈ s_work st;
  do_up : forall p u, s_parent st !! posKey p = Some (Some u) -> u ∈ s_order st;
  do_reach : forall p, p ∈ s_order st \/ p ∈ s_work st -> reachable grid start p;
  do_noend : end_ ∉ s_order st
}.

(** What holds of the locals of either search when its loop is left. *)
Record OrdFinal (st : SearchState) : Prop := mkOrdFinal {
  of_nodup : NoDup (s_order st);
  of_head : head (s_order st) = Some start;
  of_reach : forall p, p ∈ s_order st -> reachable grid start p;
  of_up : forall p u, s_parent st !! posKey p = Some (Some u) -> u ∈ s_order st;
  of_end : is_Some (s_parent st !! posKey end_) -> last (s_order st) = Some end_
}.
End OrderInvariants.

(** *** The grid during and after an animation *)

(** The state once timer [t] has fired and its callback has run. *)
Definition fire (a : App) (t : Timer) : App :=
  runCallback (t_cb t) (advance t a).

(** What a callback does to the grid and to the set of keys shared by the
    visited-playback steps. *)
Definition paint (cb : Callback) (gv : list (list Cell) * gset string)
  : list (list Cell) * gset string :=
  match cb with
  | VisitedTick pos _ _ =>
      let vs := {[posKey pos]} ∪ gv.2 in (mapGrid (visitedCell vs) gv.1, vs)
  | PathTick keyToIndex i _ _ _ => (mapGrid (pathCell keyToIndex i) gv.1, gv.2)
  | FinalizeTick _ => (mapGrid finalizeCell gv.1, gv.2)
  | ToneTick => gv
  end.

(** What a callback does to the status line. *)
Definition statusAfter (cb : Callback) (s : string) : string :=
  match cb with
  | VisitedTick _ i len =>
      if bool_decide (i = len - 1)%nat then "Drawing shortest path..." else s
  | FinalizeTick alg => "Solved using " +:+ algorithmName alg
  | _ => s
  end.

(** The timers that fire because of a pending one: the timer itself and
    those its callback leads to (the last path step schedules the
    finalize step, which schedules the second tone). *)
Definition firingsOf (cb : Callback) : nat :=
  match cb with
  | PathTick _ i len _ _ => if bool_decide (i = len - 1)%nat then 3 else 1
  | FinalizeTick _ => 2
  | _ => 1
  end.

Definition firingsLeft (a : App) : nat :=
  sum_list ((fun t => firingsOf (t_cb t)) <$> timers a).

(** The callbacks that run because of the pending timers, in creation
    order: each pending callback and, after the last path step, the
    finalize step that it schedules. *)
Definition script (ts : list Timer) : list Callback :=
  ts ≫= (fun t =>
    match t_cb t with
    | PathTick _ i len _ alg =>
        if bool_decide (i = len - 1)%nat
        then [t_cb t; FinalizeTick alg] else [t_cb t]
    | cb => [cb]
    end).

(** A cell after the path steps [0 .. m - 1]: the cell of the path with
    index [m - 1] is the head, those before it are the trail. *)
Definition pathMark (keyToIndex : gmap string nat) (m : nat) (cell : Cell)
  : Cell :=
  if bool_decide (type cell = Start) || bool_decide (type cell = End_)
  then cell
  else
    match keyToIndex !! posKey (cellPos cell) with
    | None => cell
    | Some idx =>
        if bool_decide (S idx = m) then withType cell PathHead
        else if bool_decide (S idx < m)%nat then withType cell Path
        else cell
    end.

(** A cell once the whole animation has run: the cells of the path are
    [path], the other visited cells are [visited], the start and the end
    keep their type. *)
Definition paintCell (pathKeys visitedKeys : gset string) (cell : Cell)
  : Cell :=
  if bool_decide (type cell = Start) || bool_decide (type cell = End_)
  then cell
  else if bool_decide (posKey (cellPos cell) ∈ pathKeys)
  then withType cell Path
  else if bool_decide (posKey (cellPos cell) ∈ visitedKeys)
  then withType cell Visited
  else cell.

(** The type shown at a position once the animation of a solve with the
    given path and visited order has run. *)
Definition paintedType (path visitedOrder : list Position) (p : Position)
  (t : CellType) : CellType :=
  if bool_decide (t = Start) || bool_decide (t = End_) then t
  else if bool_decide (p ∈ path) then Path
  else if bool_decide (p ∈ visitedOrder) then Visited
  else if isMark t then Passage
  else t.

(** The timer of the path step that schedules the finalize step. *)
Definition isLastPath (cb : Callback) : Prop :=
  match cb with
  | PathTick _ i len _ _ => i = (len - 1)%nat
  | _ => False
  end.

(** ** The rest of the component *)

Inductive Theme := Dark | Light.

(** The state of [App]: the part modelled by [App] above together with
    the logical size of the maze and the theme. *)
Record Component := mkComponent {
  app : App;
  mazeRows : Z;
  mazeCols : Z;
  theme : Theme
}.

Definition setApp (a : App) (c : Component) : Component :=
  mkComponent a (mazeRows c) (mazeCols c) (theme c).

Definition setTheme (t : Theme) (c : Component) : Component :=
  mkComponent (app c) (mazeRows c) (mazeCols c) t.

Definition setAlgorithm (alg : Algorithm) (a : App) : App :=
  mkApp (grid a) alg (speed a) (status a) (pathLength a)
        (visitedCount a) (isAnimating a) (timeoutsRef a) (timers a) (clock a)
        (nextId a) (visitedSet a).

Definition setSpeed (s : Speed) (a : App) : App :=
  mkApp (grid a) (algorithm a) s (status a) (pathLength a)
        (visitedCount a) (isAnimating a) (timeoutsRef a) (timers a) (clock a)
        (nextId a) (visitedSet a).

(** The tail shared by [regenerateMaze] and [onMazeSizeChange]: the new
    grid, the status line and the two counters reset. *)
Definition installMaze (g : list (list Cell)) (msg : string) (a : App) : App :=
  setVisitedCount None (setPathLength None (setStatus msg (setGrid (fun _ => g) a))).

(** [regenerateMaze]; [rnd] is the oracle of the calls of [Math.random]
    that this call makes. *)
Definition regenerateMaze (rnd : nat -> nat) (c : Component)
  : Component * Outcome unit :=
  if isAnimating (app c) then (c, Ok ())
  else
    let a := clearAnimations (app c) in
    let clampedRows := Z.min 50 (Z.max 5 (mazeRows c)) in
    let clampedCols := Z.min 50 (Z.max 5 (mazeCols c)) in
    match generatePerfectMaze rnd clampedRows clampedCols with
    | Ok g =>
        (mkComponent (installMaze g "New maze generated" a)
                     clampedRows clampedCols (theme c), Ok ())
    | Throw e => (mkComponent a clampedRows clampedCols (theme c), Throw e)
    | OutOfFuel => (mkComponent a clampedRows clampedCols (theme c), OutOfFuel)
    end.

(** [onMazeSizeChange(rows, cols)] *)
Definition onMazeSizeChange (rnd : nat -> nat) (rows cols : Z) (c : Component)
  : Component * Outcome unit :=
  if isAnimating (app c) then (c, Ok ())
  else
    let clampedRows := Z.min 50 (Z.max 5 rows) in
    let clampedCols := Z.min 50 (Z.max 5 cols) in
    match generatePerfectMaze rnd clampedRows clampedCols with
    | Ok g =>
        (mkComponent (installMaze g "Maze size changed" (app c))
                     clampedRows clampedCols (theme c), Ok ())
    | Throw e => (mkComponent (app c) clampedRows clampedCols (theme c), Throw e)
    | OutOfFuel =>
        (mkComponent (app c) clampedRows clampedCols (theme c), OutOfFuel)
    end.

(** [handleSolve] and [clearPath] on the whole state. *)
Definition solve (c : Component) : Component * Outcome unit :=
  (setApp (handleSolve (app c)).1 c, (handleSolve (app c)).2).

Definition clear (c : Component) : Component * Outcome unit :=
  (setApp (clearPath (app c)) c, Ok ()).

(** *** Keyboard shortcuts *)

Record Target := mkTarget { tagName : string; isContentEditable : bool }.

Record KeyboardEvent := mkKeyboardEvent {
  target : option Target;
  code : string;
  key : string
}.

(** What the [keydown] handler leaves behind: the state, whether it
    called [preventDefault], and how it returned. *)
Record Handled := mkHandled {
  h_state : Component;
  h_prevented : bool;
  h_outcome : Outcome unit
}.

(** The test that keeps the shortcuts from firing while the user types. *)
Definition isTyping (e : KeyboardEvent) : bool :=
  match target e with
  | Some t =>
      bool_decide (tagName t = "INPUT") || bool_decide (tagName t = "TEXTAREA") ||
      bool_decide (tagName t = "SELECT") || isContentEditable t
  | None => false
  end.

Definition prevented (r : Component * Outcome unit) : Handled :=
  mkHandled r.1 true r.2.

Definition handler (rnd : nat -> nat) (e : KeyboardEvent) (c : Component)
  : Handled :=
  if isTyping e then mkHandled c false (Ok ())
  else if bool_decide (code e = "Space") then prevented (solve c)
  else if bool_decide (key e = "s") || bool_decide (key e = "S")
  then prevented (solve c)
  else if bool_decide (key e = "n") || bool_decide (key e = "N")
  then prevented (regenerateMaze rnd c)
  else if bool_decide (key e = "c") || bool_decide (key e = "C")
  then prevented (clear c)
  else if bool_decide (key e = "1")
  then mkHandled (setApp (setSpeed Slow (app c)) c) false (Ok ())
  else if bool_decide (key e = "2")
  then mkHandled (setApp (setSpeed Normal (app c)) c) false (Ok ())
  else if bool_decide (key e = "3")
  then mkHandled (setApp (setSpeed Fast (app c)) c) false (Ok ())
  else mkHandled c false (Ok ()).

(** *** The component as a state machine *)

(** [useState(() => generatePerfectMaze(25, 25))] and the other initial
    values, at a given time of the host and with a given next timer id. *)
Definition mount (rnd : nat -> nat) (now : Z) (id0 : nat) : Outcome Component :=
  g ← generatePerfectMaze rnd 25 25;
  Ok (mkComponent
        (mkApp g Bfs Fast "Maze ready" None None false [] [] now id0 ∅)
        25 25 Dark).

(** What can happen to a mounted component: a click on one of the
    buttons, a choice in one of the selects (all disabled while
    [isAnimating]), a key press, a timer that fires, or time that
    passes. *)
Inductive Action :=
  | ClickSolve
  | ClickNewMaze (rnd : nat -> nat)
  | ClickClear
  | ClickSize (rnd : nat -> nat) (rows cols : Z)
  | SelectAlgorithm (alg : Algorithm)
  | SelectTheme (t : Theme)
  | SelectSpeed (s : Speed)
  | KeyDown (rnd : nat -> nat) (e : KeyboardEvent)
  | TimerFires
  | TimePasses (dt : Z).

Definition setClock (t : Z) (a : App) : App :=
  mkApp (grid a) (algorithm a) (speed a) (status a) (pathLength a)
        (visitedCount a) (isAnimating a) (timeoutsRef a) (timers a) t
        (nextId a) (visitedSet a).

Definition act (x : Action) (c : Component) : Component * Outcome unit :=
  match x with
  | ClickSolve => if isAnimating (app c) then (c, Ok ()) else solve c
  | ClickNewMaze rnd =>
      if isAnimating (app c) then (c, Ok ()) else regenerateMaze rnd c
  | ClickClear => if isAnimating (app c) then (c, Ok ()) else clear c
  | ClickSize rnd rows cols =>
      if isAnimating (app c) then (c, Ok ())
      else onMazeSizeChange rnd rows cols c
  | SelectAlgorithm alg =>
      if isAnimating (app c) then (c, Ok ())
      else (setApp (setAlgorithm alg (app c)) c, Ok ())
  | SelectTheme t =>
      if isAnimating (app c) then (c, Ok ()) else (setTheme t c, Ok ())
  | SelectSpeed s =>
      if isAnimating (app c) then (c, Ok ())
      else (setApp (setSpeed s (app c)) c, Ok ())
  | KeyDown rnd e =>
      (h_state (handler rnd e c), h_outcome (handler rnd e c))
  | TimerFires =>
      match fireNext (app c) with
      | Some (_, a') => (setApp a' c, Ok ())
      | None => (c, Ok ())
      end
  | TimePasses dt =>
      (setApp (setClock (clock (app c) + Z.max 0 dt) (app c)) c, Ok ())
  end.

(** A sequence of events, stopped by the first exception. *)
Fixpoint run (xs : list Action) (c : Component) : Component * Outcome unit :=
  match xs with
  | [] => (c, Ok ())
  | x :: xs' =>
      match act x c with
      | (c', Ok _) => run xs' c'
      | r => r
      end
  end.

(** *** What the component keeps true *)

(** Cell updates that leave the maze as it is: they keep positions and
    the two endpoints, and make no wall. *)
Definition keepsMaze (f : Cell -> Cell) : Prop :=
  forall cell,
    cellPos (f cell) = cellPos cell /\
    (type (f cell) = Start <-> type cell = Start) /\
    (type (f cell) = End_ <-> type cell = End_) /\
    (type (f cell) = Wall -> type cell = Wall).

(** A maze of [R] by [C] rooms, possibly with marks. *)
Record MazeInv (R C : Z) (grid : list (list Cell)) : Prop := mkMazeInv {
  mi_wf : wfGrid grid = true;
  mi_dims : hasDims grid (Z.to_nat (2 * R + 1)) (Z.to_nat (2 * C + 1));
  mi_start : countType Start grid = 1%nat;
  mi_end : countType End_ grid = 1%nat;
  mi_start_at : typeAt grid 1 0 = Some Start;
  mi_end_at : typeAt grid (2 * R - 1) (2 * C) = Some End_;
  mi_reach : reachable grid (mkPosition 1 0) (mkPosition (2 * R - 1) (2 * C))
}.

(** The steps of an animation that is under way: the finalize step
    alone, or quiet steps followed by the last path step, in firing
    order. *)
Definition Stepping (ts : list Timer) : Prop :=
  (exists t alg, ts = [t] /\ t_cb t = FinalizeTick alg) \/
  (timersOk ts /\
   exists qs tl, ts = qs ++ [tl] /\
     Forall (fun t => quiet (t_cb t)) qs /\ isLastPath (t_cb tl)).

(** The timers that are pending while an animation is under way, in
    creation order: second tones of earlier solves, then the steps of
    the animation. *)
Definition Pending (ts : list Timer) : Prop :=
  exists tones anim,
    ts = tones ++ anim /\ Forall (fun t => t_cb t = ToneTick) tones /\
    Stepping anim.

(** What the timers of a state satisfy: distinct ids below the next id;
    only tones pending when no animation runs. *)
Record TimersInv (a : App) : Prop := mkTimersInv {
  ti_ids : NoDup (t_id <$> timers a);
  ti_fresh : Forall (fun t => (t_id t < nextId a)%nat) (timers a);
  ti_idle : isAnimating a = false ->
            Forall (fun t => t_cb t = ToneTick) (timers a);
  ti_busy : isAnimating a = true -> Pending (timers a)
}.

Record AppInv (c : Component) : Prop := mkAppInv {
  ai_rows : 5 <= mazeRows c <= 50;
  ai_cols : 5 <= mazeCols c <= 50;
  ai_maze : MazeInv (mazeRows c) (mazeCols c) (grid (app c));
  ai_timers : TimersInv (app c)
}.

(** *** Unmounting *)


(** *** Rendering the grid *)

(** [cell.type] as the string it is in the source. *)
Definition typeName (t : CellType) : string :=
  match t with
  | Wall => "wall"
  | Passage => "passage"
  | Start => "start"
  | End_ => "end"
  | Visited => "visited"
  | Path => "path"
  | PathHead => "pathHead"
  end.

(** [<div key={posKey(cell)} className={`cell cell-${cell.type}`} />] *)
Record CellDiv := mkCellDiv { div_key : string; div_className : string }.

Definition renderCell (cell : Cell) : CellDiv :=
  mkCellDiv (posKey (cellPos cell)) ("cell cell-" +:+ typeName (type cell)).

(** [grid.map((row) => row.map((cell) => ...))] *)
Definition renderGrid (grid : list (list Cell)) : list (list CellDiv) :=
  (fun rowl : list Cell => renderCell <$> rowl) <$> grid.

(** [grid[0].length], the number of columns of the CSS grid. *)
Definition templateColumns (grid : list (list Cell)) : Outcome nat :=
  match grid with
  | [] => Throw TypeError
  | row0 :: _ => Ok (length row0)
  end.

(** *** The snake *)


(** *** Distance from the start *)

(** The shortest walk from [start] to [p] through non-wall cells has [n]
    steps: some walk has [n + 1] cells and none has fewer. *)
Definition distanceIs (grid : list (list Cell)) (start p : Position)
  (n : nat) : Prop :=
  (exists l, connects grid start p l = true /\ length l = S n) /\
  (forall l, connects grid start p l = true -> (S n <= length l)%nat).

(** * Basic facts *)

(** ** The [Outcome] monad *)

Lemma bind_Ok {A B : Type} (m : Outcome A) (f : A -> Outcome B) (b : B) :
  m ≫= f = Ok b <-> exists a, m = Ok a /\ f a = Ok b.
Proof.
  destruct m as [a| |]; simpl; split; try naive_solver.
Qed.

Lemma foldlM_app {A B : Type} (f : B -> A -> Outcome B) (b : B) (l1 l2 : list A) :
  foldlM f b (l1 ++ l2) = foldlM f b l1 ≫= fun b' => foldlM f b' l2.
Proof.
  revert b; induction l1 as [|x l1 IH]; intros b; simpl; [done|].
  destruct (f b x); simpl; auto.
Qed.

(** ** Reading and writing grid cells *)

Lemma elem_of_concat {A : Type} (x : A) (ls : list (list A)) :
  x ∈ concat ls <-> exists l, x ∈ l /\ l ∈ ls.
Proof.
  rewrite list_elem_of_In, in_concat.
  setoid_rewrite list_elem_of_In. naive_solver.
Qed.

Lemma cellAt_Some grid r c cell :
  cellAt grid r c = Some cell <->
  0 <= r /\ 0 <= c /\
  exists rowl, grid !! Z.to_nat r = Some rowl /\ rowl !! Z.to_nat c = Some cell.
Proof.
  unfold cellAt. case_bool_decide as Hrc.
  - destruct (grid !! Z.to_nat r) as [rowl|] eqn:Hr; simpl; naive_solver.
  - split; [done|]. intros (? & ? & _). lia.
Qed.

Lemma cellAt_dims grid rows cols r c cell :
  hasDims grid rows cols -> cellAt grid r c = Some cell ->
  0 <= r < Z.of_nat rows /\ 0 <= c < Z.of_nat cols.
Proof.
  intros [Hlen Hall] (Hr & Hc & rowl & Hrow & Hcell)%cellAt_Some.
  pose proof (lookup_lt_Some _ _ _ Hrow).
  pose proof (lookup_lt_Some _ _ _ Hcell).
  rewrite Forall_forall in Hall.
  assert (length rowl = cols) by (apply Hall; eapply list_elem_of_lookup_2; eauto).
  lia.
Qed.

Lemma cellAt_is_Some grid rows cols r c :
  hasDims grid rows cols ->
  0 <= r < Z.of_nat rows -> 0 <= c < Z.of_nat cols ->
  is_Some (cellAt grid r c).
Proof.
  intros [Hlen Hall] Hr Hc.
  destruct (lookup_lt_is_Some_2 grid (Z.to_nat r)) as [rowl Hrow]; [lia|].
  rewrite Forall_forall in Hall.
  assert (length rowl = cols) by (apply Hall; eapply list_elem_of_lookup_2; eauto).
  destruct (lookup_lt_is_Some_2 rowl (Z.to_nat c)) as [cell Hcell]; [lia|].
  exists cell. apply cellAt_Some. naive_solver lia.
Qed.

Lemma setType_Ok grid r c t grid' :
  setType grid r c t = Ok grid' <->
  exists cell, cellAt grid r c = Some cell /\
    grid' = alter (fun rowl => <[Z.to_nat c := withType cell t]> rowl)
                  (Z.to_nat r) grid.
Proof.
  unfold setType. destruct (cellAt grid r c); naive_solver.
Qed.

Lemma setType_is_Ok grid r c t :
  is_Some (cellAt grid r c) -> exists grid', setType grid r c t = Ok grid'.
Proof. intros [cell Hc]. unfold setType. rewrite Hc. eauto. Qed.

Lemma setType_not_MissingEndpoint grid r c t :
  setType grid r c t <> Throw MissingEndpoint.
Proof. unfold setType. by destruct (cellAt grid r c). Qed.

Lemma cellAt_setType_eq grid r c t grid' :
  setType grid r c t = Ok grid' ->
  exists cell, cellAt grid r c = Some cell /\
               cellAt grid' r c = Some (withType cell t).
Proof.
  intros (cell & Hcell & ->)%setType_Ok. exists cell; split; [done|].
  apply cellAt_Some in Hcell as (Hr & Hc & rowl & Hrow & Hcell).
  apply cellAt_Some. repeat split; [done..|].
  exists (<[Z.to_nat c := withType cell t]> rowl). split.
  - rewrite list_lookup_alter_eq, Hrow. done.
  - apply list_lookup_insert_eq. by eapply lookup_lt_Some.
Qed.

Lemma cellAt_setType_ne grid r c t grid' r' c' :
  setType grid r c t = Ok grid' -> (r', c') <> (r, c) ->
  cellAt grid' r' c' = cellAt grid r' c'.
Proof.
  intros (cell & Hcell & ->)%setType_Ok Hne.
  apply cellAt_Some in Hcell as (Hr & Hc & rowl & Hrow & Hcell).
  unfold cellAt. case_bool_decide as Hrc; [|done].
  destruct (decide (Z.to_nat r' = Z.to_nat r)) as [Heq|Hneq].
  - rewrite Heq, list_lookup_alter_eq, Hrow. simpl.
    apply list_lookup_insert_ne. intros Hc'.
    apply Hne. f_equal; lia.
  - by rewrite list_lookup_alter_ne.
Qed.

(** Writing a type keeps every cell at its coordinates. *)
Lemma setType_coords grid r c t grid' :
  setType grid r c t = Ok grid' ->
  (forall r c cell, cellAt grid r c = Some cell -> cellPos cell = mkPosition r c) ->
  forall r c cell, cellAt grid' r c = Some cell -> cellPos cell = mkPosition r c.
Proof.
  intros Hs Hcoords r' c' cell Hcell.
  destruct (decide ((r', c') = (r, c))) as [[= -> ->]|Hne].
  - destruct (cellAt_setType_eq _ _ _ _ _ Hs) as (cell0 & Hc0 & Hc1).
    rewrite Hc1 in Hcell. simplify_eq. apply (Hcoords _ _ _ Hc0).
  - rewrite (cellAt_setType_ne _ _ _ _ _ _ _ Hs Hne) in Hcell. by apply Hcoords.
Qed.

Lemma typeAt_setType_eq grid r c t grid' :
  setType grid r c t = Ok grid' -> typeAt grid' r c = Some t.
Proof.
  intros (cell & _ & Hc)%cellAt_setType_eq. unfold typeAt. by rewrite Hc.
Qed.

Lemma typeAt_setType_ne grid r c t grid' r' c' :
  setType grid r c t = Ok grid' -> (r', c') <> (r, c) ->
  typeAt grid' r' c' = typeAt grid r' c'.
Proof.
  intros Hs Hne. unfold typeAt. by erewrite cellAt_setType_ne.
Qed.

Lemma setType_dims grid r c t grid' rows cols :
  setType grid r c t = Ok grid' ->
  hasDims grid rows cols -> hasDims grid' rows cols.
Proof.
  intros (cell & Hcell & ->)%setType_Ok [Hlen Hall]. split.
  - by rewrite length_alter.
  - apply Forall_alter; [done|]. intros rowl _ Hl. by rewrite length_insert.
Qed.

(** Writing one cell changes the count of each type by what was
    overwritten and what was written. *)
Lemma countType_setType grid r c t grid' cell t' :
  setType grid r c t = Ok grid' -> cellAt grid r c = Some cell ->
  (countType t' grid' + (if decide (type cell = t') then 1 else 0) =
   countType t' grid + (if decide (t = t') then 1 else 0))%nat.
Proof.
  intros (cell0 & Hcell0 & ->)%setType_Ok Hcell.
  assert (cell0 = cell) as -> by congruence.
  apply cellAt_Some in Hcell as (Hr & Hc & rowl & Hrow & Hcell).
  pose proof (lookup_lt_Some _ _ _ Hrow) as Hlr.
  pose proof (lookup_lt_Some _ _ _ Hcell) as Hlc.
  pose proof (take_drop_middle _ _ _ Hrow) as Hg.
  pose proof (take_drop_middle _ _ _ Hcell) as Hl.
  set (g1 := take (Z.to_nat r) grid) in *.
  set (g2 := drop (S (Z.to_nat r)) grid) in *.
  set (l1 := take (Z.to_nat c) rowl) in *.
  set (l2 := drop (S (Z.to_nat c)) rowl) in *.
  assert (length g1 = Z.to_nat r) as Hg1 by (unfold g1; rewrite length_take; lia).
  assert (length l1 = Z.to_nat c) as Hl1 by (unfold l1; rewrite length_take; lia).
  unfold countType. rewrite <- Hg, <- Hl.
  replace (Z.to_nat r) with (length g1 + 0)%nat by lia.
  rewrite alter_app_r. simpl.
  replace (Z.to_nat c) with (length l1 + 0)%nat by lia.
  rewrite insert_app_r. simpl.
  rewrite !concat_app, !concat_cons, !filter_app, !length_app.
  rewrite !filter_cons. simpl.
  repeat case_decide; simpl; try lia; naive_solver.
Qed.

(** ** Counting by filtering *)

Section FilterLength.
Context {A : Type}.
Implicit Types (P Q : A -> Prop) (l : list A).

Lemma filter_length_le P Q `{!forall x, Decision (P x)}
    `{!forall x, Decision (Q x)} l :
  (forall x, x ∈ l -> Q x -> P x) ->
  (length (filter Q l) <= length (filter P l))%nat.
Proof.
  induction l as [|a l IH]; intros Himp; [done|].
  rewrite !filter_cons.
  assert (length (filter Q l) <= length (filter P l))%nat as IH'
    by (apply IH; intros; apply Himp; [by right|done]).
  destruct (decide (Q a)) as [Hq|Hq], (decide (P a)) as [Hp|Hp]; simpl; try lia.
  exfalso. apply Hp, Himp; [by left|done].
Qed.

Lemma filter_length_ext P Q `{!forall x, Decision (P x)}
    `{!forall x, Decision (Q x)} l :
  (forall x, x ∈ l -> (P x <-> Q x)) ->
  length (filter P l) = length (filter Q l).
Proof.
  intros Hiff. apply Nat.le_antisymm; apply filter_length_le; naive_solver.
Qed.

Lemma filter_length_lt P Q `{!forall x, Decision (P x)}
    `{!forall x, Decision (Q x)} l x0 :
  (forall x, x ∈ l -> Q x -> P x) -> x0 ∈ l -> P x0 -> ~ Q x0 ->
  (length (filter Q l) < length (filter P l))%nat.
Proof.
  induction l as [|a l IH]; intros Himp Hin Hp Hq; [by apply elem_of_nil in Hin|].
  rewrite !filter_cons.
  assert (length (filter Q l) <= length (filter P l))%nat as Hle
    by (apply filter_length_le; intros; apply Himp; [by right|done]).
  apply elem_of_cons in Hin as [<-|Hin].
  - rewrite (decide_True (P:=P x0)), (decide_False (P:=Q x0)) by done.
    simpl. lia.
  - assert (length (filter Q l) < length (filter P l))%nat
      by (apply IH; auto; intros; apply Himp; [by right|done]).
    destruct (decide (Q a)) as [Hqa|Hqa], (decide (P a)) as [Hpa|Hpa];
      simpl; try lia.
    exfalso. apply Hpa, Himp; [by left|done].
Qed.

(** Switching the predicate on at exactly one element of a
    duplicate-free list adds one to the count. *)
Lemma filter_length_flip P Q `{!forall x, Decision (P x)}
    `{!forall x, Decision (Q x)} l x0 :
  NoDup l -> x0 ∈ l -> ~ P x0 -> Q x0 ->
  (forall x, x ∈ l -> x <> x0 -> (P x <-> Q x)) ->
  length (filter Q l) = S (length (filter P l)).
Proof.
  induction l as [|a l IH]; intros Hnd Hin Hp Hq Hiff;
    [by apply elem_of_nil in Hin|].
  apply NoDup_cons in Hnd as [Ha Hnd].
  rewrite !filter_cons.
  apply elem_of_cons in Hin as [<-|Hin].
  - rewrite (decide_True (P:=Q x0)), (decide_False (P:=P x0)) by done.
    simpl. f_equal. apply filter_length_ext.
    intros x Hx. symmetry. apply Hiff; [by right|]. by intros ->.
  - assert (a <> x0) as Hne by (by intros ->).
    assert (length (filter Q l) = S (length (filter P l))) as IH'
      by (apply IH; auto; intros; apply Hiff; [by right|done]).
    assert (P a <-> Q a) as Hia by (apply Hiff; [by left|done]).
    destruct (decide (Q a)), (decide (P a)); simpl; try lia; naive_solver.
Qed.

Lemma filter_length_all P `{!forall x, Decision (P x)} l :
  (forall x, x ∈ l -> P x) -> length (filter P l) = length l.
Proof.
  induction l as [|a l IH]; intros Hall; [done|].
  rewrite filter_cons, decide_True by (apply Hall; by left).
  simpl. f_equal. apply IH. intros; apply Hall; by right.
Qed.

Lemma filter_length_none P `{!forall x, Decision (P x)} l :
  (forall x, x ∈ l -> ~ P x) -> length (filter P l) = 0%nat.
Proof.
  induction l as [|a l IH]; intros Hall; [done|].
  rewrite filter_cons, decide_False by (apply Hall; by left).
  apply IH. intros; apply Hall; by right.
Qed.
End FilterLength.

(** ** The points of a rectangle *)

Lemma elem_of_gridPoints n m r c :
  (r, c) ∈ gridPoints n m <-> 0 <= r < n /\ 0 <= c < m.
Proof.
  unfold gridPoints. rewrite list_elem_of_bind. split.
  - intros (r' & (c' & Hin & Hc)%list_elem_of_bind & Hr).
    apply list_elem_of_singleton in Hin. simplify_eq.
    apply elem_of_seqZ in Hc, Hr. lia.
  - intros [Hr Hc]. exists r. split; [|apply elem_of_seqZ; lia].
    apply list_elem_of_bind. exists c. split; [by apply list_elem_of_singleton|].
    apply elem_of_seqZ; lia.
Qed.

Lemma NoDup_gridPoints n m : NoDup (gridPoints n m).
Proof.
  unfold gridPoints. apply NoDup_bind; [| |apply NoDup_seqZ].
  - intros r1 r2 [r c] _ _ (c1 & Hin1 & _)%list_elem_of_bind
      (c2 & Hin2 & _)%list_elem_of_bind.
    apply list_elem_of_singleton in Hin1, Hin2. congruence.
  - intros r _. apply NoDup_bind; [| |apply NoDup_seqZ].
    + intros c1 c2 y _ _ Hin1 Hin2.
      apply list_elem_of_singleton in Hin1, Hin2. congruence.
    + intros c _. apply NoDup_singleton.
Qed.

Lemma length_bind_const {A B : Type} (f : A -> list B) (l : list A) (k : nat) :
  (forall x, x ∈ l -> length (f x) = k) ->
  length (l ≫= f) = (length l * k)%nat.
Proof.
  induction l as [|a l IH]; intros Hk; [done|].
  rewrite bind_cons, length_app, IH, Hk; [simpl; lia|by left|].
  intros; apply Hk; by right.
Qed.

Lemma length_gridPoints n m :
  0 <= n -> 0 <= m -> length (gridPoints n m) = Z.to_nat (n * m).
Proof.
  intros Hn Hm. unfold gridPoints.
  rewrite (length_bind_const _ _ (Z.to_nat m)).
  - rewrite length_seqZ. lia.
  - intros r _. rewrite (length_bind_const _ _ 1%nat); [|done].
    rewrite length_seqZ. lia.
Qed.

(** ** The shuffle is a permutation *)

Lemma insert_Permutation {A : Type} (l : list A) (j : nat) (x y : A) :
  l !! j = Some y -> y :: <[j := x]> l ≡ₚ x :: l.
Proof.
  revert j; induction l as [|a l IH]; intros [|j] Hj; simplify_eq/=.
  - apply Permutation_swap.
  - etrans; [apply Permutation_swap|]. etrans; [|apply Permutation_swap].
    f_equiv. by apply IH.
Qed.

Lemma swap_Permutation {A : Type} (l : list A) (i j : nat) : swap l i j ≡ₚ l.
Proof.
  unfold swap.
  destruct (l !! i) as [x|] eqn:Hi; [|done].
  destruct (l !! j) as [y|] eqn:Hj; [|done].
  revert i j Hi Hj. induction l as [|a l IH]; intros [|i] [|j] Hi Hj;
    simplify_eq/=; try done.
  - by apply insert_Permutation.
  - by apply insert_Permutation.
  - f_equiv. by apply IH.
Qed.

Lemma shuffleFrom_Permutation rnd i k dirs :
  (shuffleFrom rnd i k dirs).1 ≡ₚ dirs.
Proof.
  revert k dirs; induction i as [|i IH]; intros k dirs; simpl; [done|].
  rewrite IH. apply swap_Permutation.
Qed.

(** ** Grown graphs are trees *)

Section Grown.
Context {A : Type} `{Countable A}.
Implicit Types (V : gset A) (E : relation A).

Lemma grown_ext root V E E' :
  grown root V E -> (forall x y, E x y <-> E' x y) -> grown root V E'.
Proof.
  intros Hg Hiff. destruct Hg as [E Hempty|V E E0 u v Hg Hu Hv HE].
  - apply grown_root. intros x y. rewrite <- Hiff. apply Hempty.
  - eapply grown_leaf; eauto. intros x y. rewrite <- Hiff. apply HE.
Qed.

Lemma grown_has_root root V E : grown root V E -> root ∈ V.
Proof. induction 1; set_solver. Qed.

Lemma grown_edges root V E x y :
  grown root V E -> E x y -> x ∈ V /\ y ∈ V.
Proof.
  intros Hg; revert x y.
  induction Hg as [E Hempty|V E E' u v Hg IH Hu Hv HE]; intros x y Hxy.
  - by apply Hempty in Hxy.
  - apply HE in Hxy as [Hxy|[[-> ->]|[-> ->]]]; [|set_solver..].
    apply IH in Hxy. set_solver.
Qed.

Lemma grown_sym root V E x y : grown root V E -> E x y -> E y x.
Proof.
  intros Hg; revert x y.
  induction Hg as [E Hempty|V E E' u v Hg IH Hu Hv HE]; intros x y Hxy.
  - by apply Hempty in Hxy.
  - apply HE. apply HE in Hxy as [Hxy|[[-> ->]|[-> ->]]]; auto.
Qed.

Lemma grown_from_root root V E x :
  grown root V E -> x ∈ V -> rtc E root x.
Proof.
  intros Hg; revert x.
  induction Hg as [E Hempty|V E E' u v Hg IH Hu Hv HE]; intros x Hx.
  - apply elem_of_singleton in Hx as ->. done.
  - assert (forall a b, rtc E a b -> rtc E' a b) as Hmono.
    { intros a b. apply rtc_subrel. intros ? ? ?. apply HE. by left. }
    apply elem_of_union in Hx as [->%elem_of_singleton|Hx]; [|by auto].
    eapply rtc_r; [apply Hmono, IH, Hu|]. apply HE. auto.
Qed.

Lemma grown_connected root V E :
  grown root V E -> connectedOn (fun x => x ∈ V) E.
Proof.
  intros Hg a b Ha Hb.
  assert (forall x y, rtc E x y -> rtc E y x) as Hsym.
  { induction 1 as [|x y z Hxy _ IH]; [done|].
    eapply rtc_r; [exact IH|]. by eapply grown_sym. }
  etrans; [apply Hsym|]; by eapply grown_from_root.
Qed.

(** In a cycle every vertex has a predecessor and a successor, at two
    different positions. *)
Lemma cycle_neighbours E l i x :
  isCycle E l -> l !! i = Some x ->
  exists jp jn p n,
    l !! jp = Some p /\ l !! jn = Some n /\
    jp <> i /\ jn <> i /\ jp <> jn /\ E p x /\ E x n.
Proof.
  intros (Hlen & Hnd & Hcons & a & b & Hlast & Hhead & Hab) Hi.
  rewrite last_lookup in Hlast. rewrite head_lookup in Hhead.
  pose proof (lookup_lt_Some _ _ _ Hi) as Hilt.
  destruct i as [|i].
  - assert (b = x) as -> by congruence.
    destruct (lookup_lt_is_Some_2 l 1%nat) as [n Hn]; [lia|].
    exists (pred (length l)), 1%nat, a, n.
    repeat split; try done; try lia. by eapply Hcons.
  - destruct (lookup_lt_is_Some_2 l i) as [p Hp]; [lia|].
    assert (E p x) by (by eapply Hcons).
    destruct (decide (S (S i) = length l)) as [Hend|Hend].
    + assert (a = x) as ->
        by (replace (pred (length l)) with (S i) in Hlast by lia; congruence).
      exists i, 0%nat, p, b. repeat split; try done; lia.
    + destruct (lookup_lt_is_Some_2 l (S (S i))) as [n Hn]; [lia|].
      exists i, (S (S i)), p, n. repeat split; try done; try lia.
      by eapply Hcons.
Qed.

Lemma grown_acyclic root V E : grown root V E -> acyclic E.
Proof.
  induction 1 as [E Hempty|V E E' u v Hg IH Hu Hv HE]; intros l Hcyc.
  - destruct Hcyc as (Hlen & _ & Hcons & _).
    destruct l as [|x [|y l]]; simpl in Hlen; try lia.
    by apply (Hempty x y), (Hcons 0%nat).
  - assert (forall x, E' x v -> x <> v -> x = u) as Hin.
    { intros x [Hx|[[-> _]|[-> _]]]%HE Hne; try done.
      by apply (grown_edges _ _ _ _ _ Hg) in Hx as [_ ?]. }
    assert (forall y, E' v y -> y <> v -> y = u) as Hout.
    { intros y [Hy|[[_ ->]|[_ ->]]]%HE Hne; try done.
      by apply (grown_edges _ _ _ _ _ Hg) in Hy as [? _]. }
    assert (forall x y, E' x y -> x <> v -> y <> v -> E x y) as Hold.
    { intros x y [Hxy|[[_ ->]|[-> _]]]%HE ??; done. }
    destruct (decide (v ∈ l)) as [Hvl|Hvl].
    + apply list_elem_of_lookup in Hvl as [i Hi].
      destruct (cycle_neighbours _ _ _ _ Hcyc Hi)
        as (jp & jn & p & n & Hp & Hn & Hjp & Hjn & Hjpn & Hpv & Hvn).
      destruct Hcyc as (_ & Hnd & _).
      assert (p = u) as ->.
      { apply Hin; [done|]. intros ->. apply Hjp. by eapply NoDup_lookup. }
      assert (n = u) as ->.
      { apply Hout; [done|]. intros ->. apply Hjn. by eapply NoDup_lookup. }
      apply Hjpn. by eapply NoDup_lookup.
    + apply (IH l).
      destruct Hcyc as (Hlen & Hnd & Hcons & a & b & Hlast & Hhead & Hab).
      repeat split; [done..| |].
      * intros i x y Hx Hy. apply Hold; [by eapply Hcons|..];
          intros ->; apply Hvl; by eapply list_elem_of_lookup_2.
      * exists a, b. repeat split; [done..|].
        rewrite last_lookup in Hlast. rewrite head_lookup in Hhead.
        apply Hold; [done|..];
          intros ->; apply Hvl; by eapply list_elem_of_lookup_2.
Qed.
End Grown.

(** * Maze generation *)

(** ** The initial grid *)

Lemma wallGrid_dims rows cols :
  hasDims (wallGrid rows cols) (Z.to_nat rows) (Z.to_nat cols).
Proof.
  unfold wallGrid. split.
  - by rewrite length_fmap, length_seqZ.
  - apply Forall_fmap, Forall_forall. intros r _. simpl.
    by rewrite length_fmap, length_seqZ.
Qed.

Lemma wallGrid_cell rows cols cell :
  cell ∈ concat (wallGrid rows cols) -> type cell = Wall.
Proof.
  unfold wallGrid. intros (rowl & Hcell & Hrow)%elem_of_concat.
  apply list_elem_of_fmap in Hrow as (r & -> & _).
  apply list_elem_of_fmap in Hcell as (c & -> & _). done.
Qed.

Lemma wallGrid_typeAt rows cols r c t :
  typeAt (wallGrid rows cols) r c = Some t -> t = Wall.
Proof.
  unfold typeAt. destruct (cellAt _ r c) as [cell|] eqn:Hc; [|done].
  intros [= <-]. apply (wallGrid_cell rows cols).
  apply cellAt_Some in Hc as (_ & _ & rowl & Hrow & Hcell).
  apply elem_of_concat. exists rowl.
  split; by eapply list_elem_of_lookup_2.
Qed.

Lemma wallGrid_coords rows cols r c cell :
  cellAt (wallGrid rows cols) r c = Some cell -> cellPos cell = mkPosition r c.
Proof.
  intros (Hr & Hc & rowl & Hrow & Hcell)%cellAt_Some. unfold wallGrid in Hrow.
  rewrite list_lookup_fmap in Hrow.
  destruct (seqZ 0 rows !! Z.to_nat r) as [r'|] eqn:Hr'; [|done].
  apply lookup_seqZ in Hr' as [-> _]. simplify_eq/=.
  rewrite list_lookup_fmap in Hcell.
  destruct (seqZ 0 cols !! Z.to_nat c) as [c'|] eqn:Hc'; [|done].
  apply lookup_seqZ in Hc' as [-> _]. simplify_eq/=.
  unfold cellPos. simpl. f_equal; lia.
Qed.

Lemma wallGrid_count rows cols t :
  t <> Wall -> countType t (wallGrid rows cols) = 0%nat.
Proof.
  intros Ht. unfold countType. apply filter_length_none.
  intros cell Hc%wallGrid_cell. congruence.
Qed.

(** A cell holding type [t] is counted. *)
Lemma countType_pos grid r c cell :
  cellAt grid r c = Some cell -> (0 < countType (type cell) grid)%nat.
Proof.
  intros Hc.
  destruct (setType_is_Ok grid r c
              (if decide (type cell = Wall) then Passage else Wall))
    as [grid' Hs]; [by eauto|].
  pose proof (countType_setType _ _ _ _ _ _ (type cell) Hs Hc) as Heq.
  rewrite decide_True in Heq by done.
  rewrite decide_False in Heq; [lia|].
  by destruct (type cell).
Qed.

(** ** Rooms and walls *)

Section RoomFacts.
Variables R C : Z.

Lemma odd_double_succ m : Z.odd (2 * m + 1) = true.
Proof. by rewrite Z.add_comm, Z.odd_add_mul_2. Qed.

Lemma odd_double m : Z.odd (2 * m) = false.
Proof. replace (2 * m) with (0 + 2 * m) by lia. by rewrite Z.odd_add_mul_2. Qed.

Lemma latticeAdj_cases (a b : Z * Z) :
  latticeAdj a b <->
  b = (a.1, a.2 + 1) \/ b = (a.1, a.2 - 1) \/
  b = (a.1 + 1, a.2) \/ b = (a.1 - 1, a.2).
Proof.
  destruct a as [a1 a2], b as [b1 b2]; unfold latticeAdj; simpl. split.
  - intros Habs.
    assert ((b1 = a1 /\ b2 = a2 + 1) \/ (b1 = a1 /\ b2 = a2 - 1) \/
            (b1 = a1 + 1 /\ b2 = a2) \/ (b1 = a1 - 1 /\ b2 = a2)) by lia.
    naive_solver.
  - intros [H|[H|[H|H]]]; simplify_eq; lia.
Qed.

Lemma wallBetween_inter a b :
  isRoom R C a -> isRoom R C b -> latticeAdj a b ->
  isInterRoomWall R C (wallBetween a b) = true.
Proof.
  intros [Ha1 Ha2] [Hb1 Hb2] Hadj. unfold isInterRoomWall, wallBetween.
  apply latticeAdj_cases in Hadj.
  destruct a as [a1 a2]; simpl in *.
  destruct Hadj as [-> | [-> | [-> | ->]]]; simpl in *;
    rewrite !bool_decide_eq_true_2 by lia; simpl.
  - replace (a1 + a1 + 1) with (2 * a1 + 1) by lia.
    replace (a2 + (a2 + 1) + 1) with (2 * (a2 + 1)) by lia.
    by rewrite odd_double_succ, odd_double.
  - replace (a1 + a1 + 1) with (2 * a1 + 1) by lia.
    replace (a2 + (a2 - 1) + 1) with (2 * a2) by lia.
    by rewrite odd_double_succ, odd_double.
  - replace (a1 + (a1 + 1) + 1) with (2 * (a1 + 1)) by lia.
    replace (a2 + a2 + 1) with (2 * a2 + 1) by lia.
    by rewrite odd_double_succ, odd_double.
  - replace (a1 + (a1 - 1) + 1) with (2 * a1) by lia.
    replace (a2 + a2 + 1) with (2 * a2 + 1) by lia.
    by rewrite odd_double_succ, odd_double.
Qed.

Lemma wallBetween_inj x y m n :
  latticeAdj x y -> latticeAdj m n -> wallBetween x y = wallBetween m n ->
  (x = m /\ y = n) \/ (x = n /\ y = m).
Proof.
  destruct x as [x1 x2], y as [y1 y2], m as [m1 m2], n as [n1 n2].
  unfold latticeAdj, wallBetween; simpl. intros Hxy Hmn [= H1 H2].
  assert ((x1 = m1 /\ x2 = m2 /\ y1 = n1 /\ y2 = n2) \/
          (x1 = n1 /\ x2 = n2 /\ y1 = m1 /\ y2 = m2)) by lia.
  naive_solver.
Qed.

Lemma isInterRoomWall_gridPoints w :
  isInterRoomWall R C w = true -> w ∈ gridPoints (2 * R + 1) (2 * C + 1).
Proof.
  destruct w as [r c]. unfold isInterRoomWall. simpl.
  intros [[Hr%bool_decide_eq_true Hc%bool_decide_eq_true]%andb_true_iff _]%andb_true_iff.
  apply elem_of_gridPoints. lia.
Qed.

(** Writing a cell that is not an inter-room wall leaves the room graph
    and the number of opened walls as they are. *)
Lemma roomAdj_frame grid r c t grid' a b :
  setType grid r c t = Ok grid' -> isInterRoomWall R C (r, c) = false ->
  roomAdj R C grid' a b <-> roomAdj R C grid a b.
Proof.
  intros Hs Hno. unfold roomAdj.
  assert (isRoom R C a -> isRoom R C b -> latticeAdj a b ->
          typeAt grid' (wallBetween a b).1 (wallBetween a b).2 =
          typeAt grid (wallBetween a b).1 (wallBetween a b).2) as Heq.
  { intros Ha Hb Hadj. eapply typeAt_setType_ne; [done|].
    pose proof (wallBetween_inter a b Ha Hb Hadj) as Hw.
    rewrite <- surjective_pairing. intros Hwe. congruence. }
  split; intros (Ha & Hb & Hadj & Ht); (split; [done|split; [done|split; [done|]]]).
  - by rewrite <- Heq.
  - by rewrite Heq.
Qed.

Lemma openWalls_frame grid r c t grid' :
  setType grid r c t = Ok grid' -> isInterRoomWall R C (r, c) = false ->
  openWalls R C grid' = openWalls R C grid.
Proof.
  intros Hs Hno. unfold openWalls. apply filter_length_ext.
  intros [wr wc] _. unfold isOpenWall. simpl.
  destruct (isInterRoomWall R C (wr, wc)) eqn:Hw; [|done]. simpl.
  rewrite (typeAt_setType_ne _ _ _ _ _ wr wc Hs); [done|]. congruence.
Qed.

Lemma room_cell_not_wall mr mc :
  isInterRoomWall R C (2 * mr + 1, 2 * mc + 1) = false.
Proof.
  unfold isInterRoomWall. simpl. rewrite !odd_double_succ. simpl.
  by rewrite andb_false_r.
Qed.

(** Opening the wall between [m] and [n] adds exactly the edge between
    them. *)
Lemma roomAdj_open grid grid' m n x y :
  isRoom R C m -> isRoom R C n -> latticeAdj m n ->
  setType grid (wallBetween m n).1 (wallBetween m n).2 Passage = Ok grid' ->
  roomAdj R C grid' x y <->
  roomAdj R C grid x y \/ (x = m /\ y = n) \/ (x = n /\ y = m).
Proof.
  intros Hm Hn Hmn Hs. unfold roomAdj. split.
  - intros (Hx & Hy & Hxy & Ht).
    destruct (decide (wallBetween x y = wallBetween m n)) as [Heq|Hne].
    + right. by apply wallBetween_inj.
    + left. split_and!; try done. rewrite <- Ht. symmetry.
      eapply typeAt_setType_ne; [done|].
      rewrite <- !surjective_pairing. done.
  - intros [(Hx & Hy & Hxy & Ht)|[[-> ->]|[-> ->]]].
    + split_and!; try done.
      destruct (decide (wallBetween x y = wallBetween m n)) as [Heq|Hne].
      * rewrite Heq. by eapply typeAt_setType_eq.
      * rewrite <- Ht. eapply typeAt_setType_ne; [done|].
        rewrite <- !surjective_pairing. done.
    + split_and!; try done. by eapply typeAt_setType_eq.
    + split_and!; try done.
      * unfold latticeAdj in *. lia.
      * replace (wallBetween n m) with (wallBetween m n)
          by (unfold wallBetween; f_equal; lia).
        by eapply typeAt_setType_eq.
Qed.

Lemma openWalls_open grid grid' m n :
  isRoom R C m -> isRoom R C n -> latticeAdj m n ->
  ~ roomAdj R C grid m n ->
  setType grid (wallBetween m n).1 (wallBetween m n).2 Passage = Ok grid' ->
  openWalls R C grid' = S (openWalls R C grid).
Proof.
  intros Hm Hn Hmn Hclosed Hs. unfold openWalls.
  pose proof (wallBetween_inter m n Hm Hn Hmn) as Hw.
  apply (filter_length_flip _ _ _ (wallBetween m n)).
  - apply NoDup_gridPoints.
  - by apply isInterRoomWall_gridPoints.
  - unfold isOpenWall. rewrite Hw. simpl. intros Ht%bool_decide_eq_true.
    apply Hclosed. unfold roomAdj. by split_and!.
  - unfold isOpenWall. rewrite Hw. simpl. apply bool_decide_eq_true.
    by eapply typeAt_setType_eq.
  - intros [wr wc] _ Hne. unfold isOpenWall. simpl.
    rewrite (typeAt_setType_ne _ _ _ _ _ wr wc Hs); [done|].
    rewrite <- surjective_pairing. done.
Qed.

(** Marking one more room. *)
Lemma visitedRooms_insert (V : gset (Z * Z)) m :
  isRoom R C m -> m ∉ V ->
  visitedRooms R C ({[m]} ∪ V) = S (visitedRooms R C V).
Proof.
  intros [Hm1 Hm2] HmV. unfold visitedRooms.
  apply (filter_length_flip _ _ _ m).
  - apply NoDup_gridPoints.
  - destruct m. by apply elem_of_gridPoints.
  - done.
  - set_solver.
  - intros x _ Hx. set_solver.
Qed.

Lemma unvisitedRooms_mono (V V' : gset (Z * Z)) :
  V ⊆ V' -> (unvisitedRooms R C V' <= unvisitedRooms R C V)%nat.
Proof.
  intros Hsub. unfold unvisitedRooms. apply filter_length_le. set_solver.
Qed.

Lemma unvisitedRooms_insert (V : gset (Z * Z)) m :
  isRoom R C m -> m ∉ V ->
  (unvisitedRooms R C ({[m]} ∪ V) < unvisitedRooms R C V)%nat.
Proof.
  intros [Hm1 Hm2] HmV. unfold unvisitedRooms.
  apply (filter_length_lt _ _ _ m); [set_solver| |done|set_solver].
  destruct m. by apply elem_of_gridPoints.
Qed.

Lemma visitedRooms_all (V : gset (Z * Z)) :
  0 <= R -> 0 <= C -> (forall m, isRoom R C m -> m ∈ V) ->
  visitedRooms R C V = Z.to_nat (R * C).
Proof.
  intros HR HC Hall. unfold visitedRooms.
  rewrite filter_length_all; [by apply length_gridPoints|].
  intros [r c] Hin%elem_of_gridPoints. by apply Hall.
Qed.
End RoomFacts.

(** ** The carving maintains a spanning tree *)

Lemma countType_setType_zero grid r c t grid' t' :
  setType grid r c t = Ok grid' -> t <> t' ->
  countType t' grid = 0%nat -> countType t' grid' = 0%nat.
Proof.
  intros Hs Hne Hz.
  destruct (cellAt_setType_eq _ _ _ _ _ Hs) as (cell & Hc & _).
  pose proof (countType_setType _ _ _ _ _ _ t' Hs Hc) as Heq.
  rewrite (decide_False (P := t = t')) in Heq by done. lia.
Qed.

Section CarveFacts.
Variable rnd : nat -> nat.
Variables R C : Z.

Lemma inBounds_spec mr mc : inBounds R C mr mc = true <-> isRoom R C (mr, mc).
Proof.
  unfold inBounds, isRoom. simpl.
  rewrite !andb_true_iff, !bool_decide_eq_true. lia.
Qed.

Lemma GenInv_room V grid mr mc grid' :
  GenInv R C V grid ->
  setType grid (2 * mr + 1) (2 * mc + 1) Passage = Ok grid' ->
  GenInv R C V grid'.
Proof.
  intros [Hd Hs He Ht Hr Hc Hxy] Hset. split.
  - by eapply setType_dims.
  - by eapply countType_setType_zero.
  - by eapply countType_setType_zero.
  - eapply grown_ext; [done|]. intros x y. symmetry.
    eapply roomAdj_frame; [done|]. apply room_cell_not_wall.
  - done.
  - erewrite openWalls_frame; [done..|]. apply room_cell_not_wall.
  - by eapply setType_coords.
Qed.

Lemma GenInv_open V grid m n grid' :
  GenInv R C V grid -> m ∈ V -> isRoom R C n -> n ∉ V -> latticeAdj m n ->
  setType grid (wallBetween m n).1 (wallBetween m n).2 Passage = Ok grid' ->
  GenInv R C ({[n]} ∪ V) grid'.
Proof.
  intros [Hd Hs He Ht Hr Hc Hxy] Hm Hn HnV Hmn Hset.
  assert (~ roomAdj R C grid m n) as Hclosed.
  { intros Hadj. apply HnV. by eapply (grown_edges _ _ _ m n Ht). }
  split.
  - by eapply setType_dims.
  - by eapply countType_setType_zero.
  - by eapply countType_setType_zero.
  - eapply grown_leaf; [exact Ht|exact Hm|exact HnV|].
    intros x y. eapply roomAdj_open; eauto.
  - intros x [->%elem_of_singleton|Hx]%elem_of_union; auto.
  - rewrite visitedRooms_insert by done.
    rewrite (openWalls_open R C grid grid' m n) by auto.
    rewrite <- Hc. lia.
  - by eapply setType_coords.
Qed.

Lemma carveDirs_adj mr mc d :
  d ∈ carveDirs -> latticeAdj (mr, mc) (mr + d.1, mc + d.2).
Proof.
  unfold carveDirs, latticeAdj. rewrite !elem_of_cons, elem_of_nil.
  intros [->|[->|[->|[->|[]]]]]; cbn [fst snd]; lia.
Qed.

Lemma latticeAdj_carveDirs (m u : Z * Z) :
  latticeAdj m u -> exists d, d ∈ carveDirs /\ u = (m.1 + d.1, m.2 + d.2).
Proof.
  intros [->|[->|[->| ->]]]%latticeAdj_cases; unfold carveDirs.
  - exists (0, 1). split; [set_solver|]. simpl. f_equal; lia.
  - exists (0, -1). split; [set_solver|]. simpl. f_equal; lia.
  - exists (1, 0). split; [set_solver|]. simpl. f_equal; lia.
  - exists (-1, 0). split; [set_solver|]. simpl. f_equal; lia.
Qed.

Section Loop.
Variable rec : Z -> Z -> GenState -> Outcome GenState.
Variable fuel : nat.
Hypothesis rec_spec : forall mr mc st,
  GenInv R C ({[(mr, mc)]} ∪ g_visited st) (g_grid st) ->
  (mr, mc) ∉ g_visited st -> isRoom R C (mr, mc) ->
  (unvisitedRooms R C (g_visited st) <= fuel)%nat ->
  exists st', rec mr mc st = Ok st' /\
    GenInv R C (g_visited st') (g_grid st') /\
    {[(mr, mc)]} ∪ g_visited st ⊆ g_visited st' /\
    closedSince R C (g_visited st) (g_visited st').

Lemma carveLoop_spec mr mc ds : forall st,
  Forall (fun d => d ∈ carveDirs) ds ->
  GenInv R C (g_visited st) (g_grid st) ->
  (mr, mc) ∈ g_visited st ->
  (unvisitedRooms R C (g_visited st) <= fuel)%nat ->
  exists st', foldlM (carveStep R C rec mr mc) st ds = Ok st' /\
    GenInv R C (g_visited st') (g_grid st') /\
    g_visited st ⊆ g_visited st' /\
    closedSince R C (g_visited st) (g_visited st') /\
    forall d, d ∈ ds -> isRoom R C (mr + d.1, mc + d.2) ->
              (mr + d.1, mc + d.2) ∈ g_visited st'.
Proof.
  induction ds as [|[dr dc] ds IH]; intros st Hds Hinv Hm Hfuel.
  { exists st. split_and!; try done.
    - intros v Hv Hnv. done.
    - intros d Hd. by apply elem_of_nil in Hd. }
  apply Forall_cons in Hds as [Hd Hds]. simpl.
  unfold carveStep at 1.
  destruct (inBounds R C (mr + dr) (mc + dc)) eqn:Hin; simpl.
  2:{ destruct (IH st Hds Hinv Hm Hfuel) as (st' & Hrun & Hinv' & Hsub & Hcl & Hdone).
      exists st'. split_and!; try done.
      intros d [->|Hd']%elem_of_cons Hroom; [|by auto].
      apply inBounds_spec in Hroom. simpl in Hroom. congruence. }
  case_bool_decide as Hvis; simpl.
  { destruct (IH st Hds Hinv Hm Hfuel) as (st' & Hrun & Hinv' & Hsub & Hcl & Hdone).
    exists st'. split_and!; try done.
    intros d [->|Hd']%elem_of_cons Hroom; [|by auto].
    simpl. by apply Hsub. }
  apply inBounds_spec in Hin.
  pose proof (gi_rooms _ _ _ _ Hinv _ Hm) as Hmroom.
  pose proof (carveDirs_adj mr mc _ Hd) as Hadj. simpl in Hadj.
  replace (2 * mr + 1 + dr) with (wallBetween (mr, mc) (mr + dr, mc + dc)).1
    by (simpl; lia).
  replace (2 * mc + 1 + dc) with (wallBetween (mr, mc) (mr + dr, mc + dc)).2
    by (simpl; lia).
  destruct (setType_is_Ok (g_grid st)
              (wallBetween (mr, mc) (mr + dr, mc + dc)).1
              (wallBetween (mr, mc) (mr + dr, mc + dc)).2 Passage)
    as [grid2 Hset].
  { eapply cellAt_is_Some; [apply (gi_dims _ _ _ _ Hinv)|..];
      destruct Hmroom, Hin; simpl in *; lia. }
  rewrite Hset. simpl.
  pose proof (GenInv_open _ _ _ _ _ Hinv Hm Hin Hvis Hadj Hset) as Hinv2.
  destruct (rec_spec (mr + dr) (mc + dc)
              (mkGen grid2 (g_visited st) (g_calls st)))
    as (st3 & Hrec & Hinv3 & Hsub3 & Hcl3); simpl; try done.
  rewrite Hrec. simpl in Hsub3, Hcl3.
  destruct (IH st3 Hds Hinv3) as (st' & Hrun & Hinv' & Hsub & Hcl & Hdone).
  { set_solver. }
  { etrans; [|exact Hfuel]. apply unvisitedRooms_mono. set_solver. }
  exists st'. split_and!; try done.
  - set_solver.
  - intros v Hv Hnv u Hu Hvu.
    destruct (decide (v ∈ g_visited st3)) as [Hv3|Hv3].
    + apply Hsub. by eapply Hcl3.
    + by eapply Hcl.
  - intros d [->|Hd']%elem_of_cons Hroom; [|by auto].
    simpl. set_solver.
Qed.
End Loop.

Lemma carveFrom_S fuel mr mc st :
  carveFrom rnd R C (S fuel) mr mc st =
  grid ← setType (g_grid st) (2 * mr + 1) (2 * mc + 1) Passage;
  foldlM (carveStep R C (carveFrom rnd R C fuel) mr mc)
    (mkGen grid ({[(mr, mc)]} ∪ g_visited st)
       (shuffleFrom rnd (length carveDirs - 1) (g_calls st) carveDirs).2)
    (shuffleFrom rnd (length carveDirs - 1) (g_calls st) carveDirs).1.
Proof.
  cbn [carveFrom]. destruct (setType _ _ _ _); [|done..].
  cbn [mbind Outcome_bind]. by destruct (shuffleFrom _ _ _ _).
Qed.

Lemma carveFrom_spec fuel : forall mr mc st,
  GenInv R C ({[(mr, mc)]} ∪ g_visited st) (g_grid st) ->
  (mr, mc) ∉ g_visited st -> isRoom R C (mr, mc) ->
  (unvisitedRooms R C (g_visited st) <= fuel)%nat ->
  exists st', carveFrom rnd R C fuel mr mc st = Ok st' /\
    GenInv R C (g_visited st') (g_grid st') /\
    {[(mr, mc)]} ∪ g_visited st ⊆ g_visited st' /\
    closedSince R C (g_visited st) (g_visited st').
Proof.
  induction fuel as [|fuel IH]; intros mr mc st Hinv Hnew Hroom Hfuel.
  { pose proof (unvisitedRooms_insert R C _ _ Hroom Hnew). lia. }
  rewrite carveFrom_S.
  destruct (setType_is_Ok (g_grid st) (2 * mr + 1) (2 * mc + 1) Passage)
    as [grid1 Hset].
  { eapply cellAt_is_Some; [apply (gi_dims _ _ _ _ Hinv)|..];
      destruct Hroom; simpl in *; lia. }
  rewrite Hset. cbn [mbind Outcome_bind].
  pose proof (shuffleFrom_Permutation rnd (length carveDirs - 1)
                (g_calls st) carveDirs) as Hperm.
  destruct (shuffleFrom rnd (length carveDirs - 1) (g_calls st) carveDirs)
    as [dirs calls]. cbn [fst snd] in *.
  destruct (carveLoop_spec _ fuel IH mr mc dirs
              (mkGen grid1 ({[(mr, mc)]} ∪ g_visited st) calls))
    as (st' & Hrun & Hinv' & Hsub & Hcl & Hdone); simpl.
  - apply Forall_forall. intros d Hd. by rewrite <- Hperm.
  - by eapply GenInv_room.
  - set_solver.
  - pose proof (unvisitedRooms_insert R C _ _ Hroom Hnew). lia.
  - exists st'. simpl in *. split; [done|]. split; [done|].
    split; [set_solver|].
    intros v Hv Hnv u Hu Hvu.
    destruct (decide (v = (mr, mc))) as [->|Hne].
    + apply latticeAdj_carveDirs in Hvu as (d & Hd & ->). simpl in *.
      apply Hdone; [by rewrite Hperm|done].
    + eapply Hcl; eauto. set_solver.
Qed.

(** A set of rooms that contains the first room and is closed under
    lattice neighbours contains every room. *)
Lemma closed_all_rooms (V : gset (Z * Z)) :
  (0, 0) ∈ V -> closedSince R C ∅ V -> forall m, isRoom R C m -> m ∈ V.
Proof.
  intros Hroot Hcl.
  assert (forall k : nat, forall m, isRoom R C m ->
            (Z.to_nat m.1 + Z.to_nat m.2)%nat = k -> m ∈ V) as Hind.
  { induction k as [|k IH]; intros [m1 m2] [Hm1 Hm2] Hk; simpl in *.
    - assert (m1 = 0 /\ m2 = 0) as [-> ->] by lia. done.
    - destruct (decide (0 < m1)) as [Hpos|Hzero].
      + apply (Hcl (m1 - 1, m2)); [|set_solver| |].
        * apply IH; [split; simpl; lia|simpl; lia].
        * split; simpl; lia.
        * unfold latticeAdj; simpl; lia.
      + apply (Hcl (m1, m2 - 1)); [|set_solver| |].
        * apply IH; [split; simpl; lia|simpl; lia].
        * split; simpl; lia.
        * unfold latticeAdj; simpl; lia. }
  intros m Hm. by eapply Hind.
Qed.
End CarveFacts.

(** ** The generator as a whole *)

Lemma clamp_range n : 5 <= clamp n <= 50.
Proof. unfold clamp. lia. Qed.

Lemma GenInv_initial R C :
  0 < R -> 0 < C ->
  GenInv R C ({[(0, 0)]} ∪ ∅) (wallGrid (2 * R + 1) (2 * C + 1)).
Proof.
  intros HR HC.
  assert (forall x y, ~ roomAdj R C (wallGrid (2 * R + 1) (2 * C + 1)) x y) as Hempty.
  { intros x y (_ & _ & _ & Ht). by apply wallGrid_typeAt in Ht. }
  split.
  - apply wallGrid_dims.
  - by apply wallGrid_count.
  - by apply wallGrid_count.
  - rewrite union_empty_r_L. by apply grown_root.
  - intros m Hm. assert (m = (0, 0)) as -> by set_solver.
    split; simpl; lia.
  - rewrite visitedRooms_insert; [|split; simpl; lia|set_solver].
    unfold openWalls, visitedRooms.
    rewrite !filter_length_none; [done|set_solver|].
    intros w _. unfold isOpenWall.
    intros [_ Ht%bool_decide_eq_true]%andb_true_iff.
    by apply wallGrid_typeAt in Ht.
  - apply wallGrid_coords.
Qed.

(** What [generatePerfectMaze] returns, in terms of the carved state
    [st] and the two writes that follow. *)
Lemma generatePerfectMaze_run rnd mazeRows mazeCols :
  let R := clamp mazeRows in
  let C := clamp mazeCols in
  exists st grid1 grid,
    generatePerfectMaze rnd mazeRows mazeCols = Ok grid /\
    setType (g_grid st) 1 0 Start = Ok grid1 /\
    setType grid1 (2 * R + 1 - 2) (2 * C + 1 - 1) End_ = Ok grid /\
    GenInv R C (g_visited st) (g_grid st) /\
    forall m, isRoom R C m -> m ∈ g_visited st.
Proof.
  intros R C.
  pose proof (clamp_range mazeRows) as HR. pose proof (clamp_range mazeCols) as HC.
  fold R in HR. fold C in HC.
  destruct (carveFrom_spec rnd R C (Z.to_nat (R * C)) 0 0
              (mkGen (wallGrid (2 * R + 1) (2 * C + 1)) ∅ 0))
    as (st & Hrun & Hinv & Hsub & Hcl); simpl.
  { apply GenInv_initial; lia. }
  { set_solver. }
  { split; simpl; lia. }
  { unfold unvisitedRooms. rewrite <- length_gridPoints by lia.
    apply length_filter. }
  simpl in Hsub, Hcl.
  destruct (setType_is_Ok (g_grid st) 1 0 Start) as [grid1 Hs1].
  { eapply cellAt_is_Some; [apply (gi_dims _ _ _ _ Hinv)|..]; lia. }
  destruct (setType_is_Ok grid1 (2 * R + 1 - 2) (2 * C + 1 - 1) End_)
    as [grid Hs2].
  { eapply cellAt_is_Some;
      [eapply setType_dims; [exact Hs1|apply (gi_dims _ _ _ _ Hinv)]|..]; lia. }
  exists st, grid1, grid. split_and!; try done.
  - unfold generatePerfectMaze. fold R C. rewrite Hrun. simpl.
    rewrite Hs1. simpl. exact Hs2.
  - apply closed_all_rooms; [set_solver|done].
Qed.

Lemma connectedOn_ext {A : Type} (V V' : A -> Prop) (E E' : relation A) :
  (forall x, V' x -> V x) -> (forall x y, E x y -> E' x y) ->
  connectedOn V E -> connectedOn V' E'.
Proof.
  intros HV HE Hc a b Ha Hb.
  eapply rtc_subrel; [|apply Hc; auto]. intros ? ? ?. by apply HE.
Qed.

Lemma acyclic_ext {A : Type} (E E' : relation A) :
  (forall x y, E' x y -> E x y) -> acyclic E -> acyclic E'.
Proof.
  intros HE Hac l (Hlen & Hnd & Hcons & a & b & Hlast & Hhead & Hab).
  apply (Hac l). split_and!; try done.
  - intros i x y Hx Hy. apply HE. by eapply Hcons.
  - exists a, b. split_and!; try done. by apply HE.
Qed.

Lemma entrance_not_wall R C : isInterRoomWall R C (1, 0) = false.
Proof.
  unfold isInterRoomWall. cbn [fst snd].
  rewrite (bool_decide_eq_false_2 (0 < 0 < 2 * C)) by lia.
  by rewrite andb_false_r.
Qed.

Lemma exit_not_wall R C :
  isInterRoomWall R C (2 * R + 1 - 2, 2 * C + 1 - 1) = false.
Proof.
  unfold isInterRoomWall. cbn [fst snd].
  rewrite (bool_decide_eq_false_2 (0 < 2 * C + 1 - 1 < 2 * C)) by lia.
  by rewrite andb_false_r.
Qed.

(** C3 (as amended): the entrance is at [(1, 0)] and the exit at
    [(2 * R - 1, 2 * C)], the opening of the bottom-right room onto the
    right edge, whatever the random choices were. *)
Theorem generatePerfectMaze_endpoints rnd mazeRows mazeCols :
  exists grid,
    generatePerfectMaze rnd mazeRows mazeCols = Ok grid /\
    typeAt grid 1 0 = Some Start /\
    typeAt grid (2 * clamp mazeRows - 1) (2 * clamp mazeCols) = Some End_.
Proof.
  destruct (generatePerfectMaze_run rnd mazeRows mazeCols)
    as (st & grid1 & grid & Hgen & Hs1 & Hs2 & Hinv & _).
  pose proof (clamp_range mazeRows). pose proof (clamp_range mazeCols).
  exists grid. split; [done|]. split.
  - rewrite (typeAt_setType_ne _ _ _ _ _ 1 0 Hs2).
    + exact (typeAt_setType_eq _ _ _ _ _ Hs1).
    + intros [= ? ?]. lia.
  - replace (2 * clamp mazeRows - 1) with (2 * clamp mazeRows + 1 - 2) by lia.
    replace (2 * clamp mazeCols) with (2 * clamp mazeCols + 1 - 1) by lia.
    exact (typeAt_setType_eq _ _ _ _ _ Hs2).
Qed.

(** C3 (as stated) fails: in a 5 x 5 maze the cell at [(2 * R, 2 * C)] is
    the bottom-right corner of the border, a wall. *)
Lemma generatePerfectMaze_corner_is_wall :
  exists grid,
    generatePerfectMaze (fun _ => 0%nat) 5 5 = Ok grid /\
    typeAt grid 1 0 = Some Start /\
    typeAt grid (2 * clamp 5) (2 * clamp 5) = Some Wall /\
    typeAt grid (2 * clamp 5) (2 * clamp 5) <> Some End_.
Proof.
  eexists. split; [vm_compute; reflexivity|]. by vm_compute.
Qed.

(** C9: the generator is total; the grid has [2 * R + 1] rows of
    [2 * C + 1] cells each, where [R] and [C] are the inputs clamped to
    [5 .. 50], and holds exactly one start cell and one end cell. *)
Theorem generatePerfectMaze_shape rnd mazeRows mazeCols :
  exists grid,
    generatePerfectMaze rnd mazeRows mazeCols = Ok grid /\
    Z.of_nat (length grid) = 2 * Z.min 50 (Z.max 5 mazeRows) + 1 /\
    (forall rowl, rowl ∈ grid ->
       Z.of_nat (length rowl) = 2 * Z.min 50 (Z.max 5 mazeCols) + 1) /\
    countType Start grid = 1%nat /\
    countType End_ grid = 1%nat.
Proof.
  destruct (generatePerfectMaze_run rnd mazeRows mazeCols)
    as (st & grid1 & grid & Hgen & Hs1 & Hs2 & Hinv & _).
  pose proof (clamp_range mazeRows) as HR.
  pose proof (clamp_range mazeCols) as HC.
  fold (clamp mazeRows) (clamp mazeCols).
  set (R := clamp mazeRows) in *. set (C := clamp mazeCols) in *.
  destruct Hinv as [Hd Hcs Hce _ _ _ _].
  assert (hasDims grid (Z.to_nat (2 * R + 1)) (Z.to_nat (2 * C + 1))) as [Hlen Hall]
    by (eapply setType_dims; [exact Hs2|]; by eapply setType_dims).
  destruct (cellAt_setType_eq _ _ _ _ _ Hs1) as (c1 & Hc1 & Hc1').
  destruct (cellAt_setType_eq _ _ _ _ _ Hs2) as (c2 & Hc2 & _).
  pose proof (countType_pos _ _ _ _ Hc1) as Hp1.
  pose proof (countType_pos _ _ _ _ Hc2) as Hp2.
  pose proof (countType_setType _ _ _ _ _ _ Start Hs1 Hc1) as Es1.
  pose proof (countType_setType _ _ _ _ _ _ End_ Hs1 Hc1) as Ee1.
  pose proof (countType_setType _ _ _ _ _ _ Start Hs2 Hc2) as Es2.
  pose proof (countType_setType _ _ _ _ _ _ End_ Hs2 Hc2) as Ee2.
  assert (type c1 <> Start) as Hn1 by (intros Heq; rewrite Heq in Hp1; lia).
  assert (type c1 <> End_) as Hn1' by (intros Heq; rewrite Heq in Hp1; lia).
  rewrite (decide_False (P := type c1 = Start)) in Es1 by done.
  rewrite (decide_False (P := type c1 = End_)) in Ee1 by done.
  rewrite (decide_True (P := Start = Start)) in Es1 by done.
  rewrite (decide_False (P := Start = End_)) in Ee1 by done.
  assert (type c2 <> End_) as Hn2 by (intros Heq; rewrite Heq in Hp2; lia).
  assert (type c2 <> Start) as Hn2'.
  { rewrite (cellAt_setType_ne _ _ _ _ _ _ _ Hs1) in Hc2
      by (intros [= ? ?]; lia).
    pose proof (countType_pos _ _ _ _ Hc2) as Hp2'.
    intros Heq; rewrite Heq in Hp2'; lia. }
  rewrite (decide_False (P := type c2 = Start)) in Es2 by done.
  rewrite (decide_False (P := type c2 = End_)) in Ee2 by done.
  rewrite (decide_False (P := End_ = Start)) in Es2 by done.
  rewrite (decide_True (P := End_ = End_)) in Ee2 by done.
  exists grid. split_and!; [done|lia| |lia|lia].
  intros rowl Hrow. rewrite Forall_forall in Hall.
  rewrite (Hall _ Hrow). lia.
Qed.

(** C5: for every input and every sequence of random choices the
    room-adjacency graph of the generated maze is connected and acyclic,
    and exactly [R * C - 1] inter-room walls are open. *)
Theorem generatePerfectMaze_spanning_tree rnd mazeRows mazeCols :
  let R := clamp mazeRows in
  let C := clamp mazeCols in
  exists grid,
    generatePerfectMaze rnd mazeRows mazeCols = Ok grid /\
    connectedOn (isRoom R C) (roomAdj R C grid) /\
    acyclic (roomAdj R C grid) /\
    Z.of_nat (openWalls R C grid) = R * C - 1.
Proof.
  intros R C.
  destruct (generatePerfectMaze_run rnd mazeRows mazeCols)
    as (st & grid1 & grid & Hgen & Hs1 & Hs2 & Hinv & Hall).
  fold R C in Hs2, Hinv, Hall.
  pose proof (clamp_range mazeRows) as HR.
  pose proof (clamp_range mazeCols) as HC. fold R in HR. fold C in HC.
  assert (forall x y, roomAdj R C grid x y <-> roomAdj R C (g_grid st) x y) as Hadj.
  { intros x y.
    rewrite (roomAdj_frame R C _ _ _ _ _ x y Hs2 (exit_not_wall R C)).
    apply (roomAdj_frame R C _ _ _ _ _ x y Hs1 (entrance_not_wall R C)). }
  destruct Hinv as [_ _ _ Htree _ Hcount _].
  exists grid. split_and!; [done| | |].
  - eapply connectedOn_ext; [| |eapply grown_connected; exact Htree].
    + intros x Hx. by apply Hall.
    + intros x y Hxy. by apply Hadj.
  - eapply acyclic_ext; [|eapply grown_acyclic; exact Htree].
    intros x y Hxy. by apply Hadj.
  - rewrite (openWalls_frame R C _ _ _ _ _ Hs2 (exit_not_wall R C)).
    rewrite (openWalls_frame R C _ _ _ _ _ Hs1 (entrance_not_wall R C)).
    rewrite (visitedRooms_all R C) in Hcount by (done || lia). nia.
Qed.

(** * Animation *)

(** ** Cell updates *)

Lemma stage_withType_self cell : withType cell (type cell) = cell.
Proof. by destruct cell. Qed.

Lemma visitedCell_advances visitedSet cell :
  advances cell (visitedCell visitedSet cell).
Proof.
  unfold advances, visitedCell.
  destruct cell as [r c t]; simpl.
  destruct t; repeat (case_bool_decide; simpl); simpl;
    split_and!; try done; try lia; naive_solver.
Qed.

Lemma pathCell_advances keyToIndex i cell :
  advances cell (pathCell keyToIndex i cell).
Proof.
  unfold advances, pathCell.
  destruct cell as [r c t]; simpl.
  destruct (keyToIndex !! _) as [idx|];
    destruct t; repeat (case_bool_decide; simpl); simpl;
    split_and!; try done; try lia; naive_solver.
Qed.

Lemma finalizeCell_advances cell : advances cell (finalizeCell cell).
Proof.
  unfold advances, finalizeCell.
  destruct cell as [r c t]; simpl.
  destruct t; repeat (case_bool_decide; simpl); simpl;
    split_and!; try done; try lia; naive_solver.
Qed.

Lemma mapGrid_Forall2 (P : Cell -> Cell -> Prop) f grid :
  (forall cell, P cell (f cell)) ->
  Forall2 (Forall2 P) grid (mapGrid f grid).
Proof.
  intros Hf. unfold mapGrid.
  induction grid as [|rowl grid IH]; constructor; [|done].
  induction rowl; constructor; auto.
Qed.

Lemma mapGrid_id grid : mapGrid (fun c => c) grid = grid.
Proof.
  unfold mapGrid. rewrite <- (list_fmap_id grid) at 2.
  apply list_fmap_ext. intros _ rowl _. apply list_fmap_id.
Qed.

Lemma cellAt_mapGrid f grid r c :
  cellAt (mapGrid f grid) r c = f <$> cellAt grid r c.
Proof.
  unfold cellAt, mapGrid. case_bool_decide; [|done].
  rewrite list_lookup_fmap.
  destruct (grid !! Z.to_nat r) as [rowl|]; simpl; [|done].
  apply list_lookup_fmap.
Qed.

(** C7: whichever animation step runs, visited playback, path playback
    or finalization, every cell keeps its position, a start or end cell
    is left exactly as it was, a path or pathHead cell does not become
    visited, and no cell moves backwards in the ordering passage,
    visited, path/pathHead. *)
Theorem animation_step_advances cb a :
  Forall2 (Forall2 advances) (grid a) (grid (runCallback cb a)).
Proof.
  destruct cb as [pos i len|keyToIndex i len baseDelay alg|alg|]; simpl.
  - case_bool_decide; simpl;
      apply mapGrid_Forall2, visitedCell_advances.
  - case_bool_decide; simpl;
      apply mapGrid_Forall2, pathCell_advances.
  - apply mapGrid_Forall2, finalizeCell_advances.
  - rewrite <- (mapGrid_id (grid a)) at 2.
    apply mapGrid_Forall2. intros c. split_and!; [done|done| |done].
    intros [Hc|Hc]; rewrite Hc; done.
Qed.

(** ** Scheduling *)

(** A [forEach] that sets one tracked timer per element. *)
Lemma schedule_fold (mk : nat -> Position -> Callback) (delay : nat -> Z)
    (l : list Position) (a : App) :
  foldl (fun a '(i, pos) => setTimeout true (mk i pos) (delay i) a) a
        (imap pair l) =
  mkApp (grid a) (algorithm a) (speed a) (status a) (pathLength a)
        (visitedCount a) (isAnimating a)
        (timeoutsRef a ++ imap (fun i _ => (nextId a + i)%nat) l)
        (timers a ++
         imap (fun i pos => mkTimer (nextId a + i) (clock a + delay i) (mk i pos)) l)
        (clock a) (nextId a + length l) (visitedSet a).
Proof.
  induction l as [|x l IH] using rev_ind.
  - destruct a; simpl. by rewrite !app_nil_r, Nat.add_0_r.
  - rewrite !imap_app, foldl_app, IH. simpl.
    unfold setTimeout. simpl. rewrite !Nat.add_0_r, length_app. simpl.
    rewrite <- !app_assoc. f_equal. lia.
Qed.

Lemma earliest_head t ts :
  Forall (fun t' => t_at t <= t_at t') ts -> earliest t ts = t.
Proof.
  induction 1 as [|t' ts Hle _ IH]; simpl; [done|].
  by rewrite bool_decide_eq_false_2 by lia.
Qed.

Lemma filter_other_ids t ts :
  Forall (fun t' => t_id t' <> t_id t) ts ->
  filter (fun t' => t_id t' <> t_id t) (t :: ts) = ts.
Proof.
  intros Hall. rewrite filter_cons, decide_False by naive_solver.
  induction Hall as [|t' ts Hne _ IH]; [done|].
  by rewrite filter_cons, decide_True, IH.
Qed.

Lemma timersOk_cons t ts :
  timersOk (t :: ts) ->
  Forall (fun t' => t_at t <= t_at t') ts /\
  Forall (fun t' => t_id t' <> t_id t) ts /\
  timersOk ts.
Proof.
  intros Hok. split_and!.
  - apply Forall_lookup. intros j t' Hj.
    by apply (Hok 0%nat (S j) t t'); [lia|done|done].
  - apply Forall_lookup. intros j t' Hj.
    destruct (Hok 0%nat (S j) t t') as [_ Hid]; [lia|done|done|]. congruence.
  - intros i j ti tj Hij Hi Hj. by apply (Hok (S i) (S j)); [lia|done|done].
Qed.


Lemma runCallback_quiet cb a :
  quiet cb ->
  timers (runCallback cb a) = timers a /\
  clock (runCallback cb a) = clock a /\
  isAnimating (runCallback cb a) = isAnimating a /\
  nextId (runCallback cb a) = nextId a.
Proof.
  destruct cb as [pos i len|keyToIndex i len baseDelay alg|alg|]; simpl;
    intros Hq; [|rewrite bool_decide_eq_false_2 by done|done|];
    try case_bool_decide; done.
Qed.


Lemma baseDelayOf_pos s : 0 < baseDelayOf s.
Proof. by destruct s. Qed.


Lemma schedule_timersOk (d t0 : Z) (id0 : nat) (vo p : list Position)
    (cbv cbp : nat -> Position -> Callback) :
  0 <= d ->
  timersOk
    (imap (fun i pos => mkTimer (id0 + i) (t0 + d * Z.of_nat i) (cbv i pos)) vo ++
     imap (fun i pos => mkTimer (id0 + length vo + i)
                          (t0 + (d * Z.of_nat (length vo) + d * Z.of_nat i))
                          (cbp i pos)) p).
Proof.
  intros Hd i j ti tj Hij Hi Hj.
  assert (forall k t,
    (imap (fun i pos => mkTimer (id0 + i) (t0 + d * Z.of_nat i) (cbv i pos)) vo ++
     imap (fun i pos => mkTimer (id0 + length vo + i)
                          (t0 + (d * Z.of_nat (length vo) + d * Z.of_nat i))
                          (cbp i pos)) p) !! k = Some t ->
    t_at t = t0 + d * Z.of_nat k /\ t_id t = (id0 + k)%nat) as Hshape.
  { intros k t Hk. apply lookup_app_Some in Hk as [Hk|[Hlen Hk]].
    - apply list_lookup_imap_Some in Hk as (pos & _ & ->). done.
    - rewrite length_imap in Hlen, Hk.
      apply list_lookup_imap_Some in Hk as (pos & _ & ->). simpl.
      split; [|lia]. nia. }
  destruct (Hshape _ _ Hi) as [-> ->], (Hshape _ _ Hj) as [-> ->].
  split; [nia|lia].
Qed.

Lemma runCallback_last_path keyToIndex i len d alg a :
  i = (len - 1)%nat -> timers a = [] ->
  let a' := runCallback (PathTick keyToIndex i len d alg) a in
  timers a' = [mkTimer (nextId a) (clock a + d * 2) (FinalizeTick alg)] /\
  isAnimating a' = isAnimating a /\ clock a' = clock a.
Proof.
  intros Hi Ht. simpl. rewrite bool_decide_eq_true_2 by done.
  simpl. by rewrite Ht.
Qed.

Lemma runCallback_last_path_id keyToIndex i len d alg a :
  i = (len - 1)%nat ->
  nextId (runCallback (PathTick keyToIndex i len d alg) a) = S (nextId a).
Proof. intros Hi. simpl. by rewrite bool_decide_eq_true_2 by done. Qed.

Lemma runLoop_S n a t a' :
  fireNext a = Some (t, a') ->
  runLoop (S n) a =
  (mkFired (clock a') (kindOf (t_cb t)) (isAnimating a') :: (runLoop n a').1,
   (runLoop n a').2).
Proof. intros Hf. simpl. rewrite Hf. by destruct (runLoop n a'). Qed.


(** ** Solving without a path *)

Lemma clearCell_unmarked cell : isMark (type (clearCell cell)) = false.
Proof.
  unfold clearCell. destruct (isMark (type cell)) eqn:Hm; [done|exact Hm].
Qed.

Lemma mapGrid_elem f grid cell :
  cell ∈ concat (mapGrid f grid) -> exists cell0, cell = f cell0.
Proof.
  intros (rowl & Hcell & Hrow)%elem_of_concat. unfold mapGrid in Hrow.
  apply list_elem_of_fmap in Hrow as (rowl0 & -> & _).
  apply list_elem_of_fmap in Hcell as (cell0 & -> & _). eauto.
Qed.

Lemma filter_no_ids (ts : list Timer) :
  filter (fun t => t_id t ∉ @nil nat) ts = ts.
Proof.
  induction ts as [|t ts IH]; [done|].
  rewrite filter_cons, decide_True by apply not_elem_of_nil. by rewrite IH.
Qed.

(** * Pathfinding: basic facts *)

(** ** [posKey] is injective *)

Lemma pretty_N_go_noDash x : forall s, noDash s -> noDash (pretty_N_go x s).
Proof.
  induction (N.lt_wf_0 x) as [x _ IH]; intros s Hs.
  assert (x = 0 \/ 0 < x)%N as [->|Hx] by lia.
  - by rewrite pretty_N_go_0.
  - rewrite pretty_N_go_step by done. apply IH; [by apply N.div_lt|].
    split; [|done]. unfold pretty_N_char. by repeat case_match.
Qed.

Lemma pretty_N_go_nonempty x s : s <> EmptyString -> pretty_N_go x s <> EmptyString.
Proof.
  revert s. induction (N.lt_wf_0 x) as [x _ IH]; intros s Hs.
  assert (x = 0 \/ 0 < x)%N as [->|Hx] by lia.
  - by rewrite pretty_N_go_0.
  - rewrite pretty_N_go_step by done. apply IH; [by apply N.div_lt|done].
Qed.

Lemma pretty_N_shape (n : N) : noDash (pretty n) /\ pretty n <> EmptyString.
Proof.
  unfold pretty, pretty_N. case_decide as Hn; [done|]. split.
  - by apply pretty_N_go_noDash.
  - assert (0 < n)%N by lia. rewrite pretty_N_go_step by done.
    by apply pretty_N_go_nonempty.
Qed.

Lemma pretty_Z_shape (z : Z) :
  exists s, noDash s /\ s <> EmptyString /\ (pretty z = s \/ pretty z = "-" +:+ s).
Proof.
  destruct z as [|x|x]; unfold pretty, pretty_Z.
  - exists "0". split_and!; [done|done|by left].
  - exists (pretty (N.pos x)). destruct (pretty_N_shape (N.pos x)). auto.
  - exists (pretty (N.pos x)). destruct (pretty_N_shape (N.pos x)). auto.
Qed.

Lemma split_at_dash a : forall a' b b',
  noDash a -> noDash a' ->
  a +:+ "-" +:+ b = a' +:+ "-" +:+ b' -> a = a' /\ b = b'.
Proof.
  induction a as [|c a IH]; intros [|c' a'] b b' Ha Ha' Heq; simpl in *.
  - by simplify_eq.
  - destruct Ha'. simplify_eq.
  - destruct Ha. simplify_eq.
  - destruct Ha, Ha'. injection Heq as -> Heq.
    destruct (IH a' b b') as [-> ->]; auto.
Qed.

Lemma posKey_inj p q : posKey p = posKey q -> p = q.
Proof.
  destruct p as [r c], q as [r' c']. unfold posKey. cbn [row col]. intros Heq.
  destruct (pretty_Z_shape r) as (s & Hs & Hne & Hr).
  destruct (pretty_Z_shape r') as (s' & Hs' & Hne' & Hr').
  assert (pretty r = pretty r' /\ pretty c = pretty c') as [Hrr Hcc].
  { destruct Hr as [Hr|Hr], Hr' as [Hr'|Hr']; rewrite Hr, Hr' in Heq |- *.
    - by apply split_at_dash.
    - destruct s as [|ch s]; [done|]. destruct Hs. simpl in Heq. simplify_eq.
    - destruct s' as [|ch s']; [done|]. destruct Hs'. simpl in Heq. simplify_eq.
    - simpl in Heq. injection Heq as Heq.
      apply split_at_dash in Heq as [Hss Hcc']; [|done..].
      cbv [String.append] in Hss. split; congruence. }
  apply (inj pretty) in Hrr, Hcc. by subst.
Qed.

(** ** Well-formed grids *)

Lemma rowOk_lookup r c0 rowl i cell :
  rowOk r c0 rowl = true -> rowl !! i = Some cell ->
  cell_row cell = r /\ cell_col cell = c0 + Z.of_nat i.
Proof.
  revert c0 i; induction rowl as [|x rowl IH]; intros c0 i Hok Hi; [done|].
  simpl in Hok. apply andb_true_iff in Hok as [Hx Hok].
  apply andb_true_iff in Hx as [Hr%bool_decide_eq_true Hc%bool_decide_eq_true].
  destruct i as [|i]; simplify_eq/=; [split; [done|lia]|].
  destruct (IH _ _ Hok Hi) as [-> ->]. split; [done|lia].
Qed.

Lemma rowsOk_lookup cols r0 grid i rowl :
  rowsOk cols r0 grid = true -> grid !! i = Some rowl ->
  length rowl = cols /\ rowOk (r0 + Z.of_nat i) 0 rowl = true.
Proof.
  revert r0 i; induction grid as [|x grid IH]; intros r0 i Hok Hi; [done|].
  simpl in Hok. apply andb_true_iff in Hok as [Hx Hok].
  apply andb_true_iff in Hx as [Hl%bool_decide_eq_true Hr].
  destruct i as [|i]; simplify_eq/=.
  - split; [done|]. by replace (r0 + Z.of_nat 0) with r0 by lia.
  - destruct (IH _ _ Hok Hi) as [Hlen Hrow]. split; [done|].
    by replace (r0 + Z.of_nat (S i)) with (r0 + 1 + Z.of_nat i) by lia.
Qed.

Lemma wfGrid_dims grid :
  wfGrid grid = true -> hasDims grid (length grid) (gridCols grid).
Proof.
  intros Hwf. split; [done|]. apply Forall_lookup. intros i rowl Hi.
  by destruct (rowsOk_lookup _ _ _ _ _ Hwf Hi).
Qed.

Lemma wfGrid_coords grid r c cell :
  wfGrid grid = true -> cellAt grid r c = Some cell ->
  cellPos cell = mkPosition r c.
Proof.
  intros Hwf (Hr & Hc & rowl & Hrow & Hcell)%cellAt_Some.
  destruct (rowsOk_lookup _ _ _ _ _ Hwf Hrow) as [_ Hok].
  destruct (rowOk_lookup _ _ _ _ _ Hok Hcell) as [Hcr Hcc].
  unfold cellPos. f_equal; lia.
Qed.

Lemma rowOk_intro r rowl : forall c0,
  (forall j cell, rowl !! j = Some cell ->
     cell_row cell = r /\ cell_col cell = c0 + Z.of_nat j) ->
  rowOk r c0 rowl = true.
Proof.
  induction rowl as [|x rowl IH]; intros c0 Hall; [done|].
  simpl. destruct (Hall 0%nat x eq_refl) as [Hr Hc].
  rewrite !bool_decide_eq_true_2 by lia. simpl. apply IH.
  intros j cell Hj. destruct (Hall (S j) cell Hj) as [? ?]. split; [done|lia].
Qed.

Lemma rowsOk_intro cols grid : forall r0,
  (forall i rowl, grid !! i = Some rowl ->
     length rowl = cols /\
     forall j cell, rowl !! j = Some cell ->
       cell_row cell = r0 + Z.of_nat i /\ cell_col cell = Z.of_nat j) ->
  rowsOk cols r0 grid = true.
Proof.
  induction grid as [|x grid IH]; intros r0 Hall; [done|].
  simpl. destruct (Hall 0%nat x eq_refl) as [Hl Hcells].
  rewrite bool_decide_eq_true_2 by done. rewrite rowOk_intro; simpl.
  - apply IH. intros i rowl Hi. destruct (Hall (S i) rowl Hi) as [? Hc].
    split; [done|]. intros j cell Hj. destruct (Hc j cell Hj). split; lia.
  - intros j cell Hj. destruct (Hcells j cell Hj). split; lia.
Qed.

(** A rectangular grid whose cells carry their own coordinates is
    well formed. *)
Lemma wfGrid_intro grid rows cols :
  hasDims grid rows cols ->
  (forall r c cell, cellAt grid r c = Some cell -> cellPos cell = mkPosition r c) ->
  wfGrid grid = true.
Proof.
  intros [Hlen Hall] Hcoords. unfold wfGrid.
  rewrite Forall_lookup in Hall. apply rowsOk_intro.
  intros i rowl Hi. split.
  - rewrite (Hall _ _ Hi). destruct grid as [|row0 rest]; [done|].
    simpl. symmetry. by apply (Hall 0%nat).
  - intros j cell Hj.
    assert (cellAt grid (Z.of_nat i) (Z.of_nat j) = Some cell) as Hc.
    { apply cellAt_Some. split; [lia|]. split; [lia|].
      exists rowl. by rewrite !Nat2Z.id. }
    apply Hcoords in Hc. unfold cellPos in Hc. simplify_eq. split; lia.
Qed.

Lemma cellAt_of_elem grid cell :
  cell ∈ concat grid -> exists r c, cellAt grid r c = Some cell.
Proof.
  intros (rowl & Hcell & Hrow)%elem_of_concat.
  apply list_elem_of_lookup in Hrow as [i Hi].
  apply list_elem_of_lookup in Hcell as [j Hj].
  exists (Z.of_nat i), (Z.of_nat j). apply cellAt_Some.
  split; [lia|]. split; [lia|]. exists rowl. by rewrite !Nat2Z.id.
Qed.

Lemma elem_of_cellAt grid r c cell :
  cellAt grid r c = Some cell -> cell ∈ concat grid.
Proof.
  intros (_ & _ & rowl & Hrow & Hcell)%cellAt_Some.
  apply elem_of_concat. exists rowl.
  split; by eapply list_elem_of_lookup_2.
Qed.

Lemma passable_spec grid p :
  passable grid p = true <->
  exists cell, cellAt grid (row p) (col p) = Some cell /\ type cell <> Wall.
Proof.
  unfold passable. destruct (cellAt grid (row p) (col p)) as [cell|].
  - rewrite bool_decide_eq_true. naive_solver.
  - naive_solver.
Qed.

Lemma passable_positionsOf grid p :
  wfGrid grid = true -> passable grid p = true -> p ∈ positionsOf grid.
Proof.
  intros Hwf (cell & Hc & _)%passable_spec. unfold positionsOf.
  apply list_elem_of_fmap. exists cell. split; [|by eapply elem_of_cellAt].
  rewrite (wfGrid_coords _ _ _ _ Hwf Hc). by destruct p.
Qed.

Lemma length_concat_dims {A : Type} (ls : list (list A)) rows cols :
  length ls = rows -> Forall (fun l => length l = cols) ls ->
  length (concat ls) = (rows * cols)%nat.
Proof.
  intros <- Hall. induction Hall as [|l ls Hl _ IH]; [done|].
  simpl. rewrite length_app, IH, Hl. lia.
Qed.

Lemma length_positionsOf grid :
  wfGrid grid = true ->
  length (positionsOf grid) = (length grid * gridCols grid)%nat.
Proof.
  intros [Hl Hall]%wfGrid_dims. unfold positionsOf.
  rewrite length_fmap. by apply length_concat_dims.
Qed.

(** ** [getNeighbors] on a well-formed grid *)

Lemma foldlM_not_missing {A B : Type} (f : B -> A -> Outcome B) l : forall b,
  (forall b x, f b x <> Throw MissingEndpoint) ->
  foldlM f b l <> Throw MissingEndpoint.
Proof.
  induction l as [|x l IH]; intros b Hf; simpl; [done|].
  specialize (Hf b x) as Hfx. destruct (f b x); simpl; auto.
Qed.

Lemma getNeighbors_not_missing grid p :
  getNeighbors grid p <> Throw MissingEndpoint.
Proof.
  unfold getNeighbors. destruct grid as [|row0 rest]; [done|].
  apply foldlM_not_missing. intros res [dr dc]. unfold neighborStep.
  repeat case_match; done.
Qed.

Lemma neighborStep_wf grid pos res d :
  wfGrid grid = true ->
  neighborStep grid (Z.of_nat (length grid)) (Z.of_nat (gridCols grid)) pos res d =
  Ok (res ++ filter (fun q => passable grid q = true)
                    [mkPosition (row pos + d.1) (col pos + d.2)]).
Proof.
  intros Hdims%wfGrid_dims. destruct d as [dr dc]. unfold neighborStep.
  cbn [fst snd]. rewrite filter_cons, filter_nil.
  case_bool_decide as Hout.
  - rewrite decide_False, app_nil_r; [done|].
    intros (cell & Hc & _)%passable_spec.
    apply (cellAt_dims _ _ _ _ _ _ Hdims) in Hc. simpl in Hc. lia.
  - destruct (cellAt_is_Some grid _ _ (row pos + dr) (col pos + dc) Hdims)
      as [cell Hc]; [lia..|].
    rewrite Hc. case_bool_decide as Hw.
    + rewrite decide_False, app_nil_r; [done|].
      intros (cell' & Hc' & Hnw)%passable_spec. simpl in Hc'. congruence.
    + rewrite decide_True; [done|].
      apply passable_spec. exists cell. done.
Qed.

Lemma getNeighbors_wf grid p :
  wfGrid grid = true -> grid <> [] ->
  getNeighbors grid p =
  Ok (filter (fun q => passable grid q = true) (around p)).
Proof.
  intros Hwf Hne. unfold getNeighbors.
  destruct grid as [|row0 rest] eqn:Hg; [done|]. rewrite <- Hg in *.
  change (length row0) with (gridCols (row0 :: rest)). rewrite <- Hg.
  unfold deltas, around, deltas. cbn [foldlM fmap list_fmap].
  rewrite !neighborStep_wf by done. cbn [mbind Outcome_bind].
  rewrite !neighborStep_wf by done. cbn [mbind Outcome_bind].
  rewrite !neighborStep_wf by done. cbn [mbind Outcome_bind].
  rewrite !neighborStep_wf by done. cbn [mbind Outcome_bind fst snd app].
  rewrite !filter_cons, !filter_nil.
  repeat case_decide; done.
Qed.

Lemma elem_of_around p q : q ∈ around p <-> adjacent p q = true.
Proof.
  unfold around, deltas, adjacent. cbn [fmap list_fmap fst snd].
  rewrite bool_decide_eq_true, !elem_of_cons, elem_of_nil.
  destruct p as [r c], q as [r' c']; cbn [row col]. split.
  - intros [H|[H|[H|[H|[]]]]]; simplify_eq; lia.
  - intros Habs.
    assert ((r' = r + -1 /\ c' = c + 0) \/ (r' = r + 1 /\ c' = c + 0) \/
            (r' = r + 0 /\ c' = c + -1) \/ (r' = r + 0 /\ c' = c + 1)) by lia.
    naive_solver.
Qed.

Lemma adjacent_sym p q : adjacent p q = adjacent q p.
Proof. unfold adjacent. apply bool_decide_ext. lia. Qed.

(** ** [findStartEnd] *)

Lemma foldl_concat {A B : Type} (f : B -> A -> B) (ls : list (list A)) b :
  foldl (fun acc l => foldl f acc l) b ls = foldl f b (concat ls).
Proof.
  revert b; induction ls as [|l ls IH]; intros b; simpl; [done|].
  by rewrite foldl_app, IH.
Qed.

Lemma scanCell_pick l acc :
  foldl scanCell acc l = (pick Start l acc.1, pick End_ l acc.2).
Proof.
  revert acc; induction l as [|cell l IH]; intros [s e]; [done|].
  simpl. rewrite IH. done.
Qed.

Lemma scanGrid_pick grid :
  scanGrid grid = (pick Start (concat grid) None, pick End_ (concat grid) None).
Proof. unfold scanGrid. by rewrite foldl_concat, scanCell_pick. Qed.

Lemma pick_app t l1 l2 acc : pick t (l1 ++ l2) acc = pick t l2 (pick t l1 acc).
Proof. unfold pick. apply foldl_app. Qed.

Lemma pick_cons t cell l acc :
  pick t (cell :: l) acc =
  pick t l (if bool_decide (type cell = t) then Some (cellPos cell) else acc).
Proof. done. Qed.

Lemma pick_none t l acc :
  (forall cell, cell ∈ l -> type cell <> t) -> pick t l acc = acc.
Proof.
  revert acc; induction l as [|cell l IH]; intros acc Hno; [done|].
  rewrite pick_cons, bool_decide_eq_false_2 by (apply Hno; by left).
  apply IH. intros; apply Hno; by right.
Qed.

Lemma pick_Some t l acc s :
  pick t l acc = Some s ->
  acc = Some s \/ exists cell, cell ∈ l /\ type cell = t /\ cellPos cell = s.
Proof.
  revert acc; induction l as [|cell l IH]; intros acc Hp; [by left|].
  rewrite pick_cons in Hp. apply IH in Hp as [Hp|(c & Hc & Ht & Hs)].
  - case_bool_decide; [|by left]. right. exists cell.
    split_and!; [by left|done|congruence].
  - right. exists c. split_and!; [by right|done..].
Qed.

Lemma pick_None t l acc :
  pick t l acc = None <-> acc = None /\ forall cell, cell ∈ l -> type cell <> t.
Proof.
  revert acc; induction l as [|cell l IH]; intros acc.
  - simpl. split; [|naive_solver]. intros ->. split; [done|].
    intros c Hc. by apply elem_of_nil in Hc.
  - rewrite pick_cons, IH. split.
    + intros [Ha Hl]. case_bool_decide; [done|]. split; [done|].
      intros c [->|Hc]%elem_of_cons; auto.
    + intros [-> Hl]. rewrite bool_decide_eq_false_2 by (apply Hl; by left).
      split; [done|]. intros; apply Hl; by right.
Qed.

Lemma countType_zero t grid :
  countType t grid = 0%nat <-> forall cell, cell ∈ concat grid -> type cell <> t.
Proof.
  unfold countType. split.
  - intros Hz cell Hc Ht.
    assert (cell ∈ filter (fun cell => type cell = t) (concat grid)) as Hin
      by (by apply list_elem_of_filter).
    destruct (filter _ (concat grid)); [by apply elem_of_nil in Hin|done].
  - apply filter_length_none.
Qed.

(** With exactly one cell of type [t], the scan finds it. *)
Lemma pick_unique t grid r c cell :
  countType t grid = 1%nat -> cellAt grid r c = Some cell -> type cell = t ->
  pick t (concat grid) None = Some (cellPos cell).
Proof.
  intros Hcount Hcell Ht. apply elem_of_cellAt in Hcell.
  apply list_elem_of_split in Hcell as (l1 & l2 & Hl).
  unfold countType in Hcount. rewrite Hl in Hcount |- *.
  rewrite filter_app, filter_cons, decide_True, length_app in Hcount by done.
  simpl in Hcount.
  rewrite pick_app, pick_cons, bool_decide_eq_true_2 by done.
  apply pick_none. intros c' Hc' Ht'.
  assert (c' ∈ filter (fun cell => type cell = t) l2) as Hin
    by (by apply list_elem_of_filter).
  destruct (filter _ l2); [by apply elem_of_nil in Hin|simpl in Hcount; lia].
Qed.

Lemma findStartEnd_missing grid :
  findStartEnd grid = Throw MissingEndpoint <->
  countType Start grid = 0%nat \/ countType End_ grid = 0%nat.
Proof.
  unfold findStartEnd. rewrite scanGrid_pick, !countType_zero.
  destruct (pick Start (concat grid) None) as [s|] eqn:Hs;
    destruct (pick End_ (concat grid) None) as [e|] eqn:He.
  - split; [done|]. intros [Hn|Hn].
    + assert (pick Start (concat grid) None = None) as Hp
        by (by apply pick_None). congruence.
    + assert (pick End_ (concat grid) None = None) as Hp
        by (by apply pick_None). congruence.
  - apply pick_None in He as [_ He]. split; [by right|done].
  - apply pick_None in Hs as [_ Hs]. split; [by left|done].
  - apply pick_None in Hs as [_ Hs]. split; [by left|done].
Qed.

Lemma findStartEnd_Ok grid s e :
  findStartEnd grid = Ok (s, e) ->
  (exists cell, cell ∈ concat grid /\ type cell = Start /\ cellPos cell = s) /\
  (exists cell, cell ∈ concat grid /\ type cell = End_ /\ cellPos cell = e).
Proof.
  unfold findStartEnd. rewrite scanGrid_pick.
  destruct (pick Start (concat grid) None) as [s'|] eqn:Hs; [|done].
  destruct (pick End_ (concat grid) None) as [e'|] eqn:He; [|done].
  intros [= -> ->].
  apply pick_Some in Hs as [?|?], He as [?|?]; done.
Qed.

Lemma findStartEnd_outcome grid :
  (exists s e, findStartEnd grid = Ok (s, e)) \/
  findStartEnd grid = Throw MissingEndpoint.
Proof.
  unfold findStartEnd. destruct (scanGrid grid) as [[s|] [e|]]; eauto.
Qed.

(** On a well-formed grid with exactly one start and one end cell,
    [findStartEnd] returns their positions. *)
Lemma findStartEnd_unique grid s e :
  wfGrid grid = true ->
  countType Start grid = 1%nat -> countType End_ grid = 1%nat ->
  typeAt grid (row s) (col s) = Some Start ->
  typeAt grid (row e) (col e) = Some End_ ->
  findStartEnd grid = Ok (s, e).
Proof.
  intros Hwf Hcs Hce Hs He. unfold typeAt in Hs, He.
  destruct (cellAt grid (row s) (col s)) as [cs|] eqn:Hcs'; [|done].
  destruct (cellAt grid (row e) (col e)) as [ce|] eqn:Hce'; [|done].
  simplify_eq/=.
  unfold findStartEnd. rewrite scanGrid_pick.
  rewrite (pick_unique Start grid _ _ cs) by done.
  rewrite (pick_unique End_ grid _ _ ce) by done.
  rewrite (wfGrid_coords _ _ _ _ Hwf Hcs'), (wfGrid_coords _ _ _ _ Hwf Hce').
  by destruct s, e.
Qed.

(** * Pathfinding: the searches *)

(** ** Walks *)

Lemma isWalk_cons grid p l :
  isWalk grid (p :: l) = true <->
  passable grid p = true /\
  match head l with Some q => adjacent p q = true | None => True end /\
  isWalk grid l = true.
Proof.
  simpl. rewrite !andb_true_iff. destruct l; simpl; naive_solver.
Qed.

Lemma isWalk_snoc grid l x :
  isWalk grid (l ++ [x]) = true <->
  isWalk grid l = true /\ passable grid x = true /\
  match last l with Some y => adjacent y x = true | None => True end.
Proof.
  induction l as [|p l IH].
  - simpl. rewrite !andb_true_iff. naive_solver.
  - change ((p :: l) ++ [x]) with (p :: (l ++ [x])).
    rewrite !isWalk_cons, IH.
    destruct l as [|q l]; [simpl; naive_solver|].
    change (head ((q :: l) ++ [x])) with (Some q).
    rewrite last_cons_cons. cbn [head]. naive_solver.
Qed.

(** ** Parent chains *)

Section Chains.
Variable grid : list (list Cell).
Variable start : Position.

Lemma chain_initial :
  passable grid start = true ->
  ChainInv grid start {[posKey start := None]} (fun _ => 0%nat).
Proof.
  intros Hp. split; try done.
  - apply lookup_singleton_eq.
  - intros p u Hl. apply lookup_singleton_Some in Hl as [_ [=]].
  - intros p Hl. apply lookup_singleton_Some in Hl as [Hk _].
    by apply posKey_inj.
  - intros p _. rewrite map_size_singleton. lia.
Qed.

Lemma chain_passable parent d p :
  ChainInv grid start parent d -> is_Some (parent !! posKey p) ->
  passable grid p = true.
Proof.
  intros Hch [[u|] Hl].
  - by destruct (ch_step _ _ _ _ Hch _ _ Hl) as (_ & _ & _ & ?).
  - rewrite (ch_root _ _ _ _ Hch _ Hl). apply (ch_pass _ _ _ _ Hch).
Qed.

(** Recording the parent of a newly discovered position. *)
Lemma chain_insert parent d cur n :
  ChainInv grid start parent d ->
  parent !! posKey n = None -> is_Some (parent !! posKey cur) ->
  adjacent cur n = true -> passable grid n = true ->
  ChainInv grid start (<[posKey n := Some cur]> parent)
    (fun x => if decide (x = n) then S (d cur) else d x).
Proof.
  intros Hch Hn Hcur Hadj Hpass.
  assert (forall p, is_Some (parent !! posKey p) -> p <> n) as Hne.
  { intros p [v Hv] ->. congruence. }
  assert (forall p, p <> n -> posKey n <> posKey p) as Hkey.
  { intros p Hp Hk. apply Hp. symmetry. by apply posKey_inj. }
  split.
  - rewrite lookup_insert_ne; [apply (ch_start _ _ _ _ Hch)|].
    apply Hkey, Hne. rewrite (ch_start _ _ _ _ Hch). eauto.
  - rewrite decide_False; [apply (ch_dstart _ _ _ _ Hch)|].
    apply Hne. rewrite (ch_start _ _ _ _ Hch). eauto.
  - apply (ch_pass _ _ _ _ Hch).
  - intros p u Hl. destruct (decide (p = n)) as [->|Hp].
    + rewrite lookup_insert_eq in Hl. simplify_eq.
      rewrite decide_False by (by apply Hne).
      split_and!; try done.
      rewrite lookup_insert_ne by (by apply Hkey, Hne). done.
    + rewrite lookup_insert_ne in Hl by (by apply Hkey).
      destruct (ch_step _ _ _ _ Hch _ _ Hl) as (Hu & Hd & Ha & Hp').
      rewrite decide_False by (by apply Hne).
      split_and!; try done.
      rewrite lookup_insert_ne by (by apply Hkey, Hne). done.
  - intros p Hl. destruct (decide (p = n)) as [->|Hp].
    + rewrite lookup_insert_eq in Hl. done.
    + rewrite lookup_insert_ne in Hl by (by apply Hkey).
      by apply (ch_root _ _ _ _ Hch).
  - intros p Hl. rewrite map_size_insert_None by done.
    destruct (decide (p = n)) as [->|Hp].
    + pose proof (ch_size _ _ _ _ Hch _ Hcur). lia.
    + rewrite lookup_insert_ne in Hl by (by apply Hkey).
      pose proof (ch_size _ _ _ _ Hch _ Hl). lia.
Qed.

(** Following the parent pointers from a discovered position
    terminates and yields, read backwards, a walk from [start]. *)
Lemma followParents_chain parent d :
  ChainInv grid start parent d ->
  forall fuel p acc,
    is_Some (parent !! posKey p) -> (d p < fuel)%nat ->
    exists l,
      followParents fuel parent (Some p) acc = Ok (acc ++ l) /\
      length l = S (d p) /\ head l = Some p /\ last l = Some start /\
      isWalk grid (reverse l) = true.
Proof.
  intros Hch. induction fuel as [|fuel IH]; intros p acc Hp Hd; [lia|].
  simpl. destruct Hp as [[u|] Hl]; rewrite Hl; simpl.
  - destruct (ch_step _ _ _ _ Hch _ _ Hl) as (Hu & Hdu & Hadj & Hpass).
    destruct (IH u (acc ++ [p]) Hu) as (l & Hrun & Hlen & Hhead & Hlast & Hwalk);
      [lia|].
    exists (p :: l). split_and!.
    + rewrite Hrun. by rewrite <- app_assoc.
    + simpl. lia.
    + done.
    + destruct l; [done|]. by rewrite last_cons_cons.
    + rewrite reverse_cons. apply isWalk_snoc. split_and!; try done.
      rewrite last_reverse, Hhead. done.
  - assert (p = start) as -> by (by apply (ch_root _ _ _ _ Hch)).
    exists [start]. split_and!; try done.
    + by destruct fuel.
    + rewrite (ch_dstart _ _ _ _ Hch). done.
    + simpl. by rewrite (ch_pass _ _ _ _ Hch).
Qed.

(** What [buildResult] returns once the loop is over. *)
Lemma buildResult_found parent d end_ st :
  s_parent st = parent -> ChainInv grid start parent d ->
  is_Some (parent !! posKey end_) ->
  exists p,
    buildResult end_ st = Ok (mkSolveResult (Some p) (s_order st)) /\
    connects grid start end_ p = true /\ length p = S (d end_).
Proof.
  intros <- Hch Hend. unfold buildResult.
  destruct Hend as [v Hv]. rewrite Hv.
  destruct (followParents_chain _ _ Hch (S (size (s_parent st))) end_ [])
    as (l & Hrun & Hlen & Hhead & Hlast & Hwalk); [by eauto|..].
  { pose proof (ch_size _ _ _ _ Hch end_ ltac:(eauto)). lia. }
  rewrite Hrun. simpl. exists (reverse l). split_and!; try done.
  - unfold connects. rewrite Hwalk, head_reverse, last_reverse, Hlast, Hhead.
    simpl. by rewrite !bool_decide_eq_true_2.
  - by rewrite length_reverse.
Qed.

Lemma buildResult_none end_ st :
  s_parent st !! posKey end_ = None ->
  buildResult end_ st = Ok (mkSolveResult None (s_order st)).
Proof. intros Hn. unfold buildResult. by rewrite Hn. Qed.
End Chains.

Lemma bfs_unfold grid start end_ :
  findStartEnd grid = Ok (start, end_) ->
  bfs grid =
  if negb (rowInMatrix (length grid) start) then Throw TypeError
  else st ← bfsLoop (S (length grid * gridCols grid)) grid end_
              (mkSearch [start] {[start]} {[posKey start := None]} []);
       buildResult end_ st.
Proof. intros Hf. unfold bfs. by rewrite Hf. Qed.

Lemma dfs_unfold grid start end_ :
  findStartEnd grid = Ok (start, end_) ->
  dfs grid =
  st ← dfsLoop (4 * length grid * gridCols grid + 2) grid end_
         (mkSearch [start] ∅ {[posKey start := None]} []);
  buildResult end_ st.
Proof. intros Hf. unfold dfs. by rewrite Hf. Qed.

(** ** Counting what is left to visit *)

Section Search.
Variable grid : list (list Cell).
Variables start end_ : Position.
Hypothesis grid_wf : wfGrid grid = true.
Hypothesis grid_nonempty : grid <> [].

Lemma unvisited_le st :
  (unvisited grid st <= length grid * gridCols grid)%nat.
Proof.
  unfold unvisited. rewrite <- length_positionsOf by done. apply length_filter.
Qed.

Lemma unvisited_insert st st' n :
  s_visited st' = {[n]} ∪ s_visited st ->
  passable grid n = true -> n ∉ s_visited st ->
  (unvisited grid st' < unvisited grid st)%nat.
Proof.
  intros Hv Hp Hn. unfold unvisited. rewrite Hv.
  apply (filter_length_lt _ _ _ n); [set_solver| |done|set_solver].
  by apply passable_positionsOf.
Qed.

Lemma unvisited_same st st' :
  s_visited st' = s_visited st -> unvisited grid st' = unvisited grid st.
Proof. intros Hv. unfold unvisited. by rewrite Hv. Qed.

Lemma getNeighbors_Ok cur :
  exists ns, getNeighbors grid cur = Ok ns /\
    (length ns <= 4)%nat /\
    forall n, n ∈ ns <-> adjacent cur n = true /\ passable grid n = true.
Proof.
  exists (filter (fun q => passable grid q = true) (around cur)).
  split; [by apply getNeighbors_wf|]. split.
  - etrans; [apply length_filter|]. done.
  - intros n. rewrite list_elem_of_filter, elem_of_around. naive_solver.
Qed.

Lemma samePos_spec a b : samePos a b = true <-> a = b.
Proof.
  unfold samePos. rewrite andb_true_iff, !bool_decide_eq_true.
  destruct a, b; simpl; naive_solver.
Qed.

(** ** Breadth-first search *)

(** A walk from [start] either ends at a discovered position no
    deeper than the walk is long, or has passed a position that is
    still in the queue. *)
Lemma bfs_frontier d lvl st :
  BfsInv grid start end_ d lvl st ->
  closedBut grid (fun p => p ∈ s_order st)
    (fun p q => (d q <= S (d p))%nat) st start [] ->
  forall l x, isWalk grid l = true -> head l = Some start -> last l = Some x ->
    (x ∈ s_visited st /\ (d x < length l)%nat) \/
    (exists w, w ∈ s_work st /\ (S (d w) < length l)%nat).
Proof.
  intros Hinv Hcl. induction l as [|x' l IH] using rev_ind;
    intros x Hwalk Hhead Hlast; [done|].
  rewrite last_snoc in Hlast. simplify_eq.
  apply isWalk_snoc in Hwalk as (Hwalk & Hpass & Hadj).
  destruct (last l) as [y|] eqn:Hy.
  - assert (head l = Some start) as Hhl
      by (destruct l; [done|exact Hhead]).
    destruct (IH y Hwalk Hhl eq_refl) as [[Hyv Hyd]|(w & Hw & Hwd)].
    + apply (bi_split _ _ _ _ _ _ Hinv) in Hyv as [Hyo|Hyw].
      * destruct (Hcl y x Hyo Hadj Hpass) as [[Hx Hb]|[_ Hx]];
          [|by apply elem_of_nil in Hx].
        left. split; [by apply (bi_vis _ _ _ _ _ _ Hinv)|].
        rewrite length_app. simpl. lia.
      * right. exists y. split; [done|]. rewrite length_app. simpl. lia.
    + right. exists w. split; [done|]. rewrite length_app. simpl. lia.
  - apply last_None in Hy as ->. simpl in Hhead. simplify_eq. left.
    pose proof (bi_chain _ _ _ _ _ _ Hinv) as Hch. split.
    + apply (bi_vis _ _ _ _ _ _ Hinv).
      rewrite (ch_start _ _ _ _ Hch). eauto.
    + rewrite (ch_dstart _ _ _ _ Hch). simpl. lia.
Qed.

Lemma bfsRelax_inv d lvl st cur n todo :
  BfsInv grid start end_ d lvl st -> cur ∈ s_order st -> d cur = lvl ->
  closedBut grid (fun p => p ∈ s_order st)
    (fun p q => (d q <= S (d p))%nat) st cur (n :: todo) ->
  adjacent cur n = true -> passable grid n = true ->
  exists d',
    BfsInv grid start end_ d' lvl (bfsRelax cur st n) /\ d' cur = lvl /\
    s_order (bfsRelax cur st n) = s_order st /\
    closedBut grid (fun p => p ∈ s_order (bfsRelax cur st n))
      (fun p q => (d' q <= S (d' p))%nat) (bfsRelax cur st n) cur todo /\
    (length (s_work (bfsRelax cur st n)) + unvisited grid (bfsRelax cur st n)
     <= length (s_work st) + unvisited grid st)%nat.
Proof.
  intros Hinv Hcur Hlvl Hcl Hadj Hpass. unfold bfsRelax.
  pose proof Hinv as [Hch Hvis Hsplit Hlo Hhi Hsorted Hnoend].
  assert (forall p, p ∈ s_visited st -> (d p <= S lvl)%nat) as Hbound.
  { intros p [Hp|Hp]%Hsplit; [apply Hlo in Hp|apply Hhi in Hp]; lia. }
  case_bool_decide as Hn.
  - exists d. split_and!; try done.
    intros p q Hp Hpq Hq. destruct (Hcl p q Hp Hpq Hq) as [?|[-> Hin]]; [by left|].
    apply elem_of_cons in Hin as [->|Hin]; [|by right].
    left. split; [by apply Hvis|]. rewrite Hlvl. by apply Hbound.
  - set (d' := fun x => if decide (x = n) then S (d cur) else d x).
    assert (forall p, p ∈ s_visited st -> d' p = d p) as Hsame.
    { intros p Hp. unfold d'. rewrite decide_False; [done|]. by intros ->. }
    assert (cur ∈ s_visited st) as Hcv by (apply Hsplit; by left).
    assert (s_parent st !! posKey n = None) as Hnone.
    { apply eq_None_not_Some. by rewrite <- Hvis. }
    assert (forall p, p ∈ s_order st -> p ∈ s_visited st) as Hov
      by (intros; apply Hsplit; by left).
    assert (forall p, p ∈ s_work st -> p ∈ s_visited st) as Hwv
      by (intros; apply Hsplit; by right).
    exists d'. split_and!.
    + split; simpl.
      * apply chain_insert; try done. by apply Hvis.
      * intros p. rewrite elem_of_union, elem_of_singleton.
        destruct (decide (p = n)) as [->|Hp].
        -- rewrite lookup_insert_eq. naive_solver.
        -- rewrite lookup_insert_ne by (intros Hk; by apply posKey_inj in Hk).
           rewrite <- Hvis. naive_solver.
      * intros p. rewrite elem_of_union, elem_of_singleton, elem_of_app,
          list_elem_of_singleton, Hsplit. naive_solver.
      * intros p Hp. rewrite Hsame by auto. by apply Hlo.
      * intros p [Hp| ->%list_elem_of_singleton]%elem_of_app.
        -- rewrite Hsame by auto. by apply Hhi.
        -- unfold d'. rewrite decide_True by done. lia.
      * intros i j p q Hij Hi Hj.
        apply lookup_app_Some in Hj as [Hj|[Hlen Hj]].
        -- pose proof (lookup_lt_Some _ _ _ Hj).
           rewrite lookup_app_l in Hi by lia.
           rewrite !Hsame by (apply Hwv; by eapply list_elem_of_lookup_2).
           exact (Hsorted i j p q Hij Hi Hj).
        -- apply list_lookup_singleton_Some in Hj as [_ <-].
           unfold d' at 2. rewrite decide_True by done.
           apply lookup_app_Some in Hi as [Hi|[_ Hi]].
           ++ rewrite Hsame by (apply Hwv; by eapply list_elem_of_lookup_2).
              apply list_elem_of_lookup_2, Hhi in Hi. lia.
           ++ apply list_lookup_singleton_Some in Hi as [_ <-].
              unfold d'. rewrite decide_True by done. lia.
      * done.
    + by rewrite Hsame.
    + done.
    + intros p q Hp Hpq Hq. simpl in Hp |- *.
      destruct (Hcl p q Hp Hpq Hq) as [[Hqs Hb]|[-> Hin]].
      * left. apply Hvis in Hqs as Hqv.
        rewrite lookup_insert_ne
          by (intros Hk; apply posKey_inj in Hk; by subst).
        split; [done|]. rewrite !Hsame by auto. done.
      * apply elem_of_cons in Hin as [->|Hin]; [|by right].
        left. rewrite lookup_insert_eq. split; [by eauto|].
        rewrite (Hsame cur) by done. unfold d'. by rewrite decide_True.
    + cbn [s_work]. rewrite length_app. cbn [length].
      match goal with
      | |- context [unvisited grid ?s] =>
          pose proof (unvisited_insert st s n eq_refl Hpass Hn)
      end. lia.
Qed.

Lemma bfsRelax_fold lvl cur ns : forall d st,
  BfsInv grid start end_ d lvl st -> cur ∈ s_order st -> d cur = lvl ->
  closedBut grid (fun p => p ∈ s_order st)
    (fun p q => (d q <= S (d p))%nat) st cur ns ->
  Forall (fun n => adjacent cur n = true /\ passable grid n = true) ns ->
  exists d',
    BfsInv grid start end_ d' lvl (foldl (bfsRelax cur) st ns) /\
    closedBut grid (fun p => p ∈ s_order (foldl (bfsRelax cur) st ns))
      (fun p q => (d' q <= S (d' p))%nat) (foldl (bfsRelax cur) st ns) cur [] /\
    (length (s_work (foldl (bfsRelax cur) st ns)) +
     unvisited grid (foldl (bfsRelax cur) st ns)
     <= length (s_work st) + unvisited grid st)%nat.
Proof.
  induction ns as [|n ns IH]; intros d st Hinv Hcur Hlvl Hcl Hns.
  - exists d. by split_and!.
  - apply Forall_cons in Hns as [[Hadj Hpass] Hns]. simpl.
    destruct (bfsRelax_inv d lvl st cur n ns Hinv Hcur Hlvl Hcl Hadj Hpass)
      as (d1 & Hinv1 & Hlvl1 & Hord1 & Hcl1 & Hmu1).
    destruct (IH d1 (bfsRelax cur st n) Hinv1) as (d' & Hinv' & Hcl' & Hmu');
      try done.
    { by rewrite Hord1. }
    exists d'. split_and!; try done. lia.
Qed.

Lemma connects_spec s t l :
  connects grid s t l = true <->
  isWalk grid l = true /\ head l = Some s /\ last l = Some t.
Proof.
  unfold connects. rewrite !andb_true_iff, !bool_decide_eq_true. naive_solver.
Qed.

Hypothesis start_passable : passable grid start = true.

Lemma rowInMatrix_passable p :
  passable grid p = true -> rowInMatrix (length grid) p = true.
Proof.
  intros (cell & Hc & _)%passable_spec. unfold rowInMatrix.
  apply bool_decide_eq_true.
  apply (cellAt_dims _ _ _ _ _ _ (wfGrid_dims _ grid_wf)) in Hc. lia.
Qed.

Lemma bfsLoop_nil fuel st :
  s_work st = [] -> bfsLoop fuel grid end_ st = Ok st.
Proof. intros Hw. destruct fuel; simpl; by rewrite Hw. Qed.

Lemma bfsLoop_cons fuel st cur q :
  s_work st = cur :: q ->
  bfsLoop (S fuel) grid end_ st =
  let st1 := mkSearch q (s_visited st) (s_parent st) (s_order st ++ [cur]) in
  if samePos cur end_ then Ok st1
  else ns ← getNeighbors grid cur;
       bfsLoop fuel grid end_ (foldl (bfsRelax cur) st1 ns).
Proof. intros Hw. cbn [bfsLoop]. by rewrite Hw. Qed.

(** When the queue is empty everything reachable has been visited, and
    [end_] is not among it. *)
Lemma bfs_exhausted d lvl st :
  BfsInv grid start end_ d lvl st ->
  closedBut grid (fun p => p ∈ s_order st)
    (fun p q => (d q <= S (d p))%nat) st start [] ->
  s_work st = [] ->
  s_parent st !! posKey end_ = None /\ ~ reachable grid start end_ /\
  forall q, reachable grid start q -> q ∈ s_order st.
Proof.
  intros Hinv Hcl Hw.
  assert (forall x, x ∈ s_visited st -> x ∈ s_order st) as Hvo.
  { intros x [?|Hx]%(bi_split _ _ _ _ _ _ Hinv); [done|].
    rewrite Hw in Hx. by apply elem_of_nil in Hx. }
  assert (forall q, reachable grid start q -> q ∈ s_order st) as Hall.
  { intros x (l & (Hwalk & Hhead & Hlast)%connects_spec).
    destruct (bfs_frontier d lvl st Hinv Hcl l x Hwalk Hhead Hlast)
      as [[Hx _]|(w & Hin & _)]; [by apply Hvo|].
    rewrite Hw in Hin. by apply elem_of_nil in Hin. }
  split_and!; [|intros Hr; by apply (bi_noend _ _ _ _ _ _ Hinv), Hall|done].
  apply eq_None_not_Some. intros Hs%(bi_vis _ _ _ _ _ _ Hinv).
  by apply (bi_noend _ _ _ _ _ _ Hinv), Hvo.
Qed.

(** The loop of [bfs] terminates within its fuel.  Either it stops at
    [end_], whose depth is then a lower bound for the length of every
    walk from [start] to [end_], or it empties the queue, and then it
    has visited everything that can be reached. *)
Lemma bfsLoop_spec fuel : forall st d lvl,
  BfsInv grid start end_ d lvl st ->
  closedBut grid (fun p => p ∈ s_order st)
    (fun p q => (d q <= S (d p))%nat) st start [] ->
  (length (s_work st) + unvisited grid st <= fuel)%nat ->
  exists st' d',
    bfsLoop fuel grid end_ st = Ok st' /\
    ChainInv grid start (s_parent st') d' /\
    ((is_Some (s_parent st' !! posKey end_) /\
      forall l, connects grid start end_ l = true ->
                (S (d' end_) <= length l)%nat) \/
     (s_parent st' !! posKey end_ = None /\ ~ reachable grid start end_ /\
      forall q, reachable grid start q -> q ∈ s_order st')).
Proof.
  induction fuel as [|fuel IH]; intros st d lvl Hinv Hcl Hmu;
    destruct (s_work st) as [|cur q] eqn:Hw; simpl in Hmu; try lia.
  1,2: (exists st, d; split; [by apply bfsLoop_nil|];
        split; [apply (bi_chain _ _ _ _ _ _ Hinv)|]; right;
        by eapply bfs_exhausted).
  rewrite (bfsLoop_cons _ _ _ _ Hw). cbn zeta.
  pose proof Hinv as [Hch Hvis Hsplit Hlo Hhi Hsorted Hnoend].
  assert (cur ∈ s_work st) as Hcw by (rewrite Hw; by left).
  destruct (samePos cur end_) eqn:Hsame.
  - apply samePos_spec in Hsame as ->.
    eexists _, d. split; [done|]. split; [exact Hch|]. left. split.
    + apply Hvis, Hsplit. by right.
    + intros l (Hwalk & Hhead & Hlast)%connects_spec.
      destruct (bfs_frontier d lvl st Hinv Hcl l end_ Hwalk Hhead Hlast)
        as [[_ Hd]|(w & Hin & Hd)]; [lia|].
      apply list_elem_of_lookup in Hin as [j Hj].
      assert (d end_ <= d w)%nat; [|lia].
      apply (Hsorted 0%nat j); [lia|by rewrite Hw|done].
  - assert (cur <> end_) as Hne
      by (intros Heq%samePos_spec; congruence).
    destruct (getNeighbors_Ok cur) as (ns & Hns & _ & Hmem).
    rewrite Hns. cbn [mbind Outcome_bind].
    set (st1 := mkSearch q (s_visited st) (s_parent st) (s_order st ++ [cur])).
    assert (BfsInv grid start end_ d (d cur) st1) as Hinv1.
    { pose proof (Hhi cur Hcw) as Hcl'.
      split; simpl; try done.
      - intros p. rewrite Hsplit, Hw, elem_of_app, list_elem_of_singleton,
          elem_of_cons. naive_solver.
      - intros p [Hp| ->%list_elem_of_singleton]%elem_of_app; [|done].
        apply Hlo in Hp. lia.
      - intros p Hp.
        assert (p ∈ s_work st) as Hpw by (rewrite Hw; by right).
        apply list_elem_of_lookup in Hp as [j Hj].
        pose proof (Hsorted 0%nat (S j) cur p) as Hs.
        rewrite Hw in Hs. specialize (Hs ltac:(lia) eq_refl Hj).
        apply Hhi in Hpw. lia.
      - intros i j p p' Hij Hi Hj.
        apply (Hsorted (S i) (S j)); [lia|by rewrite Hw..].
      - intros [Hin|Hin%list_elem_of_singleton]%elem_of_app; [done|].
        by apply Hne. }
    destruct (bfsRelax_fold (d cur) cur ns d st1 Hinv1)
      as (d' & Hinv' & Hcl' & Hmu'); try done.
    { simpl. apply elem_of_app. right. by left. }
    { intros p p' Hp Hadj Hpass. simpl in Hp.
      apply elem_of_app in Hp as [Hp| ->%list_elem_of_singleton].
      - destruct (Hcl p p' Hp Hadj Hpass) as [?|[_ Hin]]; [by left|].
        by apply elem_of_nil in Hin.
      - right. split; [done|]. by apply Hmem. }
    { apply Forall_forall. intros n Hn. by apply Hmem. }
    apply (IH _ d' (d cur)); [done| |].
    + intros p p' Hp Hadj Hpass.
      destruct (Hcl' p p' Hp Hadj Hpass) as [?|[_ Hin]]; [by left|].
      by apply elem_of_nil in Hin.
    + rewrite (unvisited_same st st1) in Hmu' by done. simpl in Hmu'. lia.
Qed.

Lemma bfs_correct :
  findStartEnd grid = Ok (start, end_) ->
  exists r, bfs grid = Ok r /\
    ((exists p, path r = Some p /\ connects grid start end_ p = true /\
                forall l, connects grid start end_ l = true ->
                          (length p <= length l)%nat) \/
     (path r = None /\ ~ reachable grid start end_ /\
      forall q, reachable grid start q -> q ∈ visitedOrder r)).
Proof.
  intros Hfind. rewrite (bfs_unfold _ _ _ Hfind).
  rewrite rowInMatrix_passable by done. cbn [negb].
  set (st0 := mkSearch [start] {[start]} {[posKey start := None]} []).
  destruct (bfsLoop_spec (S (length grid * gridCols grid)) st0
              (fun _ => 0%nat) 0)
    as (st' & d' & Hrun & Hch & Hres).
  - split; simpl.
    + by apply chain_initial.
    + intros p. rewrite elem_of_singleton. split.
      * intros ->. rewrite lookup_singleton_eq. eauto.
      * intros [v Hv]. apply lookup_singleton_Some in Hv as [Hk _].
        symmetry. by apply posKey_inj.
    + intros p. rewrite elem_of_singleton, list_elem_of_singleton.
      split; [by right|]. intros [Hp|Hp]; [by apply elem_of_nil in Hp|done].
    + intros p Hp. by apply elem_of_nil in Hp.
    + intros p _. lia.
    + intros i j p q _ _ _. lia.
    + apply not_elem_of_nil.
  - intros p q Hp. by apply elem_of_nil in Hp.
  - simpl.
    assert (unvisited grid st0 < length grid * gridCols grid)%nat; [|lia].
    rewrite <- length_positionsOf by done. unfold unvisited.
    apply (length_filter_lt _ _ start).
    + by apply passable_positionsOf.
    + simpl. set_solver.
  - rewrite Hrun. cbn [mbind Outcome_bind].
    destruct Hres as [[Hend Hmin]|[Hnone Hall]].
    + destruct (buildResult_found grid start _ d' end_ st' eq_refl Hch Hend)
        as (p & Hbuild & Hconn & Hlen).
      rewrite Hbuild. eexists. split; [done|]. left.
      exists p. split_and!; [done..|].
      intros l Hl. rewrite Hlen. by apply Hmin.
    + rewrite buildResult_none by done. eexists. split; [done|]. right.
      simpl. destruct Hall as [Hnr Hall]. by split_and!.
Qed.

(** ** Depth-first search *)

Lemma dfsPush_inv d st cur n todo :
  DfsInv grid start end_ d st -> cur ∈ s_visited st ->
  closedBut grid (fun p => p ∈ s_visited st) (fun _ _ => True) st cur
    (n :: todo) ->
  adjacent cur n = true -> passable grid n = true ->
  exists d',
    DfsInv grid start end_ d' (dfsPush cur st n) /\
    s_visited (dfsPush cur st n) = s_visited st /\
    s_order (dfsPush cur st n) = s_order st /\
    closedBut grid (fun p => p ∈ s_visited st) (fun _ _ => True)
      (dfsPush cur st n) cur todo /\
    (length (s_work (dfsPush cur st n)) <= S (length (s_work st)))%nat.
Proof.
  intros Hinv Hcur Hcl Hadj Hpass. unfold dfsPush.
  pose proof Hinv as [Hch Hord Hdisc Hnoend].
  case_bool_decide as Hn.
  - exists d. do 3 (split; [done|]). split; [|lia].
    intros p q Hp Hpq Hq. destruct (Hcl p q Hp Hpq Hq) as [?|[-> Hin]]; [by left|].
    apply elem_of_cons in Hin as [->|Hin]; [|by right].
    left. split; [|done]. apply Hdisc. by left.
  - destruct (s_parent st !! posKey n) as [v|] eqn:Hpn.
    + exists d. split; [|do 2 (split; [done|]); split; [|simpl; lia]].
      * split; simpl; try done.
        intros p. rewrite Hdisc, elem_of_cons. split; [naive_solver|].
        intros [?|[->|?]]; [by left| |by right].
        apply Hdisc. rewrite Hdisc. rewrite <- Hdisc. eauto.
      * intros p q Hp Hpq Hq. simpl.
        destruct (Hcl p q Hp Hpq Hq) as [?|[-> Hin]]; [by left|].
        apply elem_of_cons in Hin as [->|Hin]; [|by right].
        left. eauto.
    + set (d' := fun x => if decide (x = n) then S (d cur) else d x).
      exists d'. split; [|do 2 (split; [done|]); split; [|simpl; lia]].
      * split; simpl; try done.
        -- apply chain_insert; try done. apply Hdisc. by left.
        -- intros p. rewrite elem_of_cons.
           destruct (decide (p = n)) as [->|Hp].
           ++ rewrite lookup_insert_eq. naive_solver.
           ++ rewrite lookup_insert_ne
                by (intros Hk; by apply posKey_inj in Hk).
              rewrite Hdisc. naive_solver.
      * intros p q Hp Hpq Hq. simpl.
        destruct (Hcl p q Hp Hpq Hq) as [[Hqs _]|[-> Hin]].
        -- left. split; [|done].
           rewrite lookup_insert_ne; [done|].
           intros Hk. apply posKey_inj in Hk. subst.
           rewrite Hpn in Hqs. by destruct Hqs.
        -- apply elem_of_cons in Hin as [->|Hin]; [|by right].
           left. rewrite lookup_insert_eq. eauto.
Qed.

Lemma dfsPush_fold cur ns : forall d st,
  DfsInv grid start end_ d st -> cur ∈ s_visited st ->
  closedBut grid (fun p => p ∈ s_visited st) (fun _ _ => True) st cur ns ->
  Forall (fun n => adjacent cur n = true /\ passable grid n = true) ns ->
  exists d',
    DfsInv grid start end_ d' (foldl (dfsPush cur) st ns) /\
    s_visited (foldl (dfsPush cur) st ns) = s_visited st /\
    closedBut grid (fun p => p ∈ s_visited st) (fun _ _ => True)
      (foldl (dfsPush cur) st ns) cur [] /\
    (length (s_work (foldl (dfsPush cur) st ns))
     <= length ns + length (s_work st))%nat.
Proof.
  induction ns as [|n ns IH]; intros d st Hinv Hcur Hcl Hns.
  - exists d. split_and!; try done; simpl; lia.
  - apply Forall_cons in Hns as [[Hadj Hpass] Hns]. simpl.
    destruct (dfsPush_inv d st cur n ns Hinv Hcur Hcl Hadj Hpass)
      as (d1 & Hinv1 & Hvis1 & Hord1 & Hcl1 & Hlen1).
    destruct (IH d1 (dfsPush cur st n) Hinv1) as (d' & Hinv' & Hvis' & Hcl' & Hlen');
      try done.
    { by rewrite Hvis1. }
    { by rewrite Hvis1. }
    exists d'. rewrite Hvis1 in Hvis', Hcl'. split_and!; try done. lia.
Qed.

Lemma dfsLoop_nil fuel st :
  s_work st = [] -> dfsLoop fuel grid end_ st = Ok st.
Proof. intros Hw. destruct fuel; simpl; by rewrite Hw. Qed.

Lemma dfsLoop_cons fuel st cur stack :
  s_work st = cur :: stack ->
  dfsLoop (S fuel) grid end_ st =
  r ← dfsVisit grid end_ cur
        (mkSearch stack (s_visited st) (s_parent st) (s_order st));
  match r with
  | inl st' => Ok st'
  | inr st' => dfsLoop fuel grid end_ st'
  end.
Proof. intros Hw. cbn [dfsLoop]. by rewrite Hw. Qed.

(** When the stack is empty everything reachable has been visited, and
    [end_] is not among it. *)
Lemma dfs_exhausted d st :
  DfsInv grid start end_ d st ->
  closedBut grid (fun p => p ∈ s_visited st) (fun _ _ => True) st start [] ->
  s_work st = [] ->
  s_parent st !! posKey end_ = None /\ ~ reachable grid start end_ /\
  forall q, reachable grid start q -> q ∈ s_order st.
Proof.
  intros Hinv Hcl Hw. pose proof Hinv as [Hch Hord Hdisc Hnoend].
  assert (forall x, is_Some (s_parent st !! posKey x) -> x ∈ s_visited st) as Hdv.
  { intros x [?|Hx]%Hdisc; [done|]. rewrite Hw in Hx. by apply elem_of_nil in Hx. }
  assert (forall l x, isWalk grid l = true -> head l = Some start ->
            last l = Some x -> x ∈ s_visited st) as Hwalks.
  { induction l as [|x' l IH] using rev_ind; intros x Hwalk Hhead Hlast; [done|].
    rewrite last_snoc in Hlast. simplify_eq.
    apply isWalk_snoc in Hwalk as (Hwalk & Hpass & Hadj).
    destruct (last l) as [y|] eqn:Hy.
    - assert (head l = Some start) as Hhl by (destruct l; [done|exact Hhead]).
      pose proof (IH y Hwalk Hhl eq_refl) as Hyv.
      destruct (Hcl y x Hyv Hadj Hpass) as [[Hx _]|[_ Hx]];
        [by apply Hdv|by apply elem_of_nil in Hx].
    - apply last_None in Hy as ->. simpl in Hhead. simplify_eq.
      apply Hdv. rewrite (ch_start _ _ _ _ Hch). eauto. }
  assert (forall q, reachable grid start q -> q ∈ s_order st) as Hall.
  { intros x (l & (Hwalk & Hhead & Hlast)%connects_spec).
    apply Hord. by eapply Hwalks. }
  split_and!; [|intros Hr; by apply Hnoend, Hord, Hall|done].
  apply eq_None_not_Some. intros Hs. by apply Hnoend, Hdv.
Qed.

(** The loop of [dfs] terminates within its fuel.  Either it stops at
    [end_], which then has a parent chain, or it empties the stack, and
    then it has visited everything that can be reached. *)
Lemma dfsLoop_spec fuel : forall st d,
  DfsInv grid start end_ d st ->
  closedBut grid (fun p => p ∈ s_visited st) (fun _ _ => True) st start [] ->
  (length (s_work st) + 4 * unvisited grid st <= fuel)%nat ->
  exists st' d',
    dfsLoop fuel grid end_ st = Ok st' /\
    ChainInv grid start (s_parent st') d' /\
    (is_Some (s_parent st' !! posKey end_) \/
     (s_parent st' !! posKey end_ = None /\ ~ reachable grid start end_ /\
      forall q, reachable grid start q -> q ∈ s_order st')).
Proof.
  induction fuel as [|fuel IH]; intros st d Hinv Hcl Hmu;
    destruct (s_work st) as [|cur stack] eqn:Hw; simpl in Hmu; try lia.
  1,2: (exists st, d; split; [by apply dfsLoop_nil|];
        split; [apply (di_chain _ _ _ _ _ Hinv)|]; right;
        by eapply dfs_exhausted).
  rewrite (dfsLoop_cons _ _ _ _ Hw).
  pose proof Hinv as [Hch Hord Hdisc Hnoend].
  assert (is_Some (s_parent st !! posKey cur)) as Hcd
    by (apply Hdisc; right; rewrite Hw; by left).
  pose proof (chain_passable _ _ _ _ _ Hch Hcd) as Hcp.
  unfold dfsVisit. rewrite rowInMatrix_passable by done.
  cbn [negb s_visited s_work s_parent s_order].
  set (st0 := mkSearch stack (s_visited st) (s_parent st) (s_order st)).
  case_bool_decide as Hcv.
  - (* already visited: skip *)
    cbn [mbind Outcome_bind]. apply (IH st0 d).
    + split; try done. simpl. intros p. rewrite Hdisc, Hw, elem_of_cons.
      split; [|naive_solver]. intros [?|[->|?]]; auto.
    + intros p q Hp Hpq Hq. by apply (Hcl p q).
    + rewrite (unvisited_same st st0) by done. simpl. lia.
  - set (st1 := mkSearch stack ({[cur]} ∪ s_visited st) (s_parent st)
                  (s_order st ++ [cur])).
    destruct (samePos cur end_) eqn:Hsame.
    + (* reached the end: break *)
      apply samePos_spec in Hsame as ->. cbn [mbind Outcome_bind].
      exists st1, d. split_and!; [done|done|by left].
    + assert (cur <> end_) as Hne
        by (intros Heq%samePos_spec; congruence).
      destruct (getNeighbors_Ok cur) as (ns & Hns & Hlen & Hmem).
      rewrite Hns. cbn [mbind Outcome_bind].
      assert (DfsInv grid start end_ d st1) as Hinv1.
      { split; simpl; try done.
        - intros p. rewrite elem_of_union, elem_of_singleton, elem_of_app,
            list_elem_of_singleton, Hord. naive_solver.
        - intros p. rewrite Hdisc, Hw, elem_of_union, elem_of_singleton,
            elem_of_cons. naive_solver.
        - rewrite elem_of_union, elem_of_singleton. naive_solver. }
      destruct (dfsPush_fold cur (reverse ns) d st1 Hinv1)
        as (d' & Hinv' & Hvis' & Hcl' & Hlen').
      { simpl. set_solver. }
      { intros p q Hp Hpq Hq. simpl in Hp.
        apply elem_of_union in Hp as [->%elem_of_singleton|Hp].
        - right. split; [done|]. rewrite elem_of_reverse. by apply Hmem.
        - destruct (Hcl p q Hp Hpq Hq) as [?|[_ Hin]]; [by left|].
          by apply elem_of_nil in Hin. }
      { apply Forall_forall. intros n Hn. rewrite elem_of_reverse in Hn.
        by apply Hmem. }
      apply (IH _ d'); [done| |].
      * intros p q Hp Hpq Hq. rewrite Hvis' in Hp.
        destruct (Hcl' p q Hp Hpq Hq) as [?|[_ Hin]]; [by left|].
        by apply elem_of_nil in Hin.
      * rewrite length_reverse in Hlen'. simpl in Hlen'.
        pose proof (unvisited_insert st st1 cur eq_refl Hcp Hcv) as Hu.
        rewrite (unvisited_same st1 _ Hvis'). lia.
Qed.

Lemma dfs_correct :
  findStartEnd grid = Ok (start, end_) ->
  exists r, dfs grid = Ok r /\
    ((exists p, path r = Some p /\ connects grid start end_ p = true) \/
     (path r = None /\ ~ reachable grid start end_ /\
      forall q, reachable grid start q -> q ∈ visitedOrder r)).
Proof.
  intros Hfind. rewrite (dfs_unfold _ _ _ Hfind).
  set (st0 := mkSearch [start] ∅ {[posKey start := None]} []).
  destruct (dfsLoop_spec (4 * length grid * gridCols grid + 2) st0
              (fun _ => 0%nat))
    as (st' & d' & Hrun & Hch & Hres).
  - split; simpl.
    + by apply chain_initial.
    + intros p. split; [set_solver|]. intros Hp. by apply elem_of_nil in Hp.
    + intros p. rewrite list_elem_of_singleton. split.
      * intros [v Hv]. apply lookup_singleton_Some in Hv as [Hk _].
        right. symmetry. by apply posKey_inj.
      * intros [Hp| ->]; [set_solver|]. rewrite lookup_singleton_eq. eauto.
    + set_solver.
  - intros p q Hp. simpl in Hp. set_solver.
  - simpl. pose proof (unvisited_le st0). lia.
  - rewrite Hrun. cbn [mbind Outcome_bind].
    destruct Hres as [Hend|[Hnone Hall]].
    + destruct (buildResult_found grid start _ d' end_ st' eq_refl Hch Hend)
        as (p & Hbuild & Hconn & Hlen).
      rewrite Hbuild. eexists. split; [done|]. left.
      exists p. by split_and!.
    + rewrite buildResult_none by done. eexists. split; [done|]. right.
      simpl. destruct Hall as [Hnr Hall]. by split_and!.
Qed.
End Search.

(** * The solvers as a whole *)

(** ** Which exception a solver can raise *)

Lemma followParents_no_throw fuel parent cur acc e :
  followParents fuel parent cur acc <> Throw e.
Proof.
  revert cur acc; induction fuel as [|fuel IH]; intros [c|] acc; simpl; try done.
Qed.

Lemma buildResult_not_missing end_ st :
  buildResult end_ st <> Throw MissingEndpoint.
Proof.
  unfold buildResult. destruct (s_parent st !! posKey end_); [|done].
  pose proof (followParents_no_throw (S (size (s_parent st))) (s_parent st)
                (Some end_) [] MissingEndpoint) as Hf.
  destruct (followParents _ _ _ _); simpl; congruence.
Qed.

Lemma bind_not_missing {A B : Type} (m : Outcome A) (f : A -> Outcome B) :
  m <> Throw MissingEndpoint -> (forall a, f a <> Throw MissingEndpoint) ->
  m ≫= f <> Throw MissingEndpoint.
Proof.
  intros Hm Hf. destruct m as [a|e|]; unfold mbind, Outcome_bind;
    [apply Hf|intros [= ->]; by apply Hm|done].
Qed.

Lemma bfsLoop_not_missing fuel grid end_ : forall st,
  bfsLoop fuel grid end_ st <> Throw MissingEndpoint.
Proof.
  induction fuel as [|fuel IH]; intros st; cbn [bfsLoop];
    destruct (s_work st) as [|cur q]; try done.
  destruct (samePos cur end_); [done|].
  apply bind_not_missing; [apply getNeighbors_not_missing|]. intros; apply IH.
Qed.

Lemma dfsLoop_not_missing fuel grid end_ : forall st,
  dfsLoop fuel grid end_ st <> Throw MissingEndpoint.
Proof.
  induction fuel as [|fuel IH]; intros st; cbn [dfsLoop];
    destruct (s_work st) as [|cur stack]; try done.
  apply bind_not_missing; [|intros [?|?]; [done|apply IH]].
  unfold dfsVisit. destruct (negb _); [done|].
  case_bool_decide; [done|].
  destruct (samePos cur end_); [done|].
  apply bind_not_missing; [apply getNeighbors_not_missing|done].
Qed.

(** C2 (as amended): [bfs] and [dfs] raise the missing-endpoint error
    exactly when the grid has no cell of type start or no cell of type
    end. *)
Theorem solver_missing_endpoint grid :
  (bfs grid = Throw MissingEndpoint <->
   countType Start grid = 0%nat \/ countType End_ grid = 0%nat) /\
  (dfs grid = Throw MissingEndpoint <->
   countType Start grid = 0%nat \/ countType End_ grid = 0%nat).
Proof.
  rewrite <- findStartEnd_missing.
  destruct (findStartEnd_outcome grid) as [(s & e & Hf)|Hf].
  - rewrite (bfs_unfold _ _ _ Hf), (dfs_unfold _ _ _ Hf), Hf.
    split; (split; [|done]); intros Hthrow; exfalso; revert Hthrow.
    + destruct (negb _); [done|].
      apply bind_not_missing;
        auto using bfsLoop_not_missing, buildResult_not_missing.
    + apply bind_not_missing;
        auto using dfsLoop_not_missing, buildResult_not_missing.
  - unfold bfs, dfs. rewrite Hf. done.
Qed.

(** C2 (as stated) fails: a grid with two start cells and one end cell is
    not rejected; both solvers proceed and return a path. *)
Lemma two_starts_not_rejected :
  wfGrid twoStarts = true /\
  countType Start twoStarts = 2%nat /\ countType End_ twoStarts = 1%nat /\
  bfs twoStarts <> Throw MissingEndpoint /\
  dfs twoStarts <> Throw MissingEndpoint /\
  (exists p vo, bfs twoStarts = Ok (mkSolveResult (Some p) vo)) /\
  (exists p vo, dfs twoStarts = Ok (mkSolveResult (Some p) vo)).
Proof.
  split_and!; try by vm_compute.
  - eexists _, _. vm_compute. reflexivity.
  - eexists _, _. vm_compute. reflexivity.
Qed.

(** ** Correctness of the searches *)

(** On a well-formed grid with exactly one start and one end cell,
    [findStartEnd] returns their positions, and the start is passable. *)
Lemma endpoints_found grid s e :
  wfGrid grid = true ->
  countType Start grid = 1%nat -> countType End_ grid = 1%nat ->
  typeAt grid (row s) (col s) = Some Start ->
  typeAt grid (row e) (col e) = Some End_ ->
  findStartEnd grid = Ok (s, e) /\ grid <> [] /\ passable grid s = true.
Proof.
  intros Hwf Hcs Hce Hs He. split_and!.
  - by apply findStartEnd_unique.
  - intros ->. done.
  - unfold typeAt in Hs. apply passable_spec.
    destruct (cellAt grid (row s) (col s)) as [cell|]; [|done].
    exists cell. split; [done|]. simplify_eq/=. congruence.
Qed.

Lemma reachable_refl grid s : passable grid s = true -> reachable grid s s.
Proof.
  intros Hp. exists [s]. unfold connects. simpl. rewrite Hp. simpl.
  by rewrite !bool_decide_eq_true_2.
Qed.

(** C1: on a grid with exactly one start and one end cell in which the
    end can be reached from the start through non-wall cells, [bfs]
    returns a path; it leads from start to end through adjacent non-wall
    cells, and no such sequence of cells is shorter. *)
Theorem bfs_shortest_path grid s e :
  wfGrid grid = true ->
  countType Start grid = 1%nat -> countType End_ grid = 1%nat ->
  typeAt grid (row s) (col s) = Some Start ->
  typeAt grid (row e) (col e) = Some End_ ->
  reachable grid s e ->
  exists p vo,
    bfs grid = Ok (mkSolveResult (Some p) vo) /\
    connects grid s e p = true /\
    forall l, connects grid s e l = true -> (length p <= length l)%nat.
Proof.
  intros Hwf Hcs Hce Hs He Hreach.
  destruct (endpoints_found grid s e) as (Hfind & Hne & Hpass); try done.
  destruct (bfs_correct grid s e Hwf Hne Hpass Hfind)
    as ([p vo] & Hrun & [(p' & Hp & Hconn & Hmin)|(_ & Hnr & _)]);
    [|done].
  simpl in Hp. subst p. eauto.
Qed.

Lemma bfs_shortest_path_witness :
  exists p vo,
    bfs smallMaze = Ok (mkSolveResult (Some p) vo) /\
    connects smallMaze (mkPosition 1 0) (mkPosition 3 4) p = true /\
    forall l, connects smallMaze (mkPosition 1 0) (mkPosition 3 4) l = true ->
              (length p <= length l)%nat.
Proof.
  apply (bfs_shortest_path smallMaze (mkPosition 1 0) (mkPosition 3 4));
    try (vm_compute; reflexivity).
  exists [mkPosition 1 0; mkPosition 1 1; mkPosition 1 2; mkPosition 1 3;
          mkPosition 2 3; mkPosition 3 3; mkPosition 3 4].
  vm_compute. reflexivity.
Defined.

(** C4: on a grid with exactly one start and one end cell, each solver
    returns; its path is null exactly when the end cannot be reached from
    the start through non-wall cells, and in that case [visitedOrder]
    holds every cell that can be reached from the start. *)
Theorem solver_null_iff_unreachable alg grid s e :
  wfGrid grid = true ->
  countType Start grid = 1%nat -> countType End_ grid = 1%nat ->
  typeAt grid (row s) (col s) = Some Start ->
  typeAt grid (row e) (col e) = Some End_ ->
  exists r,
    solverOf alg grid = Ok r /\
    (path r = None <-> ~ reachable grid s e) /\
    (path r = None -> forall q, reachable grid s q -> q ∈ visitedOrder r).
Proof.
  intros Hwf Hcs Hce Hs He.
  destruct (endpoints_found grid s e) as (Hfind & Hne & Hpass); try done.
  assert (exists r, solverOf alg grid = Ok r /\
            ((exists p, path r = Some p /\ connects grid s e p = true) \/
             (path r = None /\ ~ reachable grid s e /\
              forall q, reachable grid s q -> q ∈ visitedOrder r)))
    as (r & Hrun & Hres).
  { destruct alg; simpl.
    - destruct (bfs_correct grid s e Hwf Hne Hpass Hfind)
        as (r & Hrun & [(p & Hp & Hconn & _)|Hnone]); eauto 10.
    - by apply dfs_correct. }
  exists r. split; [done|].
  destruct Hres as [(p & Hp & Hconn)|(Hnone & Hnr & Hall)].
  - rewrite Hp. split; [|done]. split; [done|].
    intros Hnr. exfalso. apply Hnr. by exists p.
  - rewrite Hnone. done.
Qed.

Lemma solver_null_iff_unreachable_witness :
  exists r,
    solverOf Dfs walledOff = Ok r /\
    (path r = None <-> ~ reachable walledOff (mkPosition 0 0) (mkPosition 0 3)) /\
    (path r = None ->
     forall q, reachable walledOff (mkPosition 0 0) q -> q ∈ visitedOrder r).
Proof.
  apply (solver_null_iff_unreachable Dfs walledOff (mkPosition 0 0)
           (mkPosition 0 3)); vm_compute; reflexivity.
Defined.

(** ** The discipline of the depth-first loop *)

Lemma dfsPush_shape cur n st :
  s_visited (dfsPush cur st n) = s_visited st /\
  s_order (dfsPush cur st n) = s_order st /\
  s_work (dfsPush cur st n) =
    (if decide (n ∉ s_visited st) then [n] else []) ++ s_work st /\
  (forall k v, s_parent st !! k = Some v ->
               s_parent (dfsPush cur st n) !! k = Some v) /\
  (forall k v, s_parent (dfsPush cur st n) !! k = Some v ->
               s_parent st !! k = None -> v = Some cur).
Proof.
  unfold dfsPush. case_bool_decide as Hn.
  - rewrite decide_False by (intros Hx; by apply Hx). split_and!; try done.
    intros k v Hk Hnone. congruence.
  - rewrite decide_True by done.
    destruct (s_parent st !! posKey n) as [v0|] eqn:Hpn; simpl.
    + split_and!; try done. intros k v Hk Hnone. congruence.
    + split_and!; try done.
      * intros k v Hk. rewrite lookup_insert_ne; [done|]. congruence.
      * intros k v Hk Hnone. destruct (decide (posKey n = k)) as [<-|Hne].
        -- rewrite lookup_insert_eq in Hk. congruence.
        -- rewrite lookup_insert_ne in Hk by done. congruence.
Qed.

Lemma dfsPush_fold_shape cur ns : forall st,
  s_visited (foldl (dfsPush cur) st ns) = s_visited st /\
  s_order (foldl (dfsPush cur) st ns) = s_order st /\
  s_work (foldl (dfsPush cur) st ns) =
    reverse (filter (fun n => n ∉ s_visited st) ns) ++ s_work st /\
  (forall k v, s_parent st !! k = Some v ->
               s_parent (foldl (dfsPush cur) st ns) !! k = Some v) /\
  (forall k v, s_parent (foldl (dfsPush cur) st ns) !! k = Some v ->
               s_parent st !! k = None -> v = Some cur).
Proof.
  induction ns as [|n ns IH]; intros st; simpl.
  { split_and!; try done. intros k v Hk Hnone. congruence. }
  destruct (dfsPush_shape cur n st) as (Hv1 & Ho1 & Hw1 & Hk1 & Hn1).
  destruct (IH (dfsPush cur st n)) as (Hv & Ho & Hw & Hk & Hn).
  rewrite Hv1 in Hv, Hw. split_and!.
  - done.
  - congruence.
  - rewrite Hw, Hw1, filter_cons.
    destruct (decide (n ∉ s_visited st)); simpl; [|done].
    by rewrite reverse_cons, <- app_assoc.
  - auto.
  - intros k v Hk' Hnone.
    destruct (s_parent (dfsPush cur st n) !! k) as [v1|] eqn:Hmid.
    + pose proof (Hk _ _ Hmid). assert (v = v1) as -> by congruence.
      by eapply Hn1.
    + by eapply Hn.
Qed.

Lemma neighborStep_sublist grid rows cols pos ds : forall res ns,
  foldlM (neighborStep grid rows cols pos) res ds = Ok ns ->
  exists extra, ns = res ++ extra /\
    sublist extra ((fun d : Z * Z => mkPosition (row pos + d.1) (col pos + d.2)) <$> ds).
Proof.
  induction ds as [|[dr dc] ds IH]; intros res ns Hrun; simpl in Hrun.
  - simplify_eq. exists []. by rewrite app_nil_r.
  - apply bind_Ok in Hrun as (res1 & Hstep & Hrun).
    apply IH in Hrun as (extra & -> & Hsub).
    unfold neighborStep in Hstep. rewrite fmap_cons. cbn [fst snd].
    repeat case_match; simplify_eq.
    + exists extra. split; [done|]. by apply sublist_cons.
    + exists extra. split; [done|]. by apply sublist_cons.
    + exists (mkPosition (row pos + dr) (col pos + dc) :: extra).
      split; [by rewrite <- app_assoc|]. by apply sublist_skip.
Qed.

Lemma getNeighbors_sublist grid cur ns :
  getNeighbors grid cur = Ok ns -> sublist ns (around cur).
Proof.
  unfold getNeighbors. destruct grid as [|row0 rest]; [done|].
  intros (extra & -> & Hsub)%neighborStep_sublist. done.
Qed.

(** The parent pointers after the pushes of one iteration: a pointer
    that exists is kept, and each pushed position without one gets
    [cur]. *)
Lemma dfsPush_fold_parent cur ns : forall st k,
  s_parent (foldl (dfsPush cur) st ns) !! k =
  match s_parent st !! k with
  | Some v => Some v
  | None =>
      if bool_decide (k ∈ posKey <$> filter (fun n => n ∉ s_visited st) ns)
      then Some (Some cur) else None
  end.
Proof.
  induction ns as [|n ns IH]; intros st k; cbn [foldl].
  - destruct (s_parent st !! k); [done|].
    case_bool_decide as Hk; [|done]. by apply elem_of_nil in Hk.
  - rewrite IH. destruct (dfsPush_shape cur n st) as (Hv & _).
    rewrite Hv. clear Hv.
    unfold dfsPush. rewrite filter_cons. case_bool_decide as Hn.
    + rewrite decide_False by (intros Hx; by apply Hx). done.
    + rewrite decide_True by done. cbn [s_parent]. rewrite fmap_cons.
      destruct (s_parent st !! posKey n) as [v0|] eqn:Hpn.
      * destruct (s_parent st !! k) as [v|] eqn:Hk; [done|].
        rewrite (bool_decide_ext (k ∈ posKey n :: _) (k ∈ posKey <$>
                   filter (fun n => n ∉ s_visited st) ns)); [done|].
        rewrite elem_of_cons. split; [|by right].
        intros [->|?]; [congruence|done].
      * destruct (decide (k = posKey n)) as [->|Hne].
        -- rewrite lookup_insert_eq, Hpn.
           rewrite bool_decide_eq_true_2 by left. done.
        -- rewrite lookup_insert_ne by done.
           destruct (s_parent st !! k) as [v|] eqn:Hk; [done|].
           rewrite (bool_decide_ext (k ∈ posKey n :: _) (k ∈ posKey <$>
                      filter (fun n => n ∉ s_visited st) ns)); [done|].
           rewrite elem_of_cons. split; [|by right]. by intros [?|?].
Qed.

(** One run of the body of the loop is an iteration in the sense of the
    specification, and the loop is left at once only at the end cell. *)
Lemma dfsVisit_iteration grid end_ cur stack st r :
  wfGrid grid = true -> grid <> [] ->
  s_work st = cur :: stack ->
  dfsVisit grid end_ cur
    (mkSearch stack (s_visited st) (s_parent st) (s_order st)) = Ok r ->
  dfsIteration grid end_ st (match r with inl x | inr x => x end) /\
  (forall x, r = inl x -> cur = end_ /\ cur ∉ s_visited st) /\
  (forall x, r = inr x -> cur ∉ s_visited st -> cur <> end_).
Proof.
  intros Hwf Hne Hw. unfold dfsVisit, dfsIteration.
  destruct (negb _); [done|]. cbn [s_visited s_parent s_order s_work].
  case_bool_decide as Hv.
  - intros [= <-]. split; [|done]. exists cur, stack. split; [done|].
    by rewrite bool_decide_eq_true_2.
  - destruct (samePos cur end_) eqn:Hsame.
    + intros [= <-]. apply samePos_spec in Hsame as ->.
      split; [|split; [done|by intros x [=]]]. exists end_, stack. split; [done|].
      rewrite bool_decide_eq_false_2 by done. cbn.
      split; [done|]. split; [done|]. by rewrite bool_decide_eq_true_2.
    + assert (cur <> end_) as Hce
        by (intros Heq%samePos_spec; congruence).
      rewrite getNeighbors_wf by done. cbn [mbind Outcome_bind].
      intros [= <-]. split; [|split; [by intros x [=]|done]].
      exists cur, stack. split; [done|].
      rewrite bool_decide_eq_false_2 by done.
      set (st1 := mkSearch _ _ _ _).
      set (ns := filter _ (around cur)).
      destruct (dfsPush_fold_shape cur (reverse ns) st1)
        as (Hvis & Hord & Hwork & _ & _).
      split; [done|]. split; [done|].
      rewrite bool_decide_eq_false_2 by done.
      cbn zeta. rewrite Hvis. split.
      * rewrite Hwork, filter_reverse, reverse_involutive.
        unfold ns. by rewrite list_filter_filter.
      * intros k. rewrite dfsPush_fold_parent. cbn [s_parent st1].
        destruct (s_parent st !! k); [done|].
        rewrite (bool_decide_ext _ (k ∈ posKey <$>
                   filter (fun n => (n ∉ s_visited st1) /\ passable grid n = true)
                          (around cur))); [done|].
        rewrite filter_reverse, fmap_reverse, elem_of_reverse.
        unfold ns. by rewrite list_filter_filter.
Qed.

(** The recorded run is the run of the loop. *)
Lemma dfsLoop_trace grid end_ fuel : forall st st',
  wfGrid grid = true -> grid <> [] ->
  dfsLoop fuel grid end_ st = Ok st' ->
  exists tr,
    dfsTrace fuel grid end_ st = Ok tr /\
    head tr = Some st /\ last tr = Some st' /\
    (forall i x y, tr !! i = Some x -> tr !! S i = Some y ->
       dfsIteration grid end_ x y) /\
    (s_work st' = [] \/ last (s_order st') = Some end_).
Proof.
  induction fuel as [|fuel IH]; intros st st' Hwf Hne Hrun;
    destruct (s_work st) as [|cur stack] eqn:Hw.
  1,3: (simpl in Hrun; rewrite Hw in Hrun; injection Hrun as <-;
        exists [st]; simpl; rewrite Hw;
        split; [done|]; split; [done|]; split; [done|];
        split; [intros [|i] x y Hx Hy; done|by left]).
  { simpl in Hrun. by rewrite Hw in Hrun. }
  cbn [dfsLoop dfsTrace] in *. rewrite Hw in *.
  apply bind_Ok in Hrun as (r & Hvisit & Hrun). rewrite Hvisit.
  cbn [mbind Outcome_bind].
  destruct (dfsVisit_iteration grid end_ cur stack st r Hwf Hne Hw Hvisit)
    as (Hit & Hbreak & _).
  destruct r as [st1|st1].
  - injection Hrun as <-. exists [st; st1]. split_and!; try done.
    + intros [|[|i]] x y Hx Hy; simplify_eq/=. exact Hit.
    + right. destruct (Hbreak st1 eq_refl) as [-> Hnv].
      destruct Hit as (c & stk & Hw' & Hit). rewrite Hw in Hw'.
      injection Hw' as <- <-.
      rewrite bool_decide_eq_false_2 in Hit by done.
      destruct Hit as (_ & -> & _). by rewrite last_snoc.
  - destruct (IH st1 st' Hwf Hne Hrun) as (tr & Htr & Hhead & Hlast & Hsteps & Hend).
    rewrite Htr. cbn [mbind Outcome_bind]. exists (st :: tr).
    split_and!; try done.
    + destruct tr; [done|]. by rewrite last_cons_cons.
    + intros [|i] x y Hx Hy.
      * simpl in Hx, Hy. simplify_eq.
        destruct tr as [|z tr]; simplify_eq/=. exact Hit.
      * by apply (Hsteps i).
Qed.

(** The pops visit the open neighbours in the enumeration order: what is
    visited next after a position is its first open neighbour that is
    not visited yet. *)
Lemma dfsLoop_forward grid end_ fuel : forall st st',
  wfGrid grid = true -> grid <> [] ->
  dfsLoop fuel grid end_ st = Ok st' ->
  (forall x, x ∈ s_visited st <-> x ∈ s_order st) ->
  (exists ext, s_order st' = s_order st ++ ext) /\
  (forall c stack, s_work st = c :: stack -> c ∉ s_visited st ->
     s_order st' !! length (s_order st) = Some c) /\
  (forall i cur n rest,
     (length (s_order st) <= i)%nat -> s_order st' !! i = Some cur ->
     cur <> end_ ->
     filter (fun n => (n ∉ take (S i) (s_order st')) /\ passable grid n = true)
            (around cur) = n :: rest ->
     s_order st' !! S i = Some n).
Proof.
  induction fuel as [|fuel IH]; intros st st' Hwf Hne Hrun Hinv;
    destruct (s_work st) as [|c stack] eqn:Hw.
  1,3: (simpl in Hrun; rewrite Hw in Hrun; injection Hrun as <-;
        split; [exists []; by rewrite app_nil_r|]; split; [done|];
        intros i cur n rest Hi Hl; apply lookup_lt_Some in Hl; lia).
  { simpl in Hrun. by rewrite Hw in Hrun. }
  cbn [dfsLoop] in Hrun. rewrite Hw in Hrun.
  apply bind_Ok in Hrun as (r & Hvisit & Hrun).
  destruct (dfsVisit_iteration grid end_ c stack st r Hwf Hne Hw Hvisit)
    as ((c' & stk & Hw' & Hit) & Hbreak & Hcont).
  rewrite Hw in Hw'. injection Hw' as <- <-.
  destruct (decide (c ∈ s_visited st)) as [Hv|Hv].
  - rewrite bool_decide_eq_true_2 in Hit by done.
    destruct r as [st1|st1]; [by destruct (Hbreak st1 eq_refl)|].
    subst st1. destruct (IH _ st' Hwf Hne Hrun Hinv) as (Hext & _ & Hnext).
    split_and!; [done| |done].
    intros c0 stack0 [= <- <-] Hnv. done.
  - rewrite bool_decide_eq_false_2 in Hit by done.
    destruct Hit as (Hvis1 & Hord1 & Hit).
    destruct r as [st1|st1].
    + injection Hrun as <-. destruct (Hbreak st1 eq_refl) as [-> _].
      split_and!.
      * exists [end_]. exact Hord1.
      * intros c0 stack0 [= <- <-] _. rewrite Hord1.
        by rewrite lookup_app_r, Nat.sub_diag by lia.
      * intros i cur n rest Hi Hl Hcur. exfalso. apply Hcur.
        rewrite Hord1 in Hl. apply lookup_app_Some in Hl as [Hl|[_ Hl]].
        -- apply lookup_lt_Some in Hl. lia.
        -- by apply list_lookup_singleton_Some in Hl as [_ <-].
    + cbn zeta in Hit. pose proof (Hcont st1 eq_refl Hv) as Hce.
      rewrite bool_decide_eq_false_2 in Hit by done.
      destruct Hit as (Hwork1 & _).
      assert (forall x, x ∈ s_visited st1 <-> x ∈ s_order st1) as Hinv1.
      { intros x. rewrite Hvis1, Hord1, elem_of_union, elem_of_singleton,
          elem_of_app, list_elem_of_singleton, Hinv. tauto. }
      destruct (IH st1 st' Hwf Hne Hrun Hinv1) as ([ext Hext] & Hfirst & Hnext).
      assert (s_order st' !! length (s_order st) = Some c) as Hc.
      { rewrite Hext, Hord1, <- app_assoc.
        by rewrite lookup_app_r, Nat.sub_diag by lia. }
      split_and!.
      * exists (c :: ext). by rewrite Hext, Hord1, <- app_assoc.
      * intros c0 stack0 [= <- <-] _. exact Hc.
      * intros i cur n rest Hi Hl Hcur Hfil.
        destruct (decide (i = length (s_order st))) as [->|Hne'].
        -- rewrite Hc in Hl. injection Hl as <-.
           assert (take (S (length (s_order st))) (s_order st') = s_order st1)
             as Htake.
           { rewrite Hext, take_app_length'; [done|].
             rewrite Hord1, length_app. simpl. lia. }
           rewrite Htake in Hfil.
           assert (filter (fun n => (n ∉ s_visited st1) /\ passable grid n = true)
                          (around c) = n :: rest) as Hfil'.
           { rewrite <- Hfil. apply list_filter_iff. intros x.
             by rewrite Hinv1. }
           rewrite Hfil' in Hwork1.
           assert (n ∉ s_visited st1) as Hn.
           { assert (n ∈ n :: rest) as Hin by left.
             rewrite <- Hfil' in Hin.
             by apply list_elem_of_filter in Hin as [[? _] _]. }
           replace (S (length (s_order st))) with (length (s_order st1))
             by (rewrite Hord1, length_app; simpl; lia).
           by apply (Hfirst n (rest ++ stack)).
        -- apply (Hnext i cur n rest); [|done..].
           rewrite Hord1, length_app. simpl. lia.
Qed.

(** C6: the run of [dfs] on a grid with one start and one end cell.
    The loop starts with the start cell on the stack and [null] as its
    parent, and every turn of it pops the top [cur] of the stack and is
    an iteration in the sense of [dfsIteration]: a position visited
    already is skipped; otherwise [cur], and nothing else, is marked
    visited and appended to [visitedOrder] (a push marks nothing); the
    open neighbours not visited yet are pushed, in reverse, so that they
    lie on the stack in the order up, down, left, right; each of them
    that has no parent pointer gets [cur], and no pointer that exists is
    changed.  The loop stops when the stack is empty or the end cell has
    been visited; the state it stops in is the one [dfsLoop] returns and
    [dfs] builds its result from; [visitedOrder] is its order, and in
    it a position [cur] other than the end cell that has an open
    neighbour not visited before is followed by the first such
    neighbour in the order up, down, left, right. *)
Theorem dfs_visit_discipline grid s e :
  wfGrid grid = true ->
  countType Start grid = 1%nat -> countType End_ grid = 1%nat ->
  typeAt grid (row s) (col s) = Some Start ->
  typeAt grid (row e) (col e) = Some End_ ->
  exists tr st_n r,
    dfsTrace (4 * length grid * gridCols grid + 2) grid e
      (mkSearch [s] ∅ {[posKey s := None]} []) = Ok tr /\
    head tr = Some (mkSearch [s] ∅ {[posKey s := None]} []) /\
    last tr = Some st_n /\
    dfsLoop (4 * length grid * gridCols grid + 2) grid e
      (mkSearch [s] ∅ {[posKey s := None]} []) = Ok st_n /\
    (forall i st st', tr !! i = Some st -> tr !! S i = Some st' ->
       dfsIteration grid e st st') /\
    (s_work st_n = [] \/ last (s_order st_n) = Some e) /\
    dfs grid = buildResult e st_n /\ dfs grid = Ok r /\
    visitedOrder r = s_order st_n /\
    (forall i cur n rest,
       visitedOrder r !! i = Some cur -> cur <> e ->
       filter (fun n => (n ∉ take (S i) (visitedOrder r)) /\
                        passable grid n = true) (around cur) = n :: rest ->
       visitedOrder r !! S i = Some n).
Proof.
  intros Hwf Hcs Hce Hs He.
  destruct (endpoints_found grid s e) as (Hfind & Hne & Hpass); try done.
  destruct (dfs_correct grid s e Hwf Hne Hpass Hfind) as (r & Hr & _).
  pose proof Hr as Hr'. rewrite (dfs_unfold _ _ _ Hfind) in Hr'.
  apply bind_Ok in Hr' as (st_n & Hloop & Hbuild).
  destruct (dfsLoop_trace grid e _ _ st_n Hwf Hne Hloop)
    as (tr & Htr & Hhead & Hlast & Hsteps & Hend).
  destruct (dfsLoop_forward grid e _ _ st_n Hwf Hne Hloop)
    as (_ & _ & Hnext).
  { intros x. cbn [s_visited s_order]. rewrite elem_of_empty.
    split; [done|]. by intros ?%elem_of_nil. }
  assert (visitedOrder r = s_order st_n) as Hvo.
  { unfold buildResult in Hbuild. destruct (s_parent st_n !! posKey e).
    - apply bind_Ok in Hbuild as (acc & _ & [= <-]). done.
    - by injection Hbuild as <-. }
  exists tr, st_n, r. split_and!; try done.
  - rewrite (dfs_unfold _ _ _ Hfind), Hloop. done.
  - intros i cur n rest Hi Hcur Hfil. rewrite Hvo in *.
    apply (Hnext i cur n rest); [simpl; lia|done..].
Qed.

Lemma dfs_visit_discipline_witness :
  exists tr st_n r,
    dfsTrace (4 * length smallMaze * gridCols smallMaze + 2) smallMaze
      (mkPosition 3 4)
      (mkSearch [mkPosition 1 0] ∅ {[posKey (mkPosition 1 0) := None]} [])
      = Ok tr /\
    head tr =
      Some (mkSearch [mkPosition 1 0] ∅ {[posKey (mkPosition 1 0) := None]} []) /\
    last tr = Some st_n /\
    dfsLoop (4 * length smallMaze * gridCols smallMaze + 2) smallMaze
      (mkPosition 3 4)
      (mkSearch [mkPosition 1 0] ∅ {[posKey (mkPosition 1 0) := None]} [])
      = Ok st_n /\
    (forall i st st', tr !! i = Some st -> tr !! S i = Some st' ->
       dfsIteration smallMaze (mkPosition 3 4) st st') /\
    (s_work st_n = [] \/ last (s_order st_n) = Some (mkPosition 3 4)) /\
    dfs smallMaze = buildResult (mkPosition 3 4) st_n /\ dfs smallMaze = Ok r /\
    visitedOrder r = s_order st_n /\
    (forall i cur n rest,
       visitedOrder r !! i = Some cur -> cur <> mkPosition 3 4 ->
       filter (fun n => (n ∉ take (S i) (visitedOrder r)) /\
                        passable smallMaze n = true) (around cur) = n :: rest ->
       visitedOrder r !! S i = Some n).
Proof.
  apply (dfs_visit_discipline smallMaze (mkPosition 1 0) (mkPosition 3 4));
    vm_compute; reflexivity.
Defined.

(** ** A solver always visits something *)

Lemma bfsRelax_fold_order cur ns : forall st,
  s_order (foldl (bfsRelax cur) st ns) = s_order st.
Proof.
  induction ns as [|n ns IH]; intros st; simpl; [done|].
  rewrite IH. unfold bfsRelax. by case_bool_decide.
Qed.

Lemma bfsLoop_order fuel grid end_ : forall st st',
  bfsLoop fuel grid end_ st = Ok st' ->
  s_order st <> [] \/ s_work st <> [] -> s_order st' <> [].
Proof.
  induction fuel as [|fuel IH]; intros st st'; cbn [bfsLoop];
    destruct (s_work st) as [|cur q] eqn:Hw; try done.
  - intros [= <-] [?|?]; done.
  - intros [= <-] [?|?]; done.
  - destruct (samePos cur end_).
    + intros [= <-] _. simpl. by destruct (s_order st).
    + intros (ns & _ & Hrun)%bind_Ok _. apply (IH _ _ Hrun). left.
      rewrite bfsRelax_fold_order. simpl. by destruct (s_order st).
Qed.

Lemma dfsLoop_order fuel grid end_ : forall st st',
  dfsLoop fuel grid end_ st = Ok st' ->
  s_order st <> [] \/ (exists cur stack, s_work st = cur :: stack /\
                                         cur ∉ s_visited st) ->
  s_order st' <> [].
Proof.
  induction fuel as [|fuel IH]; intros st st'; cbn [dfsLoop];
    destruct (s_work st) as [|cur stack] eqn:Hw; try done.
  - intros [= <-] [?|(? & ? & ? & _)]; done.
  - intros [= <-] [?|(? & ? & ? & _)]; done.
  - intros (r & Hvisit & Hrun)%bind_Ok Hne.
    unfold dfsVisit in Hvisit. destruct (negb _); [done|].
    cbn [s_visited s_order s_work s_parent] in Hvisit.
    case_bool_decide as Hv.
    + simplify_eq. apply (IH _ _ Hrun). left. simpl.
      destruct Hne as [?|(? & ? & ? & ?)]; [done|]. by simplify_eq.
    + destruct (samePos cur end_).
      * simplify_eq. simpl. by destruct (s_order st).
      * apply bind_Ok in Hvisit as (ns & _ & [= <-]).
        apply (IH _ _ Hrun). left.
        destruct (dfsPush_fold_shape cur (reverse ns)
                    (mkSearch stack ({[cur]} ∪ s_visited st) (s_parent st)
                       (s_order st ++ [cur]))) as (_ & -> & _).
        simpl. by destruct (s_order st).
Qed.

Lemma buildResult_order end_ st r :
  buildResult end_ st = Ok r -> visitedOrder r = s_order st.
Proof.
  unfold buildResult. destruct (s_parent st !! posKey end_).
  - intros (acc & _ & [= <-])%bind_Ok. done.
  - by intros [= <-].
Qed.

Lemma solver_visits_something alg grid r :
  solverOf alg grid = Ok r -> visitedOrder r <> [].
Proof.
  destruct alg; simpl; intros Hrun;
    destruct (findStartEnd_outcome grid) as [(s & e & Hf)|Hf].
  - rewrite (bfs_unfold _ _ _ Hf) in Hrun. destruct (negb _); [done|].
    apply bind_Ok in Hrun as (st & Hloop & Hbuild).
    rewrite (buildResult_order _ _ _ Hbuild).
    apply (bfsLoop_order _ _ _ _ _ Hloop). by right.
  - unfold bfs in Hrun. by rewrite Hf in Hrun.
  - rewrite (dfs_unfold _ _ _ Hf) in Hrun.
    apply bind_Ok in Hrun as (st & Hloop & Hbuild).
    rewrite (buildResult_order _ _ _ Hbuild).
    apply (dfsLoop_order _ _ _ _ _ Hloop). right.
    exists s, []. split; [done|]. simpl. set_solver.
  - unfold dfs in Hrun. by rewrite Hf in Hrun.
Qed.

(** ** Solving a maze that has no path *)

(** C10: when the solver returns a null path, [handleSolve] returns
    normally without calling [setTimeout]: no timer is added and the
    tracked ones are cleared, although the visited order is not empty;
    [isAnimating] stays false; the grid is the old one with the marks of
    earlier solves cleared, so no cell is visited, path or pathHead; and
    with no timer pending beforehand, nothing is left to fire. *)
Theorem handleSolve_no_path a vo :
  isAnimating a = false ->
  solverOf (algorithm a) (grid a) = Ok (mkSolveResult None vo) ->
  let a' := (handleSolve a).1 in
  (handleSolve a).2 = Ok () /\
  vo <> [] /\
  nextId a' = nextId a /\
  timers a' = filter (fun t => t_id t ∉ timeoutsRef a) (timers a) /\
  timeoutsRef a' = [] /\
  isAnimating a' = false /\
  grid a' = mapGrid clearCell (grid a) /\
  (forall cell, cell ∈ concat (grid a') -> isMark (type cell) = false) /\
  visitedCount a' = Some (length vo) /\
  pathLength a' = None /\
  (timers a = [] -> fireNext a' = None).
Proof.
  intros Hanim Hsolve.
  pose proof (solver_visits_something _ _ _ Hsolve) as Hvo. simpl in Hvo.
  destruct a as [g alg sp stt pl vc anim tref tms clk nid vs].
  cbn [isAnimating algorithm grid] in Hanim, Hsolve. subst anim.
  cbv [handleSolve clearPath clearAnimations setStatus setGrid
       setVisitedCount setPathLength isAnimating algorithm grid timeoutsRef
       timers nextId visitedSet clock speed status pathLength visitedCount].
  rewrite mapGrid_id, Hsolve.
  cbv [path visitedOrder fst snd setStatus setVisitedCount isAnimating
       algorithm grid timeoutsRef timers nextId visitedSet clock speed status
       pathLength visitedCount].
  rewrite filter_no_ids.
  split_and!; try done.
  - intros cell (cell0 & ->)%mapGrid_elem. apply clearCell_unmarked.
  - intros ->. done.
Qed.

Lemma handleSolve_no_path_witness :
  let a := mkApp walledOff Bfs Fast "Maze ready" None None false [] [] 0 0 ∅ in
  isAnimating a = false /\
  solverOf (algorithm a) (grid a) =
    Ok (mkSolveResult None [mkPosition 0 0; mkPosition 0 1]) /\
  (handleSolve a).2 = Ok () /\
  timers (handleSolve a).1 = [] /\
  isAnimating (handleSolve a).1 = false /\
  fireNext (handleSolve a).1 = None.
Proof.
  intros a.
  assert (solverOf (algorithm a) (grid a) =
          Ok (mkSolveResult None [mkPosition 0 0; mkPosition 0 1])) as Hsolve
    by (vm_compute; reflexivity).
  destruct (handleSolve_no_path a [mkPosition 0 0; mkPosition 0 1]
              eq_refl Hsolve)
    as (Hret & _ & _ & Htimers & _ & Hanim & _ & _ & _ & _ & Hfire).
  split; [reflexivity|]. split; [exact Hsolve|]. split; [exact Hret|].
  split; [exact Htimers|]. split; [exact Hanim|]. exact (Hfire eq_refl).
Defined.


(** * Generated mazes are grids in the sense of the solvers *)

Lemma generatePerfectMaze_wf rnd mazeRows mazeCols grid :
  generatePerfectMaze rnd mazeRows mazeCols = Ok grid -> wfGrid grid = true.
Proof.
  destruct (generatePerfectMaze_run rnd mazeRows mazeCols)
    as (st & grid1 & grid' & Hgen & Hs1 & Hs2 & Hinv & _).
  rewrite Hgen. intros [= <-].
  eapply wfGrid_intro.
  - eapply setType_dims; [exact Hs2|]. eapply setType_dims; [exact Hs1|].
    apply (gi_dims _ _ _ _ Hinv).
  - eapply setType_coords; [exact Hs2|]. eapply setType_coords; [exact Hs1|].
    apply (gi_coords _ _ _ _ Hinv).
Qed.

(** * More about the generator *)

(** ** The cells of a carved grid *)

Section CarveShapeFacts.
Variable rnd : nat -> nat.
Variables R C : Z.

Lemma CarveShape_open st r c grid' V' k :
  CarveShape R C st ->
  setType (g_grid st) r c Passage = Ok grid' ->
  isRoomCell (r, c) = true \/ isInterRoomWall R C (r, c) = true ->
  (forall m, m ∈ V' ->
     m ∈ g_visited st \/ (2 * m.1 + 1, 2 * m.2 + 1) = (r, c)) ->
  CarveShape R C (mkGen grid' V' k).
Proof.
  intros [Hrooms Htypes Hopen] Hset Hkind HV. split; simpl.
  - intros m [Hm|Hm]%HV.
    + destruct (decide ((2 * m.1 + 1, 2 * m.2 + 1) = (r, c))) as [[= -> ->]|Hne].
      * by apply (typeAt_setType_eq _ _ _ _ _ Hset).
      * rewrite (typeAt_setType_ne _ _ _ _ _ _ _ Hset Hne). by apply Hrooms.
    + injection Hm as -> ->. by apply (typeAt_setType_eq _ _ _ _ _ Hset).
  - intros r' c' t Ht.
    destruct (decide ((r', c') = (r, c))) as [[= -> ->]|Hne].
    + rewrite (typeAt_setType_eq _ _ _ _ _ Hset) in Ht. right. congruence.
    + rewrite (typeAt_setType_ne _ _ _ _ _ _ _ Hset Hne) in Ht. eauto.
  - intros r' c' Ht.
    destruct (decide ((r', c') = (r, c))) as [[= -> ->]|Hne]; [done|].
    rewrite (typeAt_setType_ne _ _ _ _ _ _ _ Hset Hne) in Ht. eauto.
Qed.

Section Loop.
Variable rec : Z -> Z -> GenState -> Outcome GenState.
Hypothesis rec_shape : forall mr mc st st',
  isRoom R C (mr, mc) -> rec mr mc st = Ok st' ->
  CarveShape R C st -> CarveShape R C st'.

Lemma carveLoop_shape mr mc ds : forall st st',
  isRoom R C (mr, mc) -> Forall (fun d => d ∈ carveDirs) ds ->
  foldlM (carveStep R C rec mr mc) st ds = Ok st' ->
  CarveShape R C st -> CarveShape R C st'.
Proof.
  induction ds as [|[dr dc] ds IH]; intros st st' Hroom Hds; simpl.
  - by intros [= <-].
  - apply Forall_cons in Hds as [Hd Hds].
    intros (st1 & Hstep & Hrest)%bind_Ok Hshape.
    apply (IH st1 st' Hroom Hds Hrest). clear IH Hrest.
    unfold carveStep in Hstep.
    destruct (negb (inBounds R C (mr + dr) (mc + dc))
              || bool_decide ((mr + dr, mc + dc) ∈ g_visited st)) eqn:Hskip.
    + by injection Hstep as <-.
    + apply orb_false_iff in Hskip as [Hin%negb_false_iff _].
      apply inBounds_spec in Hin.
      apply bind_Ok in Hstep as (grid & Hset & Hrec).
      apply (rec_shape _ _ _ _ Hin Hrec).
      apply (CarveShape_open st _ _ _ _ _ Hshape Hset); [|by left].
      right.
      replace (2 * mr + 1 + dr, 2 * mc + 1 + dc)
        with (wallBetween (mr, mc) (mr + dr, mc + dc))
        by (unfold wallBetween; simpl; f_equal; lia).
      apply wallBetween_inter; [done..|].
      apply (carveDirs_adj mr mc (dr, dc) Hd).
Qed.
End Loop.

Lemma carveFrom_shape fuel : forall mr mc st st',
  isRoom R C (mr, mc) -> carveFrom rnd R C fuel mr mc st = Ok st' ->
  CarveShape R C st -> CarveShape R C st'.
Proof.
  induction fuel as [|fuel IH]; intros mr mc st st' Hroom; [done|].
  rewrite carveFrom_S. intros (grid & Hset & Hloop)%bind_Ok Hshape.
  eapply (carveLoop_shape _ IH); [exact Hroom| |exact Hloop|].
  - apply Forall_forall. intros d Hd.
    by rewrite (shuffleFrom_Permutation rnd _ _ carveDirs) in Hd.
  - apply (CarveShape_open st _ _ _ _ _ Hshape Hset).
    + left. unfold isRoomCell. simpl. by rewrite !odd_double_succ.
    + intros m [->%elem_of_singleton|Hm]%elem_of_union; [by right|by left].
Qed.
End CarveShapeFacts.

Lemma CarveShape_initial R C rows cols :
  CarveShape R C (mkGen (wallGrid rows cols) ∅ 0).
Proof.
  split; simpl.
  - intros m Hm. set_solver.
  - intros r c t Ht%wallGrid_typeAt. by left.
  - intros r c Ht%wallGrid_typeAt. done.
Qed.

(** The run of the generator, step by step. *)
Lemma generatePerfectMaze_trace rnd mazeRows mazeCols :
  let R := clamp mazeRows in
  let C := clamp mazeCols in
  exists st grid1 grid,
    generatePerfectMaze rnd mazeRows mazeCols = Ok grid /\
    setType (g_grid st) 1 0 Start = Ok grid1 /\
    setType grid1 (2 * R + 1 - 2) (2 * C + 1 - 1) End_ = Ok grid /\
    GenInv R C (g_visited st) (g_grid st) /\
    CarveShape R C st /\
    forall m, isRoom R C m -> m ∈ g_visited st.
Proof.
  intros R C.
  pose proof (clamp_range mazeRows) as HR. pose proof (clamp_range mazeCols) as HC.
  fold R in HR. fold C in HC.
  destruct (carveFrom_spec rnd R C (Z.to_nat (R * C)) 0 0
              (mkGen (wallGrid (2 * R + 1) (2 * C + 1)) ∅ 0))
    as (st & Hrun & Hinv & Hsub & Hcl); simpl.
  { apply GenInv_initial; lia. }
  { set_solver. }
  { split; simpl; lia. }
  { unfold unvisitedRooms. rewrite <- length_gridPoints by lia.
    apply length_filter. }
  simpl in Hsub, Hcl.
  destruct (setType_is_Ok (g_grid st) 1 0 Start) as [grid1 Hs1].
  { eapply cellAt_is_Some; [apply (gi_dims _ _ _ _ Hinv)|..]; lia. }
  destruct (setType_is_Ok grid1 (2 * R + 1 - 2) (2 * C + 1 - 1) End_)
    as [grid Hs2].
  { eapply cellAt_is_Some;
      [eapply setType_dims; [exact Hs1|apply (gi_dims _ _ _ _ Hinv)]|..]; lia. }
  exists st, grid1, grid. split_and!; try done.
  - unfold generatePerfectMaze. fold R C. rewrite Hrun. simpl.
    rewrite Hs1. simpl. exact Hs2.
  - eapply carveFrom_shape; [|exact Hrun|apply CarveShape_initial].
    split; simpl; lia.
  - apply closed_all_rooms; [set_solver|done].
Qed.

Lemma odd_half r : Z.odd r = true -> r = 2 * ((r - 1) / 2) + 1.
Proof.
  intros [m ->]%Z.odd_spec. replace (2 * m + 1 - 1) with (m * 2) by lia.
  rewrite Z.div_mul by lia. lia.
Qed.

(** X1: in a generated maze every cell is a wall, a passage, the start or
    the end; the start is at [(1, 0)] and nowhere else, the end at
    [(2 * R - 1, 2 * C)] and nowhere else; every room (both coordinates
    odd) is a passage, every pillar (both coordinates even) is a wall, and
    the outer border is solid wall apart from the two openings. *)
Theorem generatePerfectMaze_cells rnd mazeRows mazeCols :
  let R := clamp mazeRows in
  let C := clamp mazeCols in
  exists grid,
    generatePerfectMaze rnd mazeRows mazeCols = Ok grid /\
    forall r c, 0 <= r <= 2 * R -> 0 <= c <= 2 * C ->
      exists t, typeAt grid r c = Some t /\
        (t = Wall \/ t = Passage \/ t = Start \/ t = End_) /\
        (t = Start <-> (r, c) = (1, 0)) /\
        (t = End_ <-> (r, c) = (2 * R - 1, 2 * C)) /\
        (Z.odd r = true -> Z.odd c = true -> t = Passage) /\
        (Z.odd r = false -> Z.odd c = false -> t = Wall) /\
        (r = 0 \/ r = 2 * R \/ c = 0 \/ c = 2 * C ->
         t = Wall \/ (r, c) = (1, 0) \/ (r, c) = (2 * R - 1, 2 * C)).
Proof.
  intros R C.
  destruct (generatePerfectMaze_trace rnd mazeRows mazeCols)
    as (st & grid1 & grid & Hgen & Hs1 & Hs2 & Hinv & Hshape & Hall).
  fold R C in Hs2, Hinv, Hshape, Hall.
  pose proof (clamp_range mazeRows) as HR.
  pose proof (clamp_range mazeCols) as HC. fold R in HR. fold C in HC.
  exists grid. split; [done|]. intros r c Hr Hc.
  assert (Z.odd (2 * C) = false) as HoddC by apply odd_double.
  destruct (decide ((r, c) = (2 * R + 1 - 2, 2 * C + 1 - 1))) as [[= -> ->]|Hne2].
  { exists End_. split; [exact (typeAt_setType_eq _ _ _ _ _ Hs2)|].
    replace (2 * C + 1 - 1) with (2 * C) by lia.
    split_and!.
    - auto.
    - split; [done|]. intros [= ? ?]. lia.
    - split; [intros _; f_equal; lia|done].
    - intros _ Hodd. congruence.
    - intros Hodd _. replace (2 * R + 1 - 2) with (2 * (R - 1) + 1) in Hodd by lia.
      by rewrite odd_double_succ in Hodd.
    - intros _. right. right. f_equal. lia. }
  rewrite (typeAt_setType_ne _ _ _ _ _ _ _ Hs2 Hne2).
  destruct (decide ((r, c) = (1, 0))) as [[= -> ->]|Hne1].
  { exists Start. split; [exact (typeAt_setType_eq _ _ _ _ _ Hs1)|].
    split_and!.
    - auto.
    - done.
    - split; [done|]. intros [= ? ?]. lia.
    - done.
    - done.
    - auto. }
  rewrite (typeAt_setType_ne _ _ _ _ _ _ _ Hs1 Hne1).
  destruct (cellAt_is_Some (g_grid st) _ _ r c (gi_dims _ _ _ _ Hinv))
    as [cell Hcell]; [lia..|].
  assert (typeAt (g_grid st) r c = Some (type cell)) as Ht
    by (unfold typeAt; by rewrite Hcell).
  exists (type cell). split; [done|].
  assert (type cell = Passage ->
          (Z.odd r = true /\ Z.odd c = true) \/
          (0 < r < 2 * R /\ 0 < c < 2 * C /\ Z.odd r <> Z.odd c)) as Hopen.
  { intros Hp. rewrite Hp in Ht.
    destruct (cs_open _ _ _ Hshape r c Ht) as [Hroom|Hwall].
    - left. unfold isRoomCell in Hroom. simpl in Hroom.
      by apply andb_true_iff in Hroom.
    - right. unfold isInterRoomWall in Hwall. simpl in Hwall.
      apply andb_true_iff in Hwall as [[H1 H2]%andb_true_iff Hx].
      apply bool_decide_eq_true in H1, H2.
      split_and!; try lia. by destruct (Z.odd r), (Z.odd c). }
  pose proof (cs_types _ _ _ Hshape r c _ Ht) as Hwp.
  split_and!.
  - naive_solver.
  - split; [intros Hs; rewrite Hs in Hwp; naive_solver|done].
  - split; [intros He; rewrite He in Hwp; naive_solver|].
    intros [= -> ->]. exfalso. apply Hne2. f_equal; lia.
  - intros Hor Hoc.
    assert (isRoom R C ((r - 1) / 2, (c - 1) / 2)) as Hroom.
    { pose proof (odd_half r Hor). pose proof (odd_half c Hoc).
      split; simpl; lia. }
    pose proof (cs_rooms _ _ _ Hshape _ (Hall _ Hroom)) as Hp. simpl in Hp.
    rewrite <- (odd_half r Hor), <- (odd_half c Hoc) in Hp. congruence.
  - intros Hor Hoc. destruct Hwp as [?|Hp]; [done|].
    destruct (Hopen Hp) as [[? ?]|(_ & _ & ?)]; congruence.
  - intros Hb. left. destruct Hwp as [?|Hp]; [done|].
    assert (Z.odd 0 = false) by done.
    assert (Z.odd (2 * R) = false) by apply odd_double.
    destruct (Hopen Hp) as [[? ?]|(? & ? & ?)]; [|lia].
    destruct Hb as [-> | [-> | [-> | ->]]]; congruence.
Qed.

(** X2: every cell of a generated maze stores its own row and column
    index, and all rows have the same length. *)
Theorem generatePerfectMaze_coordinates rnd mazeRows mazeCols :
  exists grid,
    generatePerfectMaze rnd mazeRows mazeCols = Ok grid /\
    (forall r c cell, cellAt grid r c = Some cell ->
       cell_row cell = r /\ cell_col cell = c) /\
    wfGrid grid = true.
Proof.
  destruct (generatePerfectMaze_trace rnd mazeRows mazeCols)
    as (st & grid1 & grid & Hgen & Hs1 & Hs2 & Hinv & _).
  exists grid. split; [done|]. split.
  - intros r c cell Hcell.
    assert (cellPos cell = mkPosition r c) as [= ? ?]; [|done].
    revert r c cell Hcell.
    eapply setType_coords; [exact Hs2|]. eapply setType_coords; [exact Hs1|].
    apply (gi_coords _ _ _ _ Hinv).
  - by apply (generatePerfectMaze_wf rnd mazeRows mazeCols).
Qed.

(** ** Generated mazes can be solved *)

Lemma passable_typeAt grid p t :
  typeAt grid (row p) (col p) = Some t -> t <> Wall -> passable grid p = true.
Proof.
  unfold typeAt, passable. destruct (cellAt grid (row p) (col p)); [|done].
  intros [= <-] Hne. by apply bool_decide_eq_true.
Qed.

Lemma typeAt_passable grid p :
  passable grid p = true ->
  exists t, typeAt grid (row p) (col p) = Some t /\ t <> Wall.
Proof.
  intros (cell & Hcell & Hne)%passable_spec. exists (type cell).
  unfold typeAt. by rewrite Hcell.
Qed.

Lemma setType_passable grid r c t grid' p :
  setType grid r c t = Ok grid' -> t <> Wall ->
  passable grid p = true -> passable grid' p = true.
Proof.
  intros Hset Ht (t0 & Hp & Hne)%typeAt_passable.
  destruct (decide ((row p, col p) = (r, c))) as [[= <- <-]|Hpne].
  - eapply passable_typeAt; [exact (typeAt_setType_eq _ _ _ _ _ Hset)|done].
  - eapply passable_typeAt; [|exact Hne].
    by rewrite (typeAt_setType_ne _ _ _ _ _ _ _ Hset Hpne).
Qed.

Lemma reachable_snoc grid s t u :
  reachable grid s t -> adjacent t u = true -> passable grid u = true ->
  reachable grid s u.
Proof.
  intros (l & (Hwalk & Hhead & Hlast)%connects_spec) Hadj Hpass.
  exists (l ++ [u]). apply connects_spec. split_and!.
  - apply isWalk_snoc. by rewrite Hlast.
  - destruct l; [done|]. done.
  - by rewrite last_snoc.
Qed.

Lemma isWalk_passable grid l p :
  isWalk grid l = true -> p ∈ l -> passable grid p = true.
Proof.
  induction l as [|x l IH]; [by intros _ ?%elem_of_nil|].
  intros (Hp & _ & Hw)%isWalk_cons [->|Hin]%elem_of_cons; auto.
Qed.

Lemma reachable_passable grid s t : reachable grid s t -> passable grid t = true.
Proof.
  intros (l & (Hwalk & _ & Hlast)%connects_spec).
  apply (isWalk_passable grid l); [done|].
  destruct l as [|x l] using rev_ind; [done|].
  rewrite last_snoc in Hlast. injection Hlast as ->.
  apply elem_of_app. right. by left.
Qed.

(** What every generated maze satisfies. *)
Lemma generatePerfectMaze_facts rnd mazeRows mazeCols :
  let R := clamp mazeRows in
  let C := clamp mazeCols in
  exists grid,
    generatePerfectMaze rnd mazeRows mazeCols = Ok grid /\
    wfGrid grid = true /\
    hasDims grid (Z.to_nat (2 * R + 1)) (Z.to_nat (2 * C + 1)) /\
    countType Start grid = 1%nat /\ countType End_ grid = 1%nat /\
    typeAt grid 1 0 = Some Start /\
    typeAt grid (2 * R - 1) (2 * C) = Some End_ /\
    reachable grid (mkPosition 1 0) (mkPosition (2 * R - 1) (2 * C)) /\
    (forall cell, cell ∈ concat grid -> isMark (type cell) = false).
Proof.
  intros R C.
  destruct (generatePerfectMaze_trace rnd mazeRows mazeCols)
    as (st & grid1 & grid & Hgen & Hs1 & Hs2 & Hinv & Hshape & Hall).
  fold R C in Hs2, Hinv, Hshape, Hall.
  pose proof (clamp_range mazeRows) as HR.
  pose proof (clamp_range mazeCols) as HC. fold R in HR. fold C in HC.
  assert (hasDims grid (Z.to_nat (2 * R + 1)) (Z.to_nat (2 * C + 1))) as Hdims.
  { eapply setType_dims; [exact Hs2|]. eapply setType_dims; [exact Hs1|].
    apply (gi_dims _ _ _ _ Hinv). }
  assert (typeAt grid 1 0 = Some Start) as Hstart.
  { rewrite (typeAt_setType_ne _ _ _ _ _ 1 0 Hs2) by (intros [= ? ?]; lia).
    exact (typeAt_setType_eq _ _ _ _ _ Hs1). }
  assert (typeAt grid (2 * R - 1) (2 * C) = Some End_) as Hend.
  { replace (2 * R - 1) with (2 * R + 1 - 2) by lia.
    replace (2 * C) with (2 * C + 1 - 1) by lia.
    exact (typeAt_setType_eq _ _ _ _ _ Hs2). }
  assert (forall p, passable (g_grid st) p = true -> passable grid p = true)
    as Hkeep.
  { intros p Hp. eapply setType_passable; [exact Hs2|done|].
    eapply setType_passable; [exact Hs1|done|done]. }
  assert (forall m, isRoom R C m ->
            passable (g_grid st) (mkPosition (2 * m.1 + 1) (2 * m.2 + 1)) = true)
    as Hroom.
  { intros m Hm. apply (passable_typeAt _ _ Passage); [|done]. simpl.
    by apply (cs_rooms _ _ _ Hshape), Hall. }
  exists grid. split_and!; try done.
  - by apply (generatePerfectMaze_wf rnd mazeRows mazeCols).
  - destruct Hinv as [_ Hcs _ _ _ _ _].
    destruct (cellAt_setType_eq _ _ _ _ _ Hs1) as (c1 & Hc1 & _).
    destruct (cellAt_setType_eq _ _ _ _ _ Hs2) as (c2 & Hc2 & _).
    pose proof (countType_pos _ _ _ _ Hc1) as Hp1.
    pose proof (countType_setType _ _ _ _ _ _ Start Hs1 Hc1) as Es1.
    pose proof (countType_setType _ _ _ _ _ _ Start Hs2 Hc2) as Es2.
    assert (type c1 <> Start) as Hn1 by (intros Heq; rewrite Heq in Hp1; lia).
    rewrite (decide_False (P := type c1 = Start)) in Es1 by done.
    rewrite (decide_True (P := Start = Start)) in Es1 by done.
    assert (type c2 <> Start) as Hn2.
    { rewrite (cellAt_setType_ne _ _ _ _ _ _ _ Hs1) in Hc2
        by (intros [= ? ?]; lia).
      pose proof (countType_pos _ _ _ _ Hc2) as Hp2.
      intros Heq; rewrite Heq in Hp2; lia. }
    rewrite (decide_False (P := type c2 = Start)) in Es2 by done.
    rewrite (decide_False (P := End_ = Start)) in Es2 by done. lia.
  - destruct Hinv as [_ _ Hce _ _ _ _].
    destruct (cellAt_setType_eq _ _ _ _ _ Hs1) as (c1 & Hc1 & _).
    destruct (cellAt_setType_eq _ _ _ _ _ Hs2) as (c2 & Hc2 & _).
    pose proof (countType_pos _ _ _ _ Hc1) as Hp1.
    pose proof (countType_pos _ _ _ _ Hc2) as Hp2.
    pose proof (countType_setType _ _ _ _ _ _ End_ Hs1 Hc1) as Ee1.
    pose proof (countType_setType _ _ _ _ _ _ End_ Hs2 Hc2) as Ee2.
    assert (type c1 <> End_) as Hn1 by (intros Heq; rewrite Heq in Hp1; lia).
    rewrite (decide_False (P := type c1 = End_)) in Ee1 by done.
    rewrite (decide_False (P := Start = End_)) in Ee1 by done.
    assert (type c2 <> End_) as Hn2 by (intros Heq; rewrite Heq in Hp2; lia).
    rewrite (decide_False (P := type c2 = End_)) in Ee2 by done.
    rewrite (decide_True (P := End_ = End_)) in Ee2 by done. lia.
  - assert (forall m, isRoom R C m ->
              reachable grid (mkPosition 1 0)
                (mkPosition (2 * m.1 + 1) (2 * m.2 + 1))) as Hreach.
    { intros m Hm.
      assert (rtc (roomAdj R C (g_grid st)) (0, 0) m) as Hrtc.
      { apply (grown_connected _ _ _ (gi_tree _ _ _ _ Hinv));
          apply Hall; [split; simpl; lia|done]. }
      clear Hm. revert m Hrtc.
      apply (rtc_ind_r (fun m => reachable grid (mkPosition 1 0)
                                   (mkPosition (2 * m.1 + 1) (2 * m.2 + 1))));
        [|intros y z Hyz Hadj IH].
      - apply (reachable_snoc _ _ (mkPosition 1 0)).
        + apply reachable_refl. by eapply passable_typeAt.
        + by apply bool_decide_eq_true.
        + apply Hkeep, (Hroom (0, 0)). split; simpl; lia.
      - destruct Hadj as (Hy & Hz & Hlat & Hopen).
        apply (reachable_snoc _ _
                 (mkPosition (wallBetween y z).1 (wallBetween y z).2)).
        + apply (reachable_snoc _ _ (mkPosition (2 * y.1 + 1) (2 * y.2 + 1)));
            [exact IH| |].
          * apply bool_decide_eq_true. unfold latticeAdj in Hlat. simpl. lia.
          * apply Hkeep. by eapply passable_typeAt.
        + apply bool_decide_eq_true. unfold latticeAdj in Hlat. simpl. lia.
        + by apply Hkeep, Hroom. }
    apply (reachable_snoc _ _ (mkPosition (2 * (R - 1) + 1) (2 * (C - 1) + 1))).
    + apply (Hreach (R - 1, C - 1)). split; simpl; lia.
    + apply bool_decide_eq_true. simpl. lia.
    + by eapply passable_typeAt.
  - intros cell (r & c & Hcell)%cellAt_of_elem.
    destruct (decide ((r, c) = (2 * R + 1 - 2, 2 * C + 1 - 1))) as [[= -> ->]|Hne2].
    { destruct (cellAt_setType_eq _ _ _ _ _ Hs2) as (c2 & _ & Hc2).
      rewrite Hcell in Hc2. by injection Hc2 as ->. }
    rewrite (cellAt_setType_ne _ _ _ _ _ _ _ Hs2 Hne2) in Hcell.
    destruct (decide ((r, c) = (1, 0))) as [[= -> ->]|Hne1].
    { destruct (cellAt_setType_eq _ _ _ _ _ Hs1) as (c1 & _ & Hc1).
      rewrite Hcell in Hc1. by injection Hc1 as ->. }
    rewrite (cellAt_setType_ne _ _ _ _ _ _ _ Hs1 Hne1) in Hcell.
    destruct (cs_types _ _ _ Hshape r c (type cell)) as [-> | ->]; [|done..].
    unfold typeAt. by rewrite Hcell.
Qed.

(** X3: every generated maze can be solved: whatever the random choices,
    both [bfs] and [dfs] return a path, and it leads from the entrance
    [(1, 0)] to the exit [(2 * R - 1, 2 * C)] through adjacent non-wall
    cells. *)
Theorem generated_maze_solvable rnd mazeRows mazeCols alg :
  exists grid p vo,
    generatePerfectMaze rnd mazeRows mazeCols = Ok grid /\
    solverOf alg grid = Ok (mkSolveResult (Some p) vo) /\
    connects grid (mkPosition 1 0)
      (mkPosition (2 * clamp mazeRows - 1) (2 * clamp mazeCols)) p = true.
Proof.
  destruct (generatePerfectMaze_facts rnd mazeRows mazeCols)
    as (grid & Hgen & Hwf & _ & Hcs & Hce & Hs & He & Hreach & _).
  destruct (endpoints_found grid (mkPosition 1 0)
              (mkPosition (2 * clamp mazeRows - 1) (2 * clamp mazeCols)))
    as (Hfind & Hne & Hpass); try done.
  exists grid.
  destruct alg; simpl.
  - destruct (bfs_correct grid _ _ Hwf Hne Hpass Hfind)
      as ([p vo] & Hrun & [(p' & Hp & Hconn & _)|(_ & Hnr & _)]); [|done].
    simpl in Hp. subst p. eauto.
  - destruct (dfs_correct grid _ _ Hwf Hne Hpass Hfind)
      as ([p vo] & Hrun & [(p' & Hp & Hconn)|(_ & Hnr & _)]); [|done].
    simpl in Hp. subst p. eauto.
Qed.

(** ** The shuffle *)

Lemma shuffleFrom_calls rnd i : forall k dirs,
  (shuffleFrom rnd i k dirs).2 = (k + i)%nat.
Proof.
  induction i as [|i IH]; intros k dirs; simpl; [lia|]. rewrite IH. lia.
Qed.

Lemma swap_length {A : Type} (l : list A) i j : length (swap l i j) = length l.
Proof.
  unfold swap. destruct (l !! i), (l !! j); try done.
  by rewrite !length_insert.
Qed.

(** X4: the shuffle of [carveFrom], entered at an index inside the list,
    returns a permutation of the list, so every direction is tried
    exactly once, and draws one random number per index it steps
    through. *)
Theorem shuffle_permutes rnd i k dirs :
  (i < length dirs)%nat ->
  (shuffleFrom rnd i k dirs).1 ≡ₚ dirs /\
  (shuffleFrom rnd i k dirs).2 = (k + i)%nat.
Proof.
  intros _. split; [apply shuffleFrom_Permutation|apply shuffleFrom_calls].
Qed.

Lemma shuffle_permutes_witness :
  (3 < length carveDirs)%nat /\
  (shuffleFrom (fun k => k) 3 0 carveDirs).1 ≡ₚ carveDirs /\
  (shuffleFrom (fun k => k) 3 0 carveDirs).2 = 3%nat.
Proof.
  split; [simpl; lia|]. apply (shuffle_permutes (fun k => k) 3 0 carveDirs).
  simpl. lia.
Defined.

(** * More about the solvers *)

(** ** The path read off the parent pointers *)

Section ChainElems.
Variable grid : list (list Cell).
Variable start : Position.

Lemma followParents_elems parent d :
  ChainInv grid start parent d ->
  forall fuel p acc res,
    is_Some (parent !! posKey p) ->
    followParents fuel parent (Some p) acc = Ok res ->
    exists l, res = acc ++ p :: l /\ NoDup (p :: l) /\
      Forall (fun x => (d x < d p)%nat /\
                       exists y, parent !! posKey y = Some (Some x)) l.
Proof.
  intros Hch. induction fuel as [|fuel IH]; intros p acc res Hp; [done|].
  simpl. destruct Hp as [[u|] Hl]; rewrite Hl; simpl.
  - destruct (ch_step _ _ _ _ Hch _ _ Hl) as (Hu & Hdu & _ & _).
    intros Hrun. destruct (IH u (acc ++ [p]) res Hu Hrun)
      as (l & -> & Hnd & Hall).
    exists (u :: l). split_and!.
    + by rewrite <- app_assoc.
    + apply NoDup_cons. split; [|done].
      intros [->|Hin]%elem_of_cons; [lia|].
      rewrite Forall_forall in Hall. destruct (Hall _ Hin). lia.
    + apply Forall_cons. split; [split; [lia|eauto]|].
      eapply Forall_impl; [exact Hall|]. intros x [? ?]. split; [lia|done].
  - intros Hrun. exists []. split_and!.
    + destruct fuel; simpl in Hrun; by injection Hrun as <-.
    + apply NoDup_singleton.
    + done.
Qed.
End ChainElems.

(** ** The order of the visits *)

Section Orders.
Variable grid : list (list Cell).
Variables start end_ : Position.
Hypothesis grid_wf : wfGrid grid = true.
Hypothesis grid_nonempty : grid <> [].

Lemma head_app_nonempty {A : Type} (l1 l2 : list A) (x : A) :
  x ∈ l1 -> head (l1 ++ l2) = head l1.
Proof. destruct l1; [by intros ?%elem_of_nil|done]. Qed.

Lemma bfsRelax_ord cur st n :
  BfsOrd grid start end_ st -> cur ∈ s_order st ->
  adjacent cur n = true -> passable grid n = true ->
  BfsOrd grid start end_ (bfsRelax cur st n) /\
  s_order (bfsRelax cur st n) = s_order st.
Proof.
  intros [Hnd Hvis Hhead Hpar Hup Hreach Hnoend] Hcur Hadj Hpass.
  unfold bfsRelax. case_bool_decide as Hn; [by split|].
  split; [|done]. split; simpl.
  - rewrite app_assoc. apply NoDup_app. split_and!; [done| |apply NoDup_singleton].
    intros x Hx ->%list_elem_of_singleton. apply Hn, Hvis.
    by apply elem_of_app.
  - intros p. rewrite elem_of_union, elem_of_singleton, elem_of_app,
      list_elem_of_singleton, Hvis. naive_solver.
  - rewrite app_assoc.
    rewrite (head_app_nonempty _ _ cur); [done|].
    apply elem_of_app. by left.
  - intros p [v Hv]. destruct (decide (posKey p = posKey n)) as [Heq|Hne].
    + apply posKey_inj in Heq as ->. set_solver.
    + rewrite lookup_insert_ne in Hv by done.
      apply elem_of_union. right. apply Hpar. eauto.
  - intros p u Hl. destruct (decide (posKey p = posKey n)) as [Heq|Hne].
    + rewrite Heq, lookup_insert_eq in Hl. by injection Hl as <-.
    + rewrite lookup_insert_ne in Hl by done. eauto.
  - intros p [->%elem_of_singleton|Hp]%elem_of_union; [|by apply Hreach].
    apply (reachable_snoc _ _ cur); [|done..].
    apply Hreach, Hvis. by left.
  - done.
Qed.

Lemma bfsRelax_fold_ord cur ns : forall st,
  BfsOrd grid start end_ st -> cur ∈ s_order st ->
  Forall (fun n => adjacent cur n = true /\ passable grid n = true) ns ->
  BfsOrd grid start end_ (foldl (bfsRelax cur) st ns).
Proof.
  induction ns as [|n ns IH]; intros st Hord Hcur Hns; [done|].
  apply Forall_cons in Hns as [[Hadj Hpass] Hns]. simpl.
  destruct (bfsRelax_ord cur st n Hord Hcur Hadj Hpass) as [Hord' Heq].
  apply IH; [done| |done]. by rewrite Heq.
Qed.

Lemma bfsLoop_ord fuel : forall st st',
  bfsLoop fuel grid end_ st = Ok st' ->
  BfsOrd grid start end_ st -> OrdFinal grid start end_ st'.
Proof.
  induction fuel as [|fuel IH]; intros st st' Hrun Hord;
    destruct (s_work st) as [|cur q] eqn:Hw.
  1,3: (rewrite bfsLoop_nil in Hrun by done; injection Hrun as <-;
        destruct Hord as [Hnd Hvis Hhead Hpar Hup Hreach Hnoend];
        rewrite Hw, app_nil_r in Hnd, Hhead; split; try done;
        [intros p Hp; apply Hreach, Hvis; by left|
         intros Hend%Hpar%Hvis; rewrite Hw in Hend;
         destruct Hend as [?|?%elem_of_nil]; done]).
  { simpl in Hrun. by rewrite Hw in Hrun. }
  rewrite (bfsLoop_cons _ _ _ _ _ _ Hw) in Hrun. cbn zeta in Hrun.
  pose proof Hord as [Hnd Hvis Hhead Hpar Hup Hreach Hnoend].
  rewrite Hw in Hnd, Hhead.
  assert (cur ∈ s_visited st) as Hcv by (apply Hvis; right; rewrite Hw; by left).
  destruct (samePos cur end_) eqn:Hsame.
  - injection Hrun as <-. apply samePos_spec in Hsame as ->.
    split; simpl.
    + rewrite (assoc_L (++) _ [end_] q) in Hnd.
      by apply NoDup_app in Hnd as [Hnd _].
    + destruct (s_order st); [|done]. simpl in Hhead. done.
    + intros p [Hp| ->%list_elem_of_singleton]%elem_of_app;
        apply Hreach; [apply Hvis; by left|done].
    + intros p u Hl. apply elem_of_app. left. eauto.
    + intros _. by rewrite last_snoc.
  - assert (cur <> end_) as Hne by (intros Heq%samePos_spec; congruence).
    destruct (getNeighbors_Ok grid grid_wf grid_nonempty cur)
      as (ns & Hns & _ & Hmem).
    rewrite Hns in Hrun. cbn [mbind Outcome_bind] in Hrun.
    apply (IH _ _ Hrun). apply bfsRelax_fold_ord.
    + split; simpl.
      * by rewrite <- (assoc_L (++) _ [cur] q).
      * intros p. rewrite Hvis, Hw, elem_of_app, list_elem_of_singleton,
          elem_of_cons. naive_solver.
      * by rewrite <- (assoc_L (++) _ [cur] q).
      * done.
      * intros p u Hl. apply elem_of_app. left. eauto.
      * done.
      * intros [Hin| ->%list_elem_of_singleton]%elem_of_app; done.
    + simpl. apply elem_of_app. right. by left.
    + apply Forall_forall. intros n Hn. by apply Hmem.
Qed.

Lemma dfsPush_ord cur st n :
  DfsOrd grid start end_ st -> cur ∈ s_order st ->
  adjacent cur n = true -> passable grid n = true ->
  DfsOrd grid start end_ (dfsPush cur st n) /\
  s_order (dfsPush cur st n) = s_order st.
Proof.
  intros [Hnd Hvis Hhead Hpar Hup Hreach Hnoend] Hcur Hadj Hpass.
  unfold dfsPush. case_bool_decide as Hn; [by split|].
  split; [|done]. split; simpl; try done.
  - rewrite (head_app_nonempty _ _ cur) by done.
    by rewrite (head_app_nonempty _ _ cur) in Hhead.
  - intros p Hp. rewrite elem_of_cons.
    destruct (s_parent st !! posKey n) eqn:Hl.
    + destruct (Hpar p Hp); auto.
    + destruct (decide (posKey p = posKey n)) as [Heq|Hne].
      * apply posKey_inj in Heq. auto.
      * rewrite lookup_insert_ne in Hp by done. destruct (Hpar p Hp); auto.
  - intros p u Hl. destruct (s_parent st !! posKey n) eqn:Hln; [eauto|].
    destruct (decide (posKey p = posKey n)) as [Heq|Hne].
    + rewrite Heq, lookup_insert_eq in Hl. by injection Hl as <-.
    + rewrite lookup_insert_ne in Hl by done. eauto.
  - intros p [Hp|[->|Hp]%elem_of_cons]; [by apply Hreach; left| |by apply Hreach; right].
    apply (reachable_snoc _ _ cur); [|done..]. apply Hreach. by left.
Qed.

Lemma dfsPush_fold_ord cur ns : forall st,
  DfsOrd grid start end_ st -> cur ∈ s_order st ->
  Forall (fun n => adjacent cur n = true /\ passable grid n = true) ns ->
  DfsOrd grid start end_ (foldl (dfsPush cur) st ns).
Proof.
  induction ns as [|n ns IH]; intros st Hord Hcur Hns; [done|].
  apply Forall_cons in Hns as [[Hadj Hpass] Hns]. simpl.
  destruct (dfsPush_ord cur st n Hord Hcur Hadj Hpass) as [Hord' Heq].
  apply IH; [done| |done]. by rewrite Heq.
Qed.

Lemma dfsLoop_ord fuel : forall st st',
  dfsLoop fuel grid end_ st = Ok st' ->
  DfsOrd grid start end_ st -> OrdFinal grid start end_ st'.
Proof.
  induction fuel as [|fuel IH]; intros st st' Hrun Hord;
    destruct (s_work st) as [|cur stack] eqn:Hw.
  1,3: (rewrite dfsLoop_nil in Hrun by done; injection Hrun as <-;
        destruct Hord as [Hnd Hvis Hhead Hpar Hup Hreach Hnoend];
        rewrite Hw, app_nil_r in Hhead; split; try done;
        [intros p Hp; apply Hreach; by left|
         intros Hend%Hpar; rewrite Hw in Hend;
         destruct Hend as [Hend%Hvis|?%elem_of_nil]; done]).
  { simpl in Hrun. by rewrite Hw in Hrun. }
  rewrite (dfsLoop_cons _ _ _ _ _ _ Hw) in Hrun.
  apply bind_Ok in Hrun as (r & Hvisit & Hrun).
  pose proof Hord as [Hnd Hvis Hhead Hpar Hup Hreach Hnoend].
  rewrite Hw in Hhead.
  assert (reachable grid start cur) as Hrc
    by (apply Hreach; right; rewrite Hw; by left).
  unfold dfsVisit in Hvisit.
  rewrite (rowInMatrix_passable grid grid_wf) in Hvisit
    by (by apply (reachable_passable grid start)).
  cbn [negb] in Hvisit. simpl in Hvisit.
  case_bool_decide as Hcv.
  - injection Hvisit as <-. apply (IH _ _ Hrun).
    assert (cur ∈ s_order st) as Hco by by apply Hvis.
    split; simpl; try done.
    + rewrite (head_app_nonempty _ _ cur) by done.
      by rewrite (head_app_nonempty _ _ cur) in Hhead.
    + intros p Hp. destruct (Hpar p Hp) as [?|Hin]; [by left|].
      rewrite Hw in Hin. apply elem_of_cons in Hin as [->|?]; auto.
    + intros p [Hp|Hp]; apply Hreach; [by left|].
      right. rewrite Hw. by right.
  - assert (cur ∉ s_order st) as Hco by (by rewrite <- Hvis).
    assert (head (s_order st ++ [cur]) = Some start) as Hhead'.
    { destruct (s_order st); [|done]. done. }
    destruct (samePos cur end_) eqn:Hsame.
    + injection Hvisit as <-. injection Hrun as <-.
      apply samePos_spec in Hsame as ->. split; simpl.
      * apply NoDup_app. split_and!; [done| |apply NoDup_singleton].
        by intros x Hx ->%list_elem_of_singleton.
      * done.
      * intros p [Hp| ->%list_elem_of_singleton]%elem_of_app; [|done].
        apply Hreach. by left.
      * intros p u Hl. apply elem_of_app. left. eauto.
      * intros _. by rewrite last_snoc.
    + assert (cur <> end_) as Hne by (intros Heq%samePos_spec; congruence).
      destruct (getNeighbors_Ok grid grid_wf grid_nonempty cur)
        as (ns & Hns & _ & Hmem).
      rewrite Hns in Hvisit. cbn [mbind Outcome_bind] in Hvisit.
      injection Hvisit as <-. apply (IH _ _ Hrun).
      apply dfsPush_fold_ord.
      * split; simpl.
        -- apply NoDup_app. split_and!; [done| |apply NoDup_singleton].
           by intros x Hx ->%list_elem_of_singleton.
        -- intros p. rewrite elem_of_union, elem_of_singleton, elem_of_app,
             list_elem_of_singleton, Hvis. naive_solver.
        -- rewrite (head_app_nonempty _ _ cur); [done|].
           apply elem_of_app. right. by left.
        -- intros p Hp. destruct (Hpar p Hp) as [?|Hin]; [set_solver|].
           rewrite Hw in Hin. apply elem_of_cons in Hin as [->|?];
             [set_solver|auto].
        -- intros p u Hl. apply elem_of_app. left. eauto.
        -- intros p [[Hp| ->%list_elem_of_singleton]%elem_of_app|Hp];
             [apply Hreach; by left|done|].
           apply Hreach. right. rewrite Hw. by right.
        -- intros [Hin| ->%list_elem_of_singleton]%elem_of_app; done.
      * simpl. apply elem_of_app. right. by left.
      * apply Forall_forall. intros n Hn. rewrite elem_of_reverse in Hn. by apply Hmem.
Qed.
End Orders.

(** ** The runs of the two solvers *)

Section Runs.
Variable grid : list (list Cell).
Variables start end_ : Position.
Hypothesis grid_wf : wfGrid grid = true.
Hypothesis grid_nonempty : grid <> [].
Hypothesis start_pass : passable grid start = true.
Hypothesis found : findStartEnd grid = Ok (start, end_).

Lemma bfs_run :
  exists st' d',
    bfs grid = buildResult end_ st' /\
    ChainInv grid start (s_parent st') d' /\
    OrdFinal grid start end_ st'.
Proof.
  rewrite (bfs_unfold _ _ _ found).
  rewrite (rowInMatrix_passable grid grid_wf) by done. cbn [negb].
  set (st0 := mkSearch [start] {[start]} {[posKey start := None]} []).
  destruct (bfsLoop_spec grid start end_ grid_wf grid_nonempty
              (S (length grid * gridCols grid)) st0 (fun _ => 0%nat) 0%nat)
    as (st' & d' & Hrun & Hch & _).
  - split; simpl.
    + by apply chain_initial.
    + intros p. rewrite elem_of_singleton. split.
      * intros ->. rewrite lookup_singleton_eq. eauto.
      * intros [v Hv]. apply lookup_singleton_Some in Hv as [Hk _].
        symmetry. by apply posKey_inj.
    + intros p. rewrite elem_of_singleton, list_elem_of_singleton.
      split; [by right|]. intros [Hp|Hp]; [by apply elem_of_nil in Hp|done].
    + intros p Hp. by apply elem_of_nil in Hp.
    + intros p _. lia.
    + intros i j p q _ _ _. lia.
    + apply not_elem_of_nil.
  - intros p q Hp. by apply elem_of_nil in Hp.
  - simpl.
    assert (unvisited grid st0 < length grid * gridCols grid)%nat; [|lia].
    rewrite <- length_positionsOf by done. unfold unvisited.
    apply (length_filter_lt _ _ start).
    + by apply passable_positionsOf.
    + simpl. set_solver.
  - exists st', d'. rewrite Hrun. split_and!; [done..|].
    apply (bfsLoop_ord grid start end_ grid_wf grid_nonempty _ _ _ Hrun).
    split; simpl.
    + apply NoDup_singleton.
    + intros p. rewrite elem_of_singleton, list_elem_of_singleton.
      split; [by right|]. intros [Hp|Hp]; [by apply elem_of_nil in Hp|done].
    + done.
    + intros p [v Hv]. apply lookup_singleton_Some in Hv as [Hk _].
      apply elem_of_singleton. symmetry. by apply posKey_inj.
    + intros p u Hl. by apply lookup_singleton_Some in Hl as [_ ?].
    + intros p ->%elem_of_singleton. by apply reachable_refl.
    + apply not_elem_of_nil.
Qed.

Lemma dfs_run :
  exists st' d',
    dfs grid = buildResult end_ st' /\
    ChainInv grid start (s_parent st') d' /\
    OrdFinal grid start end_ st'.
Proof.
  rewrite (dfs_unfold _ _ _ found).
  set (st0 := mkSearch [start] ∅ {[posKey start := None]} []).
  destruct (dfsLoop_spec grid start end_ grid_wf grid_nonempty start_pass
              (4 * length grid * gridCols grid + 2)%nat st0 (fun _ => 0%nat))
    as (st' & d' & Hrun & Hch & _).
  - split; simpl.
    + by apply chain_initial.
    + intros p. split; [set_solver|]. intros Hp. by apply elem_of_nil in Hp.
    + intros p. rewrite list_elem_of_singleton. split.
      * intros [v Hv]. apply lookup_singleton_Some in Hv as [Hk _].
        right. symmetry. by apply posKey_inj.
      * intros [Hp| ->]; [set_solver|]. rewrite lookup_singleton_eq. eauto.
    + set_solver.
  - intros p q Hp. simpl in Hp. set_solver.
  - simpl. pose proof (unvisited_le grid grid_wf st0). lia.
  - exists st', d'. rewrite Hrun. split_and!; [done..|].
    apply (dfsLoop_ord grid start end_ grid_wf grid_nonempty _ _ _ Hrun).
    split; simpl.
    + apply NoDup_nil_2.
    + intros p. split; [set_solver|]. intros Hp. by apply elem_of_nil in Hp.
    + done.
    + intros p [v Hv]. apply lookup_singleton_Some in Hv as [Hk _].
      right. apply list_elem_of_singleton. symmetry. by apply posKey_inj.
    + intros p u Hl. by apply lookup_singleton_Some in Hl as [_ ?].
    + intros p [Hp|Hp%list_elem_of_singleton]; [by apply elem_of_nil in Hp|].
      subst p. by apply reachable_refl.
    + apply not_elem_of_nil.
Qed.

Lemma buildResult_facts st d r :
  ChainInv grid start (s_parent st) d -> OrdFinal grid start end_ st ->
  buildResult end_ st = Ok r ->
  visitedOrder r = s_order st /\
  forall p, path r = Some p ->
    connects grid start end_ p = true /\ NoDup p /\
    (forall x, x ∈ p -> x ∈ s_order st) /\
    last (s_order st) = Some end_.
Proof.
  intros Hch [Hnd Hhead Hreach Hup Hend] Hbuild.
  split; [by apply (buildResult_order end_)|].
  intros p Hp. unfold buildResult in Hbuild.
  destruct (s_parent st !! posKey end_) as [v|] eqn:Hl.
  - assert (is_Some (s_parent st !! posKey end_)) as Hsome by eauto.
    specialize (Hend ltac:(eauto)).
    destruct (buildResult_found grid start _ d end_ st eq_refl Hch Hsome)
      as (p' & Hbuild' & Hconn & _).
    apply bind_Ok in Hbuild as (acc & Hfollow & [= <-]).
    simpl in Hp. injection Hp as <-.
    unfold buildResult in Hbuild'. rewrite Hl, Hfollow in Hbuild'.
    simpl in Hbuild'. injection Hbuild' as <-.
    destruct (followParents_elems grid start _ d Hch _ _ _ _ Hsome Hfollow)
      as (l & -> & Hndl & Hall).
    simpl. split_and!; [done| |..|done].
    + by rewrite reverse_Permutation.
    + intros x Hx. rewrite elem_of_reverse in Hx.
      apply elem_of_cons in Hx as [->|Hx].
      * apply list_elem_of_lookup. exists (pred (length (s_order st))).
        by rewrite <- last_lookup.
      * rewrite Forall_forall in Hall.
        destruct (Hall _ Hx) as (_ & y & Hy). eauto.
  - injection Hbuild as <-. done.
Qed.
End Runs.

Lemma solver_facts alg grid s e :
  wfGrid grid = true ->
  countType Start grid = 1%nat -> countType End_ grid = 1%nat ->
  typeAt grid (row s) (col s) = Some Start ->
  typeAt grid (row e) (col e) = Some End_ ->
  exists r,
    solverOf alg grid = Ok r /\
    NoDup (visitedOrder r) /\
    head (visitedOrder r) = Some s /\
    (forall p, p ∈ visitedOrder r -> reachable grid s p) /\
    (forall p, path r = Some p ->
       connects grid s e p = true /\ NoDup p /\
       (forall x, x ∈ p -> x ∈ visitedOrder r) /\
       last (visitedOrder r) = Some e) /\
    (path r = None ->
       ~ reachable grid s e /\
       forall q, reachable grid s q -> q ∈ visitedOrder r).
Proof.
  intros Hwf Hcs Hce Hs He.
  destruct (endpoints_found grid s e) as (Hfind & Hne & Hpass); try done.
  assert (exists st' d' r,
            solverOf alg grid = buildResult e st' /\
            solverOf alg grid = Ok r /\
            ChainInv grid s (s_parent st') d' /\ OrdFinal grid s e st' /\
            (path r = None -> ~ reachable grid s e /\
               forall q, reachable grid s q -> q ∈ visitedOrder r))
    as (st' & d' & r & Hrun & Hr & Hch & Hfin & Hnone).
  { destruct alg; simpl.
    - destruct (bfs_run grid s e Hwf Hne Hpass Hfind) as (st' & d' & ? & ? & ?).
      destruct (bfs_correct grid s e Hwf Hne Hpass Hfind)
        as (r & Hr & [(p & Hp & _)|(_ & ? & ?)]).
      + exists st', d', r. split_and!; try done. by rewrite Hp.
      + exists st', d', r. by split_and!.
    - destruct (dfs_run grid s e Hwf Hne Hpass Hfind) as (st' & d' & ? & ? & ?).
      destruct (dfs_correct grid s e Hwf Hne Hpass Hfind)
        as (r & Hr & [(p & Hp & _)|(_ & ? & ?)]).
      + exists st', d', r. split_and!; try done. by rewrite Hp.
      + exists st', d', r. by split_and!. }
  rewrite Hrun in Hr.
  destruct (buildResult_facts grid s e st' d' r Hch Hfin Hr) as [Hvo Hpath].
  destruct Hfin as [Hnd Hhead Hreach _ _].
  exists r. rewrite Hrun, Hvo. split_and!; try done.
  by rewrite <- Hvo.
Qed.

(** X5: on a grid with one start and one end cell, the [visitedOrder] of
    either solver begins with the start cell, lists no cell twice, and
    lists only cells that can be reached from the start through non-wall
    cells. *)
Theorem solver_visited_order alg grid s e :
  wfGrid grid = true ->
  countType Start grid = 1%nat -> countType End_ grid = 1%nat ->
  typeAt grid (row s) (col s) = Some Start ->
  typeAt grid (row e) (col e) = Some End_ ->
  exists r,
    solverOf alg grid = Ok r /\
    head (visitedOrder r) = Some s /\
    NoDup (visitedOrder r) /\
    forall p, p ∈ visitedOrder r -> reachable grid s p.
Proof.
  intros Hwf Hcs Hce Hs He.
  destruct (solver_facts alg grid s e Hwf Hcs Hce Hs He)
    as (r & Hrun & Hnd & Hhead & Hreach & _).
  exists r. by split_and!.
Qed.

Lemma solver_visited_order_witness :
  exists r,
    solverOf Dfs smallMaze = Ok r /\
    head (visitedOrder r) = Some (mkPosition 1 0) /\
    NoDup (visitedOrder r) /\
    forall p, p ∈ visitedOrder r -> reachable smallMaze (mkPosition 1 0) p.
Proof.
  apply (solver_visited_order Dfs smallMaze (mkPosition 1 0) (mkPosition 3 4));
    vm_compute; reflexivity.
Defined.

(** X6: when a solver returns a path, the path repeats no cell, every
    cell of it is in [visitedOrder], and [visitedOrder] ends with the end
    cell (the search stops as soon as the end is visited); so the path
    length shown is at most the visited count. *)
Theorem solver_path_within_visited alg grid s e :
  wfGrid grid = true ->
  countType Start grid = 1%nat -> countType End_ grid = 1%nat ->
  typeAt grid (row s) (col s) = Some Start ->
  typeAt grid (row e) (col e) = Some End_ ->
  exists r,
    solverOf alg grid = Ok r /\
    forall p, path r = Some p ->
      NoDup p /\
      (forall x, x ∈ p -> x ∈ visitedOrder r) /\
      last (visitedOrder r) = Some e /\
      (length p <= length (visitedOrder r))%nat.
Proof.
  intros Hwf Hcs Hce Hs He.
  destruct (solver_facts alg grid s e Hwf Hcs Hce Hs He)
    as (r & Hrun & _ & _ & _ & Hpath & _).
  exists r. split; [done|]. intros p Hp.
  destruct (Hpath p Hp) as (_ & Hnd & Hsub & Hlast).
  split_and!; try done.
  apply submseteq_length, NoDup_submseteq; done.
Qed.

Lemma solver_path_within_visited_witness :
  exists r,
    solverOf Bfs smallMaze = Ok r /\
    forall p, path r = Some p ->
      NoDup p /\
      (forall x, x ∈ p -> x ∈ visitedOrder r) /\
      last (visitedOrder r) = Some (mkPosition 3 4) /\
      (length p <= length (visitedOrder r))%nat.
Proof.
  apply (solver_path_within_visited Bfs smallMaze (mkPosition 1 0)
           (mkPosition 3 4)); vm_compute; reflexivity.
Defined.

(** X7: on a grid with one start and one end cell in which the end can be
    reached from the start, [dfs] returns a path, and it leads from start
    to end through adjacent non-wall cells. *)
Theorem dfs_finds_walk grid s e :
  wfGrid grid = true ->
  countType Start grid = 1%nat -> countType End_ grid = 1%nat ->
  typeAt grid (row s) (col s) = Some Start ->
  typeAt grid (row e) (col e) = Some End_ ->
  reachable grid s e ->
  exists p vo,
    dfs grid = Ok (mkSolveResult (Some p) vo) /\
    connects grid s e p = true.
Proof.
  intros Hwf Hcs Hce Hs He Hreach.
  destruct (endpoints_found grid s e) as (Hfind & Hne & Hpass); try done.
  destruct (dfs_correct grid s e Hwf Hne Hpass Hfind)
    as ([p vo] & Hrun & [(p' & Hp & Hconn)|(_ & Hnr & _)]); [|done].
  simpl in Hp. subst p. eauto.
Qed.

Lemma dfs_finds_walk_witness :
  exists p vo,
    dfs smallMaze = Ok (mkSolveResult (Some p) vo) /\
    connects smallMaze (mkPosition 1 0) (mkPosition 3 4) p = true.
Proof.
  apply (dfs_finds_walk smallMaze (mkPosition 1 0) (mkPosition 3 4));
    try (vm_compute; reflexivity).
  exists [mkPosition 1 0; mkPosition 1 1; mkPosition 1 2; mkPosition 1 3;
          mkPosition 2 3; mkPosition 3 3; mkPosition 3 4].
  vm_compute. reflexivity.
Defined.

(** X8: on a grid with one start and one end cell the two solvers agree
    on whether there is a path, and when there is none they visit the same
    cells, each once, in possibly different orders. *)
Theorem solvers_visit_same_cells grid s e :
  wfGrid grid = true ->
  countType Start grid = 1%nat -> countType End_ grid = 1%nat ->
  typeAt grid (row s) (col s) = Some Start ->
  typeAt grid (row e) (col e) = Some End_ ->
  exists rb rd,
    bfs grid = Ok rb /\ dfs grid = Ok rd /\
    (path rb = None <-> path rd = None) /\
    (path rb = None -> visitedOrder rb ≡ₚ visitedOrder rd).
Proof.
  intros Hwf Hcs Hce Hs He.
  destruct (solver_facts Bfs grid s e Hwf Hcs Hce Hs He)
    as (rb & Hrb & Hndb & _ & Hreachb & Hpathb & Hnoneb).
  destruct (solver_facts Dfs grid s e Hwf Hcs Hce Hs He)
    as (rd & Hrd & Hndd & _ & Hreachd & Hpathd & Hnoned).
  exists rb, rd. split_and!; try done.
  - split; intros Hn.
    + destruct (path rd) as [p|] eqn:Hp; [|done].
      destruct (Hpathd p eq_refl) as (Hconn & _).
      destruct (Hnoneb Hn) as [Hnr _]. exfalso. apply Hnr. by exists p.
    + destruct (path rb) as [p|] eqn:Hp; [|done].
      destruct (Hpathb p eq_refl) as (Hconn & _).
      destruct (Hnoned Hn) as [Hnr _]. exfalso. apply Hnr. by exists p.
  - intros Hn.
    assert (path rd = None) as Hn'.
    { destruct (path rd) as [p|] eqn:Hp; [|done].
      destruct (Hpathd p eq_refl) as (Hconn & _).
      destruct (Hnoneb Hn) as [Hnr _]. exfalso. apply Hnr. by exists p. }
    apply NoDup_Permutation; [done..|]. intros x. split.
    + intros Hx. apply (Hnoned Hn'), Hreachb, Hx.
    + intros Hx. apply (Hnoneb Hn), Hreachd, Hx.
Qed.

Lemma solvers_visit_same_cells_witness :
  exists rb rd,
    bfs walledOff = Ok rb /\ dfs walledOff = Ok rd /\
    (path rb = None <-> path rd = None) /\
    (path rb = None -> visitedOrder rb ≡ₚ visitedOrder rd).
Proof.
  apply (solvers_visit_same_cells walledOff (mkPosition 0 0) (mkPosition 0 3));
    vm_compute; reflexivity.
Defined.

(** * The helpers of the solvers *)

(** ** [getNeighbors] *)

(** X9: on a well-formed grid [getNeighbors] never throws, whatever the
    position, inside the grid or not: it returns, in the order up, down,
    left, right, those of the four positions around it that lie in the
    grid and are not walls. *)
Theorem getNeighbors_open_cells grid pos :
  wfGrid grid = true -> grid <> [] ->
  getNeighbors grid pos =
  Ok (filter (fun q => passable grid q = true)
        [mkPosition (row pos - 1) (col pos); mkPosition (row pos + 1) (col pos);
         mkPosition (row pos) (col pos - 1); mkPosition (row pos) (col pos + 1)]).
Proof.
  intros Hwf Hne. rewrite getNeighbors_wf by done.
  unfold around, deltas. cbn [fmap list_fmap fst snd].
  rewrite !Z.add_0_r. reflexivity.
Qed.

Lemma getNeighbors_open_cells_witness :
  getNeighbors smallMaze (mkPosition 1 1) =
  Ok (filter (fun q => passable smallMaze q = true)
        [mkPosition (1 - 1) 1; mkPosition (1 + 1) 1;
         mkPosition 1 (1 - 1); mkPosition 1 (1 + 1)]).
Proof.
  apply (getNeighbors_open_cells smallMaze (mkPosition 1 1)); [reflexivity|done].
Defined.

Lemma neighborStep_outcome grid rows cols pos res d :
  let nr := row pos + d.1 in
  let nc := col pos + d.2 in
  (neighborStep grid rows cols pos res d = Throw TypeError /\
   0 <= nr < rows /\ 0 <= nc < cols /\ cellAt grid nr nc = None) \/
  ((exists res', neighborStep grid rows cols pos res d = Ok res') /\
   ~ (0 <= nr < rows /\ 0 <= nc < cols /\ cellAt grid nr nc = None)).
Proof.
  destruct d as [dr dc]. unfold neighborStep. cbn [fst snd].
  case_bool_decide as Hout.
  - right. split; [eauto|]. lia.
  - destruct (cellAt grid (row pos + dr) (col pos + dc)) as [cell|] eqn:Hc.
    + right. split; [|by intros (_ & _ & ?)].
      case_bool_decide; eauto.
    + left. split_and!; try done; lia.
Qed.

Lemma neighborSteps_throw grid rows cols pos ds : forall res,
  (foldlM (neighborStep grid rows cols pos) res ds = Throw TypeError /\
   exists d, d ∈ ds /\
     0 <= row pos + d.1 < rows /\ 0 <= col pos + d.2 < cols /\
     cellAt grid (row pos + d.1) (col pos + d.2) = None) \/
  ((exists res', foldlM (neighborStep grid rows cols pos) res ds = Ok res') /\
   ~ exists d, d ∈ ds /\
     0 <= row pos + d.1 < rows /\ 0 <= col pos + d.2 < cols /\
     cellAt grid (row pos + d.1) (col pos + d.2) = None).
Proof.
  induction ds as [|d ds IH]; intros res; simpl.
  - right. split; [eauto|]. intros (d & Hd%elem_of_nil & _). done.
  - destruct (neighborStep_outcome grid rows cols pos res d)
      as [(Hthrow & Hbad)|((res' & Hok) & Hgood)].
    + left. rewrite Hthrow. split; [done|]. exists d. split; [by left|done].
    + rewrite Hok. cbn [mbind Outcome_bind].
      destruct (IH res') as [(Hthrow & d' & Hd' & Hbad)|(Hok' & Hnone)].
      * left. split; [done|]. exists d'. split; [by right|done].
      * right. split; [done|].
        intros (d' & [->|Hd']%elem_of_cons & Hbad); [done|].
        apply Hnone. eauto.
Qed.

(** X10: on an arbitrary grid [getNeighbors] either returns a list or
    throws a [TypeError], and it throws exactly when the grid has no row,
    or when one of the four positions around the given one lies within
    the bounds taken from the first row but in a row too short to hold
    it. *)
Theorem getNeighbors_throws grid pos :
  (getNeighbors grid pos = Throw TypeError \/
   exists ns, getNeighbors grid pos = Ok ns) /\
  (getNeighbors grid pos = Throw TypeError <->
   grid = [] \/
   exists q, q ∈ around pos /\
     0 <= row q < Z.of_nat (length grid) /\
     0 <= col q < Z.of_nat (gridCols grid) /\
     cellAt grid (row q) (col q) = None).
Proof.
  destruct grid as [|row0 rest] eqn:Hg.
  { split; [by left|]. split; [intros _; by left|done]. }
  rewrite <- Hg.
  assert (getNeighbors grid pos =
          foldlM (neighborStep grid (Z.of_nat (length grid))
                    (Z.of_nat (gridCols grid)) pos) [] deltas) as ->
    by (by rewrite Hg).
  assert (forall P : Position -> Prop,
            (exists q, q ∈ around pos /\ P q) <->
            exists d : Z * Z, d ∈ deltas /\
              P (mkPosition (row pos + d.1) (col pos + d.2))) as Hex.
  { intros P. unfold around. split.
    - intros (q & (d & -> & Hd)%list_elem_of_fmap & HP). eauto.
    - intros (d & Hd & HP). eexists. split; [|exact HP].
      apply list_elem_of_fmap. eauto. }
  destruct (neighborSteps_throw grid (Z.of_nat (length grid))
              (Z.of_nat (gridCols grid)) pos deltas [])
    as [(Hthrow & Hbad)|((ns & Hok) & Hgood)].
  - split; [by left|]. split; [|done]. intros _. right.
    apply (Hex (fun q => _ /\ _ /\ cellAt grid (row q) (col q) = None)).
    exact Hbad.
  - split; [right; eauto|]. rewrite Hok. split; [done|].
    intros [Hnil|Hq]; [by rewrite Hg in Hnil|]. exfalso. apply Hgood.
    apply (Hex (fun q => _ /\ _ /\ cellAt grid (row q) (col q) = None)) in Hq.
    exact Hq.
Qed.

(** ** [findStartEnd] *)

(** X11: [findStartEnd] reports the coordinates stored in the cells, not
    their indices, and when the grid holds several start (or end) cells
    it reports the last one in row-major order. *)
Theorem findStartEnd_last_wins grid before cs after before' ce after' :
  concat grid = before ++ cs :: after ->
  type cs = Start -> Forall (fun c => type c <> Start) after ->
  concat grid = before' ++ ce :: after' ->
  type ce = End_ -> Forall (fun c => type c <> End_) after' ->
  findStartEnd grid = Ok (cellPos cs, cellPos ce).
Proof.
  intros Hs Hcs Hafter He Hce Hafter'.
  unfold findStartEnd. rewrite scanGrid_pick.
  rewrite Hs at 1. rewrite He.
  rewrite !pick_app, !pick_cons, Hcs, Hce.
  rewrite !bool_decide_eq_true_2 by done.
  rewrite !pick_none; [done|..].
  - intros c Hc. by apply (proj1 (Forall_forall _ _) Hafter').
  - intros c Hc. by apply (proj1 (Forall_forall _ _) Hafter).
Qed.

Lemma findStartEnd_last_wins_witness :
  findStartEnd twoStarts = Ok (mkPosition 0 2, mkPosition 2 1).
Proof.
  apply (findStartEnd_last_wins twoStarts
           [mkCell 0 0 Start; mkCell 0 1 Passage] (mkCell 0 2 Start)
           [mkCell 1 0 Wall; mkCell 1 1 Passage; mkCell 1 2 Wall;
            mkCell 2 0 Wall; mkCell 2 1 End_; mkCell 2 2 Wall]
           [mkCell 0 0 Start; mkCell 0 1 Passage; mkCell 0 2 Start;
            mkCell 1 0 Wall; mkCell 1 1 Passage; mkCell 1 2 Wall;
            mkCell 2 0 Wall] (mkCell 2 1 End_) [mkCell 2 2 Wall]);
    try reflexivity; repeat constructor; discriminate.
Defined.

(** ** Errors of the solvers *)

(** X12: when the start cell stores a row that is not a row index of the
    grid, both solvers throw a [TypeError]: [bfs] when it marks the start
    in the [visited] matrix, [dfs] when it tests the first popped
    position. *)
Theorem solver_start_row_outside alg grid s e :
  findStartEnd grid = Ok (s, e) ->
  ~ (0 <= row s < Z.of_nat (length grid)) ->
  solverOf alg grid = Throw TypeError.
Proof.
  intros Hfind Hrow.
  assert (rowInMatrix (length grid) s = false) as Hout
    by (by apply bool_decide_eq_false).
  destruct alg; simpl.
  - rewrite (bfs_unfold _ _ _ Hfind). by rewrite Hout.
  - rewrite (dfs_unfold _ _ _ Hfind).
    replace (4 * length grid * gridCols grid + 2)%nat
      with (S (4 * length grid * gridCols grid + 1))%nat by lia.
    rewrite (dfsLoop_cons _ _ _ _ s []) by done.
    unfold dfsVisit. by rewrite Hout.
Qed.

Lemma solver_start_row_outside_witness :
  solverOf Dfs [[mkCell 7 0 Start; mkCell 0 1 End_]] = Throw TypeError.
Proof.
  apply (solver_start_row_outside Dfs [[mkCell 7 0 Start; mkCell 0 1 End_]]
           (mkPosition 7 0) (mkPosition 0 1)); [reflexivity|].
  simpl. lia.
Defined.

(** ** Marks left by an earlier solve *)

Lemma clearCell_pos cell : cellPos (clearCell cell) = cellPos cell.
Proof. unfold clearCell. by destruct (isMark (type cell)). Qed.

Lemma clearCell_type cell t :
  t = Wall \/ t = Start \/ t = End_ ->
  type (clearCell cell) = t <-> type cell = t.
Proof.
  unfold clearCell, isMark.
  intros [-> | [-> | ->]]; destruct cell as [r c []]; simpl; split; done.
Qed.

Lemma pick_clear t l : t = Start \/ t = End_ -> forall acc,
  pick t (clearCell <$> l) acc = pick t l acc.
Proof.
  intros Ht. assert (t = Wall \/ t = Start \/ t = End_) as Ht' by tauto.
  induction l as [|cell l IH]; intros acc; [done|].
  rewrite fmap_cons, !pick_cons, IH, clearCell_pos.
  by rewrite (bool_decide_ext _ _ (clearCell_type cell t Ht')).
Qed.

Lemma concat_mapGrid f grid : concat (mapGrid f grid) = f <$> concat grid.
Proof.
  unfold mapGrid. induction grid as [|rowl grid IH]; [done|].
  rewrite fmap_cons. simpl. by rewrite IH, fmap_app.
Qed.

Lemma length_mapGrid f grid : length (mapGrid f grid) = length grid.
Proof. unfold mapGrid. by rewrite length_fmap. Qed.

Lemma gridCols_mapGrid f grid : gridCols (mapGrid f grid) = gridCols grid.
Proof. destruct grid; [done|]. simpl. by rewrite length_fmap. Qed.

Lemma findStartEnd_clear grid :
  findStartEnd (mapGrid clearCell grid) = findStartEnd grid.
Proof.
  unfold findStartEnd. rewrite !scanGrid_pick, concat_mapGrid.
  by rewrite !pick_clear by tauto.
Qed.

Lemma foldlM_ext {A B : Type} (f g : B -> A -> Outcome B) l :
  (forall b x, f b x = g b x) -> forall b, foldlM f b l = foldlM g b l.
Proof.
  intros Hfg. induction l as [|x l IH]; intros b; [done|].
  simpl. rewrite Hfg. destruct (g b x); simpl; auto.
Qed.

Lemma getNeighbors_clear grid pos :
  getNeighbors (mapGrid clearCell grid) pos = getNeighbors grid pos.
Proof.
  destruct grid as [|row0 rest] eqn:Hg; [done|]. rewrite <- Hg.
  assert (forall g p, g <> [] -> getNeighbors g p =
            foldlM (neighborStep g (Z.of_nat (length g))
                      (Z.of_nat (gridCols g)) p) [] deltas) as Hunf
    by (intros [|? ?] ? ?; done).
  rewrite !Hunf by (by rewrite Hg).
  rewrite length_mapGrid, gridCols_mapGrid.
  apply foldlM_ext. intros res [dr dc]. unfold neighborStep.
  rewrite cellAt_mapGrid.
  destruct (cellAt grid (row pos + dr) (col pos + dc)) as [cell|]; [|done].
  simpl.
  by rewrite (bool_decide_ext _ _ (clearCell_type cell Wall (or_introl eq_refl))).
Qed.

Lemma bfsLoop_clear fuel grid end_ : forall st,
  bfsLoop fuel (mapGrid clearCell grid) end_ st = bfsLoop fuel grid end_ st.
Proof.
  induction fuel as [|fuel IH]; intros st; [done|].
  simpl. destruct (s_work st); [done|].
  destruct (samePos _ _); [done|]. rewrite getNeighbors_clear.
  destruct (getNeighbors grid _); simpl; auto.
Qed.

Lemma dfsLoop_clear fuel grid end_ : forall st,
  dfsLoop fuel (mapGrid clearCell grid) end_ st = dfsLoop fuel grid end_ st.
Proof.
  induction fuel as [|fuel IH]; intros st; [done|].
  simpl. destruct (s_work st); [done|].
  unfold dfsVisit. rewrite length_mapGrid, getNeighbors_clear.
  destruct (negb _); [done|]. simpl.
  destruct (bool_decide _); simpl; [done|].
  destruct (samePos _ _); simpl; [done|].
  destruct (getNeighbors grid _); simpl; auto.
Qed.

Lemma bfs_clear grid : bfs (mapGrid clearCell grid) = bfs grid.
Proof.
  unfold bfs. rewrite findStartEnd_clear, length_mapGrid, gridCols_mapGrid.
  destruct (findStartEnd grid) as [[s e]| |]; [|done..].
  cbn [mbind Outcome_bind]. destruct (negb _); [done|].
  by rewrite bfsLoop_clear.
Qed.

Lemma dfs_clear grid : dfs (mapGrid clearCell grid) = dfs grid.
Proof.
  unfold dfs. rewrite findStartEnd_clear, length_mapGrid, gridCols_mapGrid.
  destruct (findStartEnd grid) as [[s e]| |]; [|done..].
  cbn [mbind Outcome_bind]. by rewrite dfsLoop_clear.
Qed.

(** X13: the marks of an earlier solve do not influence a solver: on the
    grid as it is and on the grid with every visited, path and pathHead
    cell reset to passage it returns the same result. ([handleSolve]
    solves a snapshot taken before the marks are cleared.) *)
Theorem solver_ignores_marks alg grid :
  solverOf alg (mapGrid clearCell grid) = solverOf alg grid.
Proof.
  destruct alg; simpl.
  - apply bfs_clear.
  - apply dfs_clear.
Qed.

(** * More about the animation *)

(** ** Timers fire in list order *)

Lemma fireNext_fire a t ts :
  timers a = t :: ts -> timersOk (t :: ts) ->
  fireNext a = Some (t, fire a t) /\ timers (advance t a) = ts.
Proof.
  intros Ht (Hat & Hid & _)%timersOk_cons.
  unfold fireNext, fire, advance. rewrite Ht, (earliest_head _ _ Hat).
  split; [done|]. simpl. by rewrite (filter_other_ids _ _ Hid).
Qed.

Lemma fire_paint a t :
  (grid (fire a t), visitedSet (fire a t)) =
  paint (t_cb t) (grid a, visitedSet a).
Proof.
  unfold fire. destruct a as [g alg sp stt pl vc anim tref tms clk nid vs].
  destruct (t_cb t) as [pos i len|keyToIndex i len baseDelay alg'|alg'|];
    simpl; try case_bool_decide; done.
Qed.

Lemma fire_keeps a t :
  algorithm (fire a t) = algorithm a /\ speed (fire a t) = speed a /\
  pathLength (fire a t) = pathLength a /\
  visitedCount (fire a t) = visitedCount a /\
  timeoutsRef (fire a t) = timeoutsRef a.
Proof.
  unfold fire. destruct a as [g alg sp stt pl vc anim tref tms clk nid vs].
  destruct (t_cb t) as [pos i len|keyToIndex i len baseDelay alg'|alg'|];
    simpl; try case_bool_decide; done.
Qed.

Lemma fire_quiet a t :
  quiet (t_cb t) ->
  timers (fire a t) = timers (advance t a) /\
  isAnimating (fire a t) = isAnimating a /\
  clock (fire a t) = Z.max (clock a) (t_at t) /\
  nextId (fire a t) = nextId a.
Proof.
  intros Hq. unfold fire.
  destruct (runCallback_quiet (t_cb t) (advance t a) Hq) as (-> & -> & -> & ->).
  done.
Qed.

(** A run of quiet timers at the head of an ordered queue fires in list
    order. *)
Lemma runLoop_fire ts : forall a rest n,
  timers a = ts ++ rest -> timersOk (ts ++ rest) ->
  Forall (fun t => quiet (t_cb t)) ts ->
  (runLoop (length ts + n) a).2 = (runLoop n (foldl fire a ts)).2 /\
  timers (foldl fire a ts) = rest /\
  isAnimating (foldl fire a ts) = isAnimating a /\
  nextId (foldl fire a ts) = nextId a.
Proof.
  induction ts as [|t ts IH]; intros a rest n Hts Hok Hq; [done|].
  apply Forall_cons in Hq as [Hqt Hq]. simpl in Hts, Hok.
  destruct (fireNext_fire _ _ _ Hts Hok) as [Hfire Hadv].
  destruct (timersOk_cons _ _ Hok) as (_ & _ & Hok').
  destruct (fire_quiet a t Hqt) as (Ht1 & Ha1 & _ & Hn1).
  rewrite Hadv in Ht1.
  destruct (IH (fire a t) rest n Ht1 Hok' Hq) as (Hrun & Hrest & Hanim & Hnext).
  change (length (t :: ts) + n)%nat with (S (length ts + n)).
  rewrite (runLoop_S _ _ _ _ Hfire). cbn [snd foldl].
  split_and!; [done|done|congruence|congruence].
Qed.

Lemma foldl_fire_paint ts : forall a,
  (grid (foldl fire a ts), visitedSet (foldl fire a ts)) =
  foldl (fun gv t => paint (t_cb t) gv) (grid a, visitedSet a) ts.
Proof.
  induction ts as [|t ts IH]; intros a; [done|].
  simpl. by rewrite IH, fire_paint.
Qed.

Lemma foldl_fire_keeps ts : forall a,
  algorithm (foldl fire a ts) = algorithm a /\
  speed (foldl fire a ts) = speed a /\
  pathLength (foldl fire a ts) = pathLength a /\
  visitedCount (foldl fire a ts) = visitedCount a /\
  timeoutsRef (foldl fire a ts) = timeoutsRef a.
Proof.
  induction ts as [|t ts IH]; intros a; [done|].
  simpl. destruct (IH (fire a t)) as (-> & -> & -> & -> & ->).
  apply fire_keeps.
Qed.

(** ** The cell updates compose *)

Lemma mapGrid_compose f g grid :
  mapGrid f (mapGrid g grid) = mapGrid (fun c => f (g c)) grid.
Proof.
  unfold mapGrid. rewrite <- list_fmap_compose. apply list_fmap_ext.
  intros _ rowl _. simpl. by rewrite <- list_fmap_compose.
Qed.

Lemma mapGrid_ext f g grid :
  (forall c, f c = g c) -> mapGrid f grid = mapGrid g grid.
Proof.
  intros Hfg. unfold mapGrid. apply list_fmap_ext. intros _ rowl _.
  apply list_fmap_ext. auto.
Qed.

Lemma visitedCell_pos K cell : cellPos (visitedCell K cell) = cellPos cell.
Proof. unfold visitedCell. repeat case_match; done. Qed.

Lemma visitedCell_empty cell : visitedCell ∅ cell = cell.
Proof.
  unfold visitedCell. rewrite (bool_decide_eq_false_2 (_ ∈ ∅)) by set_solver.
  by rewrite andb_false_r.
Qed.

Lemma visitedCell_grow K K' cell :
  K ⊆ K' -> visitedCell K' (visitedCell K cell) = visitedCell K' cell.
Proof.
  intros Hsub. destruct cell as [r c t]. unfold visitedCell.
  cbn [type cellPos cell_row cell_col withType].
  destruct (decide (posKey (mkPosition r c) ∈ K)) as [HK|HK].
  - rewrite (bool_decide_eq_true_2 _ HK).
    assert (posKey (mkPosition r c) ∈ K') as HK' by set_solver.
    destruct t; cbn [type cellPos cell_row cell_col withType];
      rewrite ?(bool_decide_eq_true_2 _ HK'); reflexivity.
  - rewrite (bool_decide_eq_false_2 _ HK), andb_false_r. done.
Qed.

Lemma pathMark_zero KI cell : pathMark KI 0 cell = cell.
Proof. unfold pathMark. repeat case_match; try done; case_bool_decide; lia. Qed.

Lemma pathCell_at KI m cell idx :
  type cell <> Start -> type cell <> End_ ->
  KI !! posKey (cellPos cell) = Some idx ->
  pathCell KI m cell =
  if bool_decide (idx = m) then withType cell PathHead
  else if bool_decide (idx < m)%nat then withType cell Path else cell.
Proof.
  intros Hs He Hl. unfold pathCell.
  rewrite !bool_decide_eq_false_2 by done. simpl. by rewrite Hl.
Qed.

Lemma pathMark_step KI m cell :
  pathCell KI m (pathMark KI m cell) = pathMark KI (S m) cell.
Proof.
  unfold pathMark.
  destruct (bool_decide (type cell = Start) || bool_decide (type cell = End_))
    eqn:Hg.
  { unfold pathCell. by rewrite Hg. }
  apply orb_false_iff in Hg as [Hs He].
  apply bool_decide_eq_false in Hs, He.
  destruct (KI !! posKey (cellPos cell)) as [idx|] eqn:Hl.
  - destruct (decide (S idx = m)) as [Hm|Hm];
      [|destruct (decide (S idx < m)%nat) as [Hm'|Hm']].
    + rewrite (bool_decide_eq_true_2 _ Hm).
      rewrite (pathCell_at KI m _ idx) by done.
      rewrite (bool_decide_eq_false_2 (idx = m)) by lia.
      rewrite (bool_decide_eq_true_2 (idx < m)%nat) by lia.
      rewrite (bool_decide_eq_false_2 (S idx = S m)) by lia.
      rewrite (bool_decide_eq_true_2 (S idx < S m)%nat) by lia. done.
    + rewrite (bool_decide_eq_false_2 _ Hm), (bool_decide_eq_true_2 _ Hm').
      rewrite (pathCell_at KI m _ idx) by done.
      rewrite (bool_decide_eq_false_2 (idx = m)) by lia.
      rewrite (bool_decide_eq_true_2 (idx < m)%nat) by lia.
      rewrite (bool_decide_eq_false_2 (S idx = S m)) by lia.
      rewrite (bool_decide_eq_true_2 (S idx < S m)%nat) by lia. done.
    + rewrite (bool_decide_eq_false_2 _ Hm), (bool_decide_eq_false_2 _ Hm').
      rewrite (pathCell_at KI m _ idx) by done.
      destruct (decide (idx = m)) as [->|Hne].
      * rewrite (bool_decide_eq_true_2 (m = m)) by done.
        by rewrite (bool_decide_eq_true_2 (S m = S m)) by done.
      * rewrite (bool_decide_eq_false_2 (idx = m)) by done.
        rewrite (bool_decide_eq_false_2 (idx < m)%nat) by lia.
        rewrite (bool_decide_eq_false_2 (S idx = S m)) by lia.
        by rewrite (bool_decide_eq_false_2 (S idx < S m)%nat) by lia.
  - unfold pathCell. rewrite Hl.
    by rewrite !bool_decide_eq_false_2 by done.
Qed.

(** ** The key index of the path *)

Lemma buildKeyToIndex_snoc keys k :
  buildKeyToIndex (keys ++ [k]) = <[k := length keys]> (buildKeyToIndex keys).
Proof.
  unfold buildKeyToIndex. rewrite imap_app, foldl_app. simpl.
  by rewrite Nat.add_0_r.
Qed.

Lemma buildKeyToIndex_lookup keys : forall k idx,
  buildKeyToIndex keys !! k = Some idx <->
  keys !! idx = Some k /\ forall j, (idx < j)%nat -> keys !! j <> Some k.
Proof.
  induction keys as [|k0 keys IH] using rev_ind; intros k idx.
  { unfold buildKeyToIndex. simpl. rewrite lookup_empty. naive_solver. }
  rewrite buildKeyToIndex_snoc.
  destruct (decide (k = k0)) as [->|Hne].
  - rewrite lookup_insert_eq. split.
    + intros [= <-]. split.
      * by rewrite lookup_app_r, Nat.sub_diag by lia.
      * intros j Hj Hl. apply lookup_lt_Some in Hl.
        rewrite length_app in Hl. simpl in Hl. lia.
    + intros [Hl Hlast].
      destruct (decide (idx = length keys)) as [->|Hidx]; [done|].
      exfalso. apply (Hlast (length keys)).
      * apply lookup_lt_Some in Hl. rewrite length_app in Hl. simpl in Hl. lia.
      * by rewrite lookup_app_r, Nat.sub_diag by lia.
  - rewrite lookup_insert_ne by done. rewrite IH. split.
    + intros [Hl Hlast]. split.
      * apply lookup_app_Some. by left.
      * intros j Hj [Hj'|[_ Hj']]%lookup_app_Some; [by apply (Hlast j)|].
        apply list_lookup_singleton_Some in Hj' as [_ ?]. done.
    + intros [Hl Hlast]. apply lookup_app_Some in Hl as [Hl|[_ Hl]].
      * split; [done|]. intros j Hj Hj'. apply (Hlast j Hj).
        apply lookup_app_Some. by left.
      * apply list_lookup_singleton_Some in Hl as [_ ?]. done.
Qed.

Lemma buildKeyToIndex_None keys k :
  buildKeyToIndex keys !! k = None <-> k ∉ keys.
Proof.
  induction keys as [|k0 keys IH] using rev_ind.
  { unfold buildKeyToIndex. simpl. rewrite lookup_empty.
    split; [intros _; apply not_elem_of_nil|done]. }
  rewrite buildKeyToIndex_snoc, lookup_insert_None, IH.
  rewrite elem_of_app, list_elem_of_singleton. naive_solver.
Qed.

(** X14: the index built for the path playback maps the key of every
    path cell to the index of its last occurrence in the path, so for a
    path that repeats no cell to its index, and holds no other key. *)
Theorem buildKeyToIndex_index keys k :
  (forall idx, buildKeyToIndex keys !! k = Some idx <->
     keys !! idx = Some k /\ forall j, (idx < j)%nat -> keys !! j <> Some k) /\
  (buildKeyToIndex keys !! k = None <-> k ∉ keys) /\
  (NoDup keys -> forall idx, keys !! idx = Some k ->
     buildKeyToIndex keys !! k = Some idx).
Proof.
  split_and!.
  - intros idx. apply buildKeyToIndex_lookup.
  - apply buildKeyToIndex_None.
  - intros Hnd idx Hl. apply buildKeyToIndex_lookup. split; [done|].
    intros j Hj Hl'. pose proof (NoDup_lookup _ _ _ _ Hnd Hl Hl'). lia.
Qed.

(** ** The grid after the visited steps and after the path steps *)

Lemma paint_visited ts : forall vo K0 g0,
  Forall2 (fun t pos => exists i len, t_cb t = VisitedTick pos i len) ts vo ->
  foldl (fun gv t => paint (t_cb t) gv) (mapGrid (visitedCell K0) g0, K0) ts =
  (mapGrid (visitedCell (list_to_set (posKey <$> vo) ∪ K0)) g0,
   list_to_set (posKey <$> vo) ∪ K0).
Proof.
  induction ts as [|t ts IH]; intros vo K0 g0 Hts.
  - apply Forall2_nil_inv_l in Hts as ->. simpl.
    by rewrite (left_id_L ∅ (∪)).
  - apply Forall2_cons_inv_l in Hts as (pos & vo' & (i & len & Hcb) & Hts & ->).
    simpl. rewrite Hcb. cbn [paint fst snd].
    rewrite mapGrid_compose.
    rewrite (mapGrid_ext _ (visitedCell ({[posKey pos]} ∪ K0)))
      by (intros c; apply visitedCell_grow; set_solver).
    rewrite (IH vo' _ g0 Hts).
    by replace (list_to_set (posKey <$> vo') ∪ ({[posKey pos]} ∪ K0))
      with ({[posKey pos]} ∪ list_to_set (posKey <$> vo') ∪ K0 : gset string)
      by set_solver.
Qed.

Lemma paint_path KI K ts : forall m g,
  (forall j t, ts !! j = Some t ->
     exists len d alg, t_cb t = PathTick KI (m + j) len d alg) ->
  foldl (fun gv t => paint (t_cb t) gv) (mapGrid (pathMark KI m) g, K) ts =
  (mapGrid (pathMark KI (m + length ts)) g, K).
Proof.
  induction ts as [|t ts IH]; intros m g Hts.
  - simpl. by rewrite Nat.add_0_r.
  - destruct (Hts 0%nat t eq_refl) as (len & d & alg & Hcb).
    simpl. rewrite Hcb. cbn [paint fst snd]. rewrite Nat.add_0_r.
    rewrite mapGrid_compose.
    rewrite (mapGrid_ext _ (pathMark KI (S m)))
      by (intros c; apply pathMark_step).
    rewrite (IH (S m) g).
    + by replace (S m + length ts)%nat with (m + S (length ts))%nat by lia.
    + intros j t' Hj. destruct (Hts (S j) t' Hj) as (len' & d' & alg' & ->).
      exists len', d', alg'. f_equal. lia.
Qed.

Lemma visitedCell_endpoint K cell t :
  t = Start \/ t = End_ ->
  type (visitedCell K cell) = t <-> type cell = t.
Proof.
  intros Ht. destruct cell as [r c t0]. unfold visitedCell.
  match goal with
  | |- context [bool_decide (?k ∈ K)] => generalize (bool_decide (k ∈ K))
  end.
  intros b.
  destruct b, Ht as [-> | ->], t0; vm_compute; split; congruence.
Qed.

Lemma visitedCell_plain K cell :
  type cell <> Start -> type cell <> End_ -> isMark (type cell) = false ->
  visitedCell K cell =
  if bool_decide (posKey (cellPos cell) ∈ K)
  then withType cell Visited else cell.
Proof.
  intros Hs He Hmark. unfold visitedCell.
  rewrite !(bool_decide_eq_true_2 (_ ≠ _)) by done.
  simpl. case_bool_decide; [|done].
  unfold isMark in Hmark.
  apply orb_false_iff in Hmark as [[_ Hp]%orb_false_iff Hph].
  by rewrite Hp, Hph.
Qed.

Lemma finalizeCell_pathMark KI K keys cell :
  KI = buildKeyToIndex keys -> isMark (type cell) = false ->
  finalizeCell (pathMark KI (length keys) (visitedCell K cell)) =
  paintCell (list_to_set keys) K cell.
Proof.
  intros -> Hmark. unfold paintCell, pathMark.
  rewrite (bool_decide_ext _ _ (visitedCell_endpoint K cell Start (or_introl eq_refl))).
  rewrite (bool_decide_ext _ _ (visitedCell_endpoint K cell End_ (or_intror eq_refl))).
  rewrite visitedCell_pos.
  destruct (bool_decide (type cell = Start) || bool_decide (type cell = End_))
    eqn:Hg.
  { apply orb_true_iff in Hg as [Hg|Hg]; apply bool_decide_eq_true in Hg;
      destruct cell as [r c t]; simpl in Hg; subst t;
      unfold visitedCell, finalizeCell; cbn [type];
      rewrite ?(bool_decide_eq_false_2 (Start ≠ Start)) by auto;
      rewrite ?(bool_decide_eq_false_2 (End_ ≠ End_)) by auto;
      rewrite ?andb_false_r; done. }
  apply orb_false_iff in Hg as [Hns Hne].
  apply bool_decide_eq_false in Hns, Hne.
  rewrite (visitedCell_plain K cell Hns Hne Hmark).
  destruct (buildKeyToIndex keys !! posKey (cellPos cell)) as [idx|] eqn:Hl.
  - assert (posKey (cellPos cell) ∈ keys) as Hin.
    { destruct (decide (posKey (cellPos cell) ∈ keys)) as [|Hn]; [done|].
      apply buildKeyToIndex_None in Hn. congruence. }
    rewrite (bool_decide_eq_true_2 (_ ∈ list_to_set keys)) by set_solver.
    apply buildKeyToIndex_lookup in Hl as [Hl%lookup_lt_Some _].
    destruct (decide (S idx = length keys)) as [Hlast|Hlast].
    + rewrite (bool_decide_eq_true_2 _ Hlast). case_bool_decide; reflexivity.
    + rewrite (bool_decide_eq_false_2 _ Hlast).
      rewrite (bool_decide_eq_true_2 (S idx < length keys)%nat) by lia.
      case_bool_decide; reflexivity.
  - apply buildKeyToIndex_None in Hl.
    rewrite (bool_decide_eq_false_2 (_ ∈ list_to_set keys)) by set_solver.
    case_bool_decide; [reflexivity|].
    unfold finalizeCell. rewrite bool_decide_eq_false_2; [done|].
    intros Heq. unfold isMark in Hmark. rewrite Heq in Hmark. done.
Qed.

(** ** The state when the animation is over *)

Lemma startAnimation_state p vo a :
  let d := baseDelayOf (speed a) in
  let nv := length vo in
  startAnimation p vo a =
  mkApp (grid a) (algorithm a) (speed a) (status a) (Some (length p))
    (visitedCount a) true
    ((timeoutsRef a ++ imap (fun i _ => (nextId a + i)%nat) vo) ++
     imap (fun i _ => (nextId a + nv + i)%nat) p)
    ((timers a ++
      imap (fun i pos => mkTimer (nextId a + i) (clock a + d * Z.of_nat i)
                           (VisitedTick pos i nv)) vo) ++
     imap (fun i pos =>
             mkTimer (nextId a + nv + i)
               (clock a + (d * Z.of_nat nv + d * Z.of_nat i))
               (PathTick (buildKeyToIndex (map posKey p)) i (length p) d
                         (algorithm a))) p)
    (clock a) (nextId a + nv + length p) ∅.
Proof.
  intros d nv. unfold startAnimation, schedulePath, scheduleVisited.
  rewrite (schedule_fold
             (fun i pos => VisitedTick pos i (length vo))
             (fun i => baseDelayOf (speed a) * Z.of_nat i)).
  rewrite (schedule_fold
             (fun i pos => PathTick (buildKeyToIndex (map posKey p)) i
                             (length p) (baseDelayOf (speed a)) (algorithm a))
             (fun i => baseDelayOf (speed a) * Z.of_nat (length vo) +
                       baseDelayOf (speed a) * Z.of_nat i)).
  reflexivity.
Qed.

Lemma animation_completes a p vo :
  timers a = [] -> p <> [] ->
  let a0 := startAnimation p vo a in
  let final := (runLoop (length vo + length p + 1) a0).2 in
  grid final =
    mapGrid finalizeCell
      (mapGrid (pathMark (buildKeyToIndex (map posKey p)) (length p))
         (mapGrid (visitedCell (list_to_set (posKey <$> vo))) (grid a))) /\
  isAnimating final = false /\
  timers final = [mkTimer (S (nextId a0)) (clock final + 120) ToneTick] /\
  status final = "Solved using " +:+ algorithmName (algorithm a) /\
  pathLength final = Some (length p) /\
  visitedCount final = visitedCount a /\
  algorithm final = algorithm a /\ speed final = speed a /\
  nextId final = S (S (nextId a0)) /\ timeoutsRef final = timeoutsRef a0.
Proof.
  intros Hidle Hp a0 final.
  pose proof (startAnimation_state p vo a) as Hst. cbn zeta in Hst.
  fold a0 in Hst. rewrite Hidle in Hst. cbn [app] in Hst.
  pose proof (baseDelayOf_pos (speed a)) as Hd.
  set (d := baseDelayOf (speed a)) in *.
  set (KI := buildKeyToIndex (map posKey p)) in *.
  set (VT := imap (fun i pos => mkTimer (nextId a + i) (clock a + d * Z.of_nat i)
                                  (VisitedTick pos i (length vo))) vo) in *.
  set (PT := fun q : list Position =>
               imap (fun i pos =>
                       mkTimer (nextId a + length vo + i)
                         (clock a + (d * Z.of_nat (length vo) + d * Z.of_nat i))
                         (PathTick KI i (length p) d (algorithm a))) q).
  assert (timers a0 = VT ++ PT p) as Htimers by (by rewrite Hst).
  assert (timersOk (timers a0)) as Hok.
  { rewrite Htimers.
    apply (schedule_timersOk d (clock a) (nextId a) vo p
             (fun i pos => VisitedTick pos i (length vo))
             (fun i pos => PathTick KI i (length p) d (algorithm a))). lia. }
  destruct (exists_last Hp) as (p' & x & Hpx).
  assert (PT p = PT p' ++ [mkTimer (nextId a + length vo + length p')
                            (clock a + (d * Z.of_nat (length vo) +
                                        d * Z.of_nat (length p')))
                            (PathTick KI (length p') (length p) d (algorithm a))])
    as HPT.
  { unfold PT. rewrite Hpx at 1. rewrite imap_app. simpl.
    by rewrite Nat.add_0_r. }
  set (tl := mkTimer _ _ _) in HPT.
  assert (length p = S (length p')) as Hlenp
    by (rewrite Hpx, length_app; simpl; lia).
  rewrite HPT, app_assoc in Htimers. rewrite Htimers in Hok.
  set (ts := VT ++ PT p') in *.
  assert (length ts = (length vo + length p')%nat) as Hlen
    by (unfold ts, VT, PT; by rewrite length_app, !length_imap).
  destruct (runLoop_fire ts a0 [tl] 2 Htimers Hok)
    as (Hrun & Ht1 & Ha1 & Hn1).
  { unfold ts. apply Forall_app. split; apply Forall_forall.
    - intros t (i & pos & -> & _)%elem_of_lookup_imap. done.
    - intros t (i & pos & -> & Hi%lookup_lt_Some)%elem_of_lookup_imap. simpl.
      lia. }
  set (a1 := foldl fire a0 ts) in *.
  assert (final = (runLoop 2 a1).2) as ->.
  { unfold final. rewrite <- Hrun. do 2 f_equal. lia. }
  destruct (fireNext_fire a1 tl [] Ht1) as [Hfire1 Hadv1].
  { intros i j ti tj Hij Hi Hj. destruct i, j; simplify_eq/=; lia. }
  destruct (runCallback_last_path KI (length p') (length p) d (algorithm a)
              (advance tl a1))
    as (Ht2 & Ha2 & Hc2); [lia|done|].
  change (runCallback _ (advance tl a1)) with (fire a1 tl) in Ht2, Ha2, Hc2.
  set (a2 := fire a1 tl) in *.
  set (tf := mkTimer _ _ _) in Ht2.
  destruct (fireNext_fire a2 tf [] Ht2) as [Hfire2 Hadv2].
  { intros i j ti tj Hij Hi Hj. destruct i, j; simplify_eq/=; lia. }
  rewrite (runLoop_S _ _ _ _ Hfire1), (runLoop_S _ _ _ _ Hfire2).
  cbn [runLoop fst snd].
  assert (fire a2 tf = foldl fire a0 (ts ++ [tl; tf])) as Hfinal
    by (by rewrite foldl_app).
  pose proof (foldl_fire_paint (ts ++ [tl; tf]) a0) as Hpaint.
  rewrite <- Hfinal in Hpaint.
  destruct (foldl_fire_keeps (ts ++ [tl; tf]) a0)
    as (Halg & Hsp & Hpl & Hvc & Href).
  rewrite <- Hfinal in Halg, Hsp, Hpl, Hvc, Href.
  assert (nextId a2 = S (nextId a0)) as Hn2.
  { rewrite <- Hn1. unfold a2.
    apply (runCallback_last_path_id KI (length p') (length p) d (algorithm a)
             (advance tl a1)). lia. }
  assert (timers (fire a2 tf) =
          timers (advance tf a2) ++
          [mkTimer (nextId a2) (clock (fire a2 tf) + 120) ToneTick]) as Htone
    by reflexivity.
  rewrite Hadv2, Hn2 in Htone. cbn [app] in Htone.
  assert (nextId (fire a2 tf) = S (nextId a2)) as Hn3 by reflexivity.
  rewrite Hn2 in Hn3.
  rewrite Htone, Hn3, Href.
  rewrite Halg, Hsp, Hpl, Hvc, Hst. cbn [algorithm speed pathLength visitedCount].
  split_and!; try done.
  rewrite Hst in Hpaint. cbn [grid visitedSet] in Hpaint.
    unfold ts in Hpaint. rewrite <- !app_assoc, !foldl_app in Hpaint.
    rewrite <- (mapGrid_id (grid a)) in Hpaint at 1.
    rewrite (mapGrid_ext (fun c => c) (visitedCell ∅)) in Hpaint
      by (intros c; by rewrite visitedCell_empty).
    rewrite (paint_visited VT vo ∅ (grid a)) in Hpaint.
    2:{ unfold VT. apply Forall2_lookup. intros i.
        rewrite list_lookup_imap. destruct (vo !! i); simpl; constructor.
        eauto. }
    rewrite (right_id_L ∅ (∪)) in Hpaint.
    set (g1 := mapGrid (visitedCell _) (grid a)) in *.
    rewrite <- (mapGrid_id g1) in Hpaint at 1.
    rewrite (mapGrid_ext (fun c => c) (pathMark KI 0)) in Hpaint
      by (intros c; by rewrite pathMark_zero).
    rewrite (paint_path KI _ (PT p') 0 g1) in Hpaint.
    2:{ intros j t Hj. unfold PT in Hj.
        apply list_lookup_imap_Some in Hj as (pos & _ & ->). simpl. eauto. }
    replace (0 + length (PT p'))%nat with (length p') in Hpaint
      by (unfold PT; by rewrite length_imap).
    apply (f_equal fst) in Hpaint. cbn [fst] in Hpaint.
    rewrite Hpaint. cbn [foldl t_cb tl tf paint fst].
    rewrite !mapGrid_compose, Hlenp. apply mapGrid_ext.
    intros c. by rewrite pathMark_step.
Qed.

(** ** Solving with a path *)

Lemma followParents_prefix fuel parent : forall cur acc res,
  followParents fuel parent cur acc = Ok res -> exists l, res = acc ++ l.
Proof.
  induction fuel as [|fuel IH]; intros [c|] acc res; simpl; try done.
  - intros [= <-]. exists []. by rewrite app_nil_r.
  - intros (l & ->)%IH. exists (c :: l). by rewrite <- app_assoc.
  - intros [= <-]. exists []. by rewrite app_nil_r.
Qed.

Lemma buildResult_path_nonempty end_ st r p :
  buildResult end_ st = Ok r -> path r = Some p -> p <> [].
Proof.
  unfold buildResult. destruct (s_parent st !! posKey end_); [|by intros [= <-]].
  intros (acc & Hfollow & [= <-])%bind_Ok [= <-].
  simpl in Hfollow. apply followParents_prefix in Hfollow as (l & ->).
  simpl. rewrite reverse_cons. by destruct (reverse l).
Qed.

Lemma solver_path_nonempty alg grid p vo :
  solverOf alg grid = Ok (mkSolveResult (Some p) vo) -> p <> [].
Proof.
  destruct alg; simpl.
  - unfold bfs. intros ([s e] & _ & Hrest)%bind_Ok.
    destruct (negb _); [done|].
    apply bind_Ok in Hrest as (st & _ & Hbuild).
    by apply (buildResult_path_nonempty _ _ _ _ Hbuild).
  - unfold dfs. intros ([s e] & _ & Hrest)%bind_Ok.
    apply bind_Ok in Hrest as (st & _ & Hbuild).
    by apply (buildResult_path_nonempty _ _ _ _ Hbuild).
Qed.

Lemma handleSolve_found a p vo :
  isAnimating a = false ->
  solverOf (algorithm a) (grid a) = Ok (mkSolveResult (Some p) vo) ->
  handleSolve a =
  (startAnimation p vo
     (mkApp (mapGrid clearCell (grid a)) (algorithm a) (speed a)
        "Solving maze..." None (Some (length vo)) false []
        (filter (fun t => t_id t ∉ timeoutsRef a) (timers a))
        (clock a) (nextId a) (visitedSet a)),
   Ok ()).
Proof.
  intros Hanim Hsolve.
  destruct a as [g alg sp stt pl vc anim tref tms clk nid vs].
  cbn [isAnimating algorithm grid] in Hanim, Hsolve. subst anim.
  cbv [handleSolve clearPath clearAnimations setStatus setGrid
       setVisitedCount setPathLength isAnimating algorithm grid timeoutsRef
       timers nextId visitedSet clock speed status pathLength visitedCount].
  rewrite mapGrid_id, Hsolve.
  cbv [path visitedOrder fst snd setStatus setVisitedCount isAnimating
       algorithm grid timeoutsRef timers nextId visitedSet clock speed status
       pathLength visitedCount].
  by rewrite filter_no_ids.
Qed.

Lemma solve_animation_state a p vo :
  isAnimating a = false -> timers a = [] ->
  solverOf (algorithm a) (grid a) = Ok (mkSolveResult (Some p) vo) ->
  let final := (runLoop (length vo + length p + 1) (handleSolve a).1).2 in
  grid final =
    mapGrid (paintCell (list_to_set (posKey <$> p))
                       (list_to_set (posKey <$> vo)))
            (mapGrid clearCell (grid a)) /\
  isAnimating final = false /\
  timers final =
    [mkTimer (S (nextId (handleSolve a).1)) (clock final + 120) ToneTick] /\
  status final = "Solved using " +:+ algorithmName (algorithm a) /\
  pathLength final = Some (length p) /\
  visitedCount final = Some (length vo).
Proof.
  intros Hanim Hidle Hsolve final.
  pose proof (solver_path_nonempty _ _ _ _ Hsolve) as Hp.
  unfold final. rewrite (handleSolve_found a p vo Hanim Hsolve). cbn [fst].
  rewrite Hidle, filter_nil.
  set (a' := mkApp _ _ _ _ _ _ _ _ _ _ _ _).
  destruct (animation_completes a' p vo eq_refl Hp)
    as (Hgrid & Han & Htm & Hst & Hpl & Hvc & _).
  cbn zeta in Hgrid, Han, Htm, Hst, Hpl, Hvc.
  rewrite Hgrid, Han, Htm, Hst, Hpl, Hvc. split_and!; try done.
  unfold a'. cbn [grid]. rewrite !mapGrid_compose.
  rewrite <- (length_map posKey p).
  apply mapGrid_ext. intros c.
  change (map posKey p) with (posKey <$> p).
  apply finalizeCell_pathMark; [done|apply clearCell_unmarked].
Qed.

Lemma posKey_elem (q : Position) (l : list Position) :
  posKey q ∈ (list_to_set (posKey <$> l) : gset string) <-> q ∈ l.
Proof.
  rewrite elem_of_list_to_set, list_elem_of_fmap. split.
  - intros (q' & Heq & Hq'). by rewrite (posKey_inj _ _ Heq).
  - intros Hq. eauto.
Qed.

Lemma typeAt_mapGrid f grid r c :
  typeAt (mapGrid f grid) r c = (fun cell => type (f cell)) <$> cellAt grid r c.
Proof. unfold typeAt. rewrite cellAt_mapGrid. by destruct (cellAt grid r c). Qed.

Lemma clearCell_cases cell :
  clearCell cell = if isMark (type cell) then withType cell Passage else cell.
Proof. done. Qed.

Lemma paintCell_type p vo cell :
  type (paintCell (list_to_set (posKey <$> p)) (list_to_set (posKey <$> vo))
          (clearCell cell)) =
  paintedType p vo (cellPos cell) (type cell).
Proof.
  unfold paintCell, paintedType.
  rewrite (bool_decide_ext _ _ (clearCell_type cell Start (or_intror (or_introl eq_refl)))).
  rewrite (bool_decide_ext _ _ (clearCell_type cell End_ (or_intror (or_intror eq_refl)))).
  rewrite clearCell_pos.
  rewrite (bool_decide_ext _ _ (posKey_elem (cellPos cell) p)).
  rewrite (bool_decide_ext _ _ (posKey_elem (cellPos cell) vo)).
  destruct (bool_decide (type cell = Start) || bool_decide (type cell = End_))
    eqn:Hg.
  - apply orb_true_iff in Hg as [Hg|Hg]; apply bool_decide_eq_true in Hg;
      unfold clearCell; by rewrite Hg.
  - clear Hg. do 2 (case_bool_decide; [done|]).
    unfold clearCell. by destruct (isMark (type cell)).

Qed.

(** X15: a solve that finds a path, started when nothing is running and
    no timer is pending, and played until its finalize step has run,
    leaves the start and the end as they are, shows every other cell of
    the path as [path], every other visited cell as [visited], and every
    remaining cell as it was with the marks of earlier solves removed;
    [isAnimating] is false again, the one timer pending is that of the
    second tone of [playSolveDone], due 120 ms later, the status names
    the algorithm and the two counters show the lengths of the path and
    of the visited order. *)
Theorem solve_animation_paints a p vo :
  isAnimating a = false -> timers a = [] -> wfGrid (grid a) = true ->
  solverOf (algorithm a) (grid a) = Ok (mkSolveResult (Some p) vo) ->
  let final := (runLoop (length vo + length p + 1) (handleSolve a).1).2 in
  (forall r c t, typeAt (grid a) r c = Some t ->
     typeAt (grid final) r c = Some (paintedType p vo (mkPosition r c) t)) /\
  isAnimating final = false /\
  timers final =
    [mkTimer (S (nextId (handleSolve a).1)) (clock final + 120) ToneTick] /\
  status final = "Solved using " +:+ algorithmName (algorithm a) /\
  pathLength final = Some (length p) /\
  visitedCount final = Some (length vo).
Proof.
  intros Hanim Hidle Hwf Hsolve final.
  destruct (solve_animation_state a p vo Hanim Hidle Hsolve)
    as (Hgrid & Hrest).
  fold final in Hgrid, Hrest. split; [|exact Hrest].
  intros r c t Ht. rewrite Hgrid, mapGrid_compose, typeAt_mapGrid.
  unfold typeAt in Ht.
  destruct (cellAt (grid a) r c) as [cell|] eqn:Hcell; [|done].
  injection Ht as <-. simpl.
  by rewrite paintCell_type, (wfGrid_coords _ _ _ _ Hwf Hcell).
Qed.

Lemma solve_animation_paints_witness :
  let a := mkApp smallMaze Bfs Fast "Maze ready" None None false [] [] 0 0 ∅ in
  let p := [mkPosition 1 0; mkPosition 1 1; mkPosition 2 1; mkPosition 3 1;
            mkPosition 3 2; mkPosition 3 3; mkPosition 3 4] in
  let vo := [mkPosition 1 0; mkPosition 1 1; mkPosition 2 1; mkPosition 1 2;
             mkPosition 3 1; mkPosition 1 3; mkPosition 3 2; mkPosition 2 3;
             mkPosition 3 3; mkPosition 3 4] in
  let final := (runLoop (length vo + length p + 1) (handleSolve a).1).2 in
  (forall r c t, typeAt (grid a) r c = Some t ->
     typeAt (grid final) r c = Some (paintedType p vo (mkPosition r c) t)) /\
  isAnimating final = false /\
  timers final =
    [mkTimer (S (nextId (handleSolve a).1)) (clock final + 120) ToneTick] /\
  status final = "Solved using " +:+ algorithmName (algorithm a) /\
  pathLength final = Some (length p) /\
  visitedCount final = Some (length vo).
Proof.
  intros a p vo. apply (solve_animation_paints a p vo); vm_compute; reflexivity.
Defined.

(** ** Clearing the path after a solve *)

Lemma mapGrid_ext_in f g grid :
  (forall c, c ∈ concat grid -> f c = g c) -> mapGrid f grid = mapGrid g grid.
Proof.
  intros Hfg. unfold mapGrid. apply list_fmap_ext. intros i rowl Hi.
  apply list_fmap_ext. intros j c Hj. apply Hfg.
  apply elem_of_concat. exists rowl.
  split; [by eapply list_elem_of_lookup_2|by eapply list_elem_of_lookup_2].
Qed.


Lemma clearCell_idemp cell : clearCell (clearCell cell) = clearCell cell.
Proof.
  rewrite (clearCell_cases (clearCell cell)). by rewrite clearCell_unmarked.
Qed.

Lemma passable_cell grid r c cell :
  cellAt grid r c = Some cell ->
  passable grid (mkPosition r c) = true <-> type cell <> Wall.
Proof.
  intros Hcell. unfold passable. simpl. rewrite Hcell.
  apply bool_decide_eq_true.
Qed.

(** The solvers stay off the walls. *)
Lemma walls_unvisited alg grid s e p vo :
  wfGrid grid = true ->
  countType Start grid = 1%nat -> countType End_ grid = 1%nat ->
  typeAt grid (row s) (col s) = Some Start ->
  typeAt grid (row e) (col e) = Some End_ ->
  solverOf alg grid = Ok (mkSolveResult (Some p) vo) ->
  forall r c cell, cellAt grid r c = Some cell -> type cell = Wall ->
    (mkPosition r c ∉ p) /\ (mkPosition r c ∉ vo).
Proof.
  intros Hwf Hcs Hce Hs He Hsolve.
  destruct (solver_facts alg grid s e Hwf Hcs Hce Hs He)
    as (res & Hres & _ & _ & Hreach & Hpath & _).
  rewrite Hsolve in Hres. injection Hres as <-. simpl in Hreach, Hpath.
  destruct (Hpath p eq_refl) as (_ & _ & Hsub & _).
  intros r c cell Hcell Hw.
  assert (mkPosition r c ∉ vo) as Hn; [|split; [|done]; by intros ?%Hsub].
  intros Hin%Hreach%reachable_passable.
  by apply (passable_cell _ _ _ _ Hcell) in Hin.
Qed.

(** Clearing the picture of a finished solve gives the maze back. *)
Lemma solve_then_clear a s e p vo :
  isAnimating a = false -> timers a = [] -> wfGrid (grid a) = true ->
  countType Start (grid a) = 1%nat -> countType End_ (grid a) = 1%nat ->
  typeAt (grid a) (row s) (col s) = Some Start ->
  typeAt (grid a) (row e) (col e) = Some End_ ->
  solverOf (algorithm a) (grid a) = Ok (mkSolveResult (Some p) vo) ->
  let final := (runLoop (length vo + length p + 1) (handleSolve a).1).2 in
  mapGrid clearCell (grid final) = mapGrid clearCell (grid a).
Proof.
  intros Hanim Hidle Hwf Hcs Hce Hs He Hsolve final.
  destruct (solve_animation_state a p vo Hanim Hidle Hsolve) as (Hgrid & _).
  fold final in Hgrid.
  pose proof (walls_unvisited _ _ s e p vo Hwf Hcs Hce Hs He Hsolve) as Hwall.
  rewrite Hgrid, !mapGrid_compose.
  apply mapGrid_ext_in. intros cell (r & c & Hcell)%cellAt_of_elem.
  pose proof (wfGrid_coords _ _ _ _ Hwf Hcell) as Hpos.
  unfold paintCell.
  rewrite (bool_decide_ext _ _ (clearCell_type cell Start (or_intror (or_introl eq_refl)))).
  rewrite (bool_decide_ext _ _ (clearCell_type cell End_ (or_intror (or_intror eq_refl)))).
  rewrite clearCell_pos, Hpos.
  rewrite (bool_decide_ext _ _ (posKey_elem (mkPosition r c) p)).
  rewrite (bool_decide_ext _ _ (posKey_elem (mkPosition r c) vo)).
  destruct (bool_decide (type cell = Start) || bool_decide (type cell = End_))
    eqn:Hg; [apply clearCell_idemp|].
  apply orb_false_iff in Hg as [Hns Hne].
  apply bool_decide_eq_false in Hns, Hne.
  assert (mkPosition r c ∈ p \/ mkPosition r c ∈ vo ->
          forall t, isMark t = true ->
            clearCell (withType (clearCell cell) t) = clearCell cell) as Hpaint.
  { intros Hin t Ht.
    assert (type cell <> Wall) as Hnw.
    { intros Hw. destruct (Hwall r c cell Hcell Hw). tauto. }
    unfold clearCell at 1. simpl. rewrite Ht.
    destruct cell as [r' c' []]; done. }
  case_bool_decide; [by apply Hpaint; [left|]|].
  case_bool_decide; [by apply Hpaint; [right|]|].
  apply clearCell_idemp.
Qed.



(** * The component as a whole *)

(** ** Cell updates keep the maze *)

Lemma keepsMaze_id : keepsMaze (fun c => c).
Proof. by intros c. Qed.

Lemma keepsMaze_clearCell : keepsMaze clearCell.
Proof.
  intros [r c t]. unfold clearCell. destruct t; vm_compute; split_and!; congruence.
Qed.

Lemma keepsMaze_finalizeCell : keepsMaze finalizeCell.
Proof.
  intros [r c t]. unfold finalizeCell.
  destruct t; vm_compute; split_and!; congruence.
Qed.

Lemma keepsMaze_visitedCell K : keepsMaze (visitedCell K).
Proof.
  intros [r c t]. unfold visitedCell.
  match goal with
  | |- context [bool_decide (?k ∈ K)] => generalize (bool_decide (k ∈ K))
  end.
  intros b. destruct b, t; vm_compute; split_and!; congruence.
Qed.

Lemma keepsMaze_pathCell KI i : keepsMaze (pathCell KI i).
Proof.
  intros [r c t]. unfold pathCell.
  match goal with
  | |- context [KI !! ?k] => generalize (KI !! k)
  end.
  intros [idx|];
    [generalize (bool_decide (idx = i)); generalize (bool_decide (idx < i)%nat);
     intros b1 b2; destruct b1, b2, t|destruct t];
    vm_compute; split_and!; congruence.
Qed.

Lemma keepsMaze_paint cb gv :
  exists f, keepsMaze f /\ (paint cb gv).1 = mapGrid f gv.1.
Proof.
  destruct cb; simpl;
    [eexists; (split; [|reflexivity]);
     auto using keepsMaze_visitedCell, keepsMaze_pathCell,
       keepsMaze_finalizeCell..|].
  exists (fun c => c). split; [apply keepsMaze_id|by rewrite mapGrid_id].
Qed.

(** ** The maze survives cell updates *)

Lemma countType_mapGrid f t grid :
  (forall c, type (f c) = t <-> type c = t) ->
  countType t (mapGrid f grid) = countType t grid.
Proof.
  intros Hf. unfold countType. rewrite concat_mapGrid.
  induction (concat grid) as [|c l IH]; [done|].
  rewrite fmap_cons, !filter_cons.
  destruct (decide (type c = t)) as [Ht|Ht].
  - rewrite decide_True by by apply Hf. simpl. by rewrite IH.
  - rewrite decide_False by by rewrite Hf. done.
Qed.

Lemma hasDims_mapGrid f grid rows cols :
  hasDims grid rows cols -> hasDims (mapGrid f grid) rows cols.
Proof.
  intros [Hlen Hall]. split; [by rewrite length_mapGrid|].
  unfold mapGrid. apply Forall_fmap. eapply Forall_impl; [exact Hall|].
  intros rowl Hr. simpl. by rewrite length_fmap.
Qed.

Lemma passable_mapGrid f grid p :
  keepsMaze f -> passable grid p = true -> passable (mapGrid f grid) p = true.
Proof.
  intros Hf (cell & Hcell & Hne)%passable_spec. apply passable_spec.
  exists (f cell). rewrite cellAt_mapGrid, Hcell. split; [done|].
  intros Hw. by apply Hne, Hf.
Qed.

Lemma isWalk_mapGrid f grid l :
  keepsMaze f -> isWalk grid l = true -> isWalk (mapGrid f grid) l = true.
Proof.
  intros Hf. induction l as [|p l IH]; [done|].
  rewrite !isWalk_cons. intros (Hp & Hadj & Hl).
  split_and!; [by apply passable_mapGrid|done|by apply IH].
Qed.

Lemma reachable_mapGrid f grid s t :
  keepsMaze f -> reachable grid s t -> reachable (mapGrid f grid) s t.
Proof.
  intros Hf (l & (Hwalk & Hhead & Hlast)%connects_spec).
  exists l. apply connects_spec. split_and!; [by apply isWalk_mapGrid|done..].
Qed.

Lemma MazeInv_mapGrid f R C grid :
  keepsMaze f -> MazeInv R C grid -> MazeInv R C (mapGrid f grid).
Proof.
  intros Hf [Hwf Hdims Hcs Hce Hs He Hreach].
  assert (forall t, t = Start \/ t = End_ ->
            forall c, type (f c) = t <-> type c = t) as Hse.
  { intros t [-> | ->] c; apply Hf. }
  split.
  - eapply wfGrid_intro; [by apply hasDims_mapGrid|].
    intros r c cell. rewrite cellAt_mapGrid.
    destruct (cellAt grid r c) as [cell0|] eqn:Hcell; [|done].
    intros [= <-]. rewrite (proj1 (Hf cell0)).
    by apply (wfGrid_coords grid).
  - by apply hasDims_mapGrid.
  - rewrite countType_mapGrid; [done|]. apply Hse. by left.
  - rewrite countType_mapGrid; [done|]. apply Hse. by right.
  - rewrite typeAt_mapGrid. unfold typeAt in Hs.
    destruct (cellAt grid 1 0) as [cell|]; [|done]. simpl in *.
    injection Hs as Hs. f_equal. by apply Hf.
  - rewrite typeAt_mapGrid. unfold typeAt in He.
    destruct (cellAt grid (2 * R - 1) (2 * C)) as [cell|]; [|done]. simpl in *.
    injection He as He. f_equal. by apply Hf.
  - by apply reachable_mapGrid.
Qed.

Lemma MazeInv_fire R C a t :
  MazeInv R C (grid a) -> MazeInv R C (grid (fire a t)).
Proof.
  intros Hinv. pose proof (fire_paint a t) as Hp.
  apply (f_equal fst) in Hp. cbn [fst] in Hp.
  destruct (keepsMaze_paint (t_cb t) (grid a, visitedSet a)) as (f & Hf & Heq).
  rewrite Hp, Heq. by apply MazeInv_mapGrid.
Qed.

Lemma clamp_idemp n : clamp (clamp n) = clamp n.
Proof. unfold clamp. lia. Qed.

Lemma MazeInv_generated rnd rows cols :
  exists g,
    generatePerfectMaze rnd (clamp rows) (clamp cols) = Ok g /\
    generatePerfectMaze rnd rows cols = Ok g /\
    MazeInv (clamp rows) (clamp cols) g.
Proof.
  destruct (generatePerfectMaze_facts rnd rows cols)
    as (g & Hgen & Hwf & Hdims & Hcs & Hce & Hs & He & Hreach & _).
  exists g. split_and!; [|done|by split].
  unfold generatePerfectMaze in *. by rewrite !clamp_idemp.
Qed.

(** ** Pending timers *)

Lemma timersOk_single t : timersOk [t].
Proof. intros i j ti tj Hij Hi Hj. destruct i, j; simplify_eq/=; lia. Qed.

(** The timer that the host picks: nothing created before it is as
    early, nothing created after it is earlier. *)
Lemma earliest_split ts : forall best l1 l2,
  Forall (fun y => t_at best < t_at y) l1 ->
  Forall (fun y => t_at best <= t_at y) l2 ->
  exists l1' l2',
    l1 ++ best :: l2 ++ ts = l1' ++ earliest best ts :: l2' /\
    Forall (fun y => t_at (earliest best ts) < t_at y) l1' /\
    Forall (fun y => t_at (earliest best ts) <= t_at y) l2'.
Proof.
  induction ts as [|t ts IH]; intros best l1 l2 H1 H2; simpl.
  - exists l1, l2. by rewrite app_nil_r.
  - case_bool_decide as Hlt.
    + destruct (IH t (l1 ++ best :: l2) []) as (l1' & l2' & Heq & H1' & H2').
      * apply Forall_app; split; [|apply Forall_cons; split].
        -- eapply Forall_impl; [exact H1|]. simpl. lia.
        -- lia.
        -- eapply Forall_impl; [exact H2|]. simpl. lia.
      * done.
      * exists l1', l2'. split; [|done]. rewrite <- Heq.
        by rewrite <- app_assoc.
    + destruct (IH best l1 (l2 ++ [t])) as (l1' & l2' & Heq & H1' & H2').
      * done.
      * apply Forall_app; split; [done|]. apply Forall_singleton. lia.
      * exists l1', l2'. split; [|done]. rewrite <- Heq.
        by rewrite <- app_assoc.
Qed.

Lemma filter_all {A} (P : A -> Prop) `{forall x, Decision (P x)} (l : list A) :
  Forall P l -> filter P l = l.
Proof.
  induction 1 as [|x l Hx _ IH]; [done|].
  by rewrite filter_cons, decide_True, IH.
Qed.

Lemma filter_delete_id (t : Timer) l1 l2 :
  NoDup (t_id <$> (l1 ++ t :: l2)) ->
  filter (fun t' => t_id t' ≠ t_id t) (l1 ++ t :: l2) = l1 ++ l2.
Proof.
  rewrite fmap_app, fmap_cons. intros Hnd.
  apply NoDup_app in Hnd as (Hnd1 & Hdisj & Hnd2).
  apply NoDup_cons in Hnd2 as [Hnot Hnd2].
  rewrite filter_app, filter_cons, decide_False by naive_solver.
  f_equal; apply filter_all, Forall_forall; intros x Hx Heq.
  - apply (Hdisj (t_id x)); [apply list_elem_of_fmap; eauto|].
    rewrite Heq. by left.
  - apply Hnot. rewrite <- Heq. apply list_elem_of_fmap. eauto.
Qed.

Lemma NoDup_delete_id (t : Timer) l1 l2 :
  NoDup (t_id <$> (l1 ++ t :: l2)) -> NoDup (t_id <$> (l1 ++ l2)).
Proof.
  intros Hnd. eapply sublist_NoDup; [exact Hnd|].
  apply fmap_sublist, sublist_app; [done|]. by apply sublist_cons.
Qed.

Lemma NoDup_fresh_id (ts : list Timer) n at_ cb :
  NoDup (t_id <$> ts) -> Forall (fun t => (t_id t < n)%nat) ts ->
  NoDup (t_id <$> (ts ++ [mkTimer n at_ cb])).
Proof.
  intros Hnd Hlt. rewrite fmap_app. apply NoDup_app. split_and!; [done| |].
  - intros x (t & -> & Ht)%list_elem_of_fmap Hx.
    apply list_elem_of_singleton in Hx. simpl in Hx.
    rewrite Forall_forall in Hlt. specialize (Hlt _ Ht). lia.
  - apply NoDup_singleton.
Qed.

Lemma fireNext_split a :
  timers a <> [] -> NoDup (t_id <$> timers a) ->
  exists t l1 l2,
    timers a = l1 ++ t :: l2 /\
    fireNext a = Some (t, fire a t) /\
    timers (advance t a) = l1 ++ l2 /\
    Forall (fun y => t_at t < t_at y) l1 /\
    Forall (fun y => t_at t <= t_at y) l2.
Proof.
  intros Hne Hnd. unfold fireNext, fire.
  destruct (timers a) as [|t0 ts] eqn:Ht; [done|].
  destruct (earliest_split ts t0 [] []) as (l1 & l2 & Heq & H1 & H2); [done..|].
  simpl in Heq. exists (earliest t0 ts), l1, l2. split_and!; try done.
  unfold advance. cbn [timers]. rewrite Ht, Heq. apply filter_delete_id.
  by rewrite <- Heq.
Qed.

(** What firing a timer does to the timers, to the next id and to
    [isAnimating]. *)
Lemma fire_spawn a t :
  timers (fire a t) =
    timers (advance t a) ++
    match t_cb t with
    | PathTick _ i len d alg =>
        if bool_decide (i = len - 1)%nat
        then [mkTimer (nextId a) (Z.max (clock a) (t_at t) + d * 2)
                (FinalizeTick alg)]
        else []
    | FinalizeTick _ =>
        [mkTimer (nextId a) (Z.max (clock a) (t_at t) + 120) ToneTick]
    | _ => []
    end /\
  nextId (fire a t) =
    (nextId a +
     match t_cb t with
     | PathTick _ i len _ _ => if bool_decide (i = len - 1)%nat then 1 else 0
     | FinalizeTick _ => 1
     | _ => 0
     end)%nat /\
  isAnimating (fire a t) =
    match t_cb t with FinalizeTick _ => false | _ => isAnimating a end.
Proof.
  unfold fire. destruct (t_cb t); simpl; try case_bool_decide; simpl;
    rewrite ?app_nil_r, ?Nat.add_0_r, ?Nat.add_1_r; done.
Qed.

Lemma Stepping_nonempty ts : Stepping ts -> ts <> [].
Proof.
  intros [(t & alg & -> & _)|(_ & qs & tl & -> & _)]; [done|].
  by destruct qs.
Qed.

Lemma Pending_nonempty ts : Pending ts -> ts <> [].
Proof.
  intros (tones & anim & -> & _ & Hs%Stepping_nonempty).
  destruct tones; [done|done].
Qed.

(** The steps of an animation fire in the order in which they were
    created. *)
Lemma Stepping_head k t l2 l1 :
  Stepping (k ++ t :: l2) ->
  Forall (fun y => t_at t < t_at y) l1 -> (forall y, y ∈ k -> y ∈ l1) ->
  k = [].
Proof.
  intros Hstep Hl1 Hk. destruct k as [|h k]; [done|]. exfalso.
  assert (t_at t < t_at h) as Hlt.
  { rewrite Forall_forall in Hl1. apply Hl1, Hk. by left. }
  destruct Hstep as [(tf & alg & Heq & _)|(Hok & _)].
  - destruct k; simplify_eq/=.
  - destruct (Hok 0%nat (S (length k)) h t) as [Hle _]; [lia|done| |lia].
    simpl. by rewrite lookup_app_r, Nat.sub_diag by lia.
Qed.

(** One firing: the timer that fires was created after tones only, and
    the invariant of the timers survives. *)
Lemma TimersInv_fire a :
  TimersInv a -> timers a <> [] ->
  exists t pre rest,
    fireNext a = Some (t, fire a t) /\
    timers a = pre ++ t :: rest /\
    Forall (fun y => t_cb y = ToneTick) pre /\
    timers (advance t a) = pre ++ rest /\
    (isLastPath (t_cb t) -> rest = []) /\
    TimersInv (fire a t).
Proof.
  intros [Hnd Hfresh Hidle Hbusy] Hne.
  destruct (fireNext_split a Hne Hnd) as (t & l1 & l2 & Hts & Hfire & Hadv & H1 & H2).
  destruct (fire_spawn a t) as (Hsp & Hnid & Han). rewrite Hadv in Hsp.
  rewrite Hts in Hnd, Hfresh.
  pose proof (NoDup_delete_id _ _ _ Hnd) as Hnd'.
  assert (Forall (fun y => (t_id y < nextId a)%nat) (l1 ++ l2)) as Hfresh'.
  { apply Forall_app in Hfresh as [? [_ ?]%Forall_cons]. by apply Forall_app. }
  destruct (isAnimating a) eqn:Hanim.
  - destruct (Hbusy eq_refl) as (tones & anim & Heq & Htones & Hstep).
    assert ((l1 = tones /\ anim = t :: l2) \/
            (exists k, tones = l1 ++ t :: k /\ l2 = k ++ anim)) as Hcases.
    { rewrite Hts in Heq.
      apply app_eq_inv in Heq as [(k & Hl1 & Hanim')|(k & Htn & Hl2)].
      - assert (k = []) as ->.
        { apply (Stepping_head k t l2 l1); [by rewrite <- Hanim'|done|].
          intros y Hy. rewrite Hl1. apply elem_of_app. by right. }
        rewrite app_nil_r in Hl1. by left.
      - destruct k as [|t' k].
        + rewrite app_nil_r in Htn. simpl in Hl2. by left.
        + injection Hl2 as Ht1 Ht2. subst t'. right. eauto. }
    clear Heq. destruct Hcases as [[Hl1 Hanim']|(k & Htn & Hl2)].
    + (* a step of the animation *)
      subst l1 anim.
      exists t, tones, l2. split_and!; try done.
      { destruct Hstep as [(tf & alg & Heq & Hcb)|(Hok & qs & tl & Heq & Hq & Hlast)].
        - injection Heq as Ht1 Ht2. done.
        - intros Hlp. destruct qs as [|q qs]; [by injection Heq as _ Ht2|].
          injection Heq as Ht1 Ht2. subst q l2. apply Forall_cons in Hq as [Hq _].
          destruct (t_cb t); done. }
      destruct Hstep as [(tf & alg & Heq & Hcb)|(Hok & qs & tl & Heq & Hq & Hlast)].
      * injection Heq as Ht1 Ht2. subst tf l2. rewrite Hcb in Hsp, Hnid, Han.
        rewrite app_nil_r in Hsp, Hnd', Hfresh'.
        split.
        -- rewrite Hsp. by apply NoDup_fresh_id.
        -- rewrite Hsp, Hnid. apply Forall_app. split.
           ++ eapply Forall_impl; [exact Hfresh'|]. simpl. lia.
           ++ apply Forall_singleton. simpl. lia.
        -- intros _. rewrite Hsp. apply Forall_app. split; [done|].
           by apply Forall_singleton.
        -- intros Hf. congruence.
      * destruct qs as [|q qs].
        -- injection Heq as Ht1 Ht2. subst tl l2.
           destruct (t_cb t) as [| KI i len d alg | |] eqn:Hcb; try done.
           simpl in Hlast. rewrite bool_decide_eq_true_2 in Hsp, Hnid by done.
           rewrite app_nil_r in Hsp, Hnd', Hfresh'.
           split.
           ++ rewrite Hsp. by apply NoDup_fresh_id.
           ++ rewrite Hsp, Hnid. apply Forall_app. split.
              ** eapply Forall_impl; [exact Hfresh'|]. simpl. lia.
              ** apply Forall_singleton. simpl. lia.
           ++ intros Hf. congruence.
           ++ intros _. rewrite Hsp. eexists tones, _.
              split; [done|]. split; [done|]. left. eauto.
        -- injection Heq as Ht1 Ht2. subst q l2.
           apply Forall_cons in Hq as [Hq Hqs].
           assert (timers (fire a t) = tones ++ qs ++ [tl] /\
                   nextId (fire a t) = nextId a /\
                   isAnimating (fire a t) = true) as (Hsp' & Hnid' & Han').
           { destruct (t_cb t) as [| KI i len d alg | |] eqn:Hcb; try done.
             - by rewrite app_nil_r in Hsp; rewrite Nat.add_0_r in Hnid.
             - simpl in Hq. rewrite bool_decide_eq_false_2 in Hsp, Hnid by done.
               by rewrite app_nil_r in Hsp; rewrite Nat.add_0_r in Hnid.
             - by rewrite app_nil_r in Hsp; rewrite Nat.add_0_r in Hnid. }
           split.
           ++ by rewrite Hsp'.
           ++ by rewrite Hsp', Hnid'.
           ++ intros Hf. congruence.
           ++ intros _. rewrite Hsp'. exists tones, (qs ++ [tl]).
              split; [done|]. split; [done|]. right.
              split; [by apply (timersOk_cons t)|eauto].
    + (* a tone of an earlier solve *)
      subst tones l2. apply Forall_app in Htones as [Hl1 [Ht Hk]%Forall_cons].
      rewrite Ht in Hsp, Hnid, Han.
      rewrite app_nil_r in Hsp. rewrite Nat.add_0_r in Hnid.
      exists t, l1, (k ++ anim). split_and!; try done.
      { rewrite Ht. done. }
      split.
      * by rewrite Hsp.
      * by rewrite Hsp, Hnid.
      * intros Hf. congruence.
      * intros _. rewrite Hsp, app_assoc. exists (l1 ++ k), anim.
        split; [done|]. split; [by apply Forall_app|done].
  - specialize (Hidle eq_refl). rewrite Hts in Hidle.
    apply Forall_app in Hidle as [Hl1 [Ht Hl2]%Forall_cons].
    rewrite Ht in Hsp, Hnid, Han.
    rewrite app_nil_r in Hsp. rewrite Nat.add_0_r in Hnid.
    exists t, l1, l2. split_and!; try done.
    { rewrite Ht. done. }
    split.
    + by rewrite Hsp.
    + by rewrite Hsp, Hnid.
    + intros _. rewrite Hsp. by apply Forall_app.
    + intros Hf. congruence.
Qed.

Lemma Forall_filter_keep {A} (P Q : A -> Prop) `{forall x, Decision (P x)}
    (l : list A) :
  Forall Q l -> Forall Q (filter P l).
Proof.
  intros Hl. apply Forall_forall. intros x [_ Hx]%list_elem_of_filter.
  rewrite Forall_forall in Hl. by apply Hl.
Qed.

Lemma TimersInv_same a a' :
  timers a' = timers a -> nextId a' = nextId a ->
  isAnimating a' = isAnimating a -> TimersInv a -> TimersInv a'.
Proof.
  intros Ht Hn Ha [Hnd Hfresh Hidle Hbusy].
  split; rewrite ?Ht, ?Hn, ?Ha; done.
Qed.

(** Cancelling timers when no animation runs. *)
Lemma TimersInv_cancel (P : Timer -> Prop) `{forall t, Decision (P t)} a a' :
  timers a' = filter P (timers a) -> nextId a' = nextId a ->
  isAnimating a = false -> isAnimating a' = false ->
  TimersInv a -> TimersInv a'.
Proof.
  intros Ht Hn Ha Ha' [Hnd Hfresh Hidle Hbusy].
  split; rewrite ?Ht, ?Hn, ?Ha'.
  - eapply sublist_NoDup; [exact Hnd|]. apply fmap_sublist, sublist_filter.
  - by apply Forall_filter_keep.
  - intros _. apply Forall_filter_keep. by apply Hidle.
  - done.
Qed.

(** Starting an animation while only tones are pending. *)
Lemma startAnimation_timers p vo a :
  p <> [] -> NoDup (t_id <$> timers a) ->
  Forall (fun t => (t_id t < nextId a)%nat) (timers a) ->
  Forall (fun t => t_cb t = ToneTick) (timers a) ->
  TimersInv (startAnimation p vo a) /\
  isAnimating (startAnimation p vo a) = true /\
  grid (startAnimation p vo a) = grid a.
Proof.
  intros Hp Hnd Hfresh Htones.
  pose proof (startAnimation_state p vo a) as Hst. cbn zeta in Hst.
  rewrite Hst. cbn [timers isAnimating grid].
  split; [|done].
  pose proof (baseDelayOf_pos (speed a)) as Hd.
  set (d := baseDelayOf (speed a)) in *.
  set (KI := buildKeyToIndex (map posKey p)) in *.
  set (VT := imap (fun i pos => mkTimer (nextId a + i) (clock a + d * Z.of_nat i)
                                  (VisitedTick pos i (length vo))) vo).
  set (PT := imap (fun i pos =>
                     mkTimer (nextId a + length vo + i)
                       (clock a + (d * Z.of_nat (length vo) + d * Z.of_nat i))
                       (PathTick KI i (length p) d (algorithm a))) p).
  assert (timersOk (VT ++ PT)) as Hok.
  { apply (schedule_timersOk d (clock a) (nextId a) vo p
             (fun i pos => VisitedTick pos i (length vo))
             (fun i pos => PathTick KI i (length p) d (algorithm a))). lia. }
  assert (forall t, t ∈ VT ++ PT ->
            (nextId a <= t_id t < nextId a + length vo + length p)%nat) as Hids.
  { intros t [Ht|Ht]%elem_of_app;
      apply elem_of_lookup_imap in Ht as (i & pos & -> & Hi%lookup_lt_Some);
      simpl; lia. }
  rewrite <- (app_assoc (timers a) VT PT).
  split; cbn [timers nextId isAnimating].
  - rewrite fmap_app. apply NoDup_app. split_and!; [done| |].
    + intros x (t & -> & Ht)%list_elem_of_fmap (t' & Heq & Ht')%list_elem_of_fmap.
      rewrite Forall_forall in Hfresh. specialize (Hfresh _ Ht).
      specialize (Hids _ Ht'). lia.
    + apply NoDup_alt. intros i j x Hi Hj.
      apply list_lookup_fmap_Some in Hi as (ti & -> & Hi).
      apply list_lookup_fmap_Some in Hj as (tj & Heq & Hj).
      destruct (decide (i = j)) as [|Hne]; [done|]. exfalso.
      destruct (decide (i < j)%nat).
      * destruct (Hok i j ti tj) as [_ ?]; [lia|done..].
      * destruct (Hok j i tj ti) as [_ ?]; [lia|done..|]. congruence.
  - apply Forall_app. split.
    + eapply Forall_impl; [exact Hfresh|]. simpl. lia.
    + apply Forall_forall. intros t Ht. specialize (Hids _ Ht). lia.
  - done.
  - intros _. exists (timers a), (VT ++ PT). split; [done|]. split; [done|].
    right. split; [done|].
    destruct (exists_last Hp) as (p' & x & Hpx).
    assert (length p = S (length p')) as Hlenp
      by (rewrite Hpx, length_app; simpl; lia).
    unfold PT. generalize KI. intros KI'.
    revert Hlenp. generalize (length p). intros n Hn.
    rewrite Hpx, imap_app, app_assoc. cbn [imap].
    eexists _, _. split; [reflexivity|]. split.
    + apply Forall_app. split; apply Forall_forall.
      * intros t (i & pos & -> & _)%elem_of_lookup_imap. done.
      * intros t (i & pos & -> & Hi%lookup_lt_Some)%elem_of_lookup_imap. simpl.
        lia.
    + simpl. lia.
Qed.

(** ** Every event keeps the invariant *)

Lemma solver_finds R C alg g :
  MazeInv R C g ->
  exists p vo, solverOf alg g = Ok (mkSolveResult (Some p) vo).
Proof.
  intros [Hwf Hdims Hcs Hce Hs He Hreach].
  destruct (endpoints_found g (mkPosition 1 0) (mkPosition (2 * R - 1) (2 * C)))
    as (Hfind & Hne & Hpass); try done.
  destruct alg; simpl.
  - destruct (bfs_correct g _ _ Hwf Hne Hpass Hfind)
      as ([p vo] & Hrun & [(p' & Hp & _)|(_ & Hnr & _)]); [|done].
    simpl in Hp. subst p. eauto.
  - destruct (dfs_correct g _ _ Hwf Hne Hpass Hfind)
      as ([p vo] & Hrun & [(p' & Hp & _)|(_ & Hnr & _)]); [|done].
    simpl in Hp. subst p. eauto.
Qed.

Lemma setApp_same c : setApp (app c) c = c.
Proof. by destruct c. Qed.

Lemma handleSolve_busy a : isAnimating a = true -> handleSolve a = (a, Ok ()).
Proof. intros Hanim. unfold handleSolve. by rewrite Hanim. Qed.

Lemma solve_inv c :
  AppInv c ->
  (solve c).2 = Ok () /\ AppInv (solve c).1 /\
  isAnimating (app (solve c).1) = true.
Proof.
  intros Hinv. pose proof Hinv as [Hr Hc Hmaze Htm].
  unfold solve. cbn [fst snd].
  destruct (isAnimating (app c)) eqn:Hanim.
  - rewrite (handleSolve_busy _ Hanim). cbn [fst snd]. rewrite setApp_same.
    by split_and!.
  - destruct (solver_finds _ _ (algorithm (app c)) _ Hmaze) as (p & vo & Hsolve).
    rewrite (handleSolve_found _ p vo Hanim Hsolve). cbn [fst snd].
    set (a' := mkApp _ _ _ _ _ _ _ _ _ _ _ _).
    assert (TimersInv a') as [Hnd Hfresh Hidle _].
    { apply (TimersInv_cancel (fun t => t_id t ∉ timeoutsRef (app c)) (app c));
        done. }
    destruct (startAnimation_timers p vo a'
                (solver_path_nonempty _ _ _ _ Hsolve) Hnd Hfresh (Hidle eq_refl))
      as (Hpend & Han & Hgrid).
    split_and!; [done| |done].
    split; cbn [app mazeRows mazeCols setApp]; try done.
    rewrite Hgrid. unfold a'. cbn [grid].
    apply MazeInv_mapGrid; [apply keepsMaze_clearCell|done].
Qed.

Lemma clear_inv c :
  AppInv c -> (clear c).2 = Ok () /\ AppInv (clear c).1.
Proof.
  intros Hinv. pose proof Hinv as [Hr Hc Hmaze Htm].
  unfold clear, clearPath. cbn [fst snd].
  split; [done|].
  destruct (isAnimating (app c)) eqn:Hanim.
  - by rewrite setApp_same.
  - split; cbn [app mazeRows mazeCols setApp]; try done.
    + apply MazeInv_mapGrid; [apply keepsMaze_clearCell|done].
    + by apply (TimersInv_cancel (fun t => t_id t ∉ timeoutsRef (app c)) (app c)).
Qed.

Lemma regenerateMaze_inv rnd c :
  AppInv c -> (regenerateMaze rnd c).2 = Ok () /\ AppInv (regenerateMaze rnd c).1.
Proof.
  intros Hinv. pose proof Hinv as [Hr Hc Hmaze Htm].
  unfold regenerateMaze.
  destruct (isAnimating (app c)) eqn:Hanim; [by split|].
  fold (clamp (mazeRows c)) (clamp (mazeCols c)).
  destruct (MazeInv_generated rnd (mazeRows c) (mazeCols c))
    as (g & Hgen & _ & Hgm).
  rewrite Hgen. cbn [fst snd]. split; [done|].
  split; cbn [app mazeRows mazeCols]; try done; try apply clamp_range.
  by apply (TimersInv_cancel (fun t => t_id t ∉ timeoutsRef (app c)) (app c)).
Qed.

Lemma onMazeSizeChange_inv rnd rows cols c :
  AppInv c ->
  (onMazeSizeChange rnd rows cols c).2 = Ok () /\
  AppInv (onMazeSizeChange rnd rows cols c).1.
Proof.
  intros Hinv. pose proof Hinv as [Hr Hc Hmaze Htm].
  unfold onMazeSizeChange.
  destruct (isAnimating (app c)) eqn:Hanim; [by split|].
  fold (clamp rows) (clamp cols).
  destruct (MazeInv_generated rnd rows cols) as (g & Hgen & _ & Hgm).
  rewrite Hgen. cbn [fst snd]. split; [done|].
  split; cbn [app mazeRows mazeCols]; try done; try apply clamp_range.
  by apply (TimersInv_same (app c)).
Qed.

Lemma setSpeed_inv s c : AppInv c -> AppInv (setApp (setSpeed s (app c)) c).
Proof.
  intros [Hr Hc Hmaze Htm].
  split; cbn [app mazeRows mazeCols setApp]; try done.
  by apply (TimersInv_same (app c)).
Qed.

Lemma handler_inv rnd e c :
  AppInv c ->
  h_outcome (handler rnd e c) = Ok () /\ AppInv (h_state (handler rnd e c)).
Proof.
  intros Hinv. unfold handler, prevented.
  repeat case_match; cbn [h_outcome h_state];
    auto using setSpeed_inv;
    first [by destruct (solve_inv c Hinv) as (? & ? & _)
          |by apply regenerateMaze_inv
          |by apply clear_inv].
Qed.

Lemma act_inv x c : AppInv c -> (act x c).2 = Ok () /\ AppInv (act x c).1.
Proof.
  intros Hinv. destruct x; cbn [act].
  - destruct (isAnimating (app c)); [done|].
    by destruct (solve_inv c Hinv) as (? & ? & _).
  - destruct (isAnimating (app c)); [done|]. by apply regenerateMaze_inv.
  - destruct (isAnimating (app c)); [done|]. by apply clear_inv.
  - destruct (isAnimating (app c)); [done|]. by apply onMazeSizeChange_inv.
  - destruct (isAnimating (app c)) eqn:Hanim; [done|]. split; [done|].
    destruct Hinv as [Hr Hc Hmaze Htm].
    split; cbn [app mazeRows mazeCols setApp]; try done.
    by apply (TimersInv_same (app c)).
  - destruct (isAnimating (app c)) eqn:Hanim; [done|]. split; [done|].
    destruct Hinv as [Hr Hc Hmaze Htm]. by split.
  - destruct (isAnimating (app c)) eqn:Hanim; [done|]. split; [done|].
    by apply setSpeed_inv.
  - by apply handler_inv.
  - pose proof Hinv as [Hr Hc Hmaze Htm].
    destruct (timers (app c)) as [|t0 ts] eqn:Hts.
    { unfold fireNext. rewrite Hts. by split. }
    destruct (TimersInv_fire (app c) Htm) as (t & _ & _ & Hfire & _ & _ & _ & _ & Htm');
      [by rewrite Hts|].
    rewrite Hfire. cbn [fst snd]. split; [done|].
    split; cbn [app mazeRows mazeCols setApp]; try done.
    by apply MazeInv_fire.
  - split; [done|].
    destruct Hinv as [Hr Hc Hmaze Htm].
    split; cbn [app mazeRows mazeCols setApp]; try done.
    by apply (TimersInv_same (app c)).
Qed.

Lemma run_inv xs : forall c,
  AppInv c -> (run xs c).2 = Ok () /\ AppInv (run xs c).1.
Proof.
  induction xs as [|x xs IH]; intros c Hinv; [done|].
  cbn [run]. destruct (act_inv x c Hinv) as [Hok Hinv'].
  destruct (act x c) as [c' o]. cbn [fst snd] in Hok, Hinv'. subst o.
  by apply IH.
Qed.

Lemma mount_inv rnd now id0 :
  exists c0, mount rnd now id0 = Ok c0 /\ AppInv c0.
Proof.
  destruct (MazeInv_generated rnd 25 25) as (g & _ & Hgen & Hinv).
  unfold mount. rewrite Hgen. cbn [mbind Outcome_bind].
  eexists. split; [done|]. split; cbn; try done.
  split; cbn; try done. apply NoDup_nil_2.
Qed.

(** X17: whatever happens to the mounted component (clicks, key presses,
    timers firing, time passing, with any random choices), no event
    handler throws, and the grid stays a well-formed maze of
    [2 * mazeRows + 1] by [2 * mazeCols + 1] cells with [mazeRows] and
    [mazeCols] between 5 and 50, exactly one start at [(1, 0)], exactly
    one end at [(2 * mazeRows - 1, 2 * mazeCols)], and the end reachable
    from the start through non-wall cells. *)
Theorem component_keeps_a_maze rnd now id0 xs :
  exists c0,
    mount rnd now id0 = Ok c0 /\
    (run xs c0).2 = Ok () /\
    let c := (run xs c0).1 in
    let g := grid (app c) in
    5 <= mazeRows c <= 50 /\ 5 <= mazeCols c <= 50 /\
    Z.of_nat (length g) = 2 * mazeRows c + 1 /\
    (forall rowl, rowl ∈ g -> Z.of_nat (length rowl) = 2 * mazeCols c + 1) /\
    wfGrid g = true /\
    countType Start g = 1%nat /\ countType End_ g = 1%nat /\
    typeAt g 1 0 = Some Start /\
    typeAt g (2 * mazeRows c - 1) (2 * mazeCols c) = Some End_ /\
    reachable g (mkPosition 1 0)
      (mkPosition (2 * mazeRows c - 1) (2 * mazeCols c)).
Proof.
  destruct (mount_inv rnd now id0) as (c0 & Hmount & Hinv0).
  destruct (run_inv xs c0 Hinv0) as [Hok [Hr Hc [Hwf [Hlen Hall] Hcs Hce Hs He Hreach] _]].
  exists c0. cbn zeta. do 4 (split; [done|]).
  split; [rewrite Hlen; lia|]. split; [|by split_and!].
  intros rowl Hrow. rewrite Forall_forall in Hall.
  rewrite (Hall _ Hrow). lia.
Qed.

(** X18: in every state the mounted component can reach, the timers
    pending while no animation runs are second tones of [playSolveDone]
    only (they change nothing when they fire), the solver finds a path
    on the current grid, and [handleSolve] returns normally with an
    animation running afterwards: the status [No path found] is never
    shown. *)
Theorem solve_always_finds_a_path rnd now id0 xs :
  exists c0,
    mount rnd now id0 = Ok c0 /\
    let a := app (run xs c0).1 in
    (isAnimating a = false ->
     Forall (fun t => t_cb t = ToneTick /\ fire a t = advance t a) (timers a)) /\
    (exists p vo,
       solverOf (algorithm a) (grid a) = Ok (mkSolveResult (Some p) vo)) /\
    (handleSolve a).2 = Ok () /\
    isAnimating (handleSolve a).1 = true.
Proof.
  destruct (mount_inv rnd now id0) as (c0 & Hmount & Hinv0).
  destruct (run_inv xs c0 Hinv0) as [_ Hinv].
  exists c0. split; [done|]. cbn zeta.
  destruct (solve_inv _ Hinv) as (Hok & _ & Hanim).
  split_and!; [| |done..].
  - intros Hidle. eapply Forall_impl; [apply (ti_idle _ (ai_timers _ Hinv) Hidle)|].
    intros t Ht. split; [done|]. unfold fire. by rewrite Ht.
  - apply (solver_finds _ _ _ _ (ai_maze _ Hinv)).
Qed.

Lemma runLoop_idle n a : timers a = [] -> runLoop n a = ([], a).
Proof. intros Ht. destruct n; [done|]. simpl. unfold fireNext. by rewrite Ht. Qed.

Lemma firingsOf_pos cb : (0 < firingsOf cb)%nat.
Proof. destruct cb; simpl; try case_bool_decide; lia. Qed.

Lemma firingsLeft_nil a : firingsLeft a = 0%nat -> timers a = [].
Proof.
  unfold firingsLeft. destruct (timers a) as [|t ts]; [done|].
  simpl. pose proof (firingsOf_pos (t_cb t)). lia.
Qed.

Lemma sum_list_app (l k : list nat) :
  sum_list (l ++ k) = (sum_list l + sum_list k)%nat.
Proof. induction l as [|x l IH]; simpl; [done|]. rewrite IH. lia. Qed.

(** Each firing takes one from the firings that are left. *)
Lemma firingsLeft_fire a :
  TimersInv a -> timers a <> [] ->
  exists t,
    fireNext a = Some (t, fire a t) /\ TimersInv (fire a t) /\
    firingsLeft a = S (firingsLeft (fire a t)).
Proof.
  intros Hinv Hne.
  destruct (TimersInv_fire a Hinv Hne)
    as (t & pre & rest & Hfire & Hts & _ & Hadv & _ & Hinv').
  exists t. split; [done|]. split; [done|].
  destruct (fire_spawn a t) as (Hsp & _). rewrite Hadv in Hsp.
  unfold firingsLeft. rewrite Hsp, Hts.
  rewrite !fmap_app, fmap_cons, !sum_list_app. cbn [sum_list].
  destruct (t_cb t); simpl; try case_bool_decide; simpl; lia.
Qed.

Lemma run_to_end n : forall a,
  TimersInv a -> firingsLeft a = n ->
  let final := (runLoop n a).2 in
  TimersInv final /\ isAnimating final = false /\ timers final = [] /\
  forall k, (k < n)%nat -> timers (runLoop k a).2 <> [].
Proof.
  induction n as [|n IH]; intros a Hinv Hn; cbn zeta.
  - apply firingsLeft_nil in Hn. cbn [runLoop snd]. split_and!; [done| |done|lia].
    destruct (isAnimating a) eqn:Hanim; [|done].
    by destruct (Pending_nonempty _ (ti_busy _ Hinv Hanim)).
  - assert (timers a <> []) as Hne.
    { intros Ht. unfold firingsLeft in Hn. by rewrite Ht in Hn. }
    destruct (firingsLeft_fire a Hinv Hne) as (t & Hfire & Hinv' & Hleft).
    rewrite (runLoop_S _ _ _ _ Hfire). cbn [snd].
    destruct (IH (fire a t) Hinv') as (? & ? & ? & Hk); [lia|].
    split_and!; try done.
    intros [|k] Hlt; [done|].
    rewrite (runLoop_S _ _ _ _ Hfire). cbn [snd]. apply Hk. lia.
Qed.

Lemma firingsLeft_bound a :
  TimersInv a -> (firingsLeft a <= length (timers a) + 2)%nat.
Proof.
  intros [_ _ Hidle Hbusy]. unfold firingsLeft.
  assert (forall ts : list Timer, Forall (fun t => quiet (t_cb t)) ts ->
            sum_list ((fun t => firingsOf (t_cb t)) <$> ts) = length ts) as Hq.
  { induction 1 as [|t ts Ht _ IH]; [done|].
    rewrite fmap_cons. cbn [sum_list length]. rewrite IH.
    destruct (t_cb t); simpl in *; try done.
    by rewrite bool_decide_eq_false_2. }
  assert (forall ts : list Timer, Forall (fun t => t_cb t = ToneTick) ts ->
            Forall (fun t => quiet (t_cb t)) ts) as Htq.
  { intros ts Hts. eapply Forall_impl; [exact Hts|]. by intros t ->. }
  destruct (isAnimating a).
  - destruct (Hbusy eq_refl) as (tones & anim & -> & Htones & Hstep).
    rewrite fmap_app, sum_list_app, length_app, (Hq _ (Htq _ Htones)).
    destruct Hstep as [(t & alg & -> & Hcb)|(_ & qs & tl & -> & Hqs & Hl)].
    + simpl. rewrite Hcb. simpl. lia.
    + rewrite fmap_app, sum_list_app, length_app, (Hq _ Hqs). simpl.
      destruct (t_cb tl); simpl in *; try done.
      rewrite bool_decide_eq_true_2 by done. lia.
  - rewrite (Hq _ (Htq _ (Hidle eq_refl))). lia.
Qed.

Lemma firingsLeft_ge a : (length (timers a) <= firingsLeft a)%nat.
Proof.
  unfold firingsLeft. induction (timers a) as [|t ts IH]; [done|].
  rewrite fmap_cons. cbn [sum_list length].
  pose proof (firingsOf_pos (t_cb t)). unfold id in *. lia.
Qed.

(** X19: every animation ends: in every state the mounted component can
    reach, the pending timers and the timers they lead to (the finalize
    step after the last path step, the second tone after the finalize
    step) are at most two more than are pending; when that many timers
    have fired, and not before, no timer is pending, and [isAnimating]
    is then false. *)
Theorem animation_always_ends rnd now id0 xs :
  exists c0,
    mount rnd now id0 = Ok c0 /\
    let a := app (run xs c0).1 in
    let n := firingsLeft a in
    let final := (runLoop n a).2 in
    (length (timers a) <= n <= length (timers a) + 2)%nat /\
    isAnimating final = false /\ timers final = [] /\
    forall k, (k < n)%nat -> timers (runLoop k a).2 <> [].
Proof.
  destruct (mount_inv rnd now id0) as (c0 & Hmount & Hinv0).
  destruct (run_inv xs c0 Hinv0) as [_ [_ _ _ Htm]].
  exists c0. split; [done|]. cbn zeta.
  destruct (run_to_end _ _ Htm eq_refl) as (_ & Hf & Ht & Hk).
  split_and!; try done.
  - apply firingsLeft_ge.
  - by apply firingsLeft_bound.
Qed.

(** * Event handlers *)

(** ** Keyboard shortcuts *)

Lemma clearPath_busy a : isAnimating a = true -> clearPath a = a.
Proof. intros Hanim. unfold clearPath. by rewrite Hanim. Qed.

Lemma regenerateMaze_busy rnd c :
  isAnimating (app c) = true -> regenerateMaze rnd c = (c, Ok ()).
Proof. intros Hanim. unfold regenerateMaze. by rewrite Hanim. Qed.

(** X20: a key pressed while the user types in an input, a textarea, a
    select or an editable element changes nothing and is not prevented;
    and while an animation is running no key changes anything but the
    speed: the shortcuts for solving, for a new maze and for clearing
    are ignored. *)
Theorem keys_ignored rnd e c :
  (isTyping e = true -> handler rnd e c = mkHandled c false (Ok ())) /\
  (isAnimating (app c) = true ->
   h_outcome (handler rnd e c) = Ok () /\
   (h_state (handler rnd e c) = c \/
    exists s, h_state (handler rnd e c) = setApp (setSpeed s (app c)) c)).
Proof.
  split.
  - intros Ht. unfold handler. by rewrite Ht.
  - intros Hanim. unfold handler, prevented, solve, clear.
    rewrite (handleSolve_busy _ Hanim), (clearPath_busy _ Hanim),
      (regenerateMaze_busy _ _ Hanim), setApp_same.
    repeat case_match; cbn [h_outcome h_state fst snd];
      rewrite ?setApp_same;
      (split; [done|]); first [by left|right; by eexists].
Qed.

(** ** New mazes *)

(** X21: when no animation is running, [regenerateMaze] and
    [onMazeSizeChange] return normally; they leave [mazeRows] and
    [mazeCols] clamped to [5 .. 50], install the maze that the generator
    builds for the sizes requested (clamping them first changes nothing,
    the generator clamps again), and reset the path length and the
    visited count; [regenerateMaze] also forgets the tracked timers. *)
Theorem new_maze_installed rnd rows cols c :
  isAnimating (app c) = false ->
  let c1 := (regenerateMaze rnd c).1 in
  let c2 := (onMazeSizeChange rnd rows cols c).1 in
  ((regenerateMaze rnd c).2 = Ok () /\
   mazeRows c1 = Z.min 50 (Z.max 5 (mazeRows c)) /\
   mazeCols c1 = Z.min 50 (Z.max 5 (mazeCols c)) /\
   generatePerfectMaze rnd (mazeRows c) (mazeCols c) = Ok (grid (app c1)) /\
   status (app c1) = "New maze generated" /\
   pathLength (app c1) = None /\ visitedCount (app c1) = None /\
   timeoutsRef (app c1) = []) /\
  ((onMazeSizeChange rnd rows cols c).2 = Ok () /\
   mazeRows c2 = Z.min 50 (Z.max 5 rows) /\
   mazeCols c2 = Z.min 50 (Z.max 5 cols) /\
   generatePerfectMaze rnd rows cols = Ok (grid (app c2)) /\
   status (app c2) = "Maze size changed" /\
   pathLength (app c2) = None /\ visitedCount (app c2) = None).
Proof.
  intros Hanim. cbn zeta. unfold regenerateMaze, onMazeSizeChange.
  rewrite Hanim.
  fold (clamp (mazeRows c)) (clamp (mazeCols c)) (clamp rows) (clamp cols).
  destruct (MazeInv_generated rnd (mazeRows c) (mazeCols c))
    as (g1 & Hgen1 & Hgen1' & _).
  destruct (MazeInv_generated rnd rows cols) as (g2 & Hgen2 & Hgen2' & _).
  rewrite Hgen1, Hgen2, Hgen1', Hgen2'.
  destruct c as [[g0 alg sp stt pl vc anim tref tms clk nid vs] R C th].
  by split_and!.
Qed.

Lemma new_maze_installed_witness :
  let c := mkComponent
             (mkApp smallMaze Bfs Fast "Maze ready" None None false [] [] 0 0 ∅)
             3 70 Dark in
  let c1 := (regenerateMaze (fun k => k) c).1 in
  let c2 := (onMazeSizeChange (fun k => k) 50 50 c).1 in
  ((regenerateMaze (fun k => k) c).2 = Ok () /\
   mazeRows c1 = Z.min 50 (Z.max 5 (mazeRows c)) /\
   mazeCols c1 = Z.min 50 (Z.max 5 (mazeCols c)) /\
   generatePerfectMaze (fun k => k) (mazeRows c) (mazeCols c) =
     Ok (grid (app c1)) /\
   status (app c1) = "New maze generated" /\
   pathLength (app c1) = None /\ visitedCount (app c1) = None /\
   timeoutsRef (app c1) = []) /\
  ((onMazeSizeChange (fun k => k) 50 50 c).2 = Ok () /\
   mazeRows c2 = Z.min 50 (Z.max 5 50) /\
   mazeCols c2 = Z.min 50 (Z.max 5 50) /\
   generatePerfectMaze (fun k => k) 50 50 = Ok (grid (app c2)) /\
   status (app c2) = "Maze size changed" /\
   pathLength (app c2) = None /\ visitedCount (app c2) = None).
Proof.
  intros c. apply (new_maze_installed (fun k => k) 50 50 c). reflexivity.
Defined.

(** ** Exceptions of the solver *)

(** X22: [handleSolve] does not catch: when no animation is running and
    the solver throws, the exception leaves [handleSolve]; no timer is
    scheduled, the tracked timers have been cancelled, and [isAnimating]
    stays false. *)
Theorem handleSolve_throws a e :
  isAnimating a = false ->
  solverOf (algorithm a) (grid a) = Throw e ->
  (handleSolve a).2 = Throw e /\
  isAnimating (handleSolve a).1 = false /\
  nextId (handleSolve a).1 = nextId a /\
  timers (handleSolve a).1 =
    filter (fun t => t_id t ∉ timeoutsRef a) (timers a).
Proof.
  intros Hanim Hsolve.
  destruct a as [g alg sp stt pl vc anim tref tms clk nid vs].
  cbn [isAnimating algorithm grid] in Hanim, Hsolve. subst anim.
  cbv [handleSolve clearPath clearAnimations setStatus setGrid
       setVisitedCount setPathLength isAnimating algorithm grid timeoutsRef
       timers nextId visitedSet clock speed status pathLength visitedCount].
  rewrite mapGrid_id, Hsolve.
  cbv [fst snd isAnimating timers nextId timeoutsRef].
  by rewrite filter_no_ids.
Qed.

Lemma handleSolve_throws_witness :
  let a := mkApp (gridOf [[Passage; End_]]) Bfs Fast "Maze ready" None None
             false [] [] 0 0 ∅ in
  (handleSolve a).2 = Throw MissingEndpoint /\
  isAnimating (handleSolve a).1 = false /\
  nextId (handleSolve a).1 = nextId a /\
  timers (handleSolve a).1 =
    filter (fun t => t_id t ∉ timeoutsRef a) (timers a).
Proof.
  intros a. apply (handleSolve_throws a MissingEndpoint); reflexivity.
Defined.

(** ** Rendering *)

Lemma rowOk_positions r rowl : forall c0,
  rowOk r c0 rowl = true ->
  NoDup (cellPos <$> rowl) /\
  Forall (fun p => row p = r) (cellPos <$> rowl).
Proof.
  intros c0 Hok. split.
  - apply NoDup_alt. intros i j p Hi Hj.
    apply list_lookup_fmap_Some in Hi as (ci & -> & Hi).
    apply list_lookup_fmap_Some in Hj as (cj & Heq & Hj).
    destruct (rowOk_lookup _ _ _ _ _ Hok Hi) as [_ Hci].
    destruct (rowOk_lookup _ _ _ _ _ Hok Hj) as [_ Hcj].
    injection Heq as _ Hcol. lia.
  - apply Forall_forall. intros p (cell & -> & Hin)%list_elem_of_fmap.
    apply list_elem_of_lookup in Hin as [i Hi].
    by destruct (rowOk_lookup _ _ _ _ _ Hok Hi) as [? _].
Qed.

Lemma rowsOk_positions cols grid : forall r0,
  rowsOk cols r0 grid = true ->
  NoDup (cellPos <$> concat grid) /\
  Forall (fun p => r0 <= row p) (cellPos <$> concat grid).
Proof.
  induction grid as [|rowl grid IH]; intros r0 Hok.
  { split; [apply NoDup_nil_2|done]. }
  simpl in Hok. apply andb_true_iff in Hok as [[_ Hrow]%andb_true_iff Hrest].
  destruct (rowOk_positions _ _ _ Hrow) as [Hnd Hr].
  destruct (IH _ Hrest) as [Hnd' Hr'].
  simpl. rewrite fmap_app. split.
  - apply NoDup_app. split_and!; [done| |done].
    intros p Hp Hp'. rewrite Forall_forall in Hr, Hr'.
    specialize (Hr _ Hp). specialize (Hr' _ Hp'). lia.
  - apply Forall_app. split.
    + eapply Forall_impl; [exact Hr|]. simpl. lia.
    + eapply Forall_impl; [exact Hr'|]. simpl. lia.
Qed.

Lemma wfGrid_NoDup grid : wfGrid grid = true -> NoDup (positionsOf grid).
Proof. intros Hwf. by apply (rowsOk_positions _ _ _ Hwf). Qed.

Lemma renderGrid_concat grid :
  concat (renderGrid grid) = renderCell <$> concat grid.
Proof.
  unfold renderGrid. induction grid as [|rowl grid IH]; [done|].
  cbn [fmap list_fmap concat]. rewrite fmap_app. f_equal. exact IH.
Qed.

Lemma renderGrid_keys grid :
  div_key <$> concat (renderGrid grid) = posKey <$> positionsOf grid.
Proof.
  rewrite renderGrid_concat. unfold positionsOf.
  rewrite <- !list_fmap_compose. done.
Qed.

Lemma hasDims_concat grid R C :
  hasDims grid R C -> length (concat grid) = (R * C)%nat.
Proof.
  intros [<- Hall]. induction Hall as [|rowl grid Hrow Hall IH]; [done|].
  cbn [concat length]. rewrite length_app, IH, Hrow. lia.
Qed.

(** X23: in every state the mounted component can reach, the rendered
    grid has one [div] per cell, [(2 * mazeRows + 1) * (2 * mazeCols + 1)]
    of them, their React keys [posKey(cell)] are pairwise distinct (over
    the whole grid, hence within every row), and [grid[0].length], the
    number of CSS columns, is defined and equals [2 * mazeCols + 1]. *)
Theorem rendered_keys_distinct rnd now id0 xs :
  exists c0,
    mount rnd now id0 = Ok c0 /\
    let c := (run xs c0).1 in
    let divs := renderGrid (grid (app c)) in
    NoDup (div_key <$> concat divs) /\
    Forall (fun rowl => NoDup (div_key <$> rowl)) divs /\
    Z.of_nat (length (concat divs)) =
      (2 * mazeRows c + 1) * (2 * mazeCols c + 1) /\
    exists n, templateColumns (grid (app c)) = Ok n /\
      Z.of_nat n = 2 * mazeCols c + 1.
Proof.
  destruct (mount_inv rnd now id0) as (c0 & Hmount & Hinv0).
  destruct (run_inv xs c0 Hinv0) as [_ [Hr Hc [Hwf Hdims _ _ _ _ _] _]].
  exists c0. split; [done|]. cbn zeta.
  set (g := grid (app (run xs c0).1)) in *.
  assert (NoDup (div_key <$> concat (renderGrid g))) as Hnd.
  { rewrite renderGrid_keys. apply NoDup_fmap_2; [|by apply wfGrid_NoDup].
    intros p q. apply posKey_inj. }
  split; [done|]. split.
  { clear -Hnd. induction (renderGrid g) as [|rowl divs IH]; [done|].
    cbn [concat] in Hnd. rewrite fmap_app in Hnd.
    apply NoDup_app in Hnd as (Hrow & _ & Hrest).
    constructor; [done|by apply IH]. }
  split.
  { rewrite renderGrid_concat, length_fmap, (hasDims_concat _ _ _ Hdims).
    lia. }
  destruct Hdims as [Hlen Hall].
  destruct g as [|row0 g']; [cbn in Hlen; lia|].
  exists (length row0). split; [done|].
  apply Forall_cons in Hall as [-> _]. lia.
Qed.

(** ** The animation part-way *)


(** Running [k + n] turns is running [k] turns and then [n] more. *)
Lemma runLoop_add k : forall n a,
  (runLoop (k + n) a).2 = (runLoop n (runLoop k a).2).2.
Proof.
  induction k as [|k IH]; intros n a; [done|].
  cbn [runLoop Nat.add]. destruct (fireNext a) as [[t a1]|] eqn:Hf.
  - specialize (IH n a1). destruct (runLoop k a1) as [l1 a2].
    destruct (runLoop (k + n) a1) as [l2 a3]. cbn [snd] in *. done.
  - cbn [snd]. destruct n as [|n]; [done|]. cbn [runLoop]. by rewrite Hf.
Qed.


(** ** Unmounting during an animation *)




(** ** The snake during the playback *)




(** * The order in which [bfs] visits *)

Section BfsDistance.
Variable grid : list (list Cell).
Variables start end_ : Position.
Hypothesis grid_wf : wfGrid grid = true.
Hypothesis grid_nonempty : grid <> [].

Lemma chain_walk parent d p :
  ChainInv grid start parent d -> is_Some (parent !! posKey p) ->
  exists l, connects grid start p l = true /\ length l = S (d p).
Proof.
  intros Hch Hp.
  destruct (followParents_chain grid start parent d Hch (S (d p)) p [] Hp)
    as (l & _ & Hlen & Hhead & Hlast & Hwalk); [lia|].
  exists (reverse l). split; [|by rewrite length_reverse].
  apply connects_spec. by rewrite head_reverse, last_reverse.
Qed.

Lemma distanceIs_unique p n m :
  distanceIs grid start p n -> distanceIs grid start p m -> n = m.
Proof.
  intros [(l & Hl & Hlen) Hmin] [(l' & Hl' & Hlen') Hmin'].
  specialize (Hmin _ Hl'). specialize (Hmin' _ Hl). lia.
Qed.

(** At the head of the loop the depth of every visited position, and
    of the position about to be dequeued, is its distance. *)
Lemma bfs_head_dist d lvl st p :
  BfsInv grid start end_ d lvl st ->
  closedBut grid (fun p => p ∈ s_order st)
    (fun p q => (d q <= S (d p))%nat) st start [] ->
  p ∈ s_order st \/ head (s_work st) = Some p ->
  distanceIs grid start p (d p).
Proof.
  intros Hinv Hcl Hp.
  pose proof Hinv as [Hch Hvis Hsplit Hlo Hhi Hsorted Hnoend].
  assert (p ∈ s_visited st) as Hpv.
  { apply Hsplit. destruct Hp as [Hp|Hp]; [by left|right].
    destruct (s_work st); [done|]. injection Hp as ->. by left. }
  split; [apply (chain_walk _ _ _ Hch); by apply Hvis|].
  intros l (Hwalk & Hhead & Hlast)%connects_spec.
  destruct (bfs_frontier grid start end_ d lvl st Hinv Hcl l p Hwalk Hhead Hlast)
    as [[_ Hd]|(w & Hin & Hd)]; [lia|].
  assert (d p <= d w)%nat; [|lia].
  destruct Hp as [Hp|Hp].
  - apply Hlo in Hp. apply Hhi in Hin. lia.
  - apply list_elem_of_lookup in Hin as [j Hj].
    apply (Hsorted 0%nat j); [lia| |done].
    destruct (s_work st); [done|]. exact Hp.
Qed.

Lemma foldl_bfsRelax_order cur ns : forall st,
  s_order (foldl (bfsRelax cur) st ns) = s_order st.
Proof.
  induction ns as [|n ns IH]; intros st; [done|].
  simpl. rewrite IH. unfold bfsRelax. by case_bool_decide.
Qed.

(** The loop of [bfs] appends the positions in the order of their
    distance from [start]. *)
Lemma bfsLoop_dist fuel : forall st d lvl,
  BfsInv grid start end_ d lvl st ->
  closedBut grid (fun p => p ∈ s_order st)
    (fun p q => (d q <= S (d p))%nat) st start [] ->
  (length (s_work st) + unvisited grid st <= fuel)%nat ->
  (forall i j p q, (i <= j)%nat -> s_order st !! i = Some p ->
     s_order st !! j = Some q -> (d p <= d q)%nat) ->
  exists st' d',
    bfsLoop fuel grid end_ st = Ok st' /\
    (forall i j p q, (i <= j)%nat -> s_order st' !! i = Some p ->
       s_order st' !! j = Some q -> (d' p <= d' q)%nat) /\
    (forall p, p ∈ s_order st' -> distanceIs grid start p (d' p)).
Proof.
  induction fuel as [|fuel IH]; intros st d lvl Hinv Hcl Hmu Hsort;
    destruct (s_work st) as [|cur q] eqn:Hw; simpl in Hmu; try lia.
  1,2: (exists st, d; split; [by apply bfsLoop_nil|]; split; [done|];
        intros p Hp; apply (bfs_head_dist d lvl st); auto).
  rewrite (bfsLoop_cons _ _ _ _ _ _ Hw). cbn zeta.
  pose proof Hinv as [Hch Hvis Hsplit Hlo Hhi Hsorted Hnoend].
  assert (cur ∈ s_work st) as Hcw by (rewrite Hw; by left).
  assert (head (s_work st) = Some cur) as Hhead by (by rewrite Hw).
  assert (forall i j p q, (i <= j)%nat ->
            (s_order st ++ [cur]) !! i = Some p ->
            (s_order st ++ [cur]) !! j = Some q -> (d p <= d q)%nat) as Hsort1.
  { intros i j p p' Hij Hi Hj.
    apply lookup_app_Some in Hj as [Hj|[Hlen Hj]].
    - pose proof (lookup_lt_Some _ _ _ Hj).
      rewrite lookup_app_l in Hi by lia. by apply (Hsort i j).
    - apply list_lookup_singleton_Some in Hj as [_ <-].
      apply lookup_app_Some in Hi as [Hi|[_ Hi]].
      + apply list_elem_of_lookup_2, Hlo in Hi. apply Hhi in Hcw. lia.
      + apply list_lookup_singleton_Some in Hi as [_ <-]. lia. }
  assert (forall p, p ∈ s_order st ++ [cur] -> distanceIs grid start p (d p))
    as Hdist1.
  { intros p [Hp| ->%list_elem_of_singleton]%elem_of_app;
      apply (bfs_head_dist d lvl st); auto. }
  destruct (samePos cur end_) eqn:Hsame.
  - eexists _, d. split; [done|]. by split.
  - assert (cur <> end_) as Hne
      by (intros Heq%samePos_spec; congruence).
    destruct (getNeighbors_Ok grid grid_wf grid_nonempty cur)
      as (ns & Hns & _ & Hmem).
    rewrite Hns. cbn [mbind Outcome_bind].
    set (st1 := mkSearch q (s_visited st) (s_parent st) (s_order st ++ [cur])).
    assert (BfsInv grid start end_ d (d cur) st1) as Hinv1.
    { pose proof (Hhi cur Hcw) as Hcl'.
      split; simpl; try done.
      - intros p. rewrite Hsplit, Hw, elem_of_app, list_elem_of_singleton,
          elem_of_cons. naive_solver.
      - intros p [Hp| ->%list_elem_of_singleton]%elem_of_app; [|done].
        apply Hlo in Hp. lia.
      - intros p Hp.
        assert (p ∈ s_work st) as Hpw by (rewrite Hw; by right).
        apply list_elem_of_lookup in Hp as [j Hj].
        pose proof (Hsorted 0%nat (S j) cur p) as Hs.
        rewrite Hw in Hs. specialize (Hs ltac:(lia) eq_refl Hj).
        apply Hhi in Hpw. lia.
      - intros i j p p' Hij Hi Hj.
        apply (Hsorted (S i) (S j)); [lia|by rewrite Hw..].
      - intros [Hin|Hin%list_elem_of_singleton]%elem_of_app; [done|].
        by apply Hne. }
    destruct (bfsRelax_fold grid start end_ grid_wf grid_nonempty
                (d cur) cur ns d st1 Hinv1)
      as (d' & Hinv' & Hcl' & Hmu'); try done.
    { simpl. apply elem_of_app. right. by left. }
    { intros p p' Hp Hadj Hpass. simpl in Hp.
      apply elem_of_app in Hp as [Hp| ->%list_elem_of_singleton].
      - destruct (Hcl p p' Hp Hadj Hpass) as [?|[_ Hin]]; [by left|].
        by apply elem_of_nil in Hin.
      - right. split; [done|]. by apply Hmem. }
    { apply Forall_forall. intros n Hn. by apply Hmem. }
    set (st2 := foldl (bfsRelax cur) st1 ns) in *.
    assert (s_order st2 = s_order st ++ [cur]) as Hord2
      by (unfold st2; by rewrite foldl_bfsRelax_order).
    assert (closedBut grid (fun p => p ∈ s_order st2)
              (fun p q => (d' q <= S (d' p))%nat) st2 start []) as Hcl2.
    { intros p p' Hp Hadj Hpass.
      destruct (Hcl' p p' Hp Hadj Hpass) as [?|[_ Hin]]; [by left|].
      by apply elem_of_nil in Hin. }
    assert (forall p, p ∈ s_order st ++ [cur] -> d' p = d p) as Hsame'.
    { intros p Hp. apply (distanceIs_unique p); [|by apply Hdist1].
      apply (bfs_head_dist d' (d cur) st2 p Hinv' Hcl2). left.
      by rewrite Hord2. }
    apply (IH _ d' (d cur)); [done|done| |].
    + rewrite (unvisited_same grid st st1) in Hmu' by done.
      simpl in Hmu'. lia.
    + rewrite Hord2. intros i j p p' Hij Hi Hj.
      rewrite !Hsame' by (by eapply list_elem_of_lookup_2).
      by apply (Hsort1 i j).
Qed.
End BfsDistance.

(** X26: on a grid with one start and one end cell, [bfs] visits the
    cells in the order of their distance from the start: every cell of
    [visitedOrder] has a distance (the number of steps of a shortest
    walk through non-wall cells), and a cell listed earlier is never
    farther from the start than a cell listed later. *)
Theorem bfs_visits_by_distance grid s e :
  wfGrid grid = true ->
  countType Start grid = 1%nat -> countType End_ grid = 1%nat ->
  typeAt grid (row s) (col s) = Some Start ->
  typeAt grid (row e) (col e) = Some End_ ->
  exists r,
    bfs grid = Ok r /\
    forall i j p q, (i <= j)%nat ->
      visitedOrder r !! i = Some p -> visitedOrder r !! j = Some q ->
      exists n m, distanceIs grid s p n /\ distanceIs grid s q m /\ (n <= m)%nat.
Proof.
  intros Hwf Hcs Hce Hs He.
  destruct (endpoints_found grid s e) as (Hfind & Hne & Hpass); try done.
  destruct (solver_facts Bfs grid s e Hwf Hcs Hce Hs He) as (r & Hr & _).
  cbn [solverOf] in Hr. exists r. split; [done|].
  rewrite (bfs_unfold _ _ _ Hfind) in Hr.
  rewrite (rowInMatrix_passable grid Hwf) in Hr by done. cbn [negb] in Hr.
  set (st0 := mkSearch [s] {[s]} {[posKey s := None]} []) in *.
  destruct (bfsLoop_dist grid s e Hwf Hne (S (length grid * gridCols grid)) st0
              (fun _ => 0%nat) 0%nat)
    as (st' & d' & Hrun & Hsort & Hdist).
  - split; simpl.
    + by apply chain_initial.
    + intros p. rewrite elem_of_singleton. split.
      * intros ->. rewrite lookup_singleton_eq. eauto.
      * intros [v Hv]. apply lookup_singleton_Some in Hv as [Hk _].
        symmetry. by apply posKey_inj.
    + intros p. rewrite elem_of_singleton, list_elem_of_singleton.
      split; [by right|]. intros [Hp|Hp]; [by apply elem_of_nil in Hp|done].
    + intros p Hp. by apply elem_of_nil in Hp.
    + intros p _. lia.
    + intros i j p q _ _ _. lia.
    + apply not_elem_of_nil.
  - intros p q Hp. by apply elem_of_nil in Hp.
  - simpl.
    assert (unvisited grid st0 < length grid * gridCols grid)%nat; [|lia].
    rewrite <- length_positionsOf by done. unfold unvisited.
    apply (length_filter_lt _ _ s).
    + by apply passable_positionsOf.
    + simpl. set_solver.
  - intros i j p q _ Hi. done.
  - rewrite Hrun in Hr. cbn [mbind Outcome_bind] in Hr.
    assert (visitedOrder r = s_order st') as ->.
    { unfold buildResult in Hr. destruct (s_parent st' !! posKey e).
      - destruct (followParents _ _ _ _); simpl in Hr; by simplify_eq.
      - by simplify_eq. }
    intros i j p q Hij Hi Hj. exists (d' p), (d' q).
    split_and!; [apply Hdist; by eapply list_elem_of_lookup_2..|].
    by apply (Hsort i j).
Qed.

Lemma bfs_visits_by_distance_witness :
  exists r,
    bfs smallMaze = Ok r /\
    forall i j p q, (i <= j)%nat ->
      visitedOrder r !! i = Some p -> visitedOrder r !! j = Some q ->
      exists n m, distanceIs smallMaze (mkPosition 1 0) p n /\
                  distanceIs smallMaze (mkPosition 1 0) q m /\ (n <= m)%nat.
Proof.
  apply (bfs_visits_by_distance smallMaze (mkPosition 1 0) (mkPosition 3 4));
    vm_compute; reflexivity.
Defined.

(** * Playing an animation while tones are pending *)

Lemma script_app l k : script (l ++ k) = script l ++ script k.
Proof. unfold script. apply bind_app. Qed.

Lemma script_cons t l :
  script (t :: l) =
  match t_cb t with
  | PathTick _ i len _ alg =>
      if bool_decide (i = len - 1)%nat
      then [t_cb t; FinalizeTick alg] else [t_cb t]
  | cb => [cb]
  end ++ script l.
Proof. done. Qed.

(** Firing a timer keeps what no callback touches. *)
Lemma runLoop_keeps n : forall a,
  algorithm (runLoop n a).2 = algorithm a /\
  speed (runLoop n a).2 = speed a /\
  pathLength (runLoop n a).2 = pathLength a /\
  visitedCount (runLoop n a).2 = visitedCount a /\
  timeoutsRef (runLoop n a).2 = timeoutsRef a.
Proof.
  induction n as [|n IH]; intros a; [done|].
  cbn [runLoop]. destruct (fireNext a) as [[t a']|] eqn:Hf; [|done].
  assert (a' = fire a t) as ->.
  { unfold fireNext in Hf. destruct (timers a); [done|]. by injection Hf as <- <-. }
  specialize (IH (fire a t)). destruct (runLoop n (fire a t)) as [log a2].
  cbn [snd] in *. destruct IH as (-> & -> & -> & -> & ->). apply fire_keeps.
Qed.

Lemma fire_status a t :
  status (fire a t) = statusAfter (t_cb t) (status a).
Proof.
  unfold fire. destruct a as [g alg sp stt pl vc anim tref tms clk nid vs].
  destruct (t_cb t); simpl; try case_bool_decide; done.
Qed.

Section Potential.
Context {St : Type} (view : App -> St) (eff : Callback -> St -> St).
Hypothesis view_fire : forall a t, view (fire a t) = eff (t_cb t) (view a).
Hypothesis eff_tone : forall s, eff ToneTick s = s.

Lemma script_tones tones :
  Forall (fun t => t_cb t = ToneTick) tones ->
  forall s, foldl (fun s cb => eff cb s) s (script tones) = s.
Proof.
  induction 1 as [|t ts Ht _ IH]; intros s; [done|].
  rewrite script_cons, Ht. simpl. by rewrite eff_tone.
Qed.

(** What the pending callbacks will have done, run in creation order,
    does not change when a timer fires. *)
Lemma potential_fire a t a' :
  TimersInv a -> fireNext a = Some (t, a') ->
  a' = fire a t /\ TimersInv a' /\ firingsLeft a = S (firingsLeft a') /\
  foldl (fun s cb => eff cb s) (view a') (script (timers a')) =
  foldl (fun s cb => eff cb s) (view a) (script (timers a)).
Proof.
  intros Hinv Hfire.
  assert (timers a <> []) as Hne.
  { intros Ht. unfold fireNext in Hfire. by rewrite Ht in Hfire. }
  destruct (TimersInv_fire a Hinv Hne)
    as (t1 & pre & rest & Hfire1 & Hts & Hpre & Hadv & Hlast & Hinv').
  rewrite Hfire in Hfire1. injection Hfire1 as <- ->.
  split; [done|]. split; [done|].
  destruct (firingsLeft_fire a Hinv Hne) as (t2 & Hfire2 & _ & Hleft).
  rewrite Hfire in Hfire2. injection Hfire2 as <-.
  split; [done|].
  destruct (fire_spawn a t) as (Hsp & _). rewrite Hadv in Hsp.
  rewrite Hsp, Hts, view_fire.
  rewrite (script_app pre (t :: rest)), script_cons, !foldl_app.
  rewrite (script_tones pre Hpre).
  destruct (t_cb t) as [pos i len|KI i len d alg|alg|] eqn:Hcb.
  - rewrite app_nil_r, script_app, foldl_app.
    by rewrite (script_tones pre Hpre).
  - simpl in Hlast. case_bool_decide as Hi.
    + rewrite (Hlast Hi), app_nil_r, script_app, foldl_app.
      rewrite (script_tones pre Hpre), script_cons. done.
    + rewrite app_nil_r, script_app, foldl_app.
      by rewrite (script_tones pre Hpre).
  - rewrite !script_app, !foldl_app, (script_tones pre Hpre).
    simpl. by rewrite eff_tone.
  - rewrite app_nil_r, script_app, foldl_app.
    by rewrite (script_tones pre Hpre).
Qed.

Lemma run_all n : forall a,
  TimersInv a -> firingsLeft a = n ->
  view (runLoop n a).2 =
  foldl (fun s cb => eff cb s) (view a) (script (timers a)).
Proof.
  induction n as [|n IH]; intros a Hinv Hn.
  - apply firingsLeft_nil in Hn. by rewrite Hn.
  - assert (timers a <> []) as Hne.
    { intros Ht. unfold firingsLeft in Hn. by rewrite Ht in Hn. }
    destruct (firingsLeft_fire a Hinv Hne) as (t & Hfire & _).
    destruct (potential_fire a t _ Hinv Hfire) as (_ & Hinv' & Hleft & Hpot).
    rewrite (runLoop_S _ _ _ _ Hfire). cbn [snd].
    rewrite (IH (fire a t) Hinv') by lia. exact Hpot.
Qed.

(** Tones that are pending when an animation starts change nothing of
    what is there when all timers have fired. *)
Lemma same_end a b tones :
  TimersInv a -> TimersInv b -> view a = view b ->
  Forall (fun t => t_cb t = ToneTick) tones ->
  timers a = tones ++ timers b ->
  view (runLoop (firingsLeft a) a).2 = view (runLoop (firingsLeft b) b).2.
Proof.
  intros Ha Hb Hv Htones Ht.
  rewrite (run_all _ a Ha eq_refl), (run_all _ b Hb eq_refl).
  by rewrite Ht, script_app, foldl_app, (script_tones tones Htones), Hv.
Qed.
End Potential.

Lemma firings_quiet (ts : list Timer) :
  Forall (fun t => quiet (t_cb t)) ts ->
  sum_list ((fun t => firingsOf (t_cb t)) <$> ts) = length ts.
Proof.
  induction 1 as [|t ts Ht _ IH]; [done|].
  rewrite fmap_cons. cbn [sum_list length]. rewrite IH.
  destruct (t_cb t); simpl in *; try done.
  by rewrite bool_decide_eq_false_2.
Qed.

(** Starting an animation adds its steps, the finalize step and the
    second tone to the firings that are left. *)
Lemma firingsLeft_start p vo a :
  p <> [] ->
  firingsLeft (startAnimation p vo a) =
  (firingsLeft a + length vo + length p + 2)%nat.
Proof.
  intros Hp. pose proof (startAnimation_state p vo a) as Hst. cbn zeta in Hst.
  unfold firingsLeft. rewrite Hst. cbn [timers].
  rewrite !fmap_app, !sum_list_app.
  rewrite (firings_quiet (imap _ vo)), length_imap.
  2:{ apply Forall_forall. by intros t (i & pos & -> & _)%elem_of_lookup_imap. }
  destruct (exists_last Hp) as (p' & x & Hpx).
  assert (length p = S (length p')) as Hlenp
    by (rewrite Hpx, length_app; simpl; lia).
  rewrite Hlenp. generalize (buildKeyToIndex (map posKey p)). intros KI.
  revert Hlenp. generalize (length p). intros n Hn.
  rewrite Hpx, imap_app, fmap_app, sum_list_app.
  rewrite (firings_quiet (imap _ p')), length_imap.
  2:{ apply Forall_forall.
      intros t (i & pos & -> & Hi%lookup_lt_Some)%elem_of_lookup_imap.
      simpl. lia. }
  simpl. rewrite bool_decide_eq_true_2 by lia. unfold id. lia.
Qed.

(** A solve started while only tones are pending, played until every
    timer has fired. *)
Lemma solve_to_end a p vo :
  isAnimating a = false -> TimersInv a ->
  solverOf (algorithm a) (grid a) = Ok (mkSolveResult (Some p) vo) ->
  let a0 := (handleSolve a).1 in
  let final := (runLoop (firingsLeft a0) a0).2 in
  grid final =
    mapGrid (paintCell (list_to_set (posKey <$> p))
                       (list_to_set (posKey <$> vo)))
            (mapGrid clearCell (grid a)) /\
  status final = "Solved using " +:+ algorithmName (algorithm a) /\
  isAnimating final = false /\ timers final = [] /\
  pathLength final = Some (length p) /\
  visitedCount final = Some (length vo) /\
  firingsLeft a0 =
    (length (filter (fun t => t_id t ∉ timeoutsRef a) (timers a)) +
     length vo + length p + 2)%nat.
Proof.
  intros Hanim Hinv Hsolve a0 final.
  pose proof (solver_path_nonempty _ _ _ _ Hsolve) as Hp.
  set (b := mkApp (grid a) (algorithm a) (speed a) (status a) (pathLength a)
              (visitedCount a) false (timeoutsRef a) [] (clock a) (nextId a)
              (visitedSet a)).
  assert (solverOf (algorithm b) (grid b) = Ok (mkSolveResult (Some p) vo))
    as Hsolveb by exact Hsolve.
  destruct (solve_animation_state b p vo eq_refl eq_refl Hsolveb)
    as (Hgb & Hab & Htb & Hsb & _).
  set (b0 := (handleSolve b).1) in *.
  set (finalb := (runLoop (length vo + length p + 1) b0).2) in *.
  pose proof (handleSolve_found a p vo Hanim Hsolve) as Ha0.
  pose proof (handleSolve_found b p vo eq_refl Hsolveb) as Hb0.
  apply (f_equal fst) in Ha0, Hb0. cbn [fst] in Ha0, Hb0.
  fold a0 in Ha0. fold b0 in Hb0.
  cbn [grid algorithm speed timeoutsRef timers clock nextId visitedSet b]
    in Hb0.
  rewrite filter_nil in Hb0.
  set (tones := filter (fun t => t_id t ∉ timeoutsRef a) (timers a)) in *.
  set (a' := mkApp _ _ _ _ _ _ _ _ tones _ _ _) in Ha0.
  set (b' := mkApp _ _ _ _ _ _ _ _ [] _ _ _) in Hb0.
  assert (TimersInv a') as Hinv'.
  { apply (TimersInv_cancel (fun t => t_id t ∉ timeoutsRef a) a); done. }
  pose proof Hinv' as [Hnd' Hfresh' Hidle' _].
  assert (Forall (fun t => t_cb t = ToneTick) tones) as Htones
    by exact (Hidle' eq_refl).
  destruct (startAnimation_timers p vo a' Hp Hnd' Hfresh' Htones)
    as (Hinv0 & _ & _).
  destruct (startAnimation_timers p vo b' Hp) as (Hinvb0 & _ & _);
    [apply NoDup_nil_2|done|done|].
  rewrite <- Ha0 in Hinv0. rewrite <- Hb0 in Hinvb0.
  pose proof (startAnimation_state p vo a') as Hsa. cbn zeta in Hsa.
  pose proof (startAnimation_state p vo b') as Hsb'. cbn zeta in Hsb'.
  rewrite <- Ha0 in Hsa. rewrite <- Hb0 in Hsb'.
  cbn [grid algorithm speed status pathLength visitedCount isAnimating
       timeoutsRef timers clock nextId visitedSet a' b'] in Hsa, Hsb'.
  assert (timers a0 = tones ++ timers b0) as Htimers.
  { rewrite Hsa, Hsb'. cbn [timers]. by rewrite !app_nil_l, <- app_assoc. }
  assert (firingsLeft b0 = (length vo + length p + 1 + 1)%nat) as Hnb.
  { rewrite Hb0, (firingsLeft_start p vo b' Hp). unfold firingsLeft. simpl. lia. }
  assert (firingsLeft a0 = (length tones + length vo + length p + 2)%nat) as Hna.
  { rewrite Ha0, (firingsLeft_start p vo a' Hp). unfold firingsLeft at 1.
    cbn [timers a'].
    rewrite (firings_quiet tones); [done|].
    eapply Forall_impl; [exact Htones|]. by intros t ->. }
  (* the run without tones ends one firing after its finalize step *)
  assert ((runLoop (firingsLeft b0) b0).2 = fire finalb
            (mkTimer (S (nextId b0)) (clock finalb + 120) ToneTick)) as Hendb.
  { rewrite Hnb, runLoop_add. fold finalb. cbn [runLoop].
    unfold fireNext. rewrite Htb. cbn [earliest]. done. }
  destruct (run_to_end _ a0 Hinv0 eq_refl) as (_ & Hfa & Hta & _).
  fold final in Hfa, Hta.
  pose proof (same_end (fun x => (grid x, visitedSet x)) paint fire_paint
                (fun gv => eq_refl) a0 b0 tones Hinv0 Hinvb0) as Hpaint.
  pose proof (same_end status statusAfter fire_status
                (fun gv => eq_refl) a0 b0 tones Hinv0 Hinvb0) as Hstat.
  fold final in Hpaint, Hstat.
  rewrite Hendb in Hpaint, Hstat.
  rewrite fire_status in Hstat. cbn [t_cb statusAfter] in Hstat.
  pose proof (fire_paint finalb
                (mkTimer (S (nextId b0)) (clock finalb + 120) ToneTick)) as Hfp.
  cbn [t_cb paint] in Hfp. rewrite Hfp in Hpaint.
  specialize (Hpaint ltac:(by rewrite Hsa, Hsb') Htones Htimers).
  specialize (Hstat ltac:(by rewrite Hsa, Hsb') Htones Htimers).
  apply (f_equal fst) in Hpaint. cbn [fst] in Hpaint.
  destruct (runLoop_keeps (firingsLeft a0) a0) as (_ & _ & Hpl & Hvc & _).
  fold final in Hpl, Hvc.
  rewrite Hna, Hpaint, Hstat, Hgb, Hsb, Hpl, Hvc, Hsa.
  by split_and!.
Qed.

(** * Solving again *)

Lemma solve_animation_alg a p vo :
  isAnimating a = false -> timers a = [] ->
  solverOf (algorithm a) (grid a) = Ok (mkSolveResult (Some p) vo) ->
  let final := (runLoop (length vo + length p + 1) (handleSolve a).1).2 in
  algorithm final = algorithm a /\
  nextId final = S (S (nextId (handleSolve a).1)) /\
  timeoutsRef final = timeoutsRef (handleSolve a).1 /\
  (forall i, i ∈ timeoutsRef (handleSolve a).1 ->
     (i < nextId (handleSolve a).1)%nat).
Proof.
  intros Hanim Hidle Hsolve.
  pose proof (solver_path_nonempty _ _ _ _ Hsolve) as Hp.
  rewrite (handleSolve_found a p vo Hanim Hsolve). cbn [fst].
  rewrite Hidle, filter_nil.
  set (a' := mkApp _ _ _ _ _ _ _ _ _ _ _ _).
  destruct (animation_completes a' p vo eq_refl Hp)
    as (_ & _ & _ & _ & _ & _ & Halg & _ & Hnid & Href).
  cbn zeta. split_and!; [exact Halg|exact Hnid|exact Href|].
  intros i. rewrite (startAnimation_state p vo a').
  cbn [timeoutsRef nextId a']. rewrite app_nil_l.
  intros [Hi|Hi]%elem_of_app;
    apply elem_of_lookup_imap in Hi as (j & pos & -> & Hj%lookup_lt_Some);
    lia.
Qed.

(** X27: on a grid with one start and one end cell, solving again after
    a solve has been played until its finalize step has run replays the
    same solve: the solver returns the same path and visited order on
    the painted grid, and when every timer has fired (the steps of the
    second solve, its finalize step, and the second tones of both
    solves, [V + P + 3] firings) the grid, the status and the two
    counters are what they were after the first solve, [isAnimating] is
    false and no timer is pending. *)
Theorem solve_again_same_picture a s e p vo :
  isAnimating a = false -> timers a = [] -> wfGrid (grid a) = true ->
  countType Start (grid a) = 1%nat -> countType End_ (grid a) = 1%nat ->
  typeAt (grid a) (row s) (col s) = Some Start ->
  typeAt (grid a) (row e) (col e) = Some End_ ->
  solverOf (algorithm a) (grid a) = Ok (mkSolveResult (Some p) vo) ->
  let final := (runLoop (length vo + length p + 1) (handleSolve a).1).2 in
  let a2 := (handleSolve final).1 in
  let final2 := (runLoop (firingsLeft a2) a2).2 in
  solverOf (algorithm final) (grid final) = Ok (mkSolveResult (Some p) vo) /\
  (handleSolve final).2 = Ok () /\
  firingsLeft a2 = (length vo + length p + 3)%nat /\
  grid final2 = grid final /\ status final2 = status final /\
  pathLength final2 = pathLength final /\
  visitedCount final2 = visitedCount final /\
  isAnimating final2 = false /\ timers final2 = [].
Proof.
  intros Hanim Hidle Hwf Hcs Hce Hs He Hsolve final a2 final2.
  destruct (solve_animation_state a p vo Hanim Hidle Hsolve)
    as (Hgrid & Hfalse & Htm & Hst & Hpl & Hvc).
  destruct (solve_animation_alg a p vo Hanim Hidle Hsolve)
    as (Halg & Hnid & Href & Hlt).
  pose proof (solve_then_clear a s e p vo Hanim Hidle Hwf Hcs Hce Hs He Hsolve)
    as Hclear.
  fold final in Hgrid, Hfalse, Htm, Hst, Hpl, Hvc, Halg, Hnid, Href, Hclear.
  assert (solverOf (algorithm final) (grid final) =
          Ok (mkSolveResult (Some p) vo)) as Hsolve2.
  { rewrite Halg, <- Hsolve.
    destruct (algorithm a); cbn [solverOf].
    - by rewrite <- bfs_clear, Hclear, bfs_clear.
    - by rewrite <- dfs_clear, Hclear, dfs_clear. }
  assert (TimersInv final) as Hinv.
  { split; rewrite ?Htm, ?Hnid; cbn [fmap list_fmap t_id].
    - apply NoDup_singleton.
    - apply Forall_singleton. simpl. lia.
    - intros _. by apply Forall_singleton.
    - intros Hf. congruence. }
  destruct (solve_to_end final p vo Hfalse Hinv Hsolve2)
    as (Hgrid2 & Hst2 & Hfalse2 & Htm2 & Hpl2 & Hvc2 & Hleft).
  fold a2 final2 in Hgrid2, Hst2, Hfalse2, Htm2, Hpl2, Hvc2, Hleft.
  split; [done|]. split.
  { by rewrite (handleSolve_found final p vo Hfalse Hsolve2). }
  split.
  { rewrite Hleft, Htm, Href.
    rewrite filter_cons, decide_True, filter_nil; [simpl; lia|].
    simpl. intros Hin%Hlt. lia. }
  rewrite Hgrid2, Hclear, Hst2, Hpl2, Hvc2, Halg, Hgrid, Hst, Hpl, Hvc.
  by split_and!.
Qed.

Lemma solve_again_same_picture_witness :
  let a := mkApp smallMaze Dfs Slow "Maze ready" None None false [] [] 0 0 ∅ in
  let p := [mkPosition 1 0; mkPosition 1 1; mkPosition 2 1; mkPosition 3 1;
            mkPosition 3 2; mkPosition 3 3; mkPosition 3 4] in
  let vo := [mkPosition 1 0; mkPosition 1 1; mkPosition 2 1; mkPosition 3 1;
             mkPosition 3 2; mkPosition 3 3; mkPosition 2 3; mkPosition 1 3;
             mkPosition 1 2; mkPosition 3 4] in
  let final := (runLoop (length vo + length p + 1) (handleSolve a).1).2 in
  let a2 := (handleSolve final).1 in
  let final2 := (runLoop (firingsLeft a2) a2).2 in
  solverOf (algorithm final) (grid final) = Ok (mkSolveResult (Some p) vo) /\
  (handleSolve final).2 = Ok () /\
  firingsLeft a2 = (length vo + length p + 3)%nat /\
  grid final2 = grid final /\ status final2 = status final /\
  pathLength final2 = pathLength final /\
  visitedCount final2 = visitedCount final /\
  isAnimating final2 = false /\ timers final2 = [].
Proof.
  intros a p vo.
  apply (solve_again_same_picture a (mkPosition 1 0) (mkPosition 3 4) p vo);
    vm_compute; reflexivity.
Defined.
